(** * Octopus: option collation, calling components, read facade,
      haplotypes, somatic calls and read statistics

    A shallow embedding of the functions of the C++ sources that the
    properties at the end of the file are about.  A definition keeps the
    name of the function it transcribes, and its comment gives the source
    construct.  A definition whose comment starts with "Modelled from the
    spec" stands for code of the repository that is not among the sources
    at hand (the region algebra, the mappable containers, the allele and
    variant classes); it follows the specification.

    Exceptions are the [Throw] results of the [outcome] type.  Unsigned
    integers are [N], with the wrap-around written out where the code does
    arithmetic on them.  Strings are [string], hash maps are [gmap], and
    [float] is binary64. *)

From Stdlib Require Import ZArith NArith Lia Bool List Ascii String.
From Stdlib Require Import Floats QArith Qround.
From Stdlib Require DecimalString.
From stdpp Require Import base option list gmap strings sorting.

Local Open Scope string_scope.

(** ** Exceptions *)

(** The exception classes thrown by the embedded functions.  The user,
    system and program error taxonomy of [exceptions/] is recorded by
    [error_category]. *)
Inductive exn : Type :=
| InvalidBamHeader (message : string)
| InvalidBamRecord (message : string)
| RuntimeError (message : string)
| OutOfRange
| BadAnyCast
| BadSampleCount
| UnmatchedReference
| UnwritableTempDirectory (directory : string) (error : option N).

Inductive category : Type := UserError | SystemError | ProgramError | StdError.

Definition error_category (e : exn) : category :=
  match e with
  | BadSampleCount | UnmatchedReference => UserError
  | UnwritableTempDirectory _ _ => SystemError
  | _ => StdError
  end.

Inductive outcome (A : Type) : Type :=
| Ok (a : A)
| Throw (e : exn).
Arguments Ok {A} a.
Arguments Throw {A} e.

Definition bind {A B} (r : outcome A) (k : A → outcome B) : outcome B :=
  match r with
  | Ok a => k a
  | Throw e => Throw e
  end.

Declare Scope outcome_scope.
Delimit Scope outcome_scope with outcome.
Notation "'let*' x ':=' r 'in' k" := (bind r (fun x => k))
  (at level 10, x name, r at level 100, k at level 200) : outcome_scope.

Definition is_ok {A} (r : outcome A) : bool :=
  match r with Ok _ => true | Throw _ => false end.

(** ** htslib_sam_facade.cpp: header parsing and read fetching *)

Module HtslibSamFacade.

(** [size_t] values are [N] below [2^64]; [std::string::npos] is the
    largest of them and arithmetic wraps around. *)
Definition size_t_modulus : N := 2 ^ 64.
Definition npos : N := size_t_modulus - 1.
Definition size_t_add (a b : N) : N := ((a + b) mod size_t_modulus)%N.
Definition size_t_sub (a b : N) : N :=
  ((a + (size_t_modulus - b mod size_t_modulus)) mod size_t_modulus)%N.

Definition tab : string := String (ascii_of_nat 9) EmptyString.
Definition newline_char : ascii := ascii_of_nat 10.

(** [std::string::find (pattern, pos)]: the first occurrence at or
    after [pos], [npos] when there is none (in particular when [pos] is
    past the end). *)
Definition find (line pattern : string) (pos : N) : N :=
  if (N.of_nat (String.length line) <? pos)%N then npos
  else match String.index (N.to_nat pos) pattern line with
       | Some i => N.of_nat i
       | None => npos
       end.

(** [std::string::substr (pos, count)]: throws when [pos > size ()],
    else the [min (count, size () - pos)] characters from [pos]. *)
Definition substr (line : string) (pos count : N) : outcome string :=
  let size := N.of_nat (String.length line) in
  if (size <? pos)%N then Throw OutOfRange
  else Ok (String.substring (N.to_nat pos)
                            (N.to_nat (N.min count (size - pos))) line).

(** Modelled from the spec: [Read_group_tag] of htslib_sam_facade.hpp,
    which is not among the sources ("[@RG] lines", "records without
    [RG]"). *)
Definition Read_group_tag : string := "RG".

(** Modelled from the spec: [Read_group_id_tag] of the same header; the
    message of [init_maps] names the tag. *)
Definition Read_group_id_tag : string := "ID".

(** Modelled from the spec: [Sample_id_tag] of the same header ("samples
    are identified by the [SM] tag on [@RG] lines"). *)
Definition Sample_id_tag : string := "SM".

(** [is_tag_type]: [header_line.compare (1, 2, tag) == 0]; [compare]
    throws [std::out_of_range] when the line is shorter than 1. *)
Definition is_tag_type (header_line tag : string) : outcome bool :=
  if (N.of_nat (String.length header_line) <? 1)%N then Throw OutOfRange
  else Ok (String.eqb (String.substring 1 2 header_line) tag).

(** [has_tag]: a substring search over the whole line. *)
Definition has_tag (header_line tag : string) : bool :=
  negb (find header_line tag 0 =? npos)%N.

(** [get_tag_value]. *)
Definition get_tag_value (line tag : string) : outcome string :=
  let tag_position := find line tag 0 in
  if negb (tag_position =? npos)%N then
    let value_position := size_t_add (find line ":" tag_position) 1 in
    let tag_value_size := size_t_sub (find line tab value_position) value_position in
    substr line value_position tag_value_size
  else Throw (RuntimeError ("no " ++ tag ++ " tag")).

(** [std::getline (ss, line, '\n')] until it fails: the lines of the
    header text; a last line without a newline is still read, an empty
    remainder is not. *)
Fixpoint getlines (text line : string) : list string :=
  match text with
  | EmptyString => if String.eqb line "" then [] else [line]
  | String c rest =>
      if Ascii.eqb c newline_char then line :: getlines rest ""
      else getlines rest (line ++ String c EmptyString)
  end.

Abbreviation SampleMap := (gmap string string).

(** [std::unordered_map::emplace]: no effect when the key is present. *)
Definition emplace (key value : string) (m : SampleMap) : SampleMap :=
  match m !! key with
  | Some _ => m
  | None => <[key := value]> m
  end.

(** The state of the [while] loop of [init_maps]: the sample map and
    the 32-bit [num_read_groups]. *)
Definition init_maps_step (st : SampleMap * N) (line : string)
  : outcome (SampleMap * N) :=
  let '(sample_map, num_read_groups) := st in
  (let* is_rg := is_tag_type line Read_group_tag in
   if is_rg then
     if negb (has_tag line Read_group_id_tag) then
       Throw (InvalidBamHeader "no read group identifier tag (ID) in @RG line")
     else if negb (has_tag line Sample_id_tag) then
       Throw (InvalidBamHeader "no sample tag (SM) in @RG line")
     else
       let* id := get_tag_value line Read_group_id_tag in
       let* sm := get_tag_value line Sample_id_tag in
       Ok (emplace id sm sample_map, ((num_read_groups + 1) mod 2 ^ 32)%N)
   else Ok st)%outcome.

Fixpoint init_maps_loop (lines : list string) (st : SampleMap * N)
  : outcome (SampleMap * N) :=
  match lines with
  | [] => Ok st
  | line :: rest =>
      (let* st' := init_maps_step st line in init_maps_loop rest st')%outcome
  end.

(** [init_maps], the part on the header text (the contig maps before it
    do not depend on the text and cannot throw). *)
Definition init_maps (the_header_text : string) : outcome SampleMap :=
  (let* st := init_maps_loop (getlines the_header_text "") (∅, 0%N) in
   if (snd st =? 0)%N then
     Throw (InvalidBamHeader "no read group (@RG) lines found")
   else Ok (fst st))%outcome.

(** What the iterator reads of a [bam1_t]: the query name, the [RG]
    auxiliary field when there is one, the qualities and the CIGAR. *)
Record bam1_t : Type := {
  qname : string;
  aux_RG : option string;
  qual : list N;
  cigar : list (N * ascii)
}.

(** Modelled from the spec: [AlignedRead] of aligned_read.hpp, not among
    the sources; the fields that [operator*] checks. *)
Record AlignedRead : Type := {
  read_name : string;
  read_qualities : list N;
  read_cigar : list (N * ascii)
}.

(** [HtslibIterator::get_read_group]. *)
Definition get_read_group (b : bam1_t) : outcome string :=
  match aux_RG b with
  | None => Throw (InvalidBamRecord "no read group")
  | Some rg => Ok rg
  end.

(** [HtslibIterator::operator*]: the two validity checks, then the
    conversion. *)
Definition deref (b : bam1_t) : outcome AlignedRead :=
  match qual b with
  | [] => Throw (InvalidBamRecord "corrupt sequence data")
  | q :: _ =>
      if (q =? 255)%N then Throw (InvalidBamRecord "corrupt sequence data")
      else match cigar b with
           | [] => Throw (InvalidBamRecord "empty cigar string")
           | _ => Ok {| read_name := qname b; read_qualities := qual b;
                        read_cigar := cigar b |}
           end
  end.

(** [std::unordered_map::at]. *)
Definition at_ (m : SampleMap) (key : string) : outcome string :=
  match m !! key with
  | Some v => Ok v
  | None => Throw OutOfRange
  end.

Abbreviation SampleReadMap := (gmap string (list AlignedRead)).

Definition is_invalid_bam_record (e : exn) : bool :=
  match e with InvalidBamRecord _ => true | _ => false end.

(** [result[sample]]: the entry of the sample, made empty when there is
    none. *)
Definition entry (sample : string) (acc : SampleReadMap) : SampleReadMap :=
  <[sample := default [] (acc !! sample)]> acc.

(** The body of the [while (++it)] loop of [fetch_reads (region)]:
    [InvalidBamRecord] is caught and the record dropped, anything else
    is rethrown.  The entry of the sample is looked up before the record
    is converted, so a record that cannot be converted leaves the entry
    behind. *)
Definition fetch_reads_step (sample_map : SampleMap) (acc : SampleReadMap)
    (b : bam1_t) : outcome SampleReadMap :=
  match (let* rg := get_read_group b in at_ sample_map rg)%outcome with
  | Ok sample =>
      let acc := entry sample acc in
      match deref b with
      | Ok read => Ok (<[sample := (default [] (acc !! sample) ++ [read])%list]> acc)
      | Throw e => if is_invalid_bam_record e then Ok acc else Throw e
      end
  | Throw e => if is_invalid_bam_record e then Ok acc else Throw e
  end.

(** [fetch_reads (region)] on the records the iterator yields. *)
Fixpoint fetch_reads (sample_map : SampleMap) (records : list bam1_t)
    (acc : SampleReadMap) : outcome SampleReadMap :=
  match records with
  | [] => Ok acc
  | b :: rest =>
      (let* acc' := fetch_reads_step sample_map acc b in
       fetch_reads sample_map rest acc')%outcome
  end.

(** The body of the loop of [fetch_reads (sample, region)]. *)
Definition fetch_sample_reads_step (sample_map : SampleMap) (sample : string)
    (acc : list AlignedRead) (b : bam1_t) : outcome (list AlignedRead) :=
  match (let* rg := get_read_group b in
         let* s := at_ sample_map rg in
         if String.eqb s sample then
           let* read := deref b in Ok (acc ++ [read])%list
         else Ok acc)%outcome with
  | Ok acc' => Ok acc'
  | Throw e => if is_invalid_bam_record e then Ok acc else Throw e
  end.

Fixpoint fetch_sample_reads (sample_map : SampleMap) (sample : string)
    (records : list bam1_t) (acc : list AlignedRead) : outcome (list AlignedRead) :=
  match records with
  | [] => Ok acc
  | b :: rest =>
      (let* acc' := fetch_sample_reads_step sample_map sample acc b in
       fetch_sample_reads sample_map sample rest acc')%outcome
  end.

(** [count_reads (sample, region)]: here [get_read_group] is not
    guarded, so its exception leaves the function. *)
Fixpoint count_sample_reads (sample_map : SampleMap) (sample : string)
    (records : list bam1_t) (n : N) : outcome N :=
  match records with
  | [] => Ok n
  | b :: rest =>
      (let* rg := get_read_group b in
       let* s := at_ sample_map rg in
       if String.eqb s sample
       then count_sample_reads sample_map sample rest ((n + 1) mod size_t_modulus)%N
       else Ok n)%outcome
  end.

(** The SAM reading of a header line: TAB-separated fields, each a
    two-letter tag, a colon and a value.  [fields] splits the line and
    [has_field] looks for a field with the given tag.  These two follow
    the SAM format, not the code, and are what [has_tag] is compared
    with. *)
Fixpoint fields (line cur : string) : list string :=
  match line with
  | EmptyString => [cur]
  | String c rest =>
      if Ascii.eqb c (ascii_of_nat 9) then cur :: fields rest ""
      else fields rest (cur ++ String c EmptyString)
  end.

Definition has_field (line tag : string) : bool :=
  existsb (fun f => String.prefix (tag ++ ":") f) (tl (fields line "")).

Definition rg_line_without_sample : string := "@RG" ++ tab ++ "ID:SM1".

End HtslibSamFacade.

(** ** config/option_collation.cpp *)

Module OptionCollation.

(** [ContigOutputOrder]. *)
Inductive ContigOutputOrder : Type :=
| lexicographicalAscending
| lexicographicalDescending
| contigSizeAscending
| contigSizeDescending
| asInReferenceIndex
| asInReferenceIndexReversed
| unspecified.

(** The values held by [boost::program_options::variable_value] in the
    options read below.  A [float] option is held as the binary64 number
    it converts to: the conversion is exact and keeps the order. *)
Inductive option_value : Type :=
| VString (s : string)
| VInt (z : Z)
| VBool (b : bool)
| VFloat (f : float)
| VPath (p : string)
| VContigOutputOrder (o : ContigOutputOrder).

Abbreviation OptionMap := (gmap string option_value).

Definition SampleName := string.

(** [options.at (name)]. *)
Definition at_ (options : OptionMap) (name : string) : outcome option_value :=
  match options !! name with
  | Some v => Ok v
  | None => Throw OutOfRange
  end.

(** [variable_value::as<T> ()] for the types used; a value of another
    type makes it throw. *)
Definition as_string (v : option_value) : outcome string :=
  match v with VString s => Ok s | _ => Throw BadAnyCast end.
Definition as_int (v : option_value) : outcome Z :=
  match v with VInt z => Ok z | _ => Throw BadAnyCast end.
Definition as_float (v : option_value) : outcome float :=
  match v with VFloat f => Ok f | _ => Throw BadAnyCast end.
Definition as_path (v : option_value) : outcome string :=
  match v with VPath p => Ok p | _ => Throw BadAnyCast end.
Definition as_bool (v : option_value) : outcome bool :=
  match v with VBool b => Ok b | _ => Throw BadAnyCast end.
Definition as_order (v : option_value) : outcome ContigOutputOrder :=
  match v with VContigOutputOrder o => Ok o | _ => Throw BadAnyCast end.

(** [options.count (name)]: 0 or 1, a [std::map] has no duplicates. *)
Definition count (options : OptionMap) (name : string) : N :=
  match options !! name with Some _ => 1%N | None => 0%N end.

(** [is_set]. *)
Definition is_set (option : string) (options : OptionMap) : bool :=
  (count options option =? 1)%N.

(** [get_contig_output_order] and [ignore_unmapped_contigs]. *)
Definition get_contig_output_order (options : OptionMap)
  : outcome ContigOutputOrder :=
  (let* v := at_ options "contig-output-order" in as_order v)%outcome.

Definition ignore_unmapped_contigs (options : OptionMap) : outcome bool :=
  (let* v := at_ options "ignore-unmapped-contigs" in as_bool v)%outcome.

(** *** Caller selection *)

Section caller.

(** [Pedigree] and [is_trio (samples, pedigree)] belong to the pedigree
    code, which is not among the sources: they are parameters. *)
Context {Pedigree : Type}.
Variable is_trio : list SampleName → Pedigree → bool.

(** [pedigree && is_trio (samples, *pedigree)]. *)
Definition pedigree_implies_trio (samples : list SampleName)
    (pedigree : option Pedigree) : bool :=
  match pedigree with
  | Some p => is_trio samples p
  | None => false
  end.

(** [get_caller_type (options, samples, pedigree)]. *)
Definition get_caller_type (options : OptionMap) (samples : list SampleName)
    (pedigree : option Pedigree) : outcome string :=
  (let* caller := at_ options "caller" in
   let* result := as_string caller in
   let result :=
     if String.eqb result "population" && (length samples =? 1)%nat
     then "individual" else result in
   let result :=
     if is_set "maternal-sample" options || is_set "paternal-sample" options
        || pedigree_implies_trio samples pedigree
     then "trio" else result in
   let result :=
     if is_set "normal-sample" options then "cancer" else result in
   Ok result)%outcome.

End caller.

(** [check_caller]. *)
Definition check_caller (caller : string) (samples : list SampleName)
    (options : OptionMap) : outcome unit :=
  if String.eqb caller "polyclone" then
    if negb (length samples =? 1)%nat then Throw BadSampleCount else Ok tt
  else Ok tt.

(** The two statements of [make_caller_factory] that choose the caller
    and check it. *)
Definition select_caller {Pedigree : Type}
    (is_trio : list SampleName → Pedigree → bool) (options : OptionMap)
    (samples : list SampleName) (pedigree : option Pedigree) : outcome string :=
  (let* caller := get_caller_type is_trio options samples pedigree in
   let* _ := check_caller caller samples options in
   Ok caller)%outcome.

(** Modelled from the spec: the column "Required samples" of the table
    of callers ("individual: 1; population: ≥1; trio: 3 (mother, father,
    child); cancer: ≥1 (normal optional); polyclone: 1; cell: ≥1").  A
    name that the table does not list has no valid count. *)
Definition required_samples (caller : string) (count : nat) : bool :=
  if String.eqb caller "individual" then (count =? 1)%nat
  else if String.eqb caller "population" then (1 <=? count)%nat
  else if String.eqb caller "trio" then (count =? 3)%nat
  else if String.eqb caller "cancer" then (1 <=? count)%nat
  else if String.eqb caller "polyclone" then (count =? 1)%nat
  else if String.eqb caller "cell" then (1 <=? count)%nat
  else false.

(** A run with the individual caller and two samples. *)
Definition individual_caller : OptionMap :=
  {[ "caller" := VString "individual" ]}.

Definition two_called_samples : list SampleName := ["NA12878"; "NA12891"].

(** *** Assembler trigger frequency *)

(** [is_cancer_calling]. *)
Definition is_cancer_calling (options : OptionMap) : outcome bool :=
  (let* caller := at_ options "caller" in
   let* caller := as_string caller in
   Ok (String.eqb caller "cancer" || (count options "normal-sample" =? 1)%N))%outcome.

(** [is_polyclone_calling]. *)
Definition is_polyclone_calling (options : OptionMap) : outcome bool :=
  (let* caller := at_ options "caller" in
   let* caller := as_string caller in
   Ok (String.eqb caller "polyclone"))%outcome.

(** [std::min] and [std::max] on floating-point numbers. *)
Definition std_min (a b : float) : float := if PrimFloat.ltb b a then b else a.
Definition std_max (a b : float) : float := if PrimFloat.ltb a b then b else a.

(** [get_min_somatic_vaf]. *)
Definition get_min_somatic_vaf (options : OptionMap) : outcome float :=
  (let* c := at_ options "min-credible-somatic-frequency" in
   let* min_credible_frequency := as_float c in
   let* e := at_ options "min-expected-somatic-frequency" in
   let* min_expected_frequency := as_float e in
   if PrimFloat.leb (std_min min_credible_frequency min_expected_frequency) 1%float
   then Ok (std_max min_credible_frequency min_expected_frequency)
   else Ok (std_min min_credible_frequency min_expected_frequency))%outcome.

(** [get_min_clone_vaf]. *)
Definition get_min_clone_vaf (options : OptionMap) : outcome float :=
  (let* f := at_ options "min-clone-frequency" in as_float f)%outcome.

(** The literals [0.1] and [0.05]: the binary64 numbers nearest to them. *)
Definition double_0_1 : float := 0x1.999999999999ap-4%float.
Definition double_0_05 : float := 0x1.999999999999ap-5%float.

(** [get_assembler_region_generator_frequency_trigger]. *)
Definition get_assembler_region_generator_frequency_trigger
    (options : OptionMap) : outcome float :=
  (let* cancer := is_cancer_calling options in
   if cancer then get_min_somatic_vaf options
   else
     let* polyclone := is_polyclone_calling options in
     if polyclone then get_min_clone_vaf options
     else
       let* p := at_ options "organism-ploidy" in
       let* ploidy := as_int p in
       if (ploidy <? 4)%Z then Ok double_0_1 else Ok double_0_05)%outcome.

(** *** Temporary directory *)

(** The file system as [create_directory] sees it: a path is free, is a
    directory already, or cannot be created (the error code is kept). *)
Inductive node : Type :=
| Free
| Directory
| Unwritable (error_code : N).

Definition FileSystem := string → node.

Definition mkdir (fs : FileSystem) (p : string) : FileSystem :=
  fun q => if String.eqb q p then Directory else fs q.

Definition success : N := 0.

(** [fs::create_directory (p, error_code)]: true when the directory was
    created; false with no error when it exists already; false with the
    error code set otherwise. *)
Definition create_directory (fs : FileSystem) (p : string)
  : bool * N * FileSystem :=
  match fs p with
  | Free => (true, success, mkdir fs p)
  | Directory => (false, success, fs)
  | Unwritable ec => (false, ec, fs)
  end.

(** [fs::path::operator/=]. *)
Definition path_append (dir name : string) : string := dir ++ "/" ++ name.

(** [std::to_string] of an [unsigned]. *)
Definition to_string (n : N) : string :=
  DecimalString.NilZero.string_of_uint (N.to_uint n).

Definition temp_dir_name_count_limit : N := 10000.

(** The [while] loop of [create_temp_file_directory] and the two
    statements after it.  One unit of fuel is one evaluation of the loop
    condition; [None] is fuel exhaustion.  The check [fs::is_empty] in
    the body only writes to the log. *)
Fixpoint create_temp_loop (fuel : nat) (fs : FileSystem)
    (working_directory temp_dir_base_name result : string)
    (temp_dir_counter : N) : option (outcome string * FileSystem) :=
  match fuel with
  | O => None
  | S fuel' =>
      let '(created, error_code, fs') := create_directory fs result in
      if negb created && (temp_dir_counter <=? temp_dir_name_count_limit)%N then
        if negb (error_code =? success)%N then
          Some (Throw (UnwritableTempDirectory result (Some error_code)), fs')
        else
          let result :=
            path_append working_directory
              (temp_dir_base_name ++ "-" ++ to_string temp_dir_counter) in
          create_temp_loop fuel' fs' working_directory temp_dir_base_name
            result ((temp_dir_counter + 1) mod 2 ^ 32)%N
      else if (temp_dir_name_count_limit <? temp_dir_counter)%N then
        Some (Throw (UnwritableTempDirectory result None), fs')
      else Some (Ok result, fs')
  end.

(** [create_temp_file_directory] on a working directory that
    [get_working_directory] has returned; the loop condition is evaluated
    at most 10,000 times. *)
Definition create_temp_file_directory (fs : FileSystem)
    (working_directory : string) (options : OptionMap)
  : option (outcome string * FileSystem) :=
  match (let* v := at_ options "temp-directory-prefix" in as_path v)%outcome with
  | Throw e => Some (Throw e, fs)
  | Ok temp_dir_base_name =>
      create_temp_loop (N.to_nat temp_dir_name_count_limit) fs working_directory
        temp_dir_base_name
        (path_append working_directory temp_dir_base_name) 2
  end.

(** The [k]-th name tried: the base name first, then the numbered ones
    from 2 on. *)
Definition candidate (working_directory temp_dir_base_name : string) (k : N)
  : string :=
  if (k <=? 1)%N then path_append working_directory temp_dir_base_name
  else path_append working_directory (temp_dir_base_name ++ "-" ++ to_string k).

(** A file system in which every path is taken but the name numbered
    10,000: the base name and the names numbered 2 to 9,999 collide. *)
Definition crowded (working_directory temp_dir_base_name : string) : FileSystem :=
  fun q =>
    if String.eqb q (candidate working_directory temp_dir_base_name 10000)
    then Free else Directory.

Definition temp_options : OptionMap :=
  {[ "temp-directory-prefix" := VPath "octopus-temp" ]}.

End OptionCollation.

(** ** Genomic regions *)

Module Region.

(** Modelled from the spec: [GenomicRegion] of genomic_region.hpp, which
    is not among the sources: "(contig: string, begin: u32, end: u32) with
    begin ≤ end, zero-based half-open".  The positions are [N]; no
    operation below does arithmetic on them other than comparison. *)
Record GenomicRegion : Type := mkRegion {
  contig_name : string;
  region_begin : N;
  region_end : N
}.

#[global] Instance GenomicRegion_eq_dec : EqDecision GenomicRegion.
Proof. solve_decision. Defined.

(** The invariant [begin ≤ end], which the constructor of the class
    enforces. *)
Definition well_formed (r : GenomicRegion) : Prop :=
  (region_begin r <= region_end r)%N.

(** A base is a contig and a position on it.  [covers r c p] says that
    the base is one of the bases of [r], [inside r p] says the same of the
    position alone, and [covered l c p] that some region of [l] covers the
    base. *)
Definition covers (r : GenomicRegion) (c : string) (p : N) : Prop :=
  contig_name r = c ∧ (region_begin r <= p < region_end r)%N.

Definition inside (r : GenomicRegion) (p : N) : Prop :=
  (region_begin r <= p < region_end r)%N.

Definition covered (l : list GenomicRegion) (c : string) (p : N) : Prop :=
  ∃ r, r ∈ l ∧ covers r c p.

(** [separated x y]: [x] ends before [y] begins.  A list is [canonical]
    on a contig when its regions are well formed, lie on the contig, and
    each is separated from all that follow. *)
Definition separated (x y : GenomicRegion) : Prop :=
  (region_end x <= region_begin y)%N.

Definition begins_no_later (x y : GenomicRegion) : Prop :=
  (region_begin x <= region_begin y)%N.

Definition canonical (c : string) (l : list GenomicRegion) : Prop :=
  Forall well_formed l
  ∧ Forall (fun r => contig_name r = c) l
  ∧ StronglySorted separated l.

(** Modelled from the spec: [is_same_contig], not among the sources. *)
Definition is_same_contig (lhs rhs : GenomicRegion) : bool :=
  String.eqb (contig_name lhs) (contig_name rhs).

(** Modelled from the spec: [is_empty], not among the sources: a region
    without bases. *)
Definition is_empty (r : GenomicRegion) : bool :=
  (region_begin r =? region_end r)%N.

(** Modelled from the spec: [overlap_size], not among the sources: the
    number of common bases, negative by the distance when there is
    none. *)
Definition overlap_size (lhs rhs : GenomicRegion) : Z :=
  (Z.of_N (N.min (region_end lhs) (region_end rhs))
   - Z.of_N (N.max (region_begin lhs) (region_begin rhs)))%Z.

(** Modelled from the spec: [overlaps], not among the sources ("set
    algebra (overlap, contain, encompass, difference)" on
    "contig-qualified half-open intervals"): the regions share a base, or
    one of them is empty and lies in or touches the other. *)
Definition overlaps (lhs rhs : GenomicRegion) : bool :=
  is_same_contig lhs rhs
  && ((0 <? overlap_size lhs rhs)%Z
      || ((overlap_size lhs rhs =? 0)%Z && (is_empty lhs || is_empty rhs))).

(** Modelled from the spec: [contains], not among the sources: every base
    of [rhs] is a base of [lhs]. *)
Definition contains (lhs rhs : GenomicRegion) : bool :=
  is_same_contig lhs rhs
  && (region_begin lhs <=? region_begin rhs)%N
  && (region_end rhs <=? region_end lhs)%N.

(** Modelled from the spec: [begins_before], not among the sources. *)
Definition begins_before (lhs rhs : GenomicRegion) : bool :=
  (region_begin lhs <? region_begin rhs)%N.

(** Modelled from the spec: [ends_before], not among the sources. *)
Definition ends_before (lhs rhs : GenomicRegion) : bool :=
  (region_end lhs <? region_end rhs)%N.

(** Modelled from the spec: [is_after], not among the sources ("each is
    after the previous"): [lhs] is another region of the same contig and
    begins where [rhs] ends or later. *)
Definition is_after (lhs rhs : GenomicRegion) : bool :=
  is_same_contig lhs rhs
  && (region_end rhs <=? region_begin lhs)%N
  && negb (bool_decide (lhs = rhs)).

(** Modelled from the spec: [is_before], not among the sources. *)
Definition is_before (lhs rhs : GenomicRegion) : bool := is_after rhs lhs.

(** Modelled from the spec: [are_adjacent], not among the sources: one
    region begins where the other ends. *)
Definition are_adjacent (lhs rhs : GenomicRegion) : bool :=
  is_same_contig lhs rhs
  && ((region_begin lhs =? region_end rhs)%N
      || (region_end lhs =? region_begin rhs)%N).

(** Modelled from the spec: [get_encompassing], not among the sources
    ("encompassing"): the smallest region holding both. *)
Definition get_encompassing (lhs rhs : GenomicRegion) : GenomicRegion :=
  mkRegion (contig_name lhs)
           (N.min (region_begin lhs) (region_begin rhs))
           (N.max (region_end lhs) (region_end rhs)).

(** Modelled from the spec: [get_intervening], not among the sources
    ("intervening"): the region between the end of [lhs] and the begin of
    [rhs]. *)
Definition get_intervening (lhs rhs : GenomicRegion) : GenomicRegion :=
  mkRegion (contig_name lhs) (region_end lhs) (region_begin rhs).

(** Modelled from the spec: [left_overhang_region], not among the sources
    ("left_overhang"): the part of [lhs] before [rhs] begins. *)
Definition left_overhang_region (lhs rhs : GenomicRegion) : GenomicRegion :=
  if begins_before lhs rhs
  then mkRegion (contig_name lhs) (region_begin lhs) (region_begin rhs)
  else mkRegion (contig_name lhs) (region_begin lhs) (region_begin lhs).

(** Modelled from the spec: [right_overhang_region], not among the
    sources ("right_overhang"): the part of [lhs] after [rhs] ends. *)
Definition right_overhang_region (lhs rhs : GenomicRegion) : GenomicRegion :=
  if ends_before rhs lhs
  then mkRegion (contig_name lhs) (region_end rhs) (region_end lhs)
  else mkRegion (contig_name lhs) (region_end lhs) (region_end lhs).

(** Modelled from the spec: [operator<] on the regions of one contig, not
    among the sources ("comparable by (contig_index, begin, end)"). *)
Definition region_lt (lhs rhs : GenomicRegion) : bool :=
  (region_begin lhs <? region_begin rhs)%N
  || ((region_begin lhs =? region_begin rhs)%N
      && (region_end lhs <? region_end rhs)%N).

(** [!(rhs < lhs)]: the order in which [std::sort] leaves two elements. *)
Definition region_le (lhs rhs : GenomicRegion) : Prop :=
  region_lt rhs lhs = false.

#[global] Instance region_le_dec : RelDecision region_le.
Proof. intros x y. unfold region_le. apply _. Defined.

(** [std::sort] of a range of regions. *)
Definition sort (l : list GenomicRegion) : list GenomicRegion :=
  merge_sort region_le l.

(** Modelled from the spec: the loop of [extract_covered_regions], not
    among the sources: [current] is the region encompassing the run of
    overlapping regions read so far. *)
Fixpoint merge_covered (current : GenomicRegion) (rest : list GenomicRegion)
  : list GenomicRegion :=
  match rest with
  | [] => [current]
  | r :: rest' =>
      if overlaps current r then merge_covered (get_encompassing current r) rest'
      else current :: merge_covered r rest'
  end.

(** Modelled from the spec: [extract_covered_regions] of
    mappable_algorithms.hpp, not among the sources: the coverage union of
    a sorted range, each run of overlapping regions replaced by the region
    that encompasses the run. *)
Definition extract_covered_regions (l : list GenomicRegion) : list GenomicRegion :=
  match l with
  | [] => []
  | r :: rest => merge_covered r rest
  end.

(** Modelled from the spec: [extract_intervening_regions], not among the
    sources: the regions between each element of a range and the next. *)
Fixpoint extract_intervening_regions (l : list GenomicRegion)
  : list GenomicRegion :=
  match l with
  | x :: (y :: _) as rest => get_intervening x y :: extract_intervening_regions rest
  | _ => []
  end.

(** Modelled from the spec: [MappableFlatSet::emplace], not among the
    sources ("ordered collections indexed by region"): the set is a sorted
    sequence without duplicates, and the element goes to its place unless
    it is there already. *)
Fixpoint emplace (x : GenomicRegion) (set : list GenomicRegion)
  : list GenomicRegion :=
  match set with
  | [] => [x]
  | y :: rest =>
      if bool_decide (x = y) then set
      else if region_lt x y then x :: set
      else y :: emplace x rest
  end.

(** Modelled from the spec: [MappableFlatSet::insert] of a range, not
    among the sources: [emplace] for each element. *)
Definition insert_range (range set : list GenomicRegion) : list GenomicRegion :=
  foldl (fun acc x => emplace x acc) set range.

(** Modelled from the spec: [MappableFlatSet::overlap_range], not among
    the sources ("supporting overlap range queries"): the elements that
    overlap the query, in order. *)
Definition overlap_range (set : list GenomicRegion) (query : GenomicRegion)
  : list GenomicRegion :=
  List.filter (fun x => overlaps x query) set.

End Region.

(** ** config/option_collation.cpp: search regions *)

Module SearchRegions.
Import Region.

(** [InputRegionMap]: contig name to flat set of regions. *)
Abbreviation InputRegionMap := (gmap string (list GenomicRegion)).

(** The first loop of [make_search_regions]:
    [contig_mapped_regions[region.contig_name ()].push_back (region)]. *)
Definition group_by_contig (regions : list GenomicRegion) : InputRegionMap :=
  foldl (fun m region =>
           <[contig_name region :=
               (default [] (m !! contig_name region) ++ [region])%list]> m)
        ∅ regions.

(** [make_search_regions]. *)
Definition make_search_regions (regions : list GenomicRegion) : InputRegionMap :=
  (fun contig_regions => extract_covered_regions (sort contig_regions))
    <$> group_by_contig regions.

(** The body of the loop of [get_unskipped]. *)
Definition get_unskipped_step (skips result : list GenomicRegion)
    (region : GenomicRegion) : list GenomicRegion :=
  let overlapped := overlap_range skips region in
  match overlapped with
  | [] => emplace region result
  | front :: _ =>
      if negb (contains front region) then
        let result :=
          if begins_before region front
          then emplace (left_overhang_region region front) result
          else result in
        let intervening_chunks := extract_intervening_regions overlapped in
        let result := insert_range intervening_chunks result in
        let back := List.last overlapped front in
        if ends_before back region
        then emplace (right_overhang_region region back) result
        else result
      else result
  end.

(** The regions that one step puts into the result, in the order in
    which it does. *)
Definition unskipped_pieces (skips : list GenomicRegion) (region : GenomicRegion)
  : list GenomicRegion :=
  let overlapped := overlap_range skips region in
  match overlapped with
  | [] => [region]
  | front :: _ =>
      if negb (contains front region) then
        ((if begins_before region front
          then [left_overhang_region region front] else [])
         ++ extract_intervening_regions overlapped
         ++ (if ends_before (List.last overlapped front) region
             then [right_overhang_region region (List.last overlapped front)]
             else []))%list
      else []
  end.

(** [get_unskipped]. *)
Definition get_unskipped (regions skips : list GenomicRegion)
  : list GenomicRegion :=
  match skips with
  | [] => regions
  | _ => foldl (get_unskipped_step skips) [] regions
  end.

(** [extract_search_regions (regions, skip_regions)]: the unskipped part
    of each contig, the contigs left empty erased. *)
Definition extract_search_regions (regions skip_regions : list GenomicRegion)
  : InputRegionMap :=
  let input_regions := make_search_regions regions in
  let skipped := make_search_regions skip_regions in
  map_imap (fun contig contig_regions =>
              let unskipped :=
                match skipped !! contig with
                | Some skips => get_unskipped contig_regions skips
                | None => contig_regions
                end in
              match unskipped with
              | [] => None
              | _ => Some unskipped
              end) input_regions.

(** A region of the result. *)
Definition output_region (m : InputRegionMap) (o : GenomicRegion) : Prop :=
  ∃ l, m !! contig_name o = Some l ∧ o ∈ l.

(** The set that [extract_search_regions] computes for the regions of
    one contig, before the test for emptiness. *)
Definition unskipped_of (skipped : InputRegionMap) (contig : string)
    (contig_regions : list GenomicRegion) : list GenomicRegion :=
  match skipped !! contig with
  | Some skips => get_unskipped contig_regions skips
  | None => contig_regions
  end.

(** The boundary scenario of the spec. *)
Definition overlapping_input : list GenomicRegion :=
  [mkRegion "chr1" 100 200; mkRegion "chr1" 150 300].
Definition one_skip : list GenomicRegion := [mkRegion "chr1" 180 220].

End SearchRegions.

(** ** core/calling_components.cpp *)

Module CallingComponents.
Import OptionCollation Region SearchRegions.

Definition ContigName := string.

(** Modelled from the spec: [ReferenceGenome], not among the sources
    ("contig list with lengths"): the contig names in reference-index
    order, as [contig_names ()] returns them, and [contig_size ()]. *)
Record ReferenceGenome : Type := {
  contig_names : list ContigName;
  contig_size : ContigName → N
}.

(** [index_of]: the distance from the start to the first occurrence
    found by [std::find], the size of the vector when there is none. *)
Fixpoint index_of (elements : list ContigName) (value : ContigName) : nat :=
  match elements with
  | [] => 0
  | x :: rest => if String.eqb x value then 0 else S (index_of rest value)
  end.

(** [std::less<>] and [std::greater<>] on [std::string]. *)
Definition string_less (lhs rhs : ContigName) : bool := String.ltb lhs rhs.
Definition string_greater (lhs rhs : ContigName) : bool := String.ltb rhs lhs.

(** [get_sorter], case by case as in the [switch]. *)
Definition get_sorter (order : ContigOutputOrder) (reference : ReferenceGenome)
  : ContigName → ContigName → bool :=
  match order with
  | lexicographicalAscending => string_less
  | lexicographicalDescending => string_greater
  | contigSizeAscending =>
      fun lhs rhs => (contig_size reference lhs <? contig_size reference rhs)%N
  | contigSizeDescending =>
      fun lhs rhs => (contig_size reference rhs <? contig_size reference lhs)%N
  | asInReferenceIndex =>
      let reference_contigs := contig_names reference in
      fun lhs rhs =>
        Nat.ltb (index_of reference_contigs lhs) (index_of reference_contigs rhs)
  | asInReferenceIndexReversed =>
      let reference_contigs := contig_names reference in
      fun lhs rhs =>
        Nat.ltb (index_of reference_contigs lhs) (index_of reference_contigs rhs)
  | unspecified => string_less
  end.

(** [std::sort] with a comparator, as an insertion sort: for the strict
    weak orders returned by [get_sorter] on distinct keys the sorted
    sequence is unique, so the algorithm does not matter. *)
Fixpoint insert_sorted (cmp : ContigName → ContigName → bool)
    (x : ContigName) (l : list ContigName) : list ContigName :=
  match l with
  | [] => [x]
  | y :: rest => if cmp y x then y :: insert_sorted cmp x rest else x :: y :: rest
  end.

Definition sort_with (cmp : ContigName → ContigName → bool)
    (l : list ContigName) : list ContigName :=
  foldr (insert_sorted cmp) [] l.

(** [get_contigs]: the keys of the region map, sorted with the sorter. *)
Definition get_contigs (keys : list ContigName) (reference : ReferenceGenome)
    (order : ContigOutputOrder) : list ContigName :=
  let cmp := get_sorter order reference in
  sort_with cmp keys.

(** A two-contig reference used in the examples. *)
Definition two_contigs : ReferenceGenome :=
  {| contig_names := ["chr1"; "chr2"];
     contig_size := fun c => if String.eqb c "chr1" then 1000%N else 500%N |}.

(** Modelled from the spec: [ReferenceGenome::contig_region], not among
    the sources: the whole contig. *)
Definition contig_region (reference : ReferenceGenome) (contig : ContigName)
  : GenomicRegion :=
  mkRegion contig 0 (contig_size reference contig).

Section read_manager.

(** [ReadManager::has_reads (region)] is not among the sources: the
    read manager is the function that answers the query, with a flag
    or with an exception. *)
Variable has_reads : GenomicRegion → outcome bool.

(** The predicate of [copy_unmapped_contigs]: true when the query
    throws, false when it returns. *)
Definition is_unmapped (reference : ReferenceGenome) (contig : ContigName)
  : bool :=
  match has_reads (contig_region reference contig) with
  | Ok _ => false
  | Throw _ => true
  end.

(** [copy_unmapped_contigs]. *)
Definition copy_unmapped_contigs (reference : ReferenceGenome)
    (contigs : list ContigName) : list ContigName :=
  List.filter (is_unmapped reference) contigs.

(** [get_unmapped_contigs]. *)
Definition get_unmapped_contigs (reference : ReferenceGenome)
  : list ContigName :=
  copy_unmapped_contigs reference (contig_names reference).

(** [get_search_regions (options, reference, rm)]; the first argument
    is what [options::get_search_regions (options, reference)] has
    returned. *)
Definition get_search_regions (option_search_regions : InputRegionMap)
    (options : OptionMap) (reference : ReferenceGenome)
  : outcome InputRegionMap :=
  let result := option_search_regions in
  (let* ignore := ignore_unmapped_contigs options in
   if ignore then
     let unmapped_contigs := get_unmapped_contigs reference in
     match unmapped_contigs with
     | [] => Ok result
     | _ => Ok (foldl (fun result contig => delete contig result)
                      result unmapped_contigs)
     end
   else Ok result)%outcome.

(** [all_reference_contigs_mapped]. *)
Definition all_reference_contigs_mapped (reference : ReferenceGenome) : bool :=
  forallb (fun contig =>
             match has_reads (contig_region reference contig) with
             | Ok _ => true
             | Throw _ => false
             end)
          (contig_names reference).

(** What [collate_genome_calling_components] does to the world. *)
Inductive event : Type :=
| OutputFileCreated.

(** The two members of [GenomeCallingComponents::Components] that
    depend on the unmapped contigs. *)
Record GenomeCallingComponents : Type := {
  regions : InputRegionMap;
  contigs : list ContigName
}.

(** The member initialisers [regions] and [contigs] of [Components]. *)
Definition make_components (option_search_regions : InputRegionMap)
    (options : OptionMap) (reference : ReferenceGenome)
  : outcome GenomeCallingComponents :=
  (let* regions := get_search_regions option_search_regions options reference in
   let* order := get_contig_output_order options in
   Ok {| regions := regions;
         contigs := get_contigs (map_to_list regions).*1 reference order |})%outcome.

(** [collate_genome_calling_components], after [make_reference] and
    [make_read_manager] have returned: the outcome and the events in
    the order they happen. *)
Definition collate_genome_calling_components
    (option_search_regions : InputRegionMap) (options : OptionMap)
    (reference : ReferenceGenome)
  : outcome GenomeCallingComponents * list event :=
  match ignore_unmapped_contigs options with
  | Throw e => (Throw e, [])
  | Ok ignore =>
      if negb ignore && negb (all_reference_contigs_mapped reference)
      then (Throw UnmatchedReference, [])
      else (make_components option_search_regions options reference,
            [OutputFileCreated])
  end.

End read_manager.

(** A read manager that finds every contig and no read on any. *)
Definition no_reads_anywhere (_ : GenomicRegion) : outcome bool := Ok false.

(** A read manager that knows chr1 only. *)
Definition only_chr1 (region : GenomicRegion) : outcome bool :=
  if String.eqb (contig_name region) "chr1" then Ok true
  else Throw (RuntimeError "could not load read iterator").

Definition whole_genome : InputRegionMap :=
  {[ "chr1" := [mkRegion "chr1" 0 1000]; "chr2" := [mkRegion "chr2" 0 500] ]}.

Definition ignoring : OptionMap :=
  {[ "ignore-unmapped-contigs" := VBool true;
     "contig-output-order" := VContigOutputOrder asInReferenceIndex ]}.

Definition not_ignoring : OptionMap :=
  {[ "ignore-unmapped-contigs" := VBool false;
     "contig-output-order" := VContigOutputOrder asInReferenceIndex ]}.

End CallingComponents.

(** ** haplotype.hpp *)

Module Haplotype.
Import Region.

(** Modelled from the spec: [Allele] of allele.hpp, not among the sources
    ("(region: GenomicRegion, sequence: bytes)"). *)
Record Allele : Type := mkAllele {
  allele_region : GenomicRegion;
  allele_sequence : string
}.

#[global] Instance Allele_eq_dec : EqDecision Allele.
Proof. solve_decision. Defined.

(** The members of [Haplotype]; the reference it is bound to is the
    function giving the reference sequence of a region. *)
Record Haplotype : Type := mkHaplotype {
  region_ : GenomicRegion;
  explicit_alleles_ : list Allele;
  cached_sequence_ : string;
  cached_hash_ : N
}.

(** The value category of the argument of [push_back] and
    [push_front], which take a forwarding reference [T&&].  For an lvalue
    [T] is deduced as a reference and [std::forward<T>] gives an lvalue:
    the allele is copied into the deque.  For an rvalue [T] is [Allele]
    and [std::forward<T>] gives an rvalue: the allele is moved. *)
Inductive value_category : Type := lvalue | rvalue.

Section reference.

Variable reference : GenomicRegion → string.

(** The state in which the move constructor of [Allele] leaves the
    allele it moves from.  The class is of allele.hpp, not among the
    sources, and the language leaves the state of a moved-from
    [std::string] unspecified: the function is a parameter and nothing is
    assumed of it. *)
Variable moved_from : Allele → Allele.

(** The argument [allele] as it is after [emplace_back (std::forward<T>
    (allele))] or [emplace_front (std::forward<T> (allele))]; the element
    constructed holds the allele in both cases. *)
Definition after_forward (T : value_category) (allele : Allele) : Allele :=
  match T with
  | lvalue => allele
  | rvalue => moved_from allele
  end.

(** Modelled from the spec: the constructor [Haplotype (reference,
    region)] of haplotype.cpp, not among the sources: no explicit allele,
    nothing memoised. *)
Definition make_haplotype (region : GenomicRegion) : Haplotype :=
  mkHaplotype region [] "" 0.

(** Modelled from the spec: [get_intervening_reference_allele] of
    haplotype.cpp, not among the sources ("gaps implicitly filled from the
    reference"): the reference allele on the region between two
    alleles. *)
Definition get_intervening_reference_allele (lhs rhs : Allele) : Allele :=
  let region := get_intervening (allele_region lhs) (allele_region rhs) in
  mkAllele region (reference region).

(** Modelled from the spec: [reset_cached_sequence] of haplotype.cpp, not
    among the sources: forgets the memoised sequence and hash. *)
Definition reset_cached_sequence (h : Haplotype) : Haplotype :=
  mkHaplotype (region_ h) (explicit_alleles_ h) "" 0.

(** [Haplotype::push_back<T>]. *)
Definition push_back (h : Haplotype) (T : value_category) (allele : Allele)
  : outcome Haplotype :=
  let checked :=
    match last (explicit_alleles_ h) with
    | Some back =>
        if negb (is_after (allele_region allele) (allele_region back)) then
          Throw (RuntimeError "Haplotype::push_back called with out-of-order Allele")
        else if negb (are_adjacent (allele_region back) (allele_region allele)) then
          Ok (explicit_alleles_ h ++ [get_intervening_reference_allele back allele])%list
        else Ok (explicit_alleles_ h)
    | None => Ok (explicit_alleles_ h)
    end in
  (let* alleles := checked in
   let alleles := (alleles ++ [allele])%list in
   let allele := after_forward T allele in
   let region := get_encompassing (region_ h) (allele_region allele) in
   Ok (reset_cached_sequence
         (mkHaplotype region alleles (cached_sequence_ h) (cached_hash_ h))))%outcome.

(** [Haplotype::push_front<T>]. *)
Definition push_front (h : Haplotype) (T : value_category) (allele : Allele)
  : outcome Haplotype :=
  let checked :=
    match explicit_alleles_ h with
    | front :: _ =>
        if negb (is_after (allele_region front) (allele_region allele)) then
          Throw (RuntimeError "Haplotype::push_front called with out-of-order Allele")
        else if negb (are_adjacent (allele_region allele) (allele_region front)) then
          Ok (get_intervening_reference_allele allele front :: explicit_alleles_ h)
        else Ok (explicit_alleles_ h)
    | [] => Ok (explicit_alleles_ h)
    end in
  (let* alleles := checked in
   let alleles := allele :: alleles in
   let allele := after_forward T allele in
   let region := get_encompassing (region_ h) (allele_region allele) in
   Ok (reset_cached_sequence
         (mkHaplotype region alleles (cached_sequence_ h) (cached_hash_ h))))%outcome.

(** A call of one of the two methods, and a run of calls that stops at
    the first exception. *)
Inductive push : Type :=
| PushBack (T : value_category) (allele : Allele)
| PushFront (T : value_category) (allele : Allele).

Definition pushed (c : push) : Allele :=
  match c with PushBack _ a | PushFront _ a => a end.

Definition category (c : push) : value_category :=
  match c with PushBack T _ | PushFront T _ => T end.

Definition apply_push (h : Haplotype) (c : push) : outcome Haplotype :=
  match c with
  | PushBack T a => push_back h T a
  | PushFront T a => push_front h T a
  end.

Fixpoint run (calls : list push) (h : Haplotype) : outcome Haplotype :=
  match calls with
  | [] => Ok h
  | c :: rest => (let* h' := apply_push h c in run rest h')%outcome
  end.

(** The invariant of the explicit alleles: each region is well formed
    and each allele is after the one before it, on the same contig and
    starting where that one ends. *)
Definition is_reference_allele (a : Allele) : Prop :=
  allele_sequence a = reference (allele_region a).

Inductive chained : list Allele → Prop :=
| chained_nil : chained []
| chained_one a : chained [a]
| chained_cons a b l :
    is_after (allele_region b) (allele_region a) = true →
    region_end (allele_region a) = region_begin (allele_region b) →
    chained (b :: l) →
    chained (a :: b :: l).

Definition ordered_gap_filled (l : list Allele) : Prop :=
  Forall (fun a => well_formed (allele_region a)) l ∧ chained l.

End reference.

(** A reference of A only, and three calls on chr1: a SNV at 105, an
    insertion at 110 behind it, a deletion of 100-102 in front. *)
Definition poly_A (region : GenomicRegion) : string :=
  String.concat "" (replicate (N.to_nat (region_end region - region_begin region)) "A").

Definition three_calls : list push :=
  [ PushBack lvalue (mkAllele (mkRegion "chr1" 105 106) "T");
    PushBack rvalue (mkAllele (mkRegion "chr1" 110 110) "GG");
    PushFront lvalue (mkAllele (mkRegion "chr1" 100 102) "") ].

(** Two states that a move can leave behind: the strings of the allele
    empty and the positions of its region as they were; and an empty
    allele. *)
Definition strings_emptied (a : Allele) : Allele :=
  mkAllele (mkRegion "" (region_begin (allele_region a))
                     (region_end (allele_region a))) "".



End Haplotype.

(** ** somatic_call.hpp *)

Module SomaticCall.
Import Region Haplotype.

Definition SampleIdType := string.

(** Modelled from the spec: [Variant] of variant.hpp, not among the
    sources ("(ref: Allele, alt: Allele) with identical regions"). *)
Record Variant : Type := mkVariant {
  get_ref_allele : Allele;
  get_alt_allele : Allele
}.

(** Modelled from the spec: [mapped_region] of a variant, not among the
    sources: the region of its alleles. *)
Definition mapped_region (v : Variant) : GenomicRegion :=
  allele_region (get_ref_allele v).

(** Modelled from the spec: [ref_sequence_size], not among the sources:
    the length of the reference sequence. *)
Definition ref_sequence_size (v : Variant) : nat :=
  String.length (allele_sequence (get_ref_allele v)).

(** Modelled from the spec: [operator==] on alleles, not among the
    sources: same region and same sequence. *)
Definition allele_eqb (lhs rhs : Allele) : bool := bool_decide (lhs = rhs).

(** [SequenceType (n, 'N')]. *)
Fixpoint missing_sequence (n : nat) : string :=
  match n with
  | O => ""
  | S n' => String "N"%char (missing_sequence n')
  end.

Section genotype.

(** [Genotype<Allele>] and [CancerGenotype<Allele>] are not among the
    sources; the constructor only reads the germline genotype. *)
Context {Genotype CancerGenotype : Type}.
Variable get_germline_genotype : CancerGenotype → Genotype.

Definition CredibleRegion : Type := float * float.

Record GenotypeCredibleRegions : Type := {
  germline_credible_regions : list CredibleRegion;
  somatic_credible_region : CredibleRegion
}.

Record GenotypeCall : Type := mkGenotypeCall {
  genotype : Genotype;
  posterior : float
}.

(** The members of [VariantCall] and [SomaticCall]. *)
Record SomaticCall : Type := {
  variant_ : Variant;
  genotype_calls_ : gmap SampleIdType GenotypeCall;
  quality_ : float;
  credible_regions_ : gmap SampleIdType GenotypeCredibleRegions
}.

(** [genotype_calls_.emplace]. *)
Definition emplace_call (sample : SampleIdType) (call : GenotypeCall)
    (m : gmap SampleIdType GenotypeCall) : gmap SampleIdType GenotypeCall :=
  match m !! sample with
  | Some _ => m
  | None => <[sample := call]> m
  end.

(** The constructor [SomaticCall::SomaticCall]. *)
Definition make_somatic_call (variant : Variant) (genotype_call : CancerGenotype)
    (genotype_posteriors : float)
    (credible_regions : gmap SampleIdType GenotypeCredibleRegions)
    (quality : float) : SomaticCall :=
  let variant_ :=
    if allele_eqb (get_ref_allele variant) (get_alt_allele variant) then
      mkVariant
        (mkAllele (mapped_region variant)
                  (missing_sequence (ref_sequence_size variant)))
        (get_alt_allele variant)
    else variant in
  let genotype_calls_ :=
    foldl (fun calls p =>
             emplace_call p.1
               (mkGenotypeCall (get_germline_genotype genotype_call)
                               genotype_posteriors) calls)
          ∅ (map_to_list credible_regions) in
  {| variant_ := variant_;
     genotype_calls_ := genotype_calls_;
     quality_ := quality;
     credible_regions_ := credible_regions |}.

End genotype.

Definition same_alleles : Variant :=
  let allele := mkAllele (mkRegion "chr1" 100 103) "ACG" in
  mkVariant allele allele.

(** A variant at a base that the reference does not know, and one with
    empty alleles. *)
Definition unknown_base : Variant :=
  let allele := mkAllele (mkRegion "chr1" 100 101) "N" in
  mkVariant allele allele.

Definition empty_alleles : Variant :=
  let allele := mkAllele (mkRegion "chr1" 100 100) "" in
  mkVariant allele allele.

End SomaticCall.

(** ** read_utils.hpp: strand bias *)

Module ReadUtils.
Import Region.

(** Modelled from the spec: [AlignedRead] of aligned_read.hpp, not among
    the sources ("(region, sequence, qualities, cigar, mapping_quality,
    flags, optional mate)"): the region and the reverse-strand flag. *)
Record AlignedRead : Type := {
  read_region : GenomicRegion;
  is_marked_reverse_mapped : bool
}.

(** [detail::IsForward] and [detail::IsReverse]. *)
Definition IsForward (read : AlignedRead) : bool :=
  negb (is_marked_reverse_mapped read).
Definition IsReverse (read : AlignedRead) : bool :=
  is_marked_reverse_mapped read.

(** [std::count_if], as a [size_t]. *)
Definition count_if (pred : AlignedRead → bool) (reads : list AlignedRead) : N :=
  N.of_nat (length (List.filter pred reads)).

(** Modelled from the spec: [overlap_range (reads, region)] of
    mappable_algorithms.hpp, not among the sources: the reads that overlap
    the region. *)
Definition overlap_range (reads : list AlignedRead) (region : GenomicRegion)
  : list AlignedRead :=
  List.filter (fun read => overlaps (read_region read) region) reads.

(** [count_forward] and [count_reverse] of a read container, without
    and with a region. *)
Definition count_forward (reads : list AlignedRead) : N :=
  count_if IsForward reads.
Definition count_reverse (reads : list AlignedRead) : N :=
  count_if IsReverse reads.
Definition count_forward_in (reads : list AlignedRead) (region : GenomicRegion) : N :=
  count_if IsForward (overlap_range reads region).
Definition count_reverse_in (reads : list AlignedRead) (region : GenomicRegion) : N :=
  count_if IsReverse (overlap_range reads region).

(** The same for a map from sample to reads: [std::accumulate] over the
    samples, in [size_t]. *)
Definition accumulate (f : list AlignedRead → N)
    (reads : list (string * list AlignedRead)) : N :=
  foldl (fun curr sample_reads => ((curr + f sample_reads.2) mod 2 ^ 64)%N)
        0%N reads.

(** [double] arithmetic.  A [double] is the rational number it stands
    for, and every operation returns the exact result rounded to a
    [double].  The rounding is a parameter: it is monotone, leaves
    [double] values alone, and 0 and 1 are [double] values.  Round to
    nearest even is such a function wherever it does not overflow, and
    no operation below can overflow: the counts are below [2^64]. *)
Class Rounding (round : Q → Q) : Prop := {
  round_monotone : ∀ x y : Q, (x <= y)%Q → (round x <= round y)%Q;
  round_idempotent : ∀ x : Q, (round (round x) == round x)%Q;
  round_zero : (round 0 == 0)%Q;
  round_one : (round 1 == 1)%Q
}.

Section double.

Variable round : Q → Q.

(** [static_cast<double>] of a [size_t]. *)
Definition to_double (n : N) : Q := round (inject_Z (Z.of_N n)).

Definition double_add (a b : Q) : Q := round (a + b).
Definition double_div (a b : Q) : Q := round (a / b).
Definition double_gt (a b : Q) : bool := negb (Qle_bool a b).

(** The body shared by the two overloads of [strand_bias]. *)
Definition strand_bias_of (forward reverse : N) : Q :=
  let num_forward_reads := to_double forward in
  let num_reverse_reads := to_double reverse in
  let total := double_add num_forward_reads num_reverse_reads in
  if double_gt total 0 then double_div num_forward_reads total else 0%Q.

(** [strand_bias (reads)]. *)
Definition strand_bias (reads : list AlignedRead) : Q :=
  strand_bias_of (count_forward reads) (count_reverse reads).

(** [strand_bias (reads, region)]. *)
Definition strand_bias_in (reads : list AlignedRead) (region : GenomicRegion) : Q :=
  strand_bias_of (count_forward_in reads region) (count_reverse_in reads region).

(** The two overloads on a map from sample to reads. *)
Definition strand_bias_map (reads : list (string * list AlignedRead)) : Q :=
  strand_bias_of (accumulate count_forward reads) (accumulate count_reverse reads).

Definition strand_bias_map_in (reads : list (string * list AlignedRead))
    (region : GenomicRegion) : Q :=
  strand_bias_of (accumulate (fun r => count_forward_in r region) reads)
                 (accumulate (fun r => count_reverse_in r region) reads).

(** What the claim says of a result [bias] computed from the counts
    [forward] and [reverse]: when a read is counted it is the
    quotient of the forward count by the total, in double arithmetic,
    and lies between 0 and 1; when none is, it is 0. *)
Definition forward_fraction (forward reverse : N) (bias : Q) : Prop :=
  ((0 < forward + reverse)%N →
   bias = double_div (to_double forward)
                     (double_add (to_double forward) (to_double reverse))
   ∧ (0 <= bias)%Q ∧ (bias <= 1)%Q)
  ∧ ((forward + reverse = 0)%N → bias = 0%Q).

End double.

(** Exact arithmetic is a rounding, and so is rounding down to a
    multiple of 1/1024. *)
Definition exact (x : Q) : Q := x.

Definition truncate (x : Q) : Q := inject_Z (Qfloor (x * 1024)) / 1024.

Definition sample_reads : list AlignedRead :=
  [ {| read_region := mkRegion "chr1" 10 110; is_marked_reverse_mapped := false |};
    {| read_region := mkRegion "chr1" 50 150; is_marked_reverse_mapped := true |};
    {| read_region := mkRegion "chr1" 90 190; is_marked_reverse_mapped := false |} ].

End ReadUtils.

(** ** htslib_sam_facade.cpp: sample queries *)

Module SampleQueries.
Import HtslibSamFacade.

(** The body of the loop of [get_samples]: the sample of the pair is
    appended unless [std::find] finds it in the result. *)
Definition get_samples_step (result : list string) (pair : string * string)
  : list string :=
  if bool_decide (pair.2 ∈ result) then result else (result ++ [pair.2])%list.

(** [get_samples] on the pairs of [sample_map_] in the order in which
    the map yields them. *)
Definition get_samples_of (pairs : list (string * string)) : list string :=
  foldl get_samples_step [] pairs.

(** [HtslibSamFacade::get_samples]. *)
Definition get_samples (sample_map : SampleMap) : list string :=
  get_samples_of (map_to_list sample_map).

(** The body of the loop of [get_read_groups_in_sample]. *)
Definition get_read_groups_step (sample : string) (result : list string)
    (pair : string * string) : list string :=
  if String.eqb pair.2 sample then (result ++ [pair.1])%list else result.

Definition get_read_groups_in_sample_of (pairs : list (string * string))
    (sample : string) : list string :=
  foldl (get_read_groups_step sample) [] pairs.

(** [HtslibSamFacade::get_read_groups_in_sample]. *)
Definition get_read_groups_in_sample (sample_map : SampleMap) (sample : string)
  : list string :=
  get_read_groups_in_sample_of (map_to_list sample_map) sample.

(** A record of a read group that the header maps to [sample]. *)
Definition from_sample (sample_map : SampleMap) (sample : string) (b : bam1_t)
  : Prop :=
  ∃ rg, aux_RG b = Some rg ∧ sample_map !! rg = Some sample.

(** A record of the read group [rg] that converts to a read. *)
Definition good_record (name rg : string) : bam1_t :=
  {| qname := name; aux_RG := Some rg; qual := [30%N];
     cigar := [(1%N, "M"%char)] |}.

Definition two_samples : SampleMap := {[ "rg1" := "NA1"; "rg2" := "NA2" ]}.

End SampleQueries.

(** ** read_utils.hpp: read counts and coverage regions *)

Module ReadStats.
Import Region ReadUtils.

(** [detail::count_reads (reads)]: [reads.size ()]. *)
Definition count_reads (reads : list AlignedRead) : N := N.of_nat (length reads).

(** [detail::count_reads (reads, region)]: [count_overlapped], the size
    of the overlap range. *)
Definition count_reads_in (reads : list AlignedRead) (region : GenomicRegion) : N :=
  N.of_nat (length (overlap_range reads region)).

(** The sum of a [size_t] quantity over a range, without wrap-around. *)
Definition total {A} (g : A → N) (l : list A) : N :=
  foldr (fun x s => (g x + s)%N) 0%N l.

Section accessors.

(** [AlignedRead::get_sequence_size] and [get_mapping_quality]; the
    class is not among the sources, and the functions below only read
    these two values of a read. *)
Variable get_sequence_size : AlignedRead → N.
Variable get_mapping_quality : AlignedRead → N.

(** [detail::IsMappingQualityZero]. *)
Definition IsMappingQualityZero (read : AlignedRead) : bool :=
  (get_mapping_quality read =? 0)%N.

(** [detail::count_mapq_zero (reads)]. *)
Definition count_mapq_zero (reads : list AlignedRead) : N :=
  count_if IsMappingQualityZero reads.

(** [detail::count_base_pairs (reads)]: [std::accumulate] in [size_t]. *)
Definition count_base_pairs (reads : list AlignedRead) : N :=
  foldl (fun curr read => ((curr + get_sequence_size read) mod 2 ^ 64)%N)
        0%N reads.

(** [detail::count_forward_base_pairs (reads)]. *)
Definition count_forward_base_pairs (reads : list AlignedRead) : N :=
  foldl (fun curr read =>
           ((curr + (if IsForward read then get_sequence_size read else 0))
            mod 2 ^ 64)%N)
        0%N reads.

(** [detail::count_reverse_base_pairs (reads)]. *)
Definition count_reverse_base_pairs (reads : list AlignedRead) : N :=
  foldl (fun curr read =>
           ((curr + (if IsReverse read then get_sequence_size read else 0))
            mod 2 ^ 64)%N)
        0%N reads.

End accessors.

(** *** Regions of high and of uniform coverage

    [positional_coverage] is not among the sources; the two functions
    below are given the vector it returns, one count for each position of
    the region.  Positions are 32-bit ([GenomicRegion::SizeType]). *)

Definition SizeType_modulus : N := 2 ^ 32.

(** [static_cast<SizeType>]. *)
Definition to_SizeType (n : N) : N := (n mod SizeType_modulus)%N.

(** The lambda [is_high_coverage]. *)
Definition is_high_coverage (max_coverage coverage : N) : bool :=
  (max_coverage <? coverage)%N.

(** [std::find_if], as the distance from the start of the range to the
    element found (the length of the range when there is none), and
    [std::find_if_not]. *)
Fixpoint find_if {A} (p : A → bool) (l : list A) : nat :=
  match l with
  | [] => 0
  | x :: rest => if p x then 0 else S (find_if p rest)
  end.

Definition find_if_not {A} (p : A → bool) (l : list A) : nat :=
  find_if (fun x => negb (p x)) l.

(** The [while (current != last)] loop of [find_high_coverage_regions].
    [consumed] is the distance from [first] to [current] and [remaining]
    the range from [current] to [last]; one unit of fuel is one
    evaluation of the loop condition, and [None] is fuel exhaustion. *)
Fixpoint find_high_loop (fuel : nat) (region : GenomicRegion) (max_coverage : N)
    (consumed : nat) (remaining : list N) (result : list GenomicRegion)
  : option (list GenomicRegion) :=
  match fuel with
  | O => None
  | S fuel' =>
      match remaining with
      | [] => Some result
      | _ =>
          let to_high := find_if (is_high_coverage max_coverage) remaining in
          let from_high := drop to_high remaining in
          match from_high with
          | [] => Some result
          | _ =>
              let run := find_if_not (is_high_coverage max_coverage) from_high in
              let high_range_begin :=
                to_SizeType (region_begin region
                             + to_SizeType (N.of_nat (consumed + to_high))) in
              let high_range_end :=
                to_SizeType (high_range_begin + to_SizeType (N.of_nat run)) in
              find_high_loop fuel' region max_coverage (consumed + to_high + run)
                (drop run from_high)
                (result ++ [mkRegion (contig_name region)
                                     high_range_begin high_range_end])%list
          end
      end
  end.

(** [find_high_coverage_regions (reads, region, max_coverage)] on the
    positional coverage of the reads in the region. *)
Definition find_high_coverage_regions (positions_coverage : list N)
    (region : GenomicRegion) (max_coverage : N) : option (list GenomicRegion) :=
  find_high_loop (S (length positions_coverage)) region max_coverage 0
    positions_coverage [].

(** The body of the [for] loop of [find_uniform_coverage_regions]; the
    state is [result], [begin], [end] and [previous_coverage]. *)
Definition uniform_step (contig : string)
    (st : list GenomicRegion * N * N * N) (coverage : N)
  : list GenomicRegion * N * N * N :=
  let '(result, begin, end_, previous_coverage) := st in
  let '(result, begin, previous_coverage) :=
    if negb (coverage =? previous_coverage)%N
    then ((result ++ [mkRegion contig begin end_])%list, end_, coverage)
    else (result, begin, previous_coverage) in
  (result, begin, to_SizeType (end_ + 1), previous_coverage).

(** [find_uniform_coverage_regions (reads, region)] on the positional
    coverage of the reads in the region. *)
Definition find_uniform_coverage_regions (coverages : list N)
    (region : GenomicRegion) : list GenomicRegion :=
  match coverages with
  | [] => []
  | front :: _ =>
      let '(result, begin, end_, _) :=
        foldl (uniform_step (contig_name region))
              ([], region_begin region, region_begin region, front) coverages in
      (result ++ [mkRegion (contig_name region) begin end_])%list
  end.

(** The coverage at a position of the contig, for a coverage vector that
    starts at [first_position]. *)
Definition coverage_at (coverages : list N) (first_position p : N) : option N :=
  if (p <? first_position)%N then None
  else coverages !! N.to_nat (p - first_position).

(** [tiles contig from to l]: the regions of [l] lie on the contig, none
    is empty, the first begins at [from], each of the others begins where
    the one before it ends, and the last ends at [to]. *)
Fixpoint tiles (contig : string) (from to : N) (l : list GenomicRegion) : Prop :=
  match l with
  | [] => from = to
  | r :: rest =>
      contig_name r = contig ∧ region_begin r = from
      ∧ (from < region_end r)%N ∧ tiles contig (region_end r) to rest
  end.

(** What the loop of [find_high_coverage_regions] appends for the range
    [remaining] that starts [consumed] positions into the region. *)
Definition high_runs (region : GenomicRegion) (max_coverage : N)
    (consumed : nat) (remaining : list N) (out : list GenomicRegion) : Prop :=
  Forall (fun r =>
            contig_name r = contig_name region
            ∧ (region_begin region
               + N.of_nat (consumed + find_if (is_high_coverage max_coverage) remaining)
               <= region_begin r)%N
            ∧ (region_begin r < region_end r)%N
            ∧ (region_end r
               <= region_begin region + N.of_nat (consumed + length remaining))%N) out
  ∧ StronglySorted (fun x y => (region_end x < region_begin y)%N) out
  ∧ ∀ p, (∃ r, r ∈ out ∧ inside r p)
         ↔ ∃ i c, remaining !! i = Some c ∧ (max_coverage < c)%N
                  ∧ p = (region_begin region + N.of_nat (consumed + i))%N.

(** A region of uniform coverage that cannot be extended to the right:
    every position of [r] has the coverage [c], and the position behind
    [r] has another coverage or lies behind the coverage vector. *)
Definition uniform_run (coverages : list N) (first_position : N)
    (r : GenomicRegion) : Prop :=
  ∃ c, (∀ p, inside r p → coverage_at coverages first_position p = Some c)
       ∧ coverage_at coverages first_position (region_end r) ≠ Some c.

(** The state of the loop of [find_uniform_coverage_regions] after [n]
    coverages have been read. *)
Definition uniform_invariant (coverages : list N) (region : GenomicRegion)
    (n : nat) (st : list GenomicRegion * N * N * N) : Prop :=
  let '(result, begin, end_, previous_coverage) := st in
  end_ = (region_begin region + N.of_nat n)%N
  ∧ tiles (contig_name region) (region_begin region) begin result
  ∧ (n = 0%nat → begin = end_ ∧ head coverages = Some previous_coverage)
  ∧ (n ≠ 0%nat → (begin < end_)%N)
  ∧ (∀ p, (begin <= p < end_)%N →
          coverage_at coverages (region_begin region) p = Some previous_coverage)
  ∧ ∀ r, r ∈ result → uniform_run coverages (region_begin region) r.

Definition example_coverage : list N := [1; 5; 7; 2; 2; 9; 1]%N.

End ReadStats.

(** ** Functions declared [noexcept] *)

Module Noexcept.

(** What a call does: it returns, an exception leaves it, or the program
    is ended by [std::terminate], which is called when an exception would
    leave a function declared [noexcept]. *)
Inductive completion (A : Type) : Type :=
| Returned (a : A)
| Thrown (e : exn)
| Terminated.
Arguments Returned {A} a.
Arguments Thrown {A} e.
Arguments Terminated {A}.

(** The body of a function declared [noexcept]. *)
Definition noexcept {A} (body : outcome A) : completion A :=
  match body with
  | Ok a => Returned a
  | Throw _ => Terminated
  end.

(** A call of a function that is not declared [noexcept]. *)
Definition may_throw {A} (r : outcome A) : completion A :=
  match r with
  | Ok a => Returned a
  | Throw e => Thrown e
  end.

Definition and_then {A B} (r : completion A) (k : A → completion B)
  : completion B :=
  match r with
  | Returned a => k a
  | Thrown e => Thrown e
  | Terminated => Terminated
  end.

End Noexcept.

(** ** config/option_collation.cpp and core/calling_components.cpp:
       the thread options *)

Module Threads.
Import OptionCollation Noexcept.

(** [static_cast<unsigned>] of an [int]. *)
Definition to_unsigned (z : Z) : N := Z.to_N (z mod 2 ^ 32).

(** [as_unsigned]. *)
Definition as_unsigned (option : string) (options : OptionMap) : outcome N :=
  (let* v := at_ options option in
   let* z := as_int v in
   Ok (to_unsigned z))%outcome.

(** The three statements that [is_threading_allowed] and
    [get_num_threads] start with: [num_threads] is 1 unless the option
    is set. *)
Definition read_num_threads (options : OptionMap) : outcome N :=
  if is_set "threads" options then as_unsigned "threads" options else Ok 1%N.

(** [is_threading_allowed]. *)
Definition is_threading_allowed (options : OptionMap) : outcome bool :=
  (let* num_threads := read_num_threads options in
   Ok (negb (num_threads =? 1)%N))%outcome.

(** [get_num_threads]. *)
Definition get_num_threads (options : OptionMap) : outcome (option N) :=
  (let* num_threads := read_num_threads options in
   if (0 <? num_threads)%N then Ok (Some num_threads) else Ok None)%outcome.

Inductive ExecutionPolicy : Type := seq | par.

(** [get_thread_execution_policy]. *)
Definition get_thread_execution_policy (options : OptionMap)
  : outcome ExecutionPolicy :=
  if is_set "threads" options then
    (let* v := at_ options "threads" in
     let* z := as_int v in
     if (z =? 0)%Z then Ok par else Ok seq)%outcome
  else Ok seq.

(** [is_multithreaded_run] of calling_components.cpp, which is declared
    [noexcept]. *)
Definition is_multithreaded_run (options : OptionMap) : completion bool :=
  noexcept
    (let* num_threads := get_num_threads options in
     Ok (match num_threads with
         | None => true
         | Some n => (1 <? n)%N
         end))%outcome.

(** The values of an [int]. *)
Definition is_int (z : Z) : Prop := (- 2 ^ 31 <= z < 2 ^ 31)%Z.

Definition threads_option (z : Z) : OptionMap := {[ "threads" := VInt z ]}.

End Threads.

(** ** config/option_collation.cpp: files of paths *)

Module PathsFile.
Import HtslibSamFacade.

Definition carriage_return : ascii := ascii_of_nat 13.

(** [std::string::back] and [pop_back] of a string that is not empty. *)
Definition back (s : string) : option ascii :=
  String.get (String.length s - 1) s.

Definition pop_back (s : string) : string :=
  String.substring 0 (String.length s - 1) s.

(** [operator>> (std::istream&, Line&)], the part after [std::getline]:
    one carriage return at the end of the line is dropped. *)
Definition strip_carriage_return (line_data : string) : string :=
  if negb (String.eqb line_data "")
     && match back line_data with
        | Some c => Ascii.eqb c carriage_return
        | None => false
        end
  then pop_back line_data
  else line_data.

(** The range [std::istream_iterator<Line> (file)] to
    [std::istream_iterator<Line> ()]: the lines that [std::getline]
    reads until it fails, each through [operator>>]. *)
Definition read_lines (text : string) : list string :=
  strip_carriage_return <$> getlines text "".

(** [extract_paths_from_file] on the text of the file: the lines, the
    empty ones erased. *)
Definition extract_paths_from_file (text : string) : list string :=
  List.filter (fun path => negb (String.eqb path "")) (read_lines text).

(** The text of a file with the given lines, each ended by [eol]. *)
Fixpoint lines_text (eol : string) (lines : list string) : string :=
  match lines with
  | [] => ""
  | line :: rest => line ++ eol ++ lines_text eol rest
  end.

Definition LF : string := String newline_char "".
Definition CRLF : string := String carriage_return LF.

(** A line that holds a path: no newline in it, and no carriage return
    at its end.  An empty line is such a line. *)
Definition path_line (line : string) : Prop :=
  (newline_char ∉ list_ascii_of_string line)
  ∧ back line ≠ Some carriage_return.

End PathsFile.

(** ** Results with an error of their own

    The functions below throw exception classes that are declared next
    to them; [expected E A] is a result of type [A] or an exception of
    the class [E]. *)
Inductive expected (E A : Type) : Type :=
| Value (a : A)
| Error (e : E).
Arguments Value {E A} a.
Arguments Error {E A} e.

(** ** config/option_collation.cpp: region ranges *)

Module RegionRange.
Import Region CallingComponents.

(** The exception class [BadRegionRange], with its two members. *)
Inductive BadRegionRange : Type :=
| mkBadRegionRange (lhs rhs : GenomicRegion).

Section closed_region.

(** [closed_region (lhs, rhs)] is not among the sources; the function
    is a parameter and nothing is assumed of it. *)
Variable closed_region : GenomicRegion → GenomicRegion → GenomicRegion.

(** [make_region_range], for two regions whose contigs the reference
    has (the function asserts it).  [lhs_itr] and [rhs_itr] are the
    distances that [std::find] returns, the second one counted from
    [std::next (lhs_itr)]. *)
Definition make_region_range (lhs rhs : GenomicRegion)
    (reference : ReferenceGenome)
  : expected BadRegionRange (list GenomicRegion) :=
  if is_same_contig lhs rhs then
    if bool_decide (lhs = rhs) || (begins_before lhs rhs && ends_before lhs rhs)
    then Value [closed_region lhs rhs]
    else Error (mkBadRegionRange lhs rhs)
  else
    let reference_contigs := contig_names reference in
    let lhs_itr := index_of reference_contigs (contig_name lhs) in
    let after_lhs := drop (S lhs_itr) reference_contigs in
    let rhs_itr := index_of after_lhs (contig_name rhs) in
    if negb (rhs_itr =? length after_lhs)%nat then
      Value ([mkRegion (contig_name lhs) (region_begin lhs)
                (region_end (contig_region reference (contig_name lhs)))]
             ++ (contig_region reference <$> take rhs_itr after_lhs)
             ++ [mkRegion (contig_name rhs) 0 (region_end rhs)])%list
    else Error (mkBadRegionRange lhs rhs).

End closed_region.

(** A reference of three contigs. *)
Definition three_contigs : ReferenceGenome :=
  {| contig_names := ["chr1"; "chr2"; "chr3"];
     contig_size := fun c =>
       if String.eqb c "chr1" then 1000%N
       else if String.eqb c "chr2" then 500%N else 200%N |}.

End RegionRange.

(** ** Algorithms of the standard library on a vector *)

Module Algorithm.

Section comparator.
Context {A : Type}.

(** [std::sort] with the comparator [less], as an insertion sort (the
    one of [CallingComponents.sort_with], for any element type).  The
    properties below use it with comparators that are strict total orders
    on the elements sorted, for which the sorted sequence does not depend
    on the algorithm. *)
Fixpoint insert_by (less : A → A → bool) (x : A) (l : list A) : list A :=
  match l with
  | [] => [x]
  | y :: rest => if less y x then y :: insert_by less x rest else x :: y :: rest
  end.

Definition sort_by (less : A → A → bool) (l : list A) : list A :=
  foldr (insert_by less) [] l.

(** [std::adjacent_find] with the predicate [p], as the distance from
    the start to the first element that [p] relates to its successor, the
    length of the range when there is none. *)
Fixpoint adjacent_find (p : A → A → bool) (l : list A) : nat :=
  match l with
  | [] => 0
  | x :: rest =>
      match rest with
      | [] => 1
      | y :: _ => if p x y then 0 else S (adjacent_find p rest)
      end
  end.

(** [std::unique] with the predicate [p]: of each run of elements that
    [p] relates to the first of the run, the first is kept. *)
Fixpoint unique_from (p : A → A → bool) (kept : A) (l : list A) : list A :=
  match l with
  | [] => []
  | y :: rest =>
      if p kept y then unique_from p kept rest else y :: unique_from p y rest
  end.

Definition unique (p : A → A → bool) (l : list A) : list A :=
  match l with
  | [] => []
  | x :: rest => x :: unique_from p x rest
  end.

(** [!(y < x)]: the order in which [std::sort] leaves two elements. *)
Definition not_after (less : A → A → bool) (x y : A) : Prop := less y x = false.

End comparator.

End Algorithm.

(** ** config/option_collation.cpp: duplicate paths *)

Module ReadPaths.
Import Algorithm.

Section paths.

(** [fs::path] with its [operator<] and [operator==]; the order of
    paths is not the order of their strings, and the class is a
    parameter. *)
Context {Path : Type} `{EqDecision Path}.
Variable path_less : Path → Path → bool.

Definition path_equal (lhs rhs : Path) : bool := bool_decide (lhs = rhs).

(** [remove_duplicates], the part that changes [paths]; the rest of the
    body writes the duplicates to the log. *)
Definition remove_duplicates (paths : list Path) : list Path :=
  let paths := sort_by path_less paths in
  let first_duplicate := adjacent_find path_equal paths in
  if negb (first_duplicate =? length paths)%nat then
    (take first_duplicate paths
     ++ unique path_equal (drop first_duplicate paths))%list
  else paths.

End paths.

End ReadPaths.

(** ** config/option_collation.cpp: contig ploidies *)

Module Ploidies.
Import OptionCollation CallingComponents Algorithm Threads PathsFile.

(** [ContigPloidy], with the three members that the comparators read. *)
Record ContigPloidy : Type := mkContigPloidy {
  sample : option SampleName;
  contig : ContigName;
  ploidy : N
}.

#[global] Instance ContigPloidy_eq_dec : EqDecision ContigPloidy.
Proof. solve_decision. Defined.

(** [ContigPloidyLess]. *)
Definition ContigPloidyLess (lhs rhs : ContigPloidy) : bool :=
  match sample lhs with
  | Some lhs_sample =>
      match sample rhs with
      | Some rhs_sample =>
          if negb (String.eqb lhs_sample rhs_sample)
          then String.ltb lhs_sample rhs_sample
          else true
      | None => true
      end
  | None =>
      match sample rhs with
      | Some _ => false
      | None =>
          if String.eqb (contig lhs) (contig rhs)
          then (ploidy lhs <? ploidy rhs)%N
          else String.ltb (contig lhs) (contig rhs)
      end
  end.

(** [ContigPloidyEqual]. *)
Definition ContigPloidyEqual (lhs rhs : ContigPloidy) : bool :=
  bool_decide (sample lhs = sample rhs)
  && String.eqb (contig lhs) (contig rhs)
  && (ploidy lhs =? ploidy rhs)%N.

(** [ContigPloidyAmbiguous]. *)
Definition ContigPloidyAmbiguous (lhs rhs : ContigPloidy) : bool :=
  match sample lhs, sample rhs with
  | Some lhs_sample, Some rhs_sample =>
      String.eqb lhs_sample rhs_sample && String.eqb (contig lhs) (contig rhs)
  | None, None => String.eqb (contig lhs) (contig rhs)
  | _, _ => false
  end.

(** [remove_duplicate_ploidies]. *)
Definition remove_duplicate_ploidies (contig_ploidies : list ContigPloidy)
  : list ContigPloidy :=
  unique ContigPloidyEqual (sort_by ContigPloidyLess contig_ploidies).

(** [has_ambiguous_ploidies]. *)
Definition has_ambiguous_ploidies (contig_ploidies : list ContigPloidy) : bool :=
  negb (adjacent_find ContigPloidyAmbiguous contig_ploidies
        =? length contig_ploidies)%nat.

(** The exceptions of [get_ploidy_map]: those of the option map and of
    [resolve_path], and the classes [MissingPloidyFile] and
    [AmbiguousPloidy] with their members. *)
Inductive ploidy_exception : Type :=
| PloidyOptionError (e : exn)
| MissingPloidyFile (path : string)
| AmbiguousPloidy (ploidies : list ContigPloidy).

(** [PloidyMap] of ploidy_map.hpp is not among the sources.  A map is
    written as the organism ploidy that its constructor is given and the
    ploidies that [set] is called with, in the order of the calls: a
    ploidy that names a sample stands for [set (sample, contig, ploidy)],
    one that names none for [set (contig, ploidy)]. *)
Record PloidyMap : Type := mkPloidyMap {
  organism_ploidy : N;
  ploidies_set : list ContigPloidy
}.

Definition option_call {A B} (r : outcome A)
    (k : A → expected ploidy_exception B) : expected ploidy_exception B :=
  match r with
  | Ok a => k a
  | Throw e => Error (PloidyOptionError e)
  end.

Definition then_ {A B} (r : expected ploidy_exception A)
    (k : A → expected ploidy_exception B) : expected ploidy_exception B :=
  match r with
  | Value a => k a
  | Error e => Error e
  end.

Section environment.

(** [resolve_path (path, options)] and [fs::exists] are not among the
    sources and read the file system; [file_text] is the text that the
    stream opened on a path yields; [parse_ploidy] is [ss >> result] on a
    line, the [operator>>] of [ContigPloidy] not being among the sources;
    and [ploidies_option] is what [options.at ("contig-ploidies")
    .as<std::vector<ContigPloidy>> ()] returns or throws. *)
Variable resolve_path : string → outcome string.
Variable exists_ : string → bool.
Variable file_text : string → string.
Variable parse_ploidy : string → ContigPloidy.
Variable ploidies_option : outcome (list ContigPloidy).

(** The statements of [get_ploidy_map] that fill [flat_plodies]: the
    ploidies of the lines of the file, then those of the option
    ([utils::append] puts them at the end). *)
Definition read_ploidies (options : OptionMap)
  : expected ploidy_exception (list ContigPloidy) :=
  then_
    (if is_set "contig-ploidies-file" options then
       option_call (let* v := at_ options "contig-ploidies-file" in as_string v)%outcome
         (fun input_path =>
       option_call (resolve_path input_path) (fun resolved_path =>
       if negb (exists_ resolved_path) then Error (MissingPloidyFile input_path)
       else Value (parse_ploidy <$> read_lines (file_text resolved_path))))
     else Value [])
    (fun flat_plodies =>
     if is_set "contig-ploidies" options then
       option_call ploidies_option (fun given =>
       Value (flat_plodies ++ given)%list)
     else Value flat_plodies).

(** [get_ploidy_map]. *)
Definition get_ploidy_map (options : OptionMap)
  : expected ploidy_exception PloidyMap :=
  option_call (let* v := at_ options "caller" in as_string v)%outcome
    (fun caller =>
  if String.eqb caller "polyclone" then Value (mkPloidyMap 1 [])
  else
    then_ (read_ploidies options) (fun flat_plodies =>
    let flat_plodies := remove_duplicate_ploidies flat_plodies in
    if has_ambiguous_ploidies flat_plodies
    then Error (AmbiguousPloidy flat_plodies)
    else
      option_call (as_unsigned "organism-ploidy" options) (fun organism =>
      Value (mkPloidyMap organism flat_plodies)))).

End environment.

(** A ploidy given for a contig, for every sample. *)
Definition for_all_samples (p : ContigPloidy) : Prop := sample p = None.

(** An ambiguous ploidy of chrY, given to the individual caller and to
    the polyclone caller.  The option map records that [contig-ploidies]
    is set; its value is what [ploidies_option] returns. *)
Definition ambiguous_chrY : list ContigPloidy :=
  [mkContigPloidy None "chrY" 1; mkContigPloidy None "chrX" 2;
   mkContigPloidy None "chrY" 2].

Definition ploidies_given (caller : string) : OptionMap :=
  {[ "caller" := VString caller;
     "contig-ploidies" := VString "";
     "organism-ploidy" := VInt 2 ]}.

End Ploidies.

(** ** Algorithms of the standard library on sorted ranges *)

Module SortedRanges.

Section comparator.
Context {A : Type}.
Variable less : A → A → bool.

(** [std::set_difference] of two sorted ranges: the loop advances in
    the first range, in the second, or in both. *)
Fixpoint set_difference (l1 l2 : list A) : list A :=
  match l1 with
  | [] => []
  | x :: r1 =>
      (fix in_second (l2 : list A) : list A :=
         match l2 with
         | [] => x :: r1
         | y :: r2 =>
             if less x y then x :: set_difference r1 (y :: r2)
             else if negb (less y x) then set_difference r1 r2
             else in_second r2
         end) l2
  end.

(** [std::lower_bound] on a sorted range, as the range from the first
    element that is not less than the value, and [std::binary_search]. *)
Fixpoint lower_bound (l : list A) (value : A) : list A :=
  match l with
  | [] => []
  | x :: rest => if less x value then lower_bound rest value else l
  end.

Definition binary_search (l : list A) (value : A) : bool :=
  match lower_bound l value with
  | [] => false
  | first :: _ => negb (less value first)
  end.

End comparator.

End SortedRanges.

(** ** core/calling_components.cpp: samples and contigs *)

Module CallingSamples.
Import OptionCollation Region SearchRegions CallingComponents Algorithm SortedRanges.

(** The member initialiser [regions] of [ContigCallingComponents]:
    [genome_components.search_regions ().at (contig)]. *)
Definition contig_search_regions (components : GenomeCallingComponents)
    (contig : ContigName) : outcome (list GenomicRegion) :=
  match regions components !! contig with
  | Some contig_regions => Ok contig_regions
  | None => Throw OutOfRange
  end.

(** [is_in_file_samples]. *)
Definition is_in_file_samples (sample : SampleName)
    (file_samples : list SampleName) : bool :=
  bool_decide (sample ∈ file_samples).

Section partition.

(** [std::partition] leaves the elements in an order that the standard
    does not fix.  The algorithm is a parameter: it returns the range up
    to the partition point and the range behind it. *)
Variable partition :
  (SampleName → bool) → list SampleName → list SampleName * list SampleName.

(** [extract_samples], given what [get_user_samples] and
    [read_manager.samples ()] have returned: the samples, and how many
    requested samples the warning names. *)
Definition extract_samples (user_samples : option (list SampleName))
    (file_samples : list SampleName) : list SampleName * nat :=
  match user_samples with
  | Some user_samples =>
      let '(found, not_found) :=
        partition (fun sample => is_in_file_samples sample file_samples)
                  user_samples in
      (found, length not_found)
  | None => (file_samples, 0%nat)
  end.

End partition.

(** What the standard requires of [std::partition]. *)
Definition is_partition
    (partition : (SampleName → bool) → list SampleName
                 → list SampleName * list SampleName) : Prop :=
  ∀ p l, (partition p l).1 ++ (partition p l).2 ≡ₚ l
         ∧ Forall (fun x => p x = true) (partition p l).1
         ∧ Forall (fun x => p x = false) (partition p l).2.

(** A partition that keeps the order. *)
Definition stable_partition (p : SampleName → bool) (l : list SampleName)
  : list SampleName * list SampleName :=
  (List.filter p l, List.filter (fun x => negb (p x)) l).

(** [drop_unused_samples], given what [rm.num_samples ()] and
    [rm.samples ()] return: the calling samples as the function leaves
    them, and the argument of [rm.drop_samples] when it is called. *)
Definition drop_unused_samples (calling_samples : list SampleName)
    (num_samples : nat) (managed_samples : list SampleName)
  : list SampleName * option (list SampleName) :=
  if (num_samples <=? length calling_samples)%nat then (calling_samples, None)
  else
    let calling_samples := sort_by String.ltb calling_samples in
    let managed_samples := sort_by String.ltb managed_samples in
    let unused_samples :=
      set_difference String.ltb managed_samples calling_samples in
    (calling_samples, Some unused_samples).

End CallingSamples.

(** ** config/option_collation.cpp: the trio *)

Module TrioSamples.
Import OptionCollation Algorithm SortedRanges.

(** [Trio], with its three members. *)
Record Trio : Type := mkTrio {
  mother : SampleName;
  father : SampleName;
  child : SampleName
}.

(** What [make_trio] throws: an exception of the option map, or one of
    the user errors [BadTrioSampleSet], [BadTrio] and [BadTrioSamples]
    with their members. *)
Inductive trio_exception : Type :=
| OptionError (e : exn)
| BadTrioSampleSet (num_samples : nat)
| BadTrio
| BadTrioSamples (mother father : option SampleName).

Section pedigree.

(** [Pedigree], [is_trio (samples, pedigree)] and [make_trio (samples,
    pedigree)] belong to the pedigree code, which is not among the
    sources: they are parameters. *)
Context {Pedigree : Type}.
Variable is_trio : list SampleName → Pedigree → bool.
Variable make_trio_of_pedigree : list SampleName → Pedigree → Trio.

(** [options.at (name).as<SampleName> ()]. *)
Definition sample_option (options : OptionMap) (name : string)
  : outcome SampleName :=
  (let* v := at_ options name in as_string v)%outcome.

(** The part of [make_trio (samples, options, pedigree)] behind the
    reading of the two options. *)
Definition make_trio_of_parents (samples : list SampleName)
    (mother father : SampleName) : expected trio_exception Trio :=
  if String.eqb mother father then Error BadTrio
  else
    let parents := sort_by String.ltb [mother; father] in
    let samples := sort_by String.ltb samples in
    let children := set_difference String.ltb samples parents in
    match children with
    | [child] => Value (mkTrio mother father child)
    | _ =>
        let bad_mother :=
          if negb (binary_search String.ltb samples mother)
          then Some mother else None in
        let bad_father :=
          if negb (binary_search String.ltb samples father)
          then Some father else None in
        Error (BadTrioSamples bad_mother bad_father)
    end.

(** [make_trio (samples, options, pedigree)]. *)
Definition make_trio (samples : list SampleName) (options : OptionMap)
    (pedigree : option Pedigree) : expected trio_exception Trio :=
  match pedigree with
  | Some p =>
      if is_trio samples p then Value (make_trio_of_pedigree samples p)
      else
        if negb (length samples =? 3)%nat
        then Error (BadTrioSampleSet (length samples))
        else
          match sample_option options "maternal-sample" with
          | Throw e => Error (OptionError e)
          | Ok mother =>
              match sample_option options "paternal-sample" with
              | Throw e => Error (OptionError e)
              | Ok father => make_trio_of_parents samples mother father
              end
          end
  | None =>
      if negb (length samples =? 3)%nat
      then Error (BadTrioSampleSet (length samples))
      else
        match sample_option options "maternal-sample" with
        | Throw e => Error (OptionError e)
        | Ok mother =>
            match sample_option options "paternal-sample" with
            | Throw e => Error (OptionError e)
            | Ok father => make_trio_of_parents samples mother father
            end
        end
  end.

End pedigree.

Definition parents_options (mother father : SampleName) : OptionMap :=
  {[ "maternal-sample" := VString mother; "paternal-sample" := VString father ]}.

End TrioSamples.

(** ** config/option_collation.cpp and core/calling_components.cpp:
       call filtering and the temporary directory *)

Module CallFiltering.
Import OptionCollation Noexcept Threads.

(** [options.at (name).as<bool> ()] and [as<std::string> ()]. *)
Definition bool_option (options : OptionMap) (name : string) : outcome bool :=
  (let* v := at_ options name in as_bool v)%outcome.

Definition string_option (options : OptionMap) (name : string)
  : outcome string :=
  (let* v := at_ options name in as_string v)%outcome.

Definition path_option (options : OptionMap) (name : string) : outcome string :=
  (let* v := at_ options name in as_path v)%outcome.

(** [is_call_filtering_requested], which is declared [noexcept]. *)
Definition is_call_filtering_requested (options : OptionMap)
  : completion bool :=
  noexcept
    (let* call_filtering := bool_option options "call-filtering" in
     Ok (call_filtering || (0 <? count options "annotations")%N))%outcome.

(** [is_filter_training_mode]. *)
Definition is_filter_training_mode (options : OptionMap) : outcome bool :=
  (let* call_filtering := bool_option options "call-filtering" in
   Ok (negb call_filtering && (0 <? count options "annotations")%N))%outcome.

(** [keep_unfiltered_calls], which is declared [noexcept]. *)
Definition keep_unfiltered_calls (options : OptionMap) : completion bool :=
  noexcept (bool_option options "keep-unfiltered-calls").

(** The four filter expressions. *)
Definition get_germline_filter_expression (options : OptionMap) :=
  string_option options "filter-expression".
Definition get_somatic_filter_expression (options : OptionMap) :=
  string_option options "somatic-filter-expression".
Definition get_denovo_filter_expression (options : OptionMap) :=
  string_option options "denovo-filter-expression".
Definition get_refcall_filter_expression (options : OptionMap) :=
  string_option options "refcall-filter-expression".

(** [is_legacy_vcf_requested] and [call_sites_only]. *)
Definition is_legacy_vcf_requested (options : OptionMap) : outcome bool :=
  bool_option options "legacy".
Definition call_sites_only (options : OptionMap) : outcome bool :=
  bool_option options "sites-only".

(** What a call can do besides returning and throwing: read the value
    of an empty [boost::optional], which the library asserts against and
    otherwise leaves undefined; and end the program by [std::terminate],
    when a function declared [noexcept] that it calls would throw. *)
Inductive behaviour (E A : Type) : Type :=
| Returns (a : A)
| Throws (e : E)
| EmptyOptionalRead
| Terminates.
Arguments Returns {E A} a.
Arguments Throws {E A} e.
Arguments EmptyOptionalRead {E A}.
Arguments Terminates {E A}.

(** The exceptions of [make_call_filter_factory]: those of the option
    map and of the functions it calls, and [MissingForestFile] with the
    path and the type. *)
Inductive filter_exception : Type :=
| OptionError (e : exn)
| MissingForestFile (path type : string).

Inductive ForestType : Type := somatic | denovo.

(** The factories that [make_call_filter_factory] makes, each with the
    arguments of its constructor. *)
Inductive FilterFactory : Type :=
| RandomForestFilterFactory (forests : list string) (temp_directory : string)
    (forest_type : option ForestType)
| TrainingFilterFactory (annotations : gset string)
| ThresholdFilterFactory (expressions : list string) (denovo_type : bool).

(** [VariantCallFilter::OutputOptions] as the function fills it:
    [annotate_all_active_measures] is set to true or left as it is, and
    [annotations] are the names inserted. *)
Record OutputOptions : Type := mkOutputOptions {
  emit_sites_only : bool;
  annotate_all_active_measures : option bool;
  annotations : gset string
}.

(** A [std::unique_ptr<VariantCallFilterFactory>]: null, or a factory
    with the output options set on it. *)
Definition VariantCallFilterFactory : Type :=
  option (FilterFactory * OutputOptions).

Definition lift {A B} (r : outcome A) (k : A → behaviour filter_exception B)
  : behaviour filter_exception B :=
  match r with
  | Ok a => k a
  | Throw e => Throws (OptionError e)
  end.

(** A call of a function declared [noexcept]. *)
Definition lift_noexcept {A B} (r : completion A)
    (k : A → behaviour filter_exception B) : behaviour filter_exception B :=
  match r with
  | Returned a => k a
  | Thrown e => Throws (OptionError e)
  | Terminated => Terminates
  end.

(** [*temp_directory]. *)
Definition value_of {B} (temp_directory : option string)
    (k : string → behaviour filter_exception B)
  : behaviour filter_exception B :=
  match temp_directory with
  | Some directory => k directory
  | None => EmptyOptionalRead
  end.

(** The writers of the components: the path on which [output] is open,
    that of [filtered_output] when there is one, and [legacy]. *)
Record Writers : Type := mkWriters {
  output : option string;
  filtered_output : option (option string);
  legacy : option string
}.

(** The result of a function with assertions. *)
Inductive asserted (A : Type) : Type :=
| Passed (a : A)
| AssertionFailed.
Arguments Passed {A} a.
Arguments AssertionFailed {A}.

Section environment.

(** [resolve_path (path, options)] and [fs::exists] are not among the
    sources and read the file system; [caller] is what [get_caller_type
    (options, samples)] returns or throws, and [annotations_option] what
    [options.at ("annotations").as<std::vector<std::string>> ()] does. *)
Variable resolve_path : string → outcome string.
Variable exists_ : string → bool.
Variable caller : outcome string.
Variable annotations_option : outcome (list string).

(** [all_active_measure_annotations_requested]. *)
Definition all_active_measure_annotations_requested (options : OptionMap)
  : outcome bool :=
  if (count options "annotations" =? 1)%N then
    (let* requested := annotations_option in
     Ok (match requested with
         | [front] => String.eqb front "active"
         | _ => false
         end))%outcome
  else Ok false.

(** [get_requested_measure_annotations]. *)
Definition get_requested_measure_annotations (options : OptionMap)
  : outcome (gset string) :=
  if (count options "annotations" =? 1)%N then
    (let* requested := annotations_option in
     Ok (foldl (fun result measure => {[ measure ]} ∪ result) ∅ requested))%outcome
  else Ok ∅.

(** The first part of [make_call_filter_factory]: the factory made, or
    null. *)
Definition make_factory (options : OptionMap) (temp_directory : option string)
  : behaviour filter_exception (option FilterFactory) :=
  lift_noexcept (is_call_filtering_requested options) (fun requested =>
  if requested then
    lift caller (fun caller =>
    if is_set "forest-file" options then
      lift (path_option options "forest-file") (fun forest_path =>
      lift (resolve_path forest_path) (fun forest_file =>
      if negb (exists_ forest_file)
      then Throws (MissingForestFile forest_file "forest-file")
      else
        let temp_directory :=
          match temp_directory with
          | None => Some "/tmp"
          | Some _ => temp_directory
          end in
        if String.eqb caller "cancer" then
          if is_set "somatic-forest-file" options then
            lift (path_option options "somatic-forest-file") (fun somatic_path =>
            lift (resolve_path somatic_path) (fun somatic_forest_file =>
            if negb (exists_ somatic_forest_file)
            then Throws (MissingForestFile somatic_forest_file
                                           "somatic-forest-file")
            else
              value_of temp_directory (fun directory =>
              Returns (Some (RandomForestFilterFactory
                               [forest_file; somatic_forest_file]
                               directory None)))))
          else
            lift (bool_option options "somatics-only") (fun somatics_only =>
            if somatics_only then
              value_of temp_directory (fun directory =>
              Returns (Some (RandomForestFilterFactory [forest_file] directory
                                                       (Some somatic))))
            else Returns None)
        else if String.eqb caller "trio" then
          lift (bool_option options "denovos-only") (fun denovos_only =>
          if denovos_only then
            value_of temp_directory (fun directory =>
            Returns (Some (RandomForestFilterFactory [forest_file] directory
                                                     (Some denovo))))
          else
            value_of temp_directory (fun directory =>
            Returns (Some (RandomForestFilterFactory [forest_file] directory
                                                     None))))
        else
          value_of temp_directory (fun directory =>
          Returns (Some (RandomForestFilterFactory [forest_file] directory
                                                   None)))))
    else if is_set "somatic-forest-file" options then
      lift (bool_option options "somatics-only") (fun somatics_only =>
      if somatics_only then
        lift (path_option options "somatic-forest-file") (fun somatic_path =>
        lift (resolve_path somatic_path) (fun somatic_forest_file =>
        if negb (exists_ somatic_forest_file)
        then Throws (MissingForestFile somatic_forest_file "somatic-forest-file")
        else
          value_of temp_directory (fun directory =>
          Returns (Some (RandomForestFilterFactory [somatic_forest_file]
                                                   directory (Some somatic))))))
      else Returns None)
    else
      lift (is_filter_training_mode options) (fun training =>
      if training then
        lift (get_requested_measure_annotations options) (fun requested =>
        Returns (Some (TrainingFilterFactory requested)))
      else
        lift (get_germline_filter_expression options) (fun germline =>
        if String.eqb caller "cancer" then
          lift (bool_option options "somatics-only") (fun somatics_only =>
          if somatics_only then
            lift (get_somatic_filter_expression options) (fun somatic =>
            lift (get_refcall_filter_expression options) (fun refcall =>
            Returns (Some (ThresholdFilterFactory [""; somatic; ""; refcall]
                                                  false))))
          else
            lift (get_somatic_filter_expression options) (fun somatic =>
            lift (get_refcall_filter_expression options) (fun refcall =>
            Returns (Some (ThresholdFilterFactory
                             [""; germline; ""; somatic; ""; refcall] false)))))
        else if String.eqb caller "trio" then
          lift (get_denovo_filter_expression options) (fun denovo_expression =>
          lift (bool_option options "denovos-only") (fun denovos_only =>
          if denovos_only then
            lift (get_refcall_filter_expression options) (fun refcall =>
            Returns (Some (ThresholdFilterFactory
                             [""; denovo_expression; ""; refcall] true)))
          else
            lift (get_refcall_filter_expression options) (fun refcall =>
            Returns (Some (ThresholdFilterFactory
                             [""; germline; ""; denovo_expression; ""; refcall]
                             true)))))
        else Returns (Some (ThresholdFilterFactory [germline] false)))))
  else Returns None).

(** The second part: the output options of a factory that was made. *)
Definition make_output_options (options : OptionMap) : outcome OutputOptions :=
  (let* sites_only := call_sites_only options in
   let* all_active := all_active_measure_annotations_requested options in
   if all_active then Ok (mkOutputOptions sites_only (Some true) ∅)
   else
     let* requested := get_requested_measure_annotations options in
     Ok (mkOutputOptions sites_only None requested))%outcome.

(** [make_call_filter_factory]. *)
Definition make_call_filter_factory (options : OptionMap)
    (temp_directory : option string)
  : behaviour filter_exception VariantCallFilterFactory :=
  match make_factory options temp_directory with
  | Returns (Some factory) =>
      lift (make_output_options options) (fun output_options =>
      Returns (Some (factory, output_options)))
  | Returns None => Returns None
  | Throws e => Throws e
  | EmptyOptionalRead => EmptyOptionalRead
  | Terminates => Terminates
  end.

(** [get_output_path]. *)
Definition get_output_path (options : OptionMap) : outcome (option string) :=
  if is_set "output" options then
    (let* path := path_option options "output" in
     let* resolved := resolve_path path in
     Ok (Some resolved))%outcome
  else Ok None.

(** [is_stdout_output], [require_temp_dir_for_filtering] and
    [is_temp_directory_needed] of calling_components.cpp. *)
Definition is_stdout_output (options : OptionMap) : outcome bool :=
  (let* path := get_output_path options in
   Ok (negb (bool_decide (is_Some path))))%outcome.

Definition require_temp_dir_for_filtering (options : OptionMap)
  : completion bool :=
  and_then (is_call_filtering_requested options) (fun requested =>
  if requested then
    and_then (keep_unfiltered_calls options) (fun keep =>
    if negb keep then Returned true
    else may_throw (is_stdout_output options))
  else Returned false).

Definition is_temp_directory_needed (options : OptionMap) : completion bool :=
  and_then (is_multithreaded_run options) (fun multithreaded =>
  if multithreaded then Returned true
  else require_temp_dir_for_filtering options).

(** [get_temp_directory]; [created] is what [create_temp_file_directory
    (options)] returns or throws when it is called. *)
Definition get_temp_directory (created : outcome string) (options : OptionMap)
  : completion (option string) :=
  and_then (is_temp_directory_needed options) (fun needed =>
  if needed then
    and_then (may_throw created) (fun directory => Returned (Some directory))
  else Returned None).

(** The path functions of [setup_writers]: [get_unfiltered_path] and
    [get_legacy_path] (through [add_identifier]), [generate_temp_output_path],
    [fs::path::filename] and [operator/] work on [fs::path], which is not
    modelled. *)
Variable get_unfiltered_path get_legacy_path : string → string.
Variable generate_temp_output_path filename : string → string.
Variable join : string → string → string.

(** [Components::setup_writers], on the members [call_filter_factory],
    [output] (a writer on [output_path], or on the standard output) and
    [temp_directory]. *)
Definition setup_writers (call_filter_factory : VariantCallFilterFactory)
    (output_path temp_directory : option string) (options : OptionMap)
  : completion (asserted Writers) :=
  match call_filter_factory with
  | Some _ =>
      let final_output_path := output_path in
      and_then
        match final_output_path with
        | Some final =>
            and_then (keep_unfiltered_calls options) (fun keep =>
            if keep then Returned (Passed (get_unfiltered_path final))
            else
              match temp_directory with
              | Some directory =>
                  Returned (Passed (join directory
                                         (get_unfiltered_path (filename final))))
              | None => Returned AssertionFailed
              end)
        | None =>
            match temp_directory with
            | Some directory =>
                Returned (Passed (generate_temp_output_path directory))
            | None => Returned AssertionFailed
            end
        end
        (fun prefilter_path =>
         match prefilter_path with
         | Passed prefilter_path =>
             and_then (may_throw (is_legacy_vcf_requested options))
               (fun legacy_requested =>
                Returned
                  (Passed (mkWriters (Some prefilter_path)
                             (Some final_output_path)
                             (match final_output_path with
                              | Some final =>
                                  if legacy_requested
                                  then Some (get_legacy_path final) else None
                              | None => None
                              end))))
         | AssertionFailed => Returned AssertionFailed
         end)
  | None =>
      and_then (may_throw (is_legacy_vcf_requested options))
        (fun legacy_requested =>
         Returned
           (Passed (mkWriters output_path None
                      (match output_path with
                       | Some final =>
                           if legacy_requested
                           then Some (get_legacy_path final) else None
                       | None => None
                       end))))
  end.

End environment.

Definition somatic_forest_only : OptionMap :=
  {[ "call-filtering" := VBool true;
     "somatic-forest-file" := VPath "somatic.forest";
     "somatics-only" := VBool true ]}.

Definition threshold_filtering : OptionMap :=
  {[ "call-filtering" := VBool true;
     "keep-unfiltered-calls" := VBool true;
     "filter-expression" := VString "QUAL < 10";
     "sites-only" := VBool false;
     "legacy" := VBool false ]}.

End CallFiltering.

(** ** config/option_collation.cpp: the search regions of the options *)

Module InputRegions.
Import OptionCollation Region SearchRegions.

(** The exceptions of [get_search_regions]: those of the option map and
    of the functions it calls, and [MissingRegionPathFile] with the path
    and the location. *)
Inductive regions_exception : Type :=
| OptionError (e : exn)
| MissingRegionPathFile (path location_specified : string).

Definition with_value {A B} (r : outcome A)
    (k : A → expected regions_exception B) : expected regions_exception B :=
  match r with
  | Ok a => k a
  | Throw e => Error (OptionError e)
  end.

Definition and_then {A B} (r : expected regions_exception A)
    (k : A → expected regions_exception B) : expected regions_exception B :=
  match r with
  | Value a => k a
  | Error e => Error e
  end.

Section environment.

(** Not among the sources: [shift] of genomic_region.hpp,
    [io::extract_regions] (with the policy [ignore] or the default one),
    [resolve_path], [fs::exists] and [get_all_contig_regions].
    [parse_regions] is the function of this file on [io::parse_region],
    which is not among the sources either.  The value of a multi-token
    option is a vector of strings, which [option_value] does not have: the
    map records that the option is set and [strings_option] is
    [options.at (name).as<std::vector<std::string>> ()]. *)
Variable shift : GenomicRegion → Z → GenomicRegion.
Variable strings_option : string → outcome (list string).
Variable parse_regions : list string → outcome (list GenomicRegion).
Variable extract_regions : string → bool → outcome (list GenomicRegion).
Variable resolve_path : string → outcome string.
Variable exists_ : string → bool.
Variable all_contig_regions : list GenomicRegion.

(** [transform_to_zero_based] of a vector of regions. *)
Definition transform_to_zero_based (one_based_regions : list GenomicRegion)
  : list GenomicRegion :=
  (fun region =>
     if (0 <? region_begin region)%N then shift region (-1) else region)
    <$> one_based_regions.

(** [transform_to_zero_based] of a flat set of regions. *)
Definition transform_set_to_zero_based (one_based_regions : list GenomicRegion)
  : list GenomicRegion :=
  foldl (fun result region => emplace (shift region (-1)) result)
        [] one_based_regions.

(** [transform_to_zero_based] of an [InputRegionMap]. *)
Definition transform_map_to_zero_based (one_based_search_regions : InputRegionMap)
  : InputRegionMap :=
  transform_set_to_zero_based <$> one_based_search_regions.

(** [get_search_regions (options, reference)]. *)
Definition get_search_regions (options : OptionMap)
  : expected regions_exception InputRegionMap :=
  let skip_regions : list GenomicRegion := [] in
  and_then
    (if is_set "skip-regions" options then
       with_value (strings_option "skip-regions") (fun region_strings =>
       with_value (parse_regions region_strings) (fun parsed =>
       Value (skip_regions ++ parsed)%list))
     else Value skip_regions) (fun skip_regions =>
  and_then
    (if is_set "skip-regions-file" options then
       with_value (let* v := at_ options "skip-regions-file" in as_path v)%outcome
         (fun input_path =>
       with_value (resolve_path input_path) (fun resolved_path =>
       if negb (exists_ resolved_path) then
         Error (MissingRegionPathFile resolved_path
                  "the command line option '--skip-regions-file'")
       else
         with_value (extract_regions resolved_path true) (fun regions =>
         Value (skip_regions ++ regions)%list)))
     else Value skip_regions) (fun skip_regions =>
  with_value (let* v := at_ options "one-based-indexing" in as_bool v)%outcome
    (fun one_based =>
  let skip_regions :=
    if one_based then transform_to_zero_based skip_regions else skip_regions in
  if negb (is_set "regions" options) && negb (is_set "regions-file" options)
  then Value (extract_search_regions all_contig_regions skip_regions)
  else
    let input_regions : list GenomicRegion := [] in
    and_then
      (if is_set "regions" options then
         with_value (strings_option "regions") (fun region_strings =>
         with_value (parse_regions region_strings) (fun parsed =>
         Value (input_regions ++ parsed)%list))
       else Value input_regions) (fun input_regions =>
    and_then
      (if is_set "regions-file" options then
         with_value (let* v := at_ options "regions-file" in as_path v)%outcome
           (fun input_path =>
         with_value (resolve_path input_path) (fun resolved_path =>
         if negb (exists_ resolved_path) then
           Error (MissingRegionPathFile resolved_path
                    "the command line option '--regions-file'")
         else
           with_value (extract_regions resolved_path false) (fun regions =>
           Value (input_regions ++ regions)%list)))
       else Value input_regions) (fun input_regions =>
    let result := extract_search_regions input_regions skip_regions in
    with_value (let* v := at_ options "one-based-indexing" in as_bool v)%outcome
      (fun one_based =>
    if one_based then Value (transform_map_to_zero_based result)
    else Value result)))))).

End environment.

(** A region moved down by one position. *)
Definition moved_down (region : GenomicRegion) : GenomicRegion :=
  mkRegion (contig_name region) (region_begin region - 1) (region_end region - 1).

(** Regions with a first position, as one-based regions are. *)
Definition one_based (region : GenomicRegion) : Prop :=
  well_formed region ∧ (0 < region_begin region)%N.

(** The options [--one-based-indexing --regions chr1:100-200
    --skip-regions chr1:150-160] and what they parse to. *)
Definition one_based_options : OptionMap :=
  {[ "one-based-indexing" := VBool true;
     "regions" := VString "chr1:100-200";
     "skip-regions" := VString "chr1:150-160" ]}.

Definition example_strings (name : string) : outcome (list string) :=
  if String.eqb name "regions" then Ok ["chr1:100-200"]
  else Ok ["chr1:150-160"].

Definition example_parse (region_strings : list string)
  : outcome (list GenomicRegion) :=
  match region_strings with
  | [region] =>
      if String.eqb region "chr1:100-200" then Ok [mkRegion "chr1" 100 200]
      else Ok [mkRegion "chr1" 150 160]
  | _ => Ok []
  end.

Definition example_shift (region : GenomicRegion) (n : Z) : GenomicRegion :=
  mkRegion (contig_name region) (Z.to_N (Z.of_N (region_begin region) + n))
           (Z.to_N (Z.of_N (region_end region) + n)).

End InputRegions.

(** ** logging/progress_meter.cpp: the completed regions *)

Module ProgressMeter.
Import Region.

(** Modelled from the spec: [size] of a region, not among the sources:
    the number of its bases.  Sizes and the counts made of them are
    written in [Z]; the properties below bound them, so that no unsigned
    type that holds the size of a region wraps around. *)
Definition size (region : GenomicRegion) : Z :=
  (Z.of_N (region_end region) - Z.of_N (region_begin region))%Z.

(** Modelled from the spec: [left_overhang_size], [right_overhang_size]
    and [encompassing_region], not among the sources: the sizes of the
    overhang regions, and the smallest region holding both. *)
Definition left_overhang_size (lhs rhs : GenomicRegion) : Z :=
  size (left_overhang_region lhs rhs).
Definition right_overhang_size (lhs rhs : GenomicRegion) : Z :=
  size (right_overhang_region lhs rhs).
Definition encompassing_region (lhs rhs : GenomicRegion) : GenomicRegion :=
  get_encompassing lhs rhs.

(** Modelled from the spec: [MappableFlatSet::erase] of an element and
    [MappableFlatSet::erase_overlapped], not among the sources; the set
    holds no element twice. *)
Definition erase (element : GenomicRegion) (set : list GenomicRegion)
  : list GenomicRegion :=
  List.filter (fun x => negb (bool_decide (x = element))) set.
Definition erase_overlapped (set : list GenomicRegion) (query : GenomicRegion)
  : list GenomicRegion :=
  List.filter (fun x => negb (overlaps x query)) set.

(** The sum of the sizes of a range of regions. *)
Definition total (regions : list GenomicRegion) : Z :=
  foldr (fun region sum => (size region + sum)%Z) 0%Z regions.

(** [completed_regions_]: contig name to flat set of the regions of
    that contig.  A [ContigRegion] is written as the [GenomicRegion] of
    the contig under whose name it is kept. *)
Abbreviation CompletedRegions := (gmap string (list GenomicRegion)).

(** The first two tests of [merge] on one overlapped region: the count
    and [new_region] after the test of the begins, and after that of the
    ends. *)
Definition merge_begin (interactor : GenomicRegion)
    (state : Z * GenomicRegion) : Z * GenomicRegion :=
  let '(result, new_region) := state in
  if begins_before new_region interactor
  then ((result + left_overhang_size new_region interactor)%Z, new_region)
  else if begins_before interactor new_region
       then (result, encompassing_region interactor new_region)
       else (result, new_region).

Definition merge_end (interactor : GenomicRegion)
    (state : Z * GenomicRegion) : Z * GenomicRegion :=
  let '(result, new_region) := state in
  if ends_before interactor new_region
  then ((result + right_overhang_size new_region interactor)%Z, new_region)
  else if ends_before new_region interactor
       then (result, encompassing_region interactor new_region)
       else (result, new_region).

(** [ProgressMeter::merge] on the completed regions of the contig of the
    region.  [has_overlapped (contig_region)] is true exactly when
    [overlap_range (contig_region)] is not empty. *)
Definition merge_contig (completed_regions : list GenomicRegion)
    (contig_region : GenomicRegion) : Z * list GenomicRegion :=
  match overlap_range completed_regions contig_region with
  | [] => (size contig_region, emplace contig_region completed_regions)
  | [interactor] =>
      let result := 0%Z in
      if contains interactor contig_region then (result, completed_regions)
      else
        let new_region := contig_region in
        let '(result, new_region) :=
          merge_end interactor (merge_begin interactor (result, new_region)) in
        (result, emplace new_region (erase interactor completed_regions))
  | front :: rest =>
      let new_region := contig_region in
      let result := size new_region in
      let result := (result - overlap_size front contig_region)%Z in
      let new_region :=
        if begins_before front new_region
        then encompassing_region front new_region else new_region in
      let back := List.last rest front in
      let result := (result - overlap_size back new_region)%Z in
      let new_region :=
        if ends_before new_region back
        then encompassing_region new_region back else new_region in
      let result :=
        foldl (fun result r => (result - size r)%Z) result (removelast rest) in
      (result, emplace new_region (erase_overlapped completed_regions contig_region))
  end.

(** [ProgressMeter::merge]. *)
Definition merge (completed_regions_ : CompletedRegions) (region : GenomicRegion)
  : Z * CompletedRegions :=
  match completed_regions_ !! contig_name region with
  | None =>
      (size region, <[contig_name region := [region]]> completed_regions_)
  | Some completed_regions =>
      let '(result, completed_regions) := merge_contig completed_regions region in
      (result, <[contig_name region := completed_regions]> completed_regions_)
  end.

(** The members [completed_regions_] and [num_bp_completed_] of a
    [ProgressMeter]. *)
Record Progress : Type := mkProgress {
  completed_regions_ : CompletedRegions;
  num_bp_completed_ : Z
}.

(** The constructor, and [reset]. *)
Definition fresh : Progress := mkProgress ∅ 0.

(** [ProgressMeter::log_completed (region)] on these two members, in
    [size_t]; the percentages and the log lines that it makes of them
    do not feed back into them. *)
Definition log_completed (meter : Progress) (region : GenomicRegion) : Progress :=
  let '(new_bp_processed, completed) := merge (completed_regions_ meter) region in
  mkProgress completed ((num_bp_completed_ meter + new_bp_processed) mod 2 ^ 64)%Z.

(** The bases of the completed regions, counted region by region. *)
Definition total_completed (completed : CompletedRegions) : Z :=
  map_fold (fun _ regions sum => (total regions + sum)%Z) 0%Z completed.

(** A base is completed when a completed region of its contig holds
    it. *)
Definition completed_base (completed : CompletedRegions) (c : string) (p : N)
  : Prop :=
  ∃ regions o, completed !! c = Some regions ∧ o ∈ regions ∧ inside o p.

Definition example_blocks : list GenomicRegion :=
  [mkRegion "chr1" 0 10; mkRegion "chr1" 20 30; mkRegion "chr1" 40 50;
   mkRegion "chr2" 0 5; mkRegion "chr1" 5 45; mkRegion "chr1" 48 60;
   mkRegion "chr1" 0 10].

End ProgressMeter.

(** ** mappable_map.hpp: the leftmost and the rightmost overlapped *)

Module MappableMap.
Import Region.

(** A [MappableMap] in the order in which it is iterated, which is
    unspecified: the keys with their [MappableSet]s.  Modelled from the
    spec: a [MappableSet] (mappable_set.hpp is not among the sources) is
    the range of its elements in order, and [overlap_range] gives those
    that overlap the query.  An iterator into a set is written as the
    element it points to, [None] when it is past the end. *)
Definition MappableMap : Type := list (string * list GenomicRegion).

(** The [while] loop of [leftmost_overlapped]: the result, and the
    entries behind [first] when the loop ends. *)
Fixpoint leftmost_first (result : option GenomicRegion) (entries : MappableMap)
    (mappable : GenomicRegion) : option GenomicRegion * MappableMap :=
  match entries with
  | [] => (result, [])
  | first :: rest =>
      if negb (bool_decide (first.2 = [])) then
        match overlap_range first.2 mappable with
        | front :: _ => (Some front, rest)
        | [] => leftmost_first result rest mappable
        end
      else leftmost_first result rest mappable
  end.

(** The body of the [for_each] of [leftmost_overlapped]. *)
Definition leftmost_step (mappable : GenomicRegion)
    (result : option GenomicRegion) (p : string * list GenomicRegion)
  : option GenomicRegion :=
  match overlap_range p.2 mappable, result with
  | front :: _, Some pointed =>
      if begins_before front pointed then Some front else result
  | _, _ => result
  end.

(** [leftmost_overlapped]. *)
Definition leftmost_overlapped (mappables : MappableMap)
    (mappable : GenomicRegion) : outcome (option GenomicRegion) :=
  match mappables with
  | [] => Throw (RuntimeError "leftmost_overlapped given empty MappableMap")
  | first :: _ =>
      let result := head first.2 in
      let '(result, rest) := leftmost_first result mappables mappable in
      Ok (foldl (leftmost_step mappable) result rest)
  end.

(** The [while] loop of [rightmost_overlapped]. *)
Fixpoint rightmost_first (result : option GenomicRegion) (entries : MappableMap)
    (mappable : GenomicRegion) : option GenomicRegion * MappableMap :=
  match entries with
  | [] => (result, [])
  | first :: rest =>
      if negb (bool_decide (first.2 = [])) then
        match overlap_range first.2 mappable with
        | front :: overlapped => (Some (List.last overlapped front), rest)
        | [] => rightmost_first result rest mappable
        end
      else rightmost_first result rest mappable
  end.

(** The body of the [for_each] of [rightmost_overlapped]. *)
Definition rightmost_step (mappable : GenomicRegion)
    (result : option GenomicRegion) (p : string * list GenomicRegion)
  : option GenomicRegion :=
  match overlap_range p.2 mappable, result with
  | front :: overlapped, Some pointed =>
      if ends_before pointed (List.last overlapped front)
      then Some (List.last overlapped front) else result
  | _, _ => result
  end.

(** [rightmost_overlapped]; [cend (first->second)] is past the end. *)
Definition rightmost_overlapped (mappables : MappableMap)
    (mappable : GenomicRegion) : outcome (option GenomicRegion) :=
  match mappables with
  | [] => Throw (RuntimeError "rightmost_overlapped given empty MappableMap")
  | first :: _ =>
      let result : option GenomicRegion := None in
      let '(result, rest) := rightmost_first result mappables mappable in
      Ok (foldl (rightmost_step mappable) result rest)
  end.

(** An element of a set of the map that overlaps the query. *)
Definition overlapped_in (mappables : MappableMap) (mappable o : GenomicRegion)
  : Prop :=
  ∃ p, p ∈ mappables ∧ o ∈ p.2 ∧ overlaps o mappable = true.

(** The last overlapped element of a set of the map. *)
Definition last_overlapped_in (mappables : MappableMap)
    (mappable o : GenomicRegion) : Prop :=
  ∃ p front overlapped,
    p ∈ mappables ∧ overlap_range p.2 mappable = front :: overlapped
    ∧ o = List.last overlapped front.

Definition two_read_sets : MappableMap :=
  [("NA1", [mkRegion "chr1" 0 10; mkRegion "chr1" 30 40]);
   ("NA2", [mkRegion "chr1" 5 50; mkRegion "chr1" 20 25])].

End MappableMap.

(** ** read_utils.hpp: the coverage in the region of each read *)

Module ReadCoverage.
Import Region ReadUtils ReadStats.

(** The argument [f] of [detail::coverages_in_read_regions] is a
    function of two iterators of [position_coverages] that returns one:
    here a function of the vector [v] and of two distances from its
    start.  What the properties below ask of it is [selects rel f]: on a
    range of the vector that is not empty [f] returns an iterator of the
    range, to an element that is in the relation [rel] to every element
    of the range, and on an empty range it returns [last]. *)
Definition selects (rel : N → N → Prop) (f : list N → nat → nat → nat)
  : Prop :=
  ∀ v first last, (first ≤ last)%nat → (last ≤ length v)%nat →
    (first = last → f v first last = first)
    ∧ ((first < last)%nat →
       (first ≤ f v first last < last)%nat
       ∧ ∀ j, (first ≤ j < last)%nat →
              rel (default 0%N (v !! f v first last)) (default 0%N (v !! j))).

(** [std::min_element] and [std::max_element] on a range of the vector
    [v], the iterators written as distances from its start: the first
    smallest (largest) element of the range, [last] when it is empty. *)
Fixpoint extreme_loop (better : N → N → bool) (v : list N)
    (extreme current : nat) (steps : nat) : nat :=
  match steps with
  | O => extreme
  | S steps' =>
      let extreme :=
        if better (default 0%N (v !! current)) (default 0%N (v !! extreme))
        then current else extreme in
      extreme_loop better v extreme (S current) steps'
  end.

Definition extreme_element (better : N → N → bool) (v : list N)
    (first last : nat) : nat :=
  if (first =? last)%nat then last
  else extreme_loop better v first (S first) (last - S first).

Definition min_element : list N → nat → nat → nat := extreme_element N.ltb.
Definition max_element : list N → nat → nat → nat :=
  extreme_element (fun x y => N.ltb y x).

(** Subtraction of positions, in [SizeType]. *)
Definition minus_SizeType (a b : N) : N :=
  ((a + SizeType_modulus - b) mod SizeType_modulus)%N.

(** The range [first, last) of the body of the loop of
    [detail::coverages_in_read_regions], as distances from the start of
    [position_coverages]. *)
Definition read_range (region : GenomicRegion) (read : AlignedRead) : N * N :=
  let first_position := region_begin region in
  let num_positions := minus_SizeType (region_end region) (region_begin region) in
  (if (region_begin (read_region read) <=? first_position)%N then 0%N
   else minus_SizeType (region_begin (read_region read)) first_position,
   N.min (minus_SizeType (region_end (read_region read)) first_position)
         num_positions).

(** [*f (first, last)] for one read.  [None] stands for undefined
    behaviour: [last] in front of [first], or a past-the-end iterator
    dereferenced. *)
Definition coverage_in_read_region (f : list N → nat → nat → nat)
    (position_coverages : list N) (region : GenomicRegion) (read : AlignedRead)
  : option N :=
  let '(first, last) := read_range region read in
  if (last <? first)%N then None
  else position_coverages !! f position_coverages (N.to_nat first) (N.to_nat last).

#[global] Instance AlignedRead_eq_dec : EqDecision AlignedRead.
Proof. solve_decision. Defined.

(** [std::unordered_map::emplace]: nothing is done when the key is
    there. *)
Definition emplace_read (read : AlignedRead) (coverage : N)
    (result : list (AlignedRead * N)) : list (AlignedRead * N) :=
  if bool_decide (read ∈ result.*1) then result
  else (result ++ [(read, coverage)])%list.

(** [detail::coverages_in_read_regions (reads, region, f)] on the
    positional coverage of the reads in the region. *)
Definition coverages_in_read_regions (f : list N → nat → nat → nat)
    (reads : list AlignedRead) (position_coverages : list N)
    (region : GenomicRegion) : option (list (AlignedRead * N)) :=
  foldl (fun result read =>
           result ← result;
           coverage ← coverage_in_read_region f position_coverages region read;
           Some (emplace_read read coverage result))
        (Some []) reads.

(** The positions of the region at which the coverage of a read is
    looked up: those of the read that are in the region; all of the
    region for a read that ends before the region begins; and one
    position when there is none of these. *)
Definition looked_up (region : GenomicRegion) (read : AlignedRead) (p : N)
  : Prop :=
  let r := read_region read in
  if (region_end r <? region_begin region)%N then inside region p
  else if (N.max (region_begin r) (region_begin region)
           <? N.min (region_end r) (region_end region))%N
       then inside r p ∧ inside region p
       else p = N.max (region_begin r) (region_begin region).

(** [c] is the coverage of a position that satisfies [P], and it is
    in the relation [rel] to the coverage of every such position: the
    smallest one for [N.le], the largest one for [N.ge]. *)
Definition extreme_coverage (rel : N → N → Prop) (position_coverages : list N)
    (first_position : N) (P : N → Prop) (c : N) : Prop :=
  (∃ p, P p ∧ coverage_at position_coverages first_position p = Some c)
  ∧ ∀ p, P p → ∃ c', coverage_at position_coverages first_position p = Some c'
                     ∧ rel c c'.

(** The reads and the region that the function works on: positions are
    in [SizeType], and the vector has one coverage for each position of
    the region, which is not empty. *)
Definition in_SizeType (region : GenomicRegion) : Prop :=
  well_formed region ∧ (region_end region < SizeType_modulus)%N.

Definition covers_region (position_coverages : list N) (region : GenomicRegion)
  : Prop :=
  in_SizeType region ∧ (region_begin region < region_end region)%N
  ∧ length position_coverages
    = N.to_nat (region_end region - region_begin region).

Definition example_reads : list AlignedRead :=
  [ {| read_region := mkRegion "chr1" 101 104;
       is_marked_reverse_mapped := false |};
    {| read_region := mkRegion "chr1" 90 95;
       is_marked_reverse_mapped := true |} ].

End ReadCoverage.

(** ** core/tools/bam_realigner.cpp: blocks of calls *)

Module CallBlocks.
Import Region.

Section calls.

(** [VcfRecord] is not among the sources; [get_phase_region (call,
    samples)] reads the phase sets of the call from it, and is taken as
    given for the samples at hand. *)
Context {VcfRecord : Type}.
Variable get_phase_region : VcfRecord → GenomicRegion.

(** The loop of [BAMRealigner::read_next_block]: the block, and the
    calls from [first] on when the function returns. *)
Fixpoint read_next_block_loop (block : list (VcfRecord * GenomicRegion))
    (calls : list VcfRecord)
  : list (VcfRecord * GenomicRegion) * list VcfRecord :=
  match calls with
  | [] => (block, [])
  | call :: rest =>
      let call_phase_region := get_phase_region call in
      if negb (bool_decide (block = []))
         && negb (match last block with
                  | Some back => overlaps back.2 call_phase_region
                  | None => false
                  end)
      then (block, calls)
      else read_next_block_loop (block ++ [(call, call_phase_region)])%list rest
  end.

(** [copy_each_first]. *)
Definition copy_each_first (items : list (VcfRecord * GenomicRegion))
  : list VcfRecord :=
  fst <$> items.

(** [BAMRealigner::read_next_block]: the block, and the calls that are
    left. *)
Definition read_next_block (calls : list VcfRecord)
  : list VcfRecord * list VcfRecord :=
  let '(block, rest) := read_next_block_loop [] calls in
  (copy_each_first block, rest).

(** Each call of the range overlaps, by its phase region, the call in
    front of it. *)
Fixpoint chained (calls : list VcfRecord) : Prop :=
  match calls with
  | a :: (b :: _) as rest =>
      overlaps (get_phase_region a) (get_phase_region b) = true ∧ chained rest
  | _ => True
  end.

End calls.

End CallBlocks.

(** ** htslib_sam_facade.cpp: the bases and the flags of a record *)

Module RecordDecoding.

(** [bam_seqi (s, i)] of htslib:
    [((s)[(i)>>1] >> ((~(i)&1)<<2) & 0xf)], on the bytes of the packed
    sequence. *)
Definition bam_seqi (hts_sequence : list Z) (index : Z) : Z :=
  Z.land (Z.shiftr (default 0%Z (hts_sequence !! Z.to_nat (Z.shiftr index 1)))
                   (Z.shiftl (Z.land (Z.lnot index) 1) 2))
         15.

Definition symbol_table : string := "=ACMGRSVTWYHKDBN".

(** [get_base]. *)
Definition get_base (hts_sequence : list Z) (index : Z) : ascii :=
  default "N"%char (String.get (Z.to_nat (bam_seqi hts_sequence index))
                               symbol_table).

(** [get_sequence], from the packed sequence and [l_qseq]:
    [std::generate_n] with the counter [i]. *)
Definition get_sequence (hts_sequence : list Z) (sequence_length : nat) : string :=
  string_of_list_ascii
    ((fun i => get_base hts_sequence (Z.of_nat i)) <$> seq 0 sequence_length).

(** The flag bits of htslib. *)
Definition BAM_FPAIRED : Z := 1.
Definition BAM_FPROPER_PAIR : Z := 2.
Definition BAM_FUNMAP : Z := 4.
Definition BAM_FMUNMAP : Z := 8.
Definition BAM_FREVERSE : Z := 16.
Definition BAM_FMREVERSE : Z := 32.
Definition BAM_FREAD1 : Z := 64.
Definition BAM_FREAD2 : Z := 128.
Definition BAM_FSECONDARY : Z := 256.
Definition BAM_FQCFAIL : Z := 512.
Definition BAM_FDUP : Z := 1024.
Definition BAM_FSUPPLEMENTARY : Z := 2048.

(** [AlignedRead::Flags] and [AlignedRead::NextSegment::Flags], the
    fields that the two functions set. *)
Record Flags : Type := mkFlags {
  is_marked_multiple_read_template : bool;
  is_marked_all_segments_in_read_aligned : bool;
  is_marked_unmapped : bool;
  is_marked_reverse_mapped : bool;
  is_marked_first_template_segment : bool;
  is_marked_last_template_segmenet : bool;
  is_marked_secondary_alignment : bool;
  is_marked_qc_fail : bool;
  is_marked_duplicate : bool;
  is_marked_supplementary_alignment : bool
}.

Record NextSegmentFlags : Type := mkNextSegmentFlags {
  next_is_marked_unmapped : bool;
  next_is_marked_reverse_mapped : bool
}.

(** [(c.flag & bit) != 0]. *)
Definition flag_is_set (flag bit : Z) : bool := negb (Z.land flag bit =? 0)%Z.

(** [get_flags], from [b->core.flag]. *)
Definition get_flags (flag : Z) : Flags :=
  {| is_marked_multiple_read_template := flag_is_set flag BAM_FPAIRED;
     is_marked_all_segments_in_read_aligned := flag_is_set flag BAM_FPROPER_PAIR;
     is_marked_unmapped := flag_is_set flag BAM_FUNMAP;
     is_marked_reverse_mapped := flag_is_set flag BAM_FREVERSE;
     is_marked_first_template_segment := flag_is_set flag BAM_FREAD1;
     is_marked_last_template_segmenet := flag_is_set flag BAM_FREAD2;
     is_marked_secondary_alignment := flag_is_set flag BAM_FSECONDARY;
     is_marked_qc_fail := flag_is_set flag BAM_FQCFAIL;
     is_marked_duplicate := flag_is_set flag BAM_FDUP;
     is_marked_supplementary_alignment := flag_is_set flag BAM_FSUPPLEMENTARY |}.

(** [get_next_segment_flags]. *)
Definition get_next_segment_flags (flag : Z) : NextSegmentFlags :=
  {| next_is_marked_unmapped := flag_is_set flag BAM_FMUNMAP;
     next_is_marked_reverse_mapped := flag_is_set flag BAM_FMREVERSE |}.

(** The packed sequence of a range of base codes, as the BAM format has
    it: two codes to a byte, the first one in the high four bits. *)
Fixpoint pack (codes : list Z) : list Z :=
  match codes with
  | a :: b :: rest => (16 * a + b)%Z :: pack rest
  | [a] => [(16 * a)%Z]
  | [] => []
  end.

(** The symbol of a base code. *)
Definition symbol (code : Z) : ascii :=
  default "N"%char (String.get (Z.to_nat code) symbol_table).

Definition is_code (code : Z) : Prop := (0 <= code < 16)%Z.

End RecordDecoding.

(** ** haplotype.hpp: the region of a haplotype *)

Module HaplotypeRegion.
Import Region Haplotype.

(** The region of the haplotype holds the region of the allele. *)
Definition holds (h : Haplotype) (region : GenomicRegion) : Prop :=
  contig_name region = contig_name (region_ h)
  ∧ (region_begin (region_ h) <= region_begin region)%N
  ∧ (region_end region <= region_end (region_ h))%N.

(** The invariant of the region: it is well formed, on the contig, and
    holds the well-formed regions of the explicit alleles. *)
Definition region_invariant (contig : string) (h : Haplotype) : Prop :=
  well_formed (region_ h) ∧ contig_name (region_ h) = contig
  ∧ ∀ a, a ∈ explicit_alleles_ h →
         well_formed (allele_region a) ∧ holds h (allele_region a).

(** A call with an allele of a well-formed region on the contig. *)
Definition on_contig (contig : string) (c : push) : Prop :=
  well_formed (allele_region (pushed c))
  ∧ contig_name (allele_region (pushed c)) = contig.

(** The argument of the call has the positions of its region when the
    call reads it after the forward: it was passed as an lvalue, or as an
    rvalue that the move leaves with these positions. *)
Definition positions_kept (moved_from : Allele → Allele) (c : push) : Prop :=
  let left := after_forward moved_from (category c) (pushed c) in
  region_begin (allele_region left) = region_begin (allele_region (pushed c))
  ∧ region_end (allele_region left) = region_end (allele_region (pushed c)).

End HaplotypeRegion.

(** * Properties *)

(** ** Contig output order *)

Section contig_order.
Import OptionCollation CallingComponents.

(** The five orders whose comparator is the prescribed one. *)
Lemma get_sorter_lexicographic reference lhs rhs :
  get_sorter lexicographicalAscending reference lhs rhs = String.ltb lhs rhs
  ∧ get_sorter lexicographicalDescending reference lhs rhs = String.ltb rhs lhs.
Proof. split; reflexivity. Qed.

Lemma get_sorter_contig_size reference lhs rhs :
  get_sorter contigSizeAscending reference lhs rhs
    = (contig_size reference lhs <? contig_size reference rhs)%N
  ∧ get_sorter contigSizeDescending reference lhs rhs
    = (contig_size reference rhs <? contig_size reference lhs)%N.
Proof. split; reflexivity. Qed.

Lemma index_of_lookup contigs contig i :
  NoDup contigs → contigs !! i = Some contig → index_of contigs contig = i.
Proof.
  intros Hnd. revert i. induction Hnd as [|x l Hx Hnd IH]; intros i Hi.
  - by rewrite lookup_nil in Hi.
  - destruct i as [|i]; simpl in *.
    + injection Hi as ->. by rewrite String.eqb_refl.
    + destruct (String.eqb_spec x contig) as [->|_].
      * exfalso. apply Hx. eapply list_elem_of_lookup_2. exact Hi.
      * f_equal. by apply IH.
Qed.

(** On the contigs of the reference, [asInReferenceIndex] compares the
    positions in the index. *)
Lemma get_sorter_reference_index reference lhs rhs i j :
  NoDup (contig_names reference) →
  contig_names reference !! i = Some lhs →
  contig_names reference !! j = Some rhs →
  get_sorter asInReferenceIndex reference lhs rhs = Nat.ltb i j.
Proof.
  intros Hnd Hi Hj. simpl.
  by rewrite (index_of_lookup _ _ _ Hnd Hi), (index_of_lookup _ _ _ Hnd Hj).
Qed.

(** The reversed order is the same function as the index order. *)
Lemma get_sorter_reversed_is_index reference lhs rhs :
  get_sorter asInReferenceIndexReversed reference lhs rhs
  = get_sorter asInReferenceIndex reference lhs rhs.
Proof. reflexivity. Qed.

(** C1, at a failing input.  With the reference index [chr1, chr2] the
    comparator of [asInReferenceIndexReversed] puts chr1 before chr2,
    as the comparator of [asInReferenceIndex] does, and not chr2 before
    chr1; the contigs chr2, chr1 come out as chr1, chr2 under both
    orders. *)
Theorem reversed_index_order_not_reversed :
  get_sorter asInReferenceIndex two_contigs "chr1" "chr2" = true
  ∧ get_sorter asInReferenceIndexReversed two_contigs "chr1" "chr2" = true
  ∧ get_sorter asInReferenceIndexReversed two_contigs "chr2" "chr1" = false
  ∧ get_contigs ["chr2"; "chr1"] two_contigs asInReferenceIndex = ["chr1"; "chr2"]
  ∧ get_contigs ["chr2"; "chr1"] two_contigs asInReferenceIndexReversed
    = ["chr1"; "chr2"].
Proof. repeat split; reflexivity. Qed.

End contig_order.

(** ** Read file headers and records *)

Section read_groups.
Import HtslibSamFacade.

Lemma init_maps_loop_no_read_group lines st :
  Forall (fun line => is_tag_type line Read_group_tag = Ok false) lines →
  init_maps_loop lines st = Ok st.
Proof.
  intros H. revert st. induction H as [|line lines Hline _ IH]; intros st.
  - reflexivity.
  - simpl. unfold init_maps_step. destruct st as [m n].
    rewrite Hline. simpl. apply IH.
Qed.

(** A header none of whose lines is an [@RG] line is refused. *)
Lemma init_maps_no_read_group text :
  Forall (fun line => is_tag_type line Read_group_tag = Ok false)
         (getlines text "") →
  init_maps text = Throw (InvalidBamHeader "no read group (@RG) lines found").
Proof.
  intros H. unfold init_maps. by rewrite (init_maps_loop_no_read_group _ _ H).
Qed.

(** An [@RG] line in which the letters SM do not occur is refused, when
    the lines before it are accepted. *)
Lemma init_maps_step_no_sample st line :
  is_tag_type line Read_group_tag = Ok true →
  has_tag line Sample_id_tag = false →
  ∃ message, init_maps_step st line = Throw (InvalidBamHeader message).
Proof.
  intros Hrg Hsm. unfold init_maps_step. destruct st as [m n].
  rewrite Hrg. simpl. rewrite Hsm. simpl.
  destruct (has_tag line Read_group_id_tag); simpl; eauto.
Qed.

(** A record without [RG] makes [get_read_group] throw. *)
Lemma get_read_group_missing b :
  aux_RG b = None → get_read_group b = Throw (InvalidBamRecord "no read group").
Proof. intros H. unfold get_read_group. by rewrite H. Qed.

(** [fetch_reads] drops such a record and goes on. *)
Lemma fetch_reads_step_missing sample_map acc b :
  aux_RG b = None → fetch_reads_step sample_map acc b = Ok acc.
Proof.
  intros H. unfold fetch_reads_step. by rewrite (get_read_group_missing _ H).
Qed.

Lemma fetch_reads_step_origin sample_map acc b acc' sample' :
  fetch_reads_step sample_map acc b = Ok acc' →
  default [] (acc' !! sample') = default [] (acc !! sample')
  ∨ ∃ rg read,
      aux_RG b = Some rg ∧ sample_map !! rg = Some sample' ∧ deref b = Ok read
      ∧ default [] (acc' !! sample') = (default [] (acc !! sample') ++ [read])%list.
Proof.
  unfold fetch_reads_step, get_read_group, at_.
  destruct (aux_RG b) as [rg|] eqn:Hrg; simpl; [|intros [= <-]; by left].
  destruct (sample_map !! rg) as [sample|] eqn:Hs; simpl; [|discriminate].
  assert (Hentry : default [] (entry sample acc !! sample')
                   = default [] (acc !! sample')).
  { unfold entry. destruct (decide (sample = sample')) as [->|Hne].
    - by rewrite lookup_insert_eq.
    - by rewrite lookup_insert_ne. }
  destruct (deref b) as [read|e] eqn:Hd; simpl.
  - intros [= <-]. destruct (decide (sample = sample')) as [->|Hne].
    + right. exists rg, read. rewrite lookup_insert_eq. simpl.
      by rewrite Hentry.
    + left. by rewrite lookup_insert_ne.
  - destruct (is_invalid_bam_record e); [intros [= <-]; by left|discriminate].
Qed.

(** Every read that [fetch_reads] returns, under any sample mapping,
    was built from a record that has an [RG] field. *)
Lemma fetch_reads_only_grouped sample_map records acc m sample read :
  fetch_reads sample_map records acc = Ok m →
  read ∈ default [] (m !! sample) →
  read ∈ default [] (acc !! sample)
  ∨ ∃ b, b ∈ records ∧ is_Some (aux_RG b) ∧ deref b = Ok read.
Proof.
  revert acc. induction records as [|b rest IH]; intros acc; simpl.
  - intros [= <-]. by left.
  - destruct (fetch_reads_step sample_map acc b) as [acc'|e] eqn:Hstep;
      simpl; [|discriminate].
    intros Hrest Hin. destruct (IH _ Hrest Hin) as [Hacc|(b' & Hb' & Hrg & Hd)].
    + destruct (fetch_reads_step_origin _ _ _ _ sample Hstep)
        as [Heq|(rg & r & Hrg & _ & Hd & Heq)]; rewrite Heq in Hacc; [by left|].
      apply elem_of_app in Hacc as [Hold|Hnew]; [by left|].
      apply list_elem_of_singleton in Hnew as ->.
      right. exists b. split; [left|]. by rewrite Hrg.
    + right. exists b'. split; [by right|done].
Qed.

(** [count_reads (sample, region)] does not: the exception leaves it. *)
Lemma count_sample_reads_missing sample_map sample b rest n :
  aux_RG b = None →
  count_sample_reads sample_map sample (b :: rest) n
  = Throw (InvalidBamRecord "no read group").
Proof. intros H. simpl. by rewrite (get_read_group_missing _ H). Qed.

(** C2, at a failing input.  The header line [@RG<TAB>ID:SM1] has an
    [ID] field and no [SM] field, and [init_maps] accepts a header made
    of this line: it throws nothing and maps the read group SM1 to the
    sample "@RG", because [has_tag] finds the letters SM inside the
    value of the [ID] field. *)
Theorem init_maps_accepts_line_without_sample_field :
  is_tag_type rg_line_without_sample Read_group_tag = Ok true
  ∧ has_field rg_line_without_sample Read_group_id_tag = true
  ∧ has_field rg_line_without_sample Sample_id_tag = false
  ∧ has_tag rg_line_without_sample Sample_id_tag = true
  ∧ init_maps (rg_line_without_sample ++ String newline_char "")
    = Ok {[ "SM1" := "@RG" ]}.
Proof. repeat split; vm_compute; reflexivity. Qed.

End read_groups.

(** ** Caller selection *)

Section caller_selection.
Import OptionCollation.
Context {Pedigree : Type} (is_trio : list SampleName → Pedigree → bool).

(** C3, as amended.  When the caller option holds the string [caller],
    the caller selected is cancer if normal-sample is set; else trio if
    maternal-sample or paternal-sample is set, or a pedigree is supplied
    and makes the samples a trio; else individual if [caller] is
    population and there is exactly one sample; else [caller].  The
    number of samples is checked for the polyclone caller only: the check
    that follows raises the user error BadSampleCount exactly when the
    caller selected is polyclone and the number of samples is not 1, and
    accepts every other caller selected with any number of samples. *)
Theorem caller_selection (options : OptionMap) (samples : list SampleName)
    (pedigree : option Pedigree) (caller : string) :
  options !! "caller" = Some (VString caller) →
  let normal := bool_decide (is_Some (options !! "normal-sample")) in
  let parent := bool_decide (is_Some (options !! "maternal-sample")
                             ∨ is_Some (options !! "paternal-sample")) in
  let trio :=
    match pedigree with
    | Some supplied => is_trio samples supplied
    | None => false
    end in
  let selected :=
    if normal then "cancer"
    else if parent || trio then "trio"
    else if String.eqb caller "population" && bool_decide (length samples = 1)
    then "individual"
    else caller in
  get_caller_type is_trio options samples pedigree = Ok selected
  ∧ select_caller is_trio options samples pedigree
    = (if bool_decide (selected = "polyclone" ∧ length samples ≠ 1)
       then Throw BadSampleCount else Ok selected)
  ∧ error_category BadSampleCount = UserError.
Proof.
  intros Hcaller normal parent trio selected.
  assert (Hset : ∀ name, is_set name options
                         = bool_decide (is_Some (options !! name))).
  { intros name. unfold is_set, count.
    by destruct (options !! name). }
  assert (Hget : get_caller_type is_trio options samples pedigree = Ok selected).
  { unfold get_caller_type, at_. rewrite Hcaller. simpl.
    rewrite !Hset. fold normal. subst selected.
    destruct normal; [done|].
    assert (Hparent : bool_decide (is_Some (options !! "maternal-sample"))
                      || bool_decide (is_Some (options !! "paternal-sample"))
                      = parent).
    { subst parent. repeat case_bool_decide; simpl; tauto. }
    rewrite Hparent. unfold pedigree_implies_trio. fold trio.
    destruct (parent || trio); [done|].
    assert (Hone : (length samples =? 1)%nat = bool_decide (length samples = 1)).
    { destruct (Nat.eqb_spec (length samples) 1);
        [by rewrite bool_decide_eq_true_2|by rewrite bool_decide_eq_false_2]. }
    by rewrite Hone. }
  split; [exact Hget|]. split; [|reflexivity].
  unfold select_caller. rewrite Hget. simpl. unfold check_caller.
  destruct (String.eqb_spec selected "polyclone") as [Hpoly|Hother].
  - destruct (Nat.eqb_spec (length samples) 1) as [Hone|Hmany]; simpl.
    + rewrite bool_decide_eq_false_2; [done|]. intros [_ ?]. done.
    + by rewrite bool_decide_eq_true_2.
  - simpl. rewrite bool_decide_eq_false_2; [done|]. intros [? _]. done.
Qed.

End caller_selection.

(** The theorem at a run with the population caller and one sample. *)
Lemma caller_selection_witness :
  OptionCollation.get_caller_type (fun _ (_ : unit) => false)
    {[ "caller" := OptionCollation.VString "population" ]} ["NA12878"] None
  = Ok "individual"
  ∧ OptionCollation.select_caller (fun _ (_ : unit) => false)
      {[ "caller" := OptionCollation.VString "population" ]} ["NA12878"] None
    = Ok "individual".
Proof.
  assert (Hcaller : ({[ "caller" := OptionCollation.VString "population" ]}
                       : gmap string OptionCollation.option_value) !! "caller"
                    = Some (OptionCollation.VString "population"))
    by reflexivity.
  destruct (caller_selection (fun _ (_ : unit) => false) _
              ["NA12878"] None "population" Hcaller) as (Hget & Hselect & _).
  split; [exact Hget|exact Hselect].
Defined.

(** C3, the claim as it was stated, at a run with the individual caller
    and two samples: the individual caller is selected and the check
    raises nothing, although the caller requires one sample. *)
Lemma individual_caller_accepts_two_samples :
  OptionCollation.select_caller (fun _ (_ : unit) => false)
    OptionCollation.individual_caller OptionCollation.two_called_samples None
  = Ok "individual"
  ∧ OptionCollation.required_samples "individual"
      (length OptionCollation.two_called_samples) = false.
Proof. split; reflexivity. Qed.

(** ** Assembler trigger frequency *)

Section trigger_frequency.
Import OptionCollation.

(** The two literals are the doubles nearest to 1/10 and 1/20: the
    mantissa is within half a unit of the scaled decimal. *)
Lemma double_literals :
  Prim2SF double_0_1 = S754_finite false 7205759403792794 (-56)
  ∧ Prim2SF double_0_05 = S754_finite false 7205759403792794 (-57)
  ∧ (Z.abs (10 * 7205759403792794 - 2 ^ 56) <= 5)%Z
  ∧ (2 ^ 52 <= 7205759403792794 < 2 ^ 53)%Z.
Proof. repeat split; vm_compute; congruence. Qed.

(** C4.  With the caller option [caller]: in cancer mode ([caller] is
    cancer or normal-sample is set) the trigger is the minimum somatic
    VAF, which is the larger of the two somatic frequency options when
    the smaller is at most 1 and the smaller otherwise; else in polyclone
    mode it is min-clone-frequency; else it is 0.1 when organism-ploidy
    is below 4 and 0.05 from 4 on. *)
Theorem assembler_trigger_frequency (options : OptionMap) (caller : string) :
  options !! "caller" = Some (VString caller) →
  let cancer := String.eqb caller "cancer" || is_set "normal-sample" options in
  (cancer = true →
   get_assembler_region_generator_frequency_trigger options
   = get_min_somatic_vaf options)
  ∧ (cancer = false → caller = "polyclone" →
     get_assembler_region_generator_frequency_trigger options
     = get_min_clone_vaf options)
  ∧ (cancer = false → caller ≠ "polyclone" →
     ∀ ploidy : Z, options !! "organism-ploidy" = Some (VInt ploidy) →
     get_assembler_region_generator_frequency_trigger options
     = Ok (if (ploidy <? 4)%Z then double_0_1 else double_0_05))
  ∧ (∀ credible expected : float,
     options !! "min-credible-somatic-frequency" = Some (VFloat credible) →
     options !! "min-expected-somatic-frequency" = Some (VFloat expected) →
     get_min_somatic_vaf options
     = Ok (if PrimFloat.leb (std_min credible expected) 1
           then std_max credible expected else std_min credible expected))
  ∧ (∀ clone : float,
     options !! "min-clone-frequency" = Some (VFloat clone) →
     get_min_clone_vaf options = Ok clone).
Proof.
  intros Hcaller cancer.
  assert (Hc : is_cancer_calling options = Ok cancer).
  { unfold is_cancer_calling, at_. by rewrite Hcaller. }
  assert (Hp : is_polyclone_calling options = Ok (String.eqb caller "polyclone")).
  { unfold is_polyclone_calling, at_. by rewrite Hcaller. }
  unfold get_assembler_region_generator_frequency_trigger.
  rewrite Hc, Hp. simpl. repeat split.
  - by intros ->.
  - intros -> ->. reflexivity.
  - intros -> Hne ploidy Hploidy.
    destruct (String.eqb_spec caller "polyclone"); [done|].
    unfold at_. rewrite Hploidy. simpl. by destruct (ploidy <? 4)%Z.
  - intros credible expected Hcr Hex. unfold get_min_somatic_vaf, at_.
    rewrite Hcr, Hex. simpl.
    by destruct (PrimFloat.leb (std_min credible expected) 1).
  - intros clone Hclone. unfold get_min_clone_vaf, at_. by rewrite Hclone.
Qed.

End trigger_frequency.

(** The theorem at a diploid run of the individual caller: 0.1. *)
Lemma assembler_trigger_frequency_witness :
  OptionCollation.get_assembler_region_generator_frequency_trigger
    {[ "caller" := OptionCollation.VString "individual";
       "organism-ploidy" := OptionCollation.VInt 2 ]}
  = Ok OptionCollation.double_0_1.
Proof.
  refine (proj1 (proj2 (proj2
    (assembler_trigger_frequency
       {[ "caller" := OptionCollation.VString "individual";
          "organism-ploidy" := OptionCollation.VInt 2 ]} "individual" _)))
    _ _ 2%Z _); try reflexivity.
  discriminate.
Defined.

(** ** Temporary directory *)

Section temp_directory.
Import OptionCollation.

Lemma create_directory_unchanged fs p created error_code fs' :
  create_directory fs p = (created, error_code, fs') →
  created = false → fs' = fs.
Proof.
  unfold create_directory. destruct (fs p); intros [= <- <- <-]; done.
Qed.

(** The loop ends: with the counter between 2 and 10,001 the fuel that
    remains is enough. *)
Lemma create_temp_loop_total fuel fs wd base result counter :
  (2 <= counter <= 10001)%N →
  (10002 <= N.of_nat fuel + counter)%N →
  is_Some (create_temp_loop fuel fs wd base result counter).
Proof.
  revert fs result counter. induction fuel as [|fuel IH]; intros fs result counter Hc Hf.
  - lia.
  - simpl. destruct (create_directory fs result) as [[created ec] fs'].
    unfold temp_dir_name_count_limit.
    destruct created; simpl.
    + destruct (10000 <? counter)%N; eauto.
    + destruct (N.leb_spec counter 10000); simpl.
      * destruct (ec =? success)%N; simpl; [|eauto].
        assert (((counter + 1) mod 2 ^ 32 = counter + 1)%N) as ->
          by (apply N.mod_small; change (2 ^ 32)%N with 4294967296%N; lia).
        apply IH; lia.
      * destruct (N.ltb_spec 10000 counter); eauto.
Qed.

Lemma create_temp_file_directory_total fs wd options :
  is_Some (create_temp_file_directory fs wd options).
Proof.
  unfold create_temp_file_directory.
  destruct (bind _ _); [|eauto].
  apply create_temp_loop_total; [lia|].
  change (N.of_nat (N.to_nat temp_dir_name_count_limit)) with 10000%N. lia.
Qed.

(** A failure of [create_directory] with an error code inside the limit
    is thrown with that code, and no directory has been made. *)
Lemma create_temp_loop_error fuel fs wd base result counter ec :
  fs result = Unwritable ec → ec ≠ success → (counter <= 10000)%N →
  create_temp_loop (S fuel) fs wd base result counter
  = Some (Throw (UnwritableTempDirectory result (Some ec)), fs).
Proof.
  intros Hfs Hec Hc. simpl. unfold create_directory. rewrite Hfs.
  unfold temp_dir_name_count_limit.
  destruct (N.leb_spec counter 10000); [|lia]. simpl.
  destruct (N.eqb_spec ec success); [done|reflexivity].
Qed.

(** A free name inside the limit is created and returned. *)
Lemma create_temp_loop_free fuel fs wd base result counter :
  fs result = Free → (counter <= 10000)%N →
  create_temp_loop (S fuel) fs wd base result counter
  = Some (Ok result, mkdir fs result).
Proof.
  intros Hfs Hc. simpl. unfold create_directory. rewrite Hfs. simpl.
  unfold temp_dir_name_count_limit.
  destruct (N.ltb_spec 10000 counter); [lia|reflexivity].
Qed.

(** A name that is taken, inside the limit, makes the loop try the next
    numbered name. *)
Lemma create_temp_loop_taken fuel fs wd base counter :
  (2 <= counter <= 10000)%N →
  fs (candidate wd base (counter - 1)) = Directory →
  create_temp_loop (S fuel) fs wd base (candidate wd base (counter - 1)) counter
  = create_temp_loop fuel fs wd base (candidate wd base counter) (counter + 1).
Proof.
  intros Hc Hfs. cbn [create_temp_loop]. unfold create_directory. rewrite Hfs.
  unfold temp_dir_name_count_limit.
  destruct (N.leb_spec counter 10000); [|lia]. cbn [negb andb].
  rewrite N.eqb_refl. cbn [negb].
  assert (((counter + 1) mod 2 ^ 32 = counter + 1)%N) as ->
    by (apply N.mod_small; change (2 ^ 32)%N with 4294967296%N; lia).
  unfold candidate. destruct (N.leb_spec counter 1); [lia|reflexivity].
Qed.

Lemma create_temp_loop_skip n fuel fs wd base counter :
  (2 <= counter)%N → (counter + N.of_nat n <= 10001)%N →
  (∀ j, (counter - 1 <= j < counter - 1 + N.of_nat n)%N →
        fs (candidate wd base j) = Directory) →
  create_temp_loop (n + fuel) fs wd base (candidate wd base (counter - 1)) counter
  = create_temp_loop fuel fs wd base
      (candidate wd base (counter - 1 + N.of_nat n)) (counter + N.of_nat n).
Proof.
  revert counter. induction n as [|n IH]; intros counter Hc Hn Htaken.
  - simpl. by rewrite !N.add_0_r.
  - change (S n + fuel) with (S (n + fuel)).
    rewrite create_temp_loop_taken by (try apply Htaken; lia).
    replace counter with (counter + 1 - 1)%N at 1 by lia.
    rewrite IH by (try (intros j Hj; apply Htaken); lia).
    f_equal; [f_equal|]; lia.
Qed.

(** The first name that is free is created and returned, when all names
    before it are taken and its number is at most 9,999. *)
Lemma create_temp_file_directory_first_free fs wd base options k :
  options !! "temp-directory-prefix" = Some (VPath base) →
  (1 <= k <= 9999)%N →
  (∀ j, (1 <= j < k)%N → fs (candidate wd base j) = Directory) →
  fs (candidate wd base k) = Free →
  create_temp_file_directory fs wd options
  = Some (Ok (candidate wd base k), mkdir fs (candidate wd base k)).
Proof.
  intros Hopt Hk Htaken Hfree. unfold create_temp_file_directory, at_.
  rewrite Hopt. cbn [bind as_path].
  change (path_append wd base) with (candidate wd base (2 - 1)).
  replace (N.to_nat temp_dir_name_count_limit)
    with (N.to_nat (k - 1) + S (N.to_nat (10000 - k)))
    by (unfold temp_dir_name_count_limit; lia).
  rewrite create_temp_loop_skip; rewrite ?N2Nat.id; [|lia|lia|].
  - replace (2 - 1 + (k - 1))%N with k by lia.
    apply create_temp_loop_free; [done|lia].
  - intros j Hj. apply Htaken. lia.
Qed.

(** C7, at a failing input.  In a working directory where the base name
    and the names numbered 2 to 9,999 are taken and the name numbered
    10,000 is free, [create_temp_file_directory] creates the directory
    numbered 10,000 and then throws UnwritableTempDirectory: the first
    name that can be created is created but not returned, and the
    exception leaves a directory behind. *)
Theorem create_temp_file_directory_creates_and_throws :
  crowded "/wd" "octopus-temp" "/wd/octopus-temp-10000" = Free
  ∧ ∃ fs',
      create_temp_file_directory (crowded "/wd" "octopus-temp") "/wd" temp_options
      = Some (Throw (UnwritableTempDirectory "/wd/octopus-temp-10000" None), fs')
      ∧ fs' "/wd/octopus-temp-10000" = Directory.
Proof.
  split; [reflexivity|].
  destruct (create_temp_file_directory (crowded "/wd" "octopus-temp") "/wd"
              temp_options) as [[r fs']|] eqn:Hrun.
  - exists fs'.
    assert (Hr : r = Throw (UnwritableTempDirectory "/wd/octopus-temp-10000" None)).
    { change r with (fst (r, fs')).
      apply (f_equal (fun o => match o with Some x => Some (fst x) | None => None end))
        in Hrun.
      vm_compute in Hrun. injection Hrun as <-. reflexivity. }
    assert (Hd : fs' "/wd/octopus-temp-10000" = Directory).
    { apply (f_equal (fun o => match o with
                               | Some x => Some (snd x "/wd/octopus-temp-10000")
                               | None => None
                               end)) in Hrun.
      vm_compute in Hrun. injection Hrun as <-. reflexivity. }
    clear Hrun. rewrite Hr. split; [reflexivity|exact Hd].
  - exfalso. vm_compute in Hrun. inversion Hrun.
Qed.

End temp_directory.

(** ** Somatic calls *)

Section somatic_call.
Import Region Haplotype SomaticCall.
Context {Genotype CancerGenotype : Type}.
Variable get_germline_genotype : CancerGenotype → Genotype.

Lemma missing_sequence_length n : String.length (missing_sequence n) = n.
Proof. induction n as [|n IH]; simpl; congruence. Qed.

Lemma missing_sequence_get n i c :
  String.get i (missing_sequence n) = Some c → c = "N"%char.
Proof.
  revert i. induction n as [|n IH]; intros i; simpl; [discriminate|].
  destruct i as [|i]; [by intros [= <-]|apply IH].
Qed.

Lemma foldl_emplace_call_lookup (call : @GenotypeCall Genotype)
    (l : list (SampleIdType * @GenotypeCredibleRegions))
    (acc : gmap SampleIdType GenotypeCall) (sample : SampleIdType) :
  foldl (fun calls p => emplace_call p.1 call calls) acc l !! sample
  = match acc !! sample with
    | Some c => Some c
    | None => if decide (sample ∈ l.*1) then Some call else None
    end.
Proof.
  revert acc. induction l as [|[s r] l IH]; intros acc.
  - simpl. by destruct (acc !! sample).
  - cbn [foldl]. rewrite IH. unfold emplace_call. cbn [fst].
    rewrite fmap_cons. cbn [fst].
    destruct (decide (s = sample)) as [->|Hne].
    + destruct (acc !! sample) as [c|] eqn:Hacc.
      * by rewrite Hacc.
      * rewrite lookup_insert_eq.
        by rewrite decide_True by (apply elem_of_cons; by left).
    + assert (Hl : (match acc !! s with Some _ => acc | None => <[s:=call]> acc end)
                     !! sample = acc !! sample).
      { destruct (acc !! s); [done|]. by rewrite lookup_insert_ne. }
      rewrite Hl. destruct (acc !! sample); [done|].
      destruct (decide (sample ∈ l.*1)).
      * by rewrite decide_True by (apply elem_of_cons; by right).
      * by rewrite decide_False by (rewrite elem_of_cons; intros [?|?]; done).
Qed.

(** C9, as amended.  A call built from a variant whose two alleles are
    equal stores the variant with the reference sequence replaced by as
    many N as the reference sequence had characters, on the same region
    and with the same alternative allele; a variant whose alleles differ
    is stored as it is; the stored alleles are equal exactly when the
    given alleles are equal and their sequence is itself a run of N, the
    empty sequence among them, so that they differ in every other case;
    and the genotype calls hold, for each sample of the credible-regions
    map and for no other, the germline genotype with the given
    posterior. *)
Theorem somatic_call_constructor (variant : Variant)
    (genotype_call : CancerGenotype) (genotype_posteriors quality : float)
    (credible_regions : gmap SampleIdType GenotypeCredibleRegions) :
  let call := make_somatic_call get_germline_genotype variant genotype_call
                genotype_posteriors credible_regions quality in
  (get_ref_allele variant = get_alt_allele variant →
   variant_ call
   = mkVariant
       (mkAllele (allele_region (get_ref_allele variant))
          (missing_sequence
             (String.length (allele_sequence (get_ref_allele variant)))))
       (get_alt_allele variant)
   ∧ String.length (allele_sequence (get_ref_allele (variant_ call)))
     = String.length (allele_sequence (get_ref_allele variant))
   ∧ ∀ i c, String.get i (allele_sequence (get_ref_allele (variant_ call))) = Some c
            → c = "N"%char)
  ∧ (get_ref_allele variant ≠ get_alt_allele variant → variant_ call = variant)
  ∧ (get_ref_allele (variant_ call) = get_alt_allele (variant_ call)
     ↔ get_ref_allele variant = get_alt_allele variant
       ∧ allele_sequence (get_alt_allele variant)
         = missing_sequence
             (String.length (allele_sequence (get_alt_allele variant))))
  ∧ (∀ sample,
     genotype_calls_ call !! sample
     = (fun _ => mkGenotypeCall (get_germline_genotype genotype_call)
                                genotype_posteriors)
         <$> credible_regions !! sample)
  ∧ credible_regions_ call = credible_regions.
Proof.
  intros call.
  split; [|split; [|split; [|split; [|reflexivity]]]].
  - intros Heq. subst call. simpl. unfold allele_eqb.
    rewrite bool_decide_eq_true_2 by done. simpl.
    split; [done|]. split; [apply missing_sequence_length|].
    apply missing_sequence_get.
  - intros Hne. subst call. simpl. unfold allele_eqb.
    by rewrite bool_decide_eq_false_2.
  - subst call. simpl. unfold allele_eqb, mapped_region, ref_sequence_size.
    destruct (decide (get_ref_allele variant = get_alt_allele variant))
      as [Heq|Hne].
    + rewrite bool_decide_eq_true_2 by done. simpl. rewrite Heq.
      destruct (get_alt_allele variant) as [region sequence]. simpl.
      split.
      * intros [= Hn]. split; [done|]. by rewrite <- Hn at 1.
      * intros [_ Hn]. by rewrite <- Hn.
    + rewrite bool_decide_eq_false_2 by done. split; [done|]. by intros [? _].
  - intros sample. subst call. simpl. rewrite foldl_emplace_call_lookup.
    rewrite lookup_empty.
    destruct (credible_regions !! sample) as [r|] eqn:Hs; simpl.
    + rewrite decide_True; [done|].
      apply list_elem_of_fmap. exists (sample, r). split; [done|].
      by apply elem_of_map_to_list.
    + rewrite decide_False; [done|].
      intros Hin. apply list_elem_of_fmap in Hin as [[s r] [-> Hin]].
      apply elem_of_map_to_list in Hin. simpl in *. congruence.
Qed.

End somatic_call.

(** The theorem at the variant ACG to ACG on chr1:100-103: the stored
    reference sequence is NNN. *)
Lemma somatic_call_constructor_witness :
  SomaticCall.variant_
    (SomaticCall.make_somatic_call (fun g : unit => g) SomaticCall.same_alleles
       tt 1%float ∅ 1%float)
  = SomaticCall.mkVariant
      (Haplotype.mkAllele (Region.mkRegion "chr1" 100 103) "NNN")
      (Haplotype.mkAllele (Region.mkRegion "chr1" 100 103) "ACG").
Proof.
  exact (proj1 (proj1 (somatic_call_constructor (fun g : unit => g)
                         SomaticCall.same_alleles tt 1%float 1%float ∅)
                  eq_refl)).
Defined.

(** C9, the claim as it was stated, at the variant N to N on
    chr1:100-101 and at a variant with two empty alleles: the stored
    reference sequence is the run of N of that length, which the
    alternative sequence is as well, and the stored alleles are equal. *)
Lemma somatic_call_of_unknown_base_not_distinct :
  SomaticCall.variant_
    (SomaticCall.make_somatic_call (fun g : unit => g) SomaticCall.unknown_base
       tt 1%float ∅ 1%float)
  = SomaticCall.mkVariant
      (Haplotype.mkAllele (Region.mkRegion "chr1" 100 101) "N")
      (Haplotype.mkAllele (Region.mkRegion "chr1" 100 101) "N")
  ∧ SomaticCall.variant_
      (SomaticCall.make_somatic_call (fun g : unit => g)
         SomaticCall.empty_alleles tt 1%float ∅ 1%float)
    = SomaticCall.mkVariant
        (Haplotype.mkAllele (Region.mkRegion "chr1" 100 100) "")
        (Haplotype.mkAllele (Region.mkRegion "chr1" 100 100) "").
Proof. split; reflexivity. Qed.

(** ** Strand bias *)

Section strand_bias.
Import Region ReadUtils.
Context (round : Q → Q) `{!Rounding round}.

Lemma round_proper x y : (x == y)%Q → (round x == round y)%Q.
Proof.
  intros H. apply Qle_antisym; apply round_monotone; rewrite H; apply Qle_refl.
Qed.

Lemma count_as_rational_nonneg n : (0 <= inject_Z (Z.of_N n))%Q.
Proof. unfold Qle. simpl. lia. Qed.

Lemma to_double_nonneg n : (0 <= to_double round n)%Q.
Proof.
  unfold to_double. rewrite <- round_zero. apply round_monotone.
  apply count_as_rational_nonneg.
Qed.

Lemma to_double_positive n : (0 < n)%N → (1 <= to_double round n)%Q.
Proof.
  intros Hn. unfold to_double. rewrite <- round_one. apply round_monotone.
  unfold Qle. simpl. lia.
Qed.

Lemma to_double_fixed n : (round (to_double round n) == to_double round n)%Q.
Proof. unfold to_double. apply round_idempotent. Qed.

Lemma double_gt_true a : (1 <= a)%Q → double_gt a 0 = true.
Proof.
  intros Ha. unfold double_gt. destruct (Qle_bool a 0) eqn:Hle; [|done].
  apply Qle_bool_iff in Hle. exfalso.
  apply (Qlt_irrefl 0). apply Qlt_le_trans with 1%Q; [reflexivity|].
  by apply Qle_trans with a.
Qed.

Lemma double_gt_false a : (a == 0)%Q → double_gt a 0 = false.
Proof.
  intros Ha. unfold double_gt.
  assert (Qle_bool a 0 = true) as ->; [|done].
  apply Qle_bool_iff. rewrite Ha. apply Qle_refl.
Qed.

(** The body of [strand_bias] on any two counts. *)
Lemma strand_bias_of_fraction forward reverse :
  forward_fraction round forward reverse (strand_bias_of round forward reverse).
Proof.
  unfold forward_fraction, strand_bias_of. split.
  - intros Hpos.
    set (nf := to_double round forward). set (nr := to_double round reverse).
    assert (Hnf : (0 <= nf)%Q) by apply to_double_nonneg.
    assert (Hnr : (0 <= nr)%Q) by apply to_double_nonneg.
    assert (Hsum : (1 <= nf + nr)%Q).
    { destruct (N.eq_dec forward 0%N) as [->|Hf].
      - assert (0 < reverse)%N by lia.
        apply Qle_trans with (0 + nr)%Q.
        + rewrite Qplus_0_l. by apply to_double_positive.
        + apply Qplus_le_compat; [exact Hnf|apply Qle_refl].
      - apply Qle_trans with (nf + 0)%Q.
        + rewrite Qplus_0_r. apply to_double_positive. lia.
        + apply Qplus_le_compat; [apply Qle_refl|exact Hnr]. }
    assert (Htotal : (1 <= double_add round nf nr)%Q).
    { unfold double_add. rewrite <- round_one. by apply round_monotone. }
    assert (Hle : (nf <= double_add round nf nr)%Q).
    { unfold double_add. subst nf. rewrite <- (to_double_fixed forward) at 1.
      apply round_monotone.
      apply Qle_trans with (to_double round forward + 0)%Q.
      - rewrite Qplus_0_r. apply Qle_refl.
      - apply Qplus_le_compat; [apply Qle_refl|exact Hnr]. }
    rewrite (double_gt_true _ Htotal).
    assert (Hpos' : (0 < double_add round nf nr)%Q)
      by (apply Qlt_le_trans with 1%Q; [reflexivity|exact Htotal]).
    split; [reflexivity|]. unfold double_div. split.
    + rewrite <- round_zero. apply round_monotone.
      apply Qle_shift_div_l; [exact Hpos'|]. by rewrite Qmult_0_l.
    + rewrite <- round_one. apply round_monotone.
      apply Qle_shift_div_r; [exact Hpos'|]. by rewrite Qmult_1_l.
  - intros Hzero.
    assert (forward = 0%N) as -> by lia. assert (reverse = 0%N) as -> by lia.
    rewrite double_gt_false; [reflexivity|].
    unfold double_add, to_double. simpl.
    rewrite (round_proper (round 0 + round 0) 0).
    + apply round_zero.
    + rewrite round_zero. reflexivity.
Qed.

(** C10.  For a read container, without and with a region, and for a
    map from sample to reads, without and with a region: when the count
    of forward and reverse reads is not zero, [strand_bias] is the
    forward count divided by the total, and lies between 0 and 1; when
    it is zero, [strand_bias] is 0 and no division is made. *)
Theorem strand_bias_total_and_bounded (reads : list AlignedRead)
    (sample_reads : list (string * list AlignedRead)) (region : GenomicRegion) :
  forward_fraction round (count_forward reads) (count_reverse reads)
    (strand_bias round reads)
  ∧ forward_fraction round (count_forward_in reads region)
      (count_reverse_in reads region) (strand_bias_in round reads region)
  ∧ forward_fraction round (accumulate count_forward sample_reads)
      (accumulate count_reverse sample_reads)
      (strand_bias_map round sample_reads)
  ∧ forward_fraction round
      (accumulate (fun r => count_forward_in r region) sample_reads)
      (accumulate (fun r => count_reverse_in r region) sample_reads)
      (strand_bias_map_in round sample_reads region).
Proof. split; [|split; [|split]]; apply strand_bias_of_fraction. Qed.

End strand_bias.

#[global] Instance exact_rounding : ReadUtils.Rounding ReadUtils.exact.
Proof.
  split; unfold ReadUtils.exact.
  - intros x y H. exact H.
  - intros x. reflexivity.
  - reflexivity.
  - reflexivity.
Defined.

#[global] Instance truncate_rounding : ReadUtils.Rounding ReadUtils.truncate.
Proof.
  assert (Hfix : ∀ z : Z, (ReadUtils.truncate (inject_Z z / 1024) == inject_Z z / 1024)%Q).
  { intros z. unfold ReadUtils.truncate.
    assert ((inject_Z z / 1024 * 1024 == inject_Z z)%Q) as -> by (field; discriminate).
    by rewrite Qfloor_Z. }
  split.
  - intros x y H. unfold ReadUtils.truncate.
    apply Qmult_le_compat_r; [|discriminate].
    rewrite <- Zle_Qle. apply Qfloor_resp_le.
    apply Qmult_le_compat_r; [exact H|discriminate].
  - intros x. apply Hfix.
  - reflexivity.
  - reflexivity.
Qed.

(** The theorem at three reads, two forward and one reverse, in exact
    arithmetic: the bias is 2/3. *)
Lemma strand_bias_total_and_bounded_witness :
  (ReadUtils.strand_bias ReadUtils.exact ReadUtils.sample_reads == 2 # 3)%Q
  ∧ (0 <= ReadUtils.strand_bias ReadUtils.exact ReadUtils.sample_reads)%Q
  ∧ (ReadUtils.strand_bias ReadUtils.exact ReadUtils.sample_reads <= 1)%Q.
Proof.
  destruct (strand_bias_total_and_bounded ReadUtils.exact ReadUtils.sample_reads []
              (Region.mkRegion "chr1" 0 200)) as [[Hpos _] _].
  destruct (Hpos eq_refl) as [Hvalue Hbounds].
  split; [rewrite Hvalue; reflexivity|exact Hbounds].
Defined.

(** ** Haplotype construction *)

Section haplotype.
Import Region Haplotype.
Local Open Scope list_scope.
Variable reference : GenomicRegion → string.
Variable moved_from : Allele → Allele.

Local Abbreviation region_of := allele_region.

Lemma is_after_inv lhs rhs :
  is_after lhs rhs = true →
  contig_name lhs = contig_name rhs
  ∧ (region_end rhs <= region_begin lhs)%N ∧ lhs ≠ rhs.
Proof.
  unfold is_after, is_same_contig. intros H.
  apply andb_prop in H as [H Hne]. apply andb_prop in H as [Hc Hle].
  apply String.eqb_eq in Hc. apply N.leb_le in Hle.
  apply negb_true_iff, bool_decide_eq_false in Hne. done.
Qed.

Lemma is_after_intro lhs rhs :
  contig_name lhs = contig_name rhs →
  (region_end rhs <= region_begin lhs)%N → lhs ≠ rhs →
  is_after lhs rhs = true.
Proof.
  intros Hc Hle Hne. unfold is_after, is_same_contig.
  rewrite Hc, String.eqb_refl. simpl.
  apply N.leb_le in Hle. rewrite Hle. simpl.
  apply negb_true_iff. by apply bool_decide_eq_false.
Qed.

(** Of two well-formed regions the second of which is after the first,
    adjacency means that the second begins where the first ends. *)
Lemma adjacent_after lhs rhs :
  well_formed lhs → well_formed rhs →
  is_after rhs lhs = true → are_adjacent lhs rhs = true →
  region_end lhs = region_begin rhs.
Proof.
  unfold well_formed, are_adjacent. intros Hl Hr Hafter Hadj.
  apply is_after_inv in Hafter as (_ & Hle & _).
  apply andb_prop in Hadj as [_ Hadj].
  apply orb_prop in Hadj as [H|H]; apply N.eqb_eq in H; lia.
Qed.

Lemma not_adjacent_after lhs rhs :
  is_after rhs lhs = true → are_adjacent lhs rhs = false →
  region_end lhs ≠ region_begin rhs.
Proof.
  unfold are_adjacent, is_same_contig. intros Hafter Hadj Heq.
  apply is_after_inv in Hafter as (Hc & _ & _).
  rewrite <- Hc, String.eqb_refl in Hadj. simpl in Hadj.
  apply orb_false_elim in Hadj as [_ H]. apply N.eqb_neq in H. done.
Qed.

(** The intervening region of two regions that are not adjacent lies
    after the first and before the second, touching both. *)
Lemma intervening_between lhs rhs :
  is_after rhs lhs = true → are_adjacent lhs rhs = false →
  let gap := get_intervening lhs rhs in
  well_formed gap
  ∧ is_after gap lhs = true ∧ region_end lhs = region_begin gap
  ∧ is_after rhs gap = true ∧ region_end gap = region_begin rhs.
Proof.
  intros Hafter Hadj gap.
  pose proof (not_adjacent_after _ _ Hafter Hadj) as Hne.
  apply is_after_inv in Hafter as (Hc & Hle & _).
  subst gap. unfold get_intervening, well_formed. simpl.
  split; [exact Hle|]. split; [|split; [reflexivity|split; [|reflexivity]]].
  - apply is_after_intro; simpl; [done|lia|].
    intros Heq. apply Hne. rewrite <- Heq. reflexivity.
  - apply is_after_intro; simpl; [done|lia|].
    intros Heq. apply Hne. rewrite Heq. reflexivity.
Qed.

Lemma chained_snoc l a :
  chained l →
  (∀ b, last l = Some b →
        is_after (region_of a) (region_of b) = true
        ∧ region_end (region_of b) = region_begin (region_of a)) →
  chained (l ++ [a]).
Proof.
  induction 1 as [|x|x y l Hxy Hend Hrest IH]; intros Hlast; simpl.
  - constructor.
  - destruct (Hlast x eq_refl) as [Hafter Heq]. by repeat constructor.
  - constructor; [done..|]. apply IH. intros b Hb. apply Hlast.
    by rewrite last_cons_cons.
Qed.

Lemma chained_cons_head a l :
  chained l →
  (∀ b, head l = Some b →
        is_after (region_of b) (region_of a) = true
        ∧ region_end (region_of a) = region_begin (region_of b)) →
  chained (a :: l).
Proof.
  intros Hl Hhead. destruct Hl as [|x|x y l Hxy Hend Hrest].
  - constructor.
  - destruct (Hhead x eq_refl). by repeat constructor.
  - destruct (Hhead x eq_refl). constructor; [done..|]. by constructor.
Qed.

(** In a chain of well-formed alleles every allele ends before any
    later one begins, and begins no later. *)
Lemma chained_pairwise l :
  ordered_gap_filled l →
  ∀ i j x y, i < j → l !! i = Some x → l !! j = Some y →
    (region_end (region_of x) <= region_begin (region_of y))%N
    ∧ (region_begin (region_of x) <= region_begin (region_of y))%N
    ∧ contig_name (region_of x) = contig_name (region_of y).
Proof.
  intros [Hwf Hch].
  assert (Hnext : ∀ a l', chained (a :: l') → Forall (fun a => well_formed (region_of a)) (a :: l') →
            ∀ j y, (a :: l') !! S j = Some y →
              (region_end (region_of a) <= region_begin (region_of y))%N
              ∧ contig_name (region_of a) = contig_name (region_of y)).
  { intros a l' Hc. remember (a :: l') as k eqn:Hk. revert a l' Hk.
    induction Hc as [|x|x y' l' Hxy Hend Hrest IH]; intros a k' Hk Hw j y Hy.
    - discriminate.
    - injection Hk as <- <-. by rewrite lookup_cons_ne_0, lookup_nil in Hy.
    - injection Hk as <- <-. apply is_after_inv in Hxy as (Hc' & Hle & _).
      destruct j as [|j]; simpl in Hy.
      + injection Hy as <-. split; [lia|done].
      + apply Forall_cons in Hw as [Hwx Hw].
        destruct (IH y' l' eq_refl Hw j y Hy) as [Hle' Hc''].
        apply Forall_cons in Hw as [Hwy _]. unfold well_formed in *.
        split; [lia|congruence]. }
  induction l as [|a l IH]; intros i j x y Hij Hi Hj.
  - by rewrite lookup_nil in Hi.
  - destruct j as [|j]; [lia|]. destruct i as [|i]; simpl in Hi.
    + injection Hi as <-. destruct (Hnext a l Hch Hwf j y Hj) as [Hle Hc].
      apply Forall_cons in Hwf as [Hwa _]. unfold well_formed in Hwa.
      repeat split; [lia|lia|done].
    + apply Forall_cons in Hwf as [_ Hwf]. simpl in Hj.
      apply (IH Hwf) with (i := i) (j := j); [|lia|done..].
      inversion Hch; subst; [constructor|done].
Qed.

Lemma push_back_ok h T a :
  match last (explicit_alleles_ h) with
  | Some back => is_after (region_of a) (region_of back) = true
  | None => True
  end →
  push_back reference moved_from h T a
  = Ok (mkHaplotype
          (get_encompassing (region_ h)
             (region_of (after_forward moved_from T a)))
          (explicit_alleles_ h
             ++ match last (explicit_alleles_ h) with
                | Some back =>
                    if are_adjacent (region_of back) (region_of a) then []
                    else [get_intervening_reference_allele reference back a]
                | None => []
                end ++ [a])
          "" 0).
Proof.
  unfold push_back. destruct (last (explicit_alleles_ h)) as [back|].
  - intros ->. simpl.
    destruct (are_adjacent (region_of back) (region_of a)); simpl;
      unfold reset_cached_sequence; simpl; by rewrite <- ?app_assoc.
  - intros _. reflexivity.
Qed.

Lemma push_front_ok h T a :
  match head (explicit_alleles_ h) with
  | Some front => is_after (region_of front) (region_of a) = true
  | None => True
  end →
  push_front reference moved_from h T a
  = Ok (mkHaplotype
          (get_encompassing (region_ h)
             (region_of (after_forward moved_from T a)))
          (a :: match head (explicit_alleles_ h) with
                | Some front =>
                    if are_adjacent (region_of a) (region_of front) then []
                    else [get_intervening_reference_allele reference a front]
                | None => []
                end ++ explicit_alleles_ h)
          "" 0).
Proof.
  unfold push_front. destruct (explicit_alleles_ h) as [|front l]; simpl.
  - intros _. reflexivity.
  - intros ->. simpl.
    by destruct (are_adjacent (region_of a) (region_of front)).
Qed.

Lemma push_back_throw h T a back :
  last (explicit_alleles_ h) = Some back →
  is_after (region_of a) (region_of back) = false →
  push_back reference moved_from h T a
  = Throw (RuntimeError "Haplotype::push_back called with out-of-order Allele").
Proof. intros Hlast Hafter. unfold push_back. by rewrite Hlast, Hafter. Qed.

Lemma push_front_throw h T a front :
  head (explicit_alleles_ h) = Some front →
  is_after (region_of front) (region_of a) = false →
  push_front reference moved_from h T a
  = Throw (RuntimeError "Haplotype::push_front called with out-of-order Allele").
Proof.
  intros Hhead Hafter. unfold push_front.
  destruct (explicit_alleles_ h) as [|x l]; [discriminate|].
  injection Hhead as ->. by rewrite Hafter.
Qed.

Local Abbreviation known seen :=
  (Forall (fun x => x ∈ seen ∨ is_reference_allele reference x)).

Lemma intervening_is_reference lhs rhs :
  is_reference_allele reference (get_intervening_reference_allele reference lhs rhs).
Proof. reflexivity. Qed.

Lemma known_mono (seen seen' l : list Allele) :
  (∀ x, x ∈ seen → x ∈ seen') → known seen l → known seen' l.
Proof.
  intros Hsub Hk. eapply Forall_impl; [exact Hk|]. intros x [H|H]; auto.
Qed.

Lemma push_back_preserves h T a h' seen :
  well_formed (region_of a) →
  ordered_gap_filled (explicit_alleles_ h) →
  known seen (explicit_alleles_ h) →
  push_back reference moved_from h T a = Ok h' →
  ordered_gap_filled (explicit_alleles_ h')
  ∧ known (seen ++ [a]) (explicit_alleles_ h').
Proof.
  intros Hwa [Hwf Hch] Hknown Hpush.
  assert (Hknown' : known (seen ++ [a]) (explicit_alleles_ h)).
  { eapply known_mono; [|exact Hknown]. intros x Hx. apply elem_of_app. by left. }
  assert (Ha : a ∈ seen ++ [a]) by (apply elem_of_app; right; by left).
  destruct (last (explicit_alleles_ h)) as [back|] eqn:Hlast.
  - destruct (is_after (region_of a) (region_of back)) eqn:Hafter;
      [|by rewrite (push_back_throw _ _ _ _ Hlast Hafter) in Hpush].
    rewrite push_back_ok in Hpush by (by rewrite Hlast).
    injection Hpush as <-. simpl. rewrite Hlast.
    assert (Hwb : well_formed (region_of back)).
    { apply last_Some_elem_of in Hlast.
      by apply (proj1 (Forall_forall _ _) Hwf) in Hlast. }
    destruct (are_adjacent (region_of back) (region_of a)) eqn:Hadj; simpl.
    + split; [split|].
      * apply Forall_app. split; [done|by constructor].
      * apply chained_snoc; [done|]. intros b Hb.
        rewrite Hlast in Hb. injection Hb as <-.
        split; [done|by apply adjacent_after].
      * apply Forall_app. split; [done|]. constructor; [by left|constructor].
    + destruct (intervening_between _ _ Hafter Hadj) as (Hwg & Hg1 & Hg2 & Hg3 & Hg4).
      set (g := get_intervening_reference_allele reference back a).
      replace (explicit_alleles_ h ++ [g; a])
        with ((explicit_alleles_ h ++ [g]) ++ [a]) by (by rewrite <- app_assoc).
      split; [split|].
      * apply Forall_app. split; [|by constructor].
        apply Forall_app. split; [done|by constructor].
      * apply chained_snoc.
        -- apply chained_snoc; [done|]. intros b Hb.
           rewrite Hlast in Hb. by injection Hb as <-.
        -- intros b Hb. rewrite last_snoc in Hb. by injection Hb as <-.
      * apply Forall_app. split; [|constructor; [by left|constructor]].
        apply Forall_app. split; [done|].
        constructor; [right; apply intervening_is_reference|constructor].
  - rewrite push_back_ok in Hpush by (by rewrite Hlast).
    injection Hpush as <-. simpl. rewrite Hlast.
    apply last_None in Hlast. rewrite Hlast. simpl.
    split; [split|]; repeat constructor; done.
Qed.

Lemma push_front_preserves h T a h' seen :
  well_formed (region_of a) →
  ordered_gap_filled (explicit_alleles_ h) →
  known seen (explicit_alleles_ h) →
  push_front reference moved_from h T a = Ok h' →
  ordered_gap_filled (explicit_alleles_ h')
  ∧ known (seen ++ [a]) (explicit_alleles_ h').
Proof.
  intros Hwa [Hwf Hch] Hknown Hpush.
  assert (Hknown' : known (seen ++ [a]) (explicit_alleles_ h)).
  { eapply known_mono; [|exact Hknown]. intros x Hx. apply elem_of_app. by left. }
  assert (Ha : a ∈ seen ++ [a]) by (apply elem_of_app; right; by left).
  destruct (head (explicit_alleles_ h)) as [front|] eqn:Hhead.
  - destruct (is_after (region_of front) (region_of a)) eqn:Hafter;
      [|by rewrite (push_front_throw _ _ _ _ Hhead Hafter) in Hpush].
    rewrite push_front_ok in Hpush by (by rewrite Hhead).
    injection Hpush as <-. simpl. rewrite Hhead.
    assert (Hwb : well_formed (region_of front)).
    { destruct (explicit_alleles_ h) as [|x l]; [discriminate|].
      injection Hhead as ->. by apply Forall_cons in Hwf as [? _]. }
    destruct (are_adjacent (region_of a) (region_of front)) eqn:Hadj; simpl.
    + split; [split|].
      * by constructor.
      * apply chained_cons_head; [done|]. intros b Hb.
        rewrite Hhead in Hb. injection Hb as <-.
        split; [done|by apply adjacent_after].
      * constructor; [by left|done].
    + destruct (intervening_between _ _ Hafter Hadj) as (Hwg & Hg1 & Hg2 & Hg3 & Hg4).
      split; [split|].
      * constructor; [done|]. by constructor.
      * apply chained_cons_head.
        -- apply chained_cons_head; [done|]. intros b Hb.
           rewrite Hhead in Hb. by injection Hb as <-.
        -- intros b Hb. simpl in Hb. by injection Hb as <-.
      * constructor; [by left|].
        constructor; [right; apply intervening_is_reference|done].
  - rewrite push_front_ok in Hpush by (by rewrite Hhead).
    injection Hpush as <-. simpl. rewrite Hhead.
    destruct (explicit_alleles_ h); [|discriminate]. simpl.
    split; [split|]; repeat constructor; done.
Qed.

Lemma run_preserves calls h h' seen :
  Forall (fun c => well_formed (region_of (pushed c))) calls →
  ordered_gap_filled (explicit_alleles_ h) →
  known seen (explicit_alleles_ h) →
  run reference moved_from calls h = Ok h' →
  ordered_gap_filled (explicit_alleles_ h')
  ∧ known (seen ++ (pushed <$> calls)) (explicit_alleles_ h').
Proof.
  intros Hwf. revert h seen. induction Hwf as [|c calls Hc _ IH]; intros h seen Hinv Hk.
  - simpl. intros [= <-]. by rewrite app_nil_r.
  - simpl.
    destruct (apply_push reference moved_from h c) as [h1|e] eqn:Hstep;
      [|discriminate].
    simpl. intros Hrun.
    assert (Hone : ordered_gap_filled (explicit_alleles_ h1)
                   ∧ known (seen ++ [pushed c]) (explicit_alleles_ h1)).
    { destruct c as [T a|T a]; simpl in *;
        [by eapply push_back_preserves|by eapply push_front_preserves]. }
    destruct Hone as [Hinv1 Hk1].
    rewrite cons_middle, app_assoc. by apply (IH h1).
Qed.

(** What the two methods do on a haplotype [h] with an allele [a] of
    either value category.  [push_back] throws a runtime error when the
    haplotype has explicit alleles and the allele is not after the last of
    them; otherwise it appends the allele, after the reference allele of
    the intervening region when the allele is not adjacent to the last
    one, and makes the region the region encompassing the old region and
    the argument as the forward left it.  [push_front] does the same at
    the front. *)
Lemma push_outcomes (h : Haplotype) (T : value_category) (a : Allele) :
  (∀ back, last (explicit_alleles_ h) = Some back →
     is_after (region_of a) (region_of back) = false →
     push_back reference moved_from h T a
     = Throw (RuntimeError "Haplotype::push_back called with out-of-order Allele"))
  ∧ (match last (explicit_alleles_ h) with
     | Some back => is_after (region_of a) (region_of back) = true
     | None => True
     end →
     ∃ h', push_back reference moved_from h T a = Ok h'
       ∧ explicit_alleles_ h'
         = explicit_alleles_ h
           ++ match last (explicit_alleles_ h) with
              | Some back =>
                  if are_adjacent (region_of back) (region_of a) then []
                  else [get_intervening_reference_allele reference back a]
              | None => []
              end ++ [a]
       ∧ region_ h'
         = get_encompassing (region_ h)
             (region_of (after_forward moved_from T a)))
  ∧ (∀ front, head (explicit_alleles_ h) = Some front →
     is_after (region_of front) (region_of a) = false →
     push_front reference moved_from h T a
     = Throw (RuntimeError "Haplotype::push_front called with out-of-order Allele"))
  ∧ (match head (explicit_alleles_ h) with
     | Some front => is_after (region_of front) (region_of a) = true
     | None => True
     end →
     ∃ h', push_front reference moved_from h T a = Ok h'
       ∧ explicit_alleles_ h'
         = a :: match head (explicit_alleles_ h) with
                | Some front =>
                    if are_adjacent (region_of a) (region_of front) then []
                    else [get_intervening_reference_allele reference a front]
                | None => []
                end ++ explicit_alleles_ h
       ∧ region_ h'
         = get_encompassing (region_ h)
             (region_of (after_forward moved_from T a))).
Proof.
  split; [intros back; apply push_back_throw|].
  split.
  { intros Hok. eexists. split; [by apply push_back_ok|]. by simpl. }
  split; [intros front; apply push_front_throw|].
  intros Hok. eexists. split; [by apply push_front_ok|]. by simpl.
Qed.

(** With an lvalue the region is extended to encompass the allele. *)
Lemma push_lvalue_encompasses (h h' : Haplotype) (c : push) :
  category c = lvalue →
  apply_push reference moved_from h c = Ok h' →
  region_ h' = get_encompassing (region_ h) (region_of (pushed c))
  ∧ (contig_name (region_ h) = contig_name (region_of (pushed c)) →
     contains (region_ h') (region_of (pushed c)) = true
     ∧ contains (region_ h') (region_ h) = true).
Proof.
  assert (Hcontains : ∀ r q : GenomicRegion, contig_name r = contig_name q →
            contains (get_encompassing r q) q = true
            ∧ contains (get_encompassing r q) r = true).
  { intros r q Hc. unfold contains, get_encompassing, is_same_contig. simpl.
    rewrite <- Hc, String.eqb_refl. simpl.
    split; apply andb_true_intro; split; apply N.leb_le; lia. }
  intros HT Hpush.
  assert (Hregion : region_ h'
                    = get_encompassing (region_ h) (region_of (pushed c))).
  { destruct c as [T a|T a]; simpl in HT; subst T; simpl in *.
    - unfold push_back in Hpush.
      destruct (match last (explicit_alleles_ h) with
                | Some _ => _ | None => _ end); simpl in Hpush;
        [|discriminate]. by injection Hpush as <-.
    - unfold push_front in Hpush.
      destruct (match explicit_alleles_ h with
                | [] => _ | _ :: _ => _ end); simpl in Hpush;
        [|discriminate]. by injection Hpush as <-. }
  split; [exact Hregion|]. rewrite Hregion. apply Hcontains.
Qed.

(** After any run of calls that throws nothing, with alleles of either
    value category that have well-formed regions and from a fresh
    haplotype, the explicit alleles are sorted, do not overlap, each
    begins where the one before it ends, and each is one of the alleles
    pushed or a reference allele. *)
Lemma push_run_ordered_gap_filled (calls : list push) (region : GenomicRegion)
    (h' : Haplotype) :
  Forall (fun c => well_formed (region_of (pushed c))) calls →
  run reference moved_from calls (make_haplotype region) = Ok h' →
  ordered_gap_filled (explicit_alleles_ h')
  ∧ Forall (fun x => x ∈ pushed <$> calls ∨ is_reference_allele reference x)
           (explicit_alleles_ h')
  ∧ ∀ i j x y, i < j →
      explicit_alleles_ h' !! i = Some x → explicit_alleles_ h' !! j = Some y →
      (region_end (region_of x) <= region_begin (region_of y))%N
      ∧ (region_begin (region_of x) <= region_begin (region_of y))%N
      ∧ contig_name (region_of x) = contig_name (region_of y).
Proof.
  intros Hwf Hrun.
  destruct (run_preserves calls (make_haplotype region) h' [] Hwf) as [Hinv Hk].
  - split; constructor.
  - constructor.
  - exact Hrun.
  - split; [exact Hinv|]. split; [exact Hk|]. by apply chained_pairwise.
Qed.

(** The region after a call with an rvalue is the region encompassing
    the old region and the moved-from argument. *)
Lemma push_rvalue_region (h h' : Haplotype) (c : push) :
  category c = rvalue →
  apply_push reference moved_from h c = Ok h' →
  region_ h'
  = get_encompassing (region_ h) (region_of (moved_from (pushed c))).
Proof.
  intros HT Hpush. destruct c as [T a|T a]; simpl in HT; subst T; simpl in *.
  - unfold push_back in Hpush.
    destruct (match last (explicit_alleles_ h) with
              | Some _ => _ | None => _ end); simpl in Hpush;
      [|discriminate]. by injection Hpush as <-.
  - unfold push_front in Hpush.
    destruct (match explicit_alleles_ h with
              | [] => _ | _ :: _ => _ end); simpl in Hpush;
      [|discriminate]. by injection Hpush as <-.
Qed.

End haplotype.


(** ** Unmapped contigs *)

Section unmapped_contigs.
Import OptionCollation Region SearchRegions CallingComponents.

Lemma foldl_delete_lookup (l : list ContigName) (m : InputRegionMap) contig :
  foldl (fun result c => delete c result) m l !! contig
  = if decide (contig ∈ l) then None else m !! contig.
Proof.
  revert m. induction l as [|c l IH]; intros m.
  - cbn [foldl]. by rewrite decide_False by apply not_elem_of_nil.
  - cbn [foldl]. rewrite IH. destruct (decide (contig ∈ l)) as [Hin|Hout].
    + by rewrite decide_True by (by right).
    + destruct (decide (c = contig)) as [->|Hne].
      * rewrite lookup_delete_eq. by rewrite decide_True by (by left).
      * rewrite lookup_delete_ne by done.
        by rewrite decide_False by (rewrite elem_of_cons; intros [?|?]; done).
Qed.

Variable has_reads : GenomicRegion → outcome bool.

Lemma elem_of_unmapped reference contig :
  contig ∈ get_unmapped_contigs has_reads reference
  ↔ contig ∈ contig_names reference ∧ is_unmapped has_reads reference contig = true.
Proof.
  unfold get_unmapped_contigs, copy_unmapped_contigs.
  rewrite !list_elem_of_In, filter_In. reflexivity.
Qed.

Lemma all_mapped_false reference :
  all_reference_contigs_mapped has_reads reference = false
  ↔ ∃ contig, contig ∈ contig_names reference
              ∧ is_unmapped has_reads reference contig = true.
Proof.
  unfold all_reference_contigs_mapped, is_unmapped.
  induction (contig_names reference) as [|c l IH]; simpl.
  - split; [discriminate|]. intros (c & Hc & _). by apply elem_of_nil in Hc.
  - destruct (has_reads (contig_region reference c)) eqn:Hc; simpl.
    + rewrite IH. split.
      * intros (c' & Hin & Hun). exists c'. split; [by right|done].
      * intros (c' & Hin & Hun). exists c'. split; [|done].
        apply elem_of_cons in Hin as [->|Hin]; [|done].
        by rewrite Hc in Hun.
    + split; [|done]. intros _. exists c. split; [by left|]. by rewrite Hc.
Qed.

Lemma get_search_regions_ignoring regions options reference :
  ignore_unmapped_contigs options = Ok true →
  get_search_regions has_reads regions options reference
  = Ok (foldl (fun result c => delete c result) regions
              (get_unmapped_contigs has_reads reference)).
Proof.
  intros Hflag. unfold get_search_regions. rewrite Hflag. simpl.
  by destruct (get_unmapped_contigs has_reads reference).
Qed.

(** C6, as amended.  With ignore-unmapped-contigs set, the search
    regions lose exactly the reference contigs on which the query
    [has_reads] throws, the other contigs keep their regions, the output
    file is created and no UnmatchedReference error is raised.  With the
    option not set, if [has_reads] throws on some reference contig then
    collation throws the user error UnmatchedReference and the output
    file has not been created. *)
Theorem unmapped_contigs_ignored_or_refused (regions : InputRegionMap)
    (options : OptionMap) (reference : ReferenceGenome) :
  (ignore_unmapped_contigs options = Ok true →
   ∃ m, get_search_regions has_reads regions options reference = Ok m
     ∧ (∀ contig, contig ∈ contig_names reference →
          is_unmapped has_reads reference contig = true → m !! contig = None)
     ∧ (∀ contig, ¬ (contig ∈ contig_names reference
                     ∧ is_unmapped has_reads reference contig = true) →
          m !! contig = regions !! contig)
     ∧ ∃ components,
         collate_genome_calling_components has_reads regions options reference
         = (components, [OutputFileCreated])
         ∧ components ≠ Throw UnmatchedReference
         ∧ ∀ c, components = Ok c → CallingComponents.regions c = m)
  ∧ (ignore_unmapped_contigs options = Ok false →
     (∃ contig, contig ∈ contig_names reference
                ∧ is_unmapped has_reads reference contig = true) →
     collate_genome_calling_components has_reads regions options reference
     = (Throw UnmatchedReference, [])
     ∧ error_category UnmatchedReference = UserError).
Proof.
  split.
  - intros Hflag. eexists. split; [by apply get_search_regions_ignoring|].
    split; [|split].
    + intros contig Hin Hun. rewrite foldl_delete_lookup.
      by rewrite decide_True by (by apply elem_of_unmapped).
    + intros contig Hnot. rewrite foldl_delete_lookup.
      by rewrite decide_False by (by rewrite elem_of_unmapped).
    + unfold collate_genome_calling_components. rewrite Hflag. simpl.
      eexists. split; [reflexivity|]. unfold make_components.
      rewrite (get_search_regions_ignoring _ _ _ Hflag). simpl.
      unfold get_contig_output_order, at_.
      destruct (options !! "contig-output-order") as [[]|]; simpl;
        (split; [discriminate|]); intros c Hc; try discriminate.
      by injection Hc as <-.
  - intros Hflag Hex. unfold collate_genome_calling_components.
    rewrite Hflag. apply all_mapped_false in Hex. rewrite Hex. done.
Qed.

End unmapped_contigs.

(** The amended claim at a reference of chr1 and chr2 read by a manager
    that knows chr1 only: with the option set chr2 goes and chr1 stays,
    with the option not set collation throws before any output. *)
Lemma unmapped_contigs_ignored_or_refused_witness :
  (∃ m, CallingComponents.get_search_regions CallingComponents.only_chr1
          CallingComponents.whole_genome CallingComponents.ignoring
          CallingComponents.two_contigs = Ok m
        ∧ m !! "chr2" = None)
  ∧ CallingComponents.collate_genome_calling_components CallingComponents.only_chr1
      CallingComponents.whole_genome CallingComponents.not_ignoring
      CallingComponents.two_contigs
    = (Throw UnmatchedReference, []).
Proof.
  pose proof (unmapped_contigs_ignored_or_refused CallingComponents.only_chr1
                CallingComponents.whole_genome CallingComponents.ignoring
                CallingComponents.two_contigs) as [Hset _].
  pose proof (unmapped_contigs_ignored_or_refused CallingComponents.only_chr1
                CallingComponents.whole_genome CallingComponents.not_ignoring
                CallingComponents.two_contigs) as [_ Hunset].
  split.
  - destruct (Hset eq_refl) as (m & Hm & Hgone & _).
    exists m. split; [exact Hm|]. apply Hgone; [|reflexivity].
    apply elem_of_cons. right. apply elem_of_cons. by left.
  - apply Hunset; [reflexivity|].
    exists "chr2". split; [|reflexivity].
    apply elem_of_cons. right. apply elem_of_cons. by left.
Defined.

(** C6, as stated, fails.  A read manager that finds chr1 and reports no
    read on it: with ignore-unmapped-contigs set, chr1 has no mapped read
    and is still among the search regions. *)
Lemma contig_without_reads_is_kept :
  OptionCollation.ignore_unmapped_contigs CallingComponents.ignoring = Ok true
  ∧ "chr1" ∈ CallingComponents.contig_names CallingComponents.two_contigs
  ∧ CallingComponents.no_reads_anywhere
      (CallingComponents.contig_region CallingComponents.two_contigs "chr1")
    = Ok false
  ∧ ∃ m, CallingComponents.get_search_regions CallingComponents.no_reads_anywhere
           CallingComponents.whole_genome CallingComponents.ignoring
           CallingComponents.two_contigs = Ok m
         ∧ m !! "chr1" = Some [Region.mkRegion "chr1" 0 1000].
Proof.
  split; [reflexivity|]. split; [by left|]. split; [reflexivity|].
  eexists. split; reflexivity.
Qed.

(** ** Search regions *)

Section search_regions.
Import Region SearchRegions.
Local Open Scope list_scope.

(** *** The flat set *)

Lemma elem_of_emplace x y set : x ∈ emplace y set ↔ x = y ∨ x ∈ set.
Proof.
  induction set as [|z set IH]; simpl.
  - rewrite list_elem_of_singleton, elem_of_nil. tauto.
  - case_bool_decide as Hyz.
    + subst z. rewrite elem_of_cons. tauto.
    + destruct (region_lt y z).
      * rewrite elem_of_cons. tauto.
      * rewrite !elem_of_cons, IH. tauto.
Qed.

Lemma elem_of_insert_range x range set :
  x ∈ insert_range range set ↔ x ∈ range ∨ x ∈ set.
Proof.
  unfold insert_range. revert set.
  induction range as [|y range IH]; intros set; simpl.
  - rewrite elem_of_nil. tauto.
  - rewrite IH, elem_of_emplace, elem_of_cons. tauto.
Qed.

Lemma insert_range_app range1 range2 set :
  insert_range (range1 ++ range2) set = insert_range range2 (insert_range range1 set).
Proof. unfold insert_range. apply foldl_app. Qed.

(** One step of [get_unskipped] inserts the pieces. *)
Lemma get_unskipped_step_pieces skips result region :
  get_unskipped_step skips result region
  = insert_range (unskipped_pieces skips region) result.
Proof.
  unfold get_unskipped_step, unskipped_pieces.
  destruct (overlap_range skips region) as [|front rest]; [reflexivity|].
  destruct (contains front region); cbn [negb]; [reflexivity|].
  generalize (List.last (front :: rest) front) as back.
  generalize (extract_intervening_regions (front :: rest)) as chunks.
  intros chunks back. rewrite !insert_range_app.
  destruct (begins_before region front); destruct (ends_before back region);
    reflexivity.
Qed.

Lemma elem_of_foldl_step skips regions result x :
  x ∈ foldl (get_unskipped_step skips) result regions
  ↔ (∃ r, r ∈ regions ∧ x ∈ unskipped_pieces skips r) ∨ x ∈ result.
Proof.
  revert result. induction regions as [|r regions IH]; intros result; simpl.
  - split; [by right|]. intros [(r & Hr & _)|H]; [by apply elem_of_nil in Hr|done].
  - rewrite IH, get_unskipped_step_pieces, elem_of_insert_range. split.
    + intros [(r' & Hr' & Hx)|[Hx|Hx]].
      * left. exists r'. split; [by right|done].
      * left. exists r. split; [by left|done].
      * by right.
    + intros [(r' & Hr' & Hx)|Hx]; [|by right; right].
      apply elem_of_cons in Hr' as [->|Hr'].
      * right. by left.
      * left. by exists r'.
Qed.

(** The regions of the result of [get_unskipped] are the pieces of the
    input regions. *)
Lemma elem_of_get_unskipped regions skips x :
  x ∈ get_unskipped regions skips
  ↔ ∃ r, r ∈ regions ∧ x ∈ unskipped_pieces skips r.
Proof.
  unfold get_unskipped. destruct skips as [|s skips].
  - unfold unskipped_pieces. simpl. split.
    + intros Hx. exists x. split; [done|by left].
    + intros (r & Hr & Hx). apply list_elem_of_singleton in Hx. by subst.
  - rewrite elem_of_foldl_step. split.
    + intros [H|H]; [done|by apply elem_of_nil in H].
    + intros H. by left.
Qed.

(** *** Region arithmetic *)

Lemma overlaps_inv x y :
  overlaps x y = true →
  contig_name x = contig_name y
  ∧ (region_begin x <= region_end y)%N ∧ (region_begin y <= region_end x)%N.
Proof.
  unfold overlaps, is_same_contig, overlap_size, is_empty. intros H.
  apply andb_prop in H as [Hc H]. apply String.eqb_eq in Hc.
  split; [done|].
  apply orb_prop in H as [H|H].
  - apply Z.ltb_lt in H. lia.
  - apply andb_prop in H as [H _]. apply Z.eqb_eq in H. lia.
Qed.

Lemma overlaps_intro x y p :
  contig_name x = contig_name y → inside x p → inside y p → overlaps x y = true.
Proof.
  unfold overlaps, is_same_contig, overlap_size, inside. intros Hc Hx Hy.
  rewrite Hc, String.eqb_refl. simpl. apply orb_true_intro. left.
  apply Z.ltb_lt. lia.
Qed.

Lemma not_overlaps_separated x y :
  well_formed x → well_formed y → contig_name x = contig_name y →
  (region_begin x <= region_begin y)%N →
  overlaps x y = false → separated x y.
Proof.
  unfold overlaps, is_same_contig, overlap_size, is_empty, well_formed, separated.
  intros Hx Hy Hc Hb H. rewrite Hc, String.eqb_refl in H. simpl in H.
  apply orb_false_elim in H as [H1 H2]. apply Z.ltb_ge in H1.
  destruct (N.le_gt_cases (region_end x) (region_begin y)) as [|Hgt]; [done|].
  exfalso.
  assert (Hzero : (Z.of_N (N.min (region_end x) (region_end y))
                   - Z.of_N (N.max (region_begin x) (region_begin y)) = 0)%Z) by lia.
  rewrite Hzero in H2. simpl in H2.
  apply orb_false_elim in H2 as [H2 H3].
  apply N.eqb_neq in H2. apply N.eqb_neq in H3. lia.
Qed.

Lemma contains_inv x y :
  contains x y = true →
  (region_begin x <= region_begin y)%N ∧ (region_end y <= region_end x)%N.
Proof.
  unfold contains. intros H. apply andb_prop in H as [H He].
  apply andb_prop in H as [_ Hb]. apply N.leb_le in Hb, He. done.
Qed.

Lemma last_cons_default (x d d' : GenomicRegion) l :
  List.last (x :: l) d = List.last (x :: l) d'.
Proof.
  revert x. induction l as [|y l IH]; intros x; [reflexivity|].
  change (List.last (y :: l) d = List.last (y :: l) d'). apply IH.
Qed.

Lemma last_cons_elem_of (x d : GenomicRegion) l : List.last (x :: l) d ∈ x :: l.
Proof.
  revert x. induction l as [|y l IH]; intros x; [by left|].
  change (List.last (y :: l) d ∈ x :: y :: l). right. apply IH.
Qed.

Lemma canonical_filter c (f : GenomicRegion → bool) l :
  canonical c l → canonical c (List.filter f l).
Proof.
  intros (Hwf & Hc & Hs). repeat split.
  - apply Forall_forall. intros x Hx. apply list_elem_of_In, filter_In in Hx as [Hx _].
    apply list_elem_of_In in Hx. by apply (proj1 (Forall_forall _ _) Hwf).
  - apply Forall_forall. intros x Hx. apply list_elem_of_In, filter_In in Hx as [Hx _].
    apply list_elem_of_In in Hx. by apply (proj1 (Forall_forall _ _) Hc).
  - clear Hwf Hc. induction Hs as [|x l Hs IH Hx]; simpl; [constructor|].
    destruct (f x); [|done]. constructor; [done|].
    apply Forall_forall. intros y Hy. apply list_elem_of_In, filter_In in Hy as [Hy _].
    apply list_elem_of_In in Hy. by apply (proj1 (Forall_forall _ _) Hx).
Qed.

(** Two regions of a canonical list that hold the same position are the
    same region. *)
Lemma separated_unique l x y p :
  StronglySorted separated l → x ∈ l → y ∈ l → inside x p → inside y p → x = y.
Proof.
  unfold inside. intros Hs. induction Hs as [|a l Hs IH Ha]; intros Hx Hy Hpx Hpy.
  - by apply elem_of_nil in Hx.
  - rewrite Forall_forall in Ha. unfold separated in Ha.
    apply elem_of_cons in Hx as [->|Hx]; apply elem_of_cons in Hy as [->|Hy].
    + done.
    + specialize (Ha _ Hy). lia.
    + specialize (Ha _ Hx). lia.
    + by apply IH.
Qed.

(** *** The intervening chunks *)

Lemma intervening_chunks c front rest :
  canonical c (front :: rest) →
  let back := List.last (front :: rest) front in
  let chunks := extract_intervening_regions (front :: rest) in
  Forall (fun o => well_formed o ∧ contig_name o = c
                   ∧ (region_end front <= region_begin o)%N
                   ∧ (region_end o <= region_begin back)%N) chunks
  ∧ StronglySorted separated chunks
  ∧ ∀ p, (∃ o, o ∈ chunks ∧ inside o p)
         ↔ (region_end front <= p < region_begin back)%N
           ∧ ∀ s, s ∈ front :: rest → ¬ inside s p.
Proof.
  revert front. induction rest as [|y rest IH]; intros front (Hwf & Hc & Hs).
  - simpl. split; [constructor|]. split; [constructor|].
    intros p. apply Forall_cons in Hwf as [Hwf _]. unfold well_formed in Hwf.
    split.
    + intros (o & Ho & _). by apply elem_of_nil in Ho.
    + intros [Hp _]. lia.
  - apply Forall_cons in Hwf as [Hwf Hwf']. apply Forall_cons in Hc as [Hcf Hc'].
    apply StronglySorted_cons in Hs as [Hsf Hs'].
    assert (Hcan : canonical c (y :: rest)) by done.
    destruct (IH y Hcan) as (IHall & IHs & IHp). clear IH.
    apply Forall_cons in Hwf' as [Hwy Hwf'']. pose proof Hsf as Hsf'.
    apply Forall_cons in Hsf' as [Hfy Hsf''].
    unfold separated, well_formed in *.
    set (back := List.last (y :: rest) y) in *.
    assert (Hback : List.last (front :: y :: rest) front = back)
      by apply (last_cons_default y front y rest).
    assert (Hyb : (region_begin y <= region_begin back)%N).
    { pose proof (last_cons_elem_of y y rest) as Hin. fold back in Hin.
      apply elem_of_cons in Hin as [->|Hin]; [lia|].
      apply StronglySorted_cons in Hs' as [Hy' _].
      rewrite Forall_forall in Hy'. specialize (Hy' _ Hin). lia. }
    cbn zeta. rewrite Hback.
    change (extract_intervening_regions (front :: y :: rest))
      with (get_intervening front y :: extract_intervening_regions (y :: rest)).
    split; [|split].
    + constructor.
      * unfold get_intervening. simpl. repeat split; [lia|done|lia|lia].
      * eapply Forall_impl; [exact IHall|]. simpl.
        intros o (Ho1 & Ho2 & Ho3 & Ho4). repeat split; [done|done|lia|lia].
    + constructor; [done|].
      eapply Forall_impl; [exact IHall|]. simpl.
      intros o (Ho1 & Ho2 & Ho3 & Ho4). unfold get_intervening. simpl. lia.
    + intros p. split.
      * intros (o & Ho & Hp). apply elem_of_cons in Ho as [->|Ho].
        -- unfold inside, get_intervening in Hp. simpl in Hp.
           split; [lia|]. intros s Hin. unfold inside.
           apply elem_of_cons in Hin as [->|Hin]; [lia|].
           apply elem_of_cons in Hin as [->|Hin]; [lia|].
           apply StronglySorted_cons in Hs' as [Hy' _].
           rewrite Forall_forall in Hy'. specialize (Hy' _ Hin). lia.
        -- destruct (proj1 (IHp p)) as [Hrange Hnone]; [by exists o|].
           split; [lia|]. intros s Hin.
           apply elem_of_cons in Hin as [->|Hin]; [unfold inside; lia|].
           by apply Hnone.
      * intros [Hrange Hnone].
        destruct (N.lt_ge_cases p (region_begin y)) as [Hlt|Hge].
        -- exists (get_intervening front y). split; [by left|].
           unfold inside, get_intervening. simpl. lia.
        -- assert (Hny : ¬ inside y p) by (apply Hnone; right; by left).
           unfold inside in Hny.
           destruct (proj2 (IHp p)) as (o & Ho & Hp).
           ++ split; [lia|]. intros s Hin. apply Hnone. by right.
           ++ exists o. split; [by right|done].
Qed.

(** The first region of a canonical list begins first and the last one
    ends last. *)
Lemma canonical_bounds c front rest s :
  canonical c (front :: rest) → s ∈ front :: rest →
  (region_begin front <= region_begin s)%N
  ∧ (region_end s <= region_end (List.last (front :: rest) front))%N.
Proof.
  intros (Hwf & _ & Hs) Hin.
  rewrite Forall_forall in Hwf. pose proof (Hwf _ Hin) as Hws.
  pose proof (Hwf front (list_elem_of_here _ _)) as Hwfront.
  unfold well_formed in *. split.
  - apply elem_of_cons in Hin as [->|Hin]; [lia|].
    apply StronglySorted_cons in Hs as [Hs _]. rewrite Forall_forall in Hs.
    specialize (Hs _ Hin). unfold separated in Hs. lia.
  - clear Hws Hwfront. revert front Hin Hs Hwf.
    induction rest as [|y rest IH]; intros front Hin Hs Hwf.
    + apply list_elem_of_singleton in Hin as ->. simpl. lia.
    + change (List.last (front :: y :: rest) front)
        with (List.last (y :: rest) front).
      rewrite (last_cons_default y front y rest).
      apply StronglySorted_cons in Hs as [Hsf Hs].
      apply elem_of_cons in Hin as [->|Hin].
      * rewrite Forall_forall in Hsf.
        specialize (Hsf _ (last_cons_elem_of y y rest)).
        pose proof (Hwf _ (list_elem_of_further _ _ _ (last_cons_elem_of y y rest))).
        pose proof (Hwf front (list_elem_of_here _ _)).
        unfold separated in Hsf. lia.
      * apply IH; [done|done|]. intros x Hx. apply Hwf. by right.
Qed.

(** *** The pieces of one region *)

Lemma unskipped_pieces_spec c skips region :
  canonical c skips → well_formed region → contig_name region = c →
  let pieces := unskipped_pieces skips region in
  Forall (fun o => well_formed o ∧ contig_name o = c
                   ∧ (region_begin region <= region_begin o)%N
                   ∧ (region_end o <= region_end region)%N) pieces
  ∧ StronglySorted separated pieces
  ∧ ∀ p, (∃ o, o ∈ pieces ∧ inside o p)
         ↔ inside region p ∧ ∀ s, s ∈ skips → ¬ inside s p.
Proof.
  intros Hcan Hwr Hcr pieces.
  pose proof (canonical_filter c (fun x => overlaps x region) skips Hcan) as Hcano.
  assert (Hin : ∀ s, s ∈ overlap_range skips region
                     ↔ s ∈ skips ∧ overlaps s region = true).
  { intros s. unfold overlap_range. by rewrite !list_elem_of_In, filter_In. }
  assert (Hnone : ∀ p, inside region p →
            (∀ s, s ∈ skips → ¬ inside s p)
            ↔ (∀ s, s ∈ overlap_range skips region → ¬ inside s p)).
  { intros p Hp. split.
    - intros H s Hs. apply H. by apply Hin in Hs as [? _].
    - intros H s Hs Hsp. apply (H s); [|done]. apply Hin. split; [done|].
      apply overlaps_intro with p; [|done..].
      destruct Hcan as (_ & Hc & _). rewrite Forall_forall in Hc.
      rewrite (Hc s Hs). done. }
  subst pieces. unfold unskipped_pieces.
  fold (overlap_range skips region) in Hcano.
  destruct (overlap_range skips region) as [|front rest] eqn:Ho.
  { split; [|split].
    - constructor; [|constructor]. unfold well_formed in *. repeat split; [done|done|lia|lia].
    - repeat constructor.
    - intros p. split.
      + intros (o & Hor & Hp). apply list_elem_of_singleton in Hor as ->.
        split; [done|]. apply Hnone; [done|]. intros s Hs. by apply elem_of_nil in Hs.
      + intros [Hp _]. exists region. split; [by left|done]. }
  assert (Hfront : front ∈ front :: rest) by (by left).
  pose proof (last_cons_elem_of front front rest) as Hback.
  set (back := List.last (front :: rest) front) in *.
  assert (Hov : ∀ s, s ∈ front :: rest →
            well_formed s ∧ (region_begin s <= region_end region)%N
            ∧ (region_begin region <= region_end s)%N).
  { intros s Hs. split.
    - destruct Hcano as (Hwf & _ & _). rewrite Forall_forall in Hwf. by apply Hwf.
    - apply Hin in Hs as [_ Hs]. by apply overlaps_inv in Hs as (_ & ? & ?). }
  destruct (Hov _ Hfront) as (Hwfront & Hf1 & Hf2).
  destruct (Hov _ Hback) as (Hwback & Hb1 & Hb2).
  assert (Hfb : ∀ s, s ∈ front :: rest →
            (region_begin front <= region_begin s)%N
            ∧ (region_end s <= region_end back)%N)
    by (intros s Hs; by apply (canonical_bounds c)).
  destruct (intervening_chunks c front rest Hcano) as (Hcall & Hcs & Hcp).
  fold back in Hcall, Hcp.
  unfold well_formed, inside in *.
  destruct (contains front region) eqn:Hcont; cbn [negb].
  { apply contains_inv in Hcont as [Hc1 Hc2].
    split; [constructor|]. split; [constructor|]. intros p. split.
    - intros (o & Hor & _). by apply elem_of_nil in Hor.
    - intros [Hp Hno]. exfalso. apply (proj1 (Hnone p Hp) Hno front Hfront). lia. }
  assert (Hleft : (if begins_before region front
                   then [left_overhang_region region front] else [])
                  = if begins_before region front
                    then [mkRegion (contig_name region) (region_begin region)
                                   (region_begin front)]
                    else []).
  { unfold left_overhang_region. by destruct (begins_before region front). }
  assert (Hright : (if ends_before back region
                    then [right_overhang_region region back] else [])
                   = if ends_before back region
                     then [mkRegion (contig_name region) (region_end back)
                                    (region_end region)]
                     else []).
  { unfold right_overhang_region. by destruct (ends_before back region). }
  rewrite Hleft, Hright. clear Hleft Hright.
  unfold begins_before, ends_before.
  split; [|split].
  - apply Forall_app. split; [|apply Forall_app; split].
    + destruct (N.ltb_spec (region_begin region) (region_begin front));
        constructor; [|constructor]. simpl. repeat split; [lia|done|lia|lia].
    + eapply Forall_impl; [exact Hcall|]. simpl.
      intros o (Ho1 & Ho2 & Ho3 & Ho4). repeat split; [done|done|lia|lia].
    + destruct (N.ltb_spec (region_end back) (region_end region));
        constructor; [|constructor]. simpl. repeat split; [lia|done|lia|lia].
  - apply StronglySorted_app_2; [|by destruct (_ <? _)%N; repeat constructor|].
    + intros x1 x2 Hx1 Hx2. unfold separated.
      destruct (N.ltb_spec (region_begin region) (region_begin front));
        [|by apply elem_of_nil in Hx1].
      apply list_elem_of_singleton in Hx1 as ->. simpl.
      apply elem_of_app in Hx2 as [Hx2|Hx2].
      * rewrite Forall_forall in Hcall. destruct (Hcall _ Hx2) as (_ & _ & ? & _). lia.
      * destruct (N.ltb_spec (region_end back) (region_end region));
          [|by apply elem_of_nil in Hx2].
        apply list_elem_of_singleton in Hx2 as ->. simpl.
        destruct (Hfb _ Hfront). lia.
    + apply StronglySorted_app_2; [|done|by destruct (_ <? _)%N; repeat constructor].
      intros x1 x2 Hx1 Hx2. unfold separated.
      destruct (N.ltb_spec (region_end back) (region_end region));
        [|by apply elem_of_nil in Hx2].
      apply list_elem_of_singleton in Hx2 as ->. simpl.
      rewrite Forall_forall in Hcall. destruct (Hcall _ Hx1) as (_ & _ & _ & ?). lia.
  - intros p. split.
    + intros (o & Hor & Hp).
      apply elem_of_app in Hor as [Hor|Hor]; [|apply elem_of_app in Hor as [Hor|Hor]].
      * destruct (N.ltb_spec (region_begin region) (region_begin front));
          [|by apply elem_of_nil in Hor].
        apply list_elem_of_singleton in Hor as ->. simpl in Hp.
        assert (Hpr : (region_begin region <= p < region_end region)%N) by lia.
        split; [done|]. apply (Hnone p Hpr). intros s Hs.
        destruct (Hfb _ Hs). lia.
      * destruct (proj1 (Hcp p)) as [Hrange Hno]; [by exists o|].
        assert (Hpr : (region_begin region <= p < region_end region)%N) by lia.
        split; [done|]. by apply (Hnone p Hpr).
      * destruct (N.ltb_spec (region_end back) (region_end region));
          [|by apply elem_of_nil in Hor].
        apply list_elem_of_singleton in Hor as ->. simpl in Hp.
        assert (Hpr : (region_begin region <= p < region_end region)%N) by lia.
        split; [done|]. apply (Hnone p Hpr). intros s Hs.
        destruct (Hfb _ Hs). lia.
    + intros [Hp Hno]. pose proof (proj1 (Hnone p Hp) Hno) as Hno'.
      pose proof (Hno' _ Hfront) as Hnf. pose proof (Hno' _ Hback) as Hnb.
      destruct (N.lt_ge_cases p (region_begin front)) as [Hlt|Hge].
      * exists (mkRegion (contig_name region) (region_begin region) (region_begin front)).
        split; [|simpl; lia]. apply elem_of_app. left.
        destruct (N.ltb_spec (region_begin region) (region_begin front)); [by left|lia].
      * destruct (N.lt_ge_cases p (region_begin back)) as [Hlt'|Hge'].
        -- destruct (proj2 (Hcp p)) as (o & Hor & Hop); [split; [lia|done]|].
           exists o. split; [|done]. apply elem_of_app. right.
           apply elem_of_app. by left.
        -- exists (mkRegion (contig_name region) (region_end back) (region_end region)).
           split; [|simpl; lia]. apply elem_of_app. right. apply elem_of_app. right.
           destruct (N.ltb_spec (region_end back) (region_end region)); [by left|lia].
Qed.

(** *** [get_unskipped] on canonical lists *)

Lemma get_unskipped_spec c regions skips :
  canonical c regions → canonical c skips →
  let unskipped := get_unskipped regions skips in
  Forall (fun o => contig_name o = c) unskipped
  ∧ (∀ p, (∃ o, o ∈ unskipped ∧ inside o p)
          ↔ (∃ r, r ∈ regions ∧ inside r p) ∧ ∀ s, s ∈ skips → ¬ inside s p)
  ∧ (∀ o1 o2 p, o1 ∈ unskipped → o2 ∈ unskipped →
       inside o1 p → inside o2 p → o1 = o2).
Proof.
  intros Hr Hk unskipped.
  assert (Hpieces : ∀ r, r ∈ regions →
            let pieces := unskipped_pieces skips r in
            Forall (fun o => well_formed o ∧ contig_name o = c
                             ∧ (region_begin r <= region_begin o)%N
                             ∧ (region_end o <= region_end r)%N) pieces
            ∧ StronglySorted separated pieces
            ∧ ∀ p, (∃ o, o ∈ pieces ∧ inside o p)
                   ↔ inside r p ∧ ∀ s, s ∈ skips → ¬ inside s p).
  { intros r Hin. destruct Hr as (Hwf & Hc & _). rewrite Forall_forall in Hwf, Hc.
    apply unskipped_pieces_spec; [done|by apply Hwf|by apply Hc]. }
  assert (Hinside : ∀ r o p, r ∈ regions → o ∈ unskipped_pieces skips r →
            inside o p → inside r p).
  { intros r o p Hin Ho Hp. destruct (Hpieces r Hin) as (Hall & _ & _).
    rewrite Forall_forall in Hall. destruct (Hall o Ho) as (_ & _ & ? & ?).
    unfold inside in *. lia. }
  subst unskipped. split; [|split].
  - apply Forall_forall. intros o Ho.
    apply elem_of_get_unskipped in Ho as (r & Hin & Ho).
    destruct (Hpieces r Hin) as (Hall & _ & _).
    rewrite Forall_forall in Hall. by destruct (Hall o Ho) as (_ & ? & _).
  - intros p. split.
    + intros (o & Ho & Hp). apply elem_of_get_unskipped in Ho as (r & Hin & Ho).
      destruct (Hpieces r Hin) as (_ & _ & Hiff).
      destruct (proj1 (Hiff p)) as [Hrp Hno]; [by exists o|].
      split; [by exists r|done].
    + intros [(r & Hin & Hrp) Hno].
      destruct (Hpieces r Hin) as (_ & _ & Hiff).
      destruct (proj2 (Hiff p)) as (o & Ho & Hp); [done|].
      exists o. split; [|done]. apply elem_of_get_unskipped. by exists r.
  - intros o1 o2 p Ho1 Ho2 Hp1 Hp2.
    apply elem_of_get_unskipped in Ho1 as (r1 & Hin1 & Ho1).
    apply elem_of_get_unskipped in Ho2 as (r2 & Hin2 & Ho2).
    assert (r1 = r2) as <-.
    { destruct Hr as (_ & _ & Hs).
      apply (separated_unique regions r1 r2 p Hs); eauto. }
    destruct (Hpieces r1 Hin1) as (_ & Hs & _).
    by apply (separated_unique _ o1 o2 p Hs).
Qed.

(** *** Grouping, sorting and covering *)

Lemma group_by_contig_foldl regions (m : InputRegionMap) c :
  foldl (fun m region =>
           <[contig_name region :=
               default [] (m !! contig_name region) ++ [region]]> m) m regions !! c
  = match filter (fun r => contig_name r = c) regions with
    | [] => m !! c
    | l => Some (default [] (m !! c) ++ l)
    end.
Proof.
  revert m. induction regions as [|r regions IH]; intros m; [reflexivity|].
  cbn [foldl]. rewrite IH. rewrite filter_cons.
  destruct (decide (contig_name r = c)) as [<-|Hne].
  - rewrite lookup_insert_eq. simpl.
    destruct (filter _ regions); [done|]. by rewrite <- app_assoc.
  - by rewrite lookup_insert_ne.
Qed.

Lemma group_by_contig_lookup regions c :
  group_by_contig regions !! c
  = match filter (fun r => contig_name r = c) regions with
    | [] => None
    | l => Some l
    end.
Proof.
  unfold group_by_contig. rewrite group_by_contig_foldl, lookup_empty.
  by destruct (filter _ regions).
Qed.

Lemma region_le_iff x y :
  region_le x y
  ↔ (region_begin x < region_begin y)%N
    ∨ (region_begin x = region_begin y ∧ (region_end x <= region_end y)%N).
Proof.
  unfold region_le, region_lt. rewrite orb_false_iff, andb_false_iff.
  rewrite !N.ltb_ge, N.eqb_neq. lia.
Qed.

#[local] Instance region_le_transitive : Transitive region_le.
Proof. intros x y z. rewrite !region_le_iff. lia. Qed.

#[local] Instance region_le_total : Total region_le.
Proof. intros x y. rewrite !region_le_iff. lia. Qed.

Lemma sort_spec l :
  sort l ≡ₚ l ∧ StronglySorted begins_no_later (sort l).
Proof.
  unfold sort. split; [apply merge_sort_Permutation|].
  pose proof (StronglySorted_merge_sort region_le l) as Hs.
  induction Hs as [|x k Hs IH Hx]; constructor; [done|].
  eapply Forall_impl; [exact Hx|]. intros y. rewrite region_le_iff.
  unfold begins_no_later. lia.
Qed.

Lemma merge_covered_spec c current rest :
  well_formed current → contig_name current = c →
  Forall well_formed rest → Forall (fun r => contig_name r = c) rest →
  StronglySorted begins_no_later (current :: rest) →
  let merged := merge_covered current rest in
  canonical c merged
  ∧ Forall (fun o => (region_begin current <= region_begin o)%N) merged
  ∧ ∀ p, (∃ o, o ∈ merged ∧ inside o p)
         ↔ ∃ r, r ∈ current :: rest ∧ inside r p.
Proof.
  revert current. induction rest as [|r rest IH]; intros current Hw Hc Hwf Hcs Hs.
  - simpl. split; [|split].
    + repeat split; repeat constructor; done.
    + repeat constructor. lia.
    + done.
  - apply Forall_cons in Hwf as [Hwr Hwf]. apply Forall_cons in Hcs as [Hcr Hcs].
    apply StronglySorted_cons in Hs as [Hcur Hs].
    pose proof Hcur as Hcur'. apply Forall_cons in Hcur' as [Hcr' Hcur'].
    unfold begins_no_later in Hcr'. simpl.
    destruct (overlaps current r) eqn:Hov.
    + apply overlaps_inv in Hov as (_ & Ho1 & Ho2).
      set (enc := get_encompassing current r).
      assert (Hbe : region_begin enc = region_begin current)
        by (subst enc; unfold get_encompassing; simpl; lia).
      assert (Hee : region_end enc = N.max (region_end current) (region_end r)) by done.
      destruct (IH enc) as (Hcan & Hall & Hiff).
      * subst enc. unfold well_formed, get_encompassing in *. simpl. lia.
      * done.
      * done.
      * done.
      * constructor; [by apply StronglySorted_cons in Hs as [_ ?]|].
        eapply Forall_impl; [exact Hcur'|].
        intros y. unfold begins_no_later. rewrite Hbe. done.
      * split; [done|]. split.
        -- eapply Forall_impl; [exact Hall|]. intros y Hy. cbv beta in *.
           by rewrite <- Hbe.
        -- intros p. rewrite Hiff. unfold inside, well_formed in *. split.
           ++ intros (x & Hx & Hp). apply elem_of_cons in Hx as [->|Hx].
              ** rewrite Hbe, Hee in Hp.
                 destruct (N.lt_ge_cases p (region_end current)).
                 --- exists current. split; [by left|lia].
                 --- exists r. split; [right; by left|lia].
              ** exists x. split; [by do 2 right|done].
           ++ intros (x & Hx & Hp). apply elem_of_cons in Hx as [->|Hx].
              ** exists enc. split; [by left|]. rewrite Hbe, Hee. lia.
              ** apply elem_of_cons in Hx as [->|Hx].
                 --- exists enc. split; [by left|]. rewrite Hbe, Hee. lia.
                 --- exists x. split; [by right|done].
    + pose proof (not_overlaps_separated current r Hw Hwr (eq_trans Hc (eq_sym Hcr))
                    Hcr' Hov) as Hsep.
      destruct (IH r Hwr Hcr Hwf Hcs Hs) as ((Hmw & Hmc & Hms) & Hall & Hiff).
      split; [|split].
      * repeat split; [by constructor|by constructor|].
        constructor; [done|]. eapply Forall_impl; [exact Hall|].
        intros y. unfold separated in *. simpl. lia.
      * constructor; [lia|]. eapply Forall_impl; [exact Hall|]. simpl. lia.
      * intros p. split.
        -- intros (x & Hx & Hp). apply elem_of_cons in Hx as [->|Hx].
           ++ exists current. split; [by left|done].
           ++ destruct (proj1 (Hiff p)) as (y & Hy & Hyp); [by exists x|].
              exists y. split; [by right|done].
        -- intros (x & Hx & Hp). apply elem_of_cons in Hx as [->|Hx].
           ++ exists current. split; [by left|done].
           ++ destruct (proj2 (Hiff p)) as (y & Hy & Hyp); [by exists x|].
              exists y. split; [by right|done].
Qed.

Lemma covered_inside l c p :
  covered l c p ↔ ∃ r, r ∈ filter (fun r => contig_name r = c) l ∧ inside r p.
Proof.
  unfold covered, covers, inside. split.
  - intros (r & Hr & Hc & Hp). exists r. split; [|done].
    by apply list_elem_of_filter.
  - intros (r & Hr & Hp). apply list_elem_of_filter in Hr as [Hc Hr]. by exists r.
Qed.

(** The regions that [make_search_regions] keeps for a contig form a
    canonical list that holds the same bases as the input regions of the
    contig. *)
Lemma make_search_regions_spec regions c :
  Forall well_formed regions →
  match make_search_regions regions !! c with
  | Some merged =>
      canonical c merged
      ∧ ∀ p, (∃ o, o ∈ merged ∧ inside o p) ↔ covered regions c p
  | None => ∀ p, ¬ covered regions c p
  end.
Proof.
  intros Hwf. unfold make_search_regions.
  rewrite lookup_fmap, group_by_contig_lookup.
  destruct (filter (fun r => contig_name r = c) regions) as [|x l] eqn:Hf; simpl.
  - intros p Hp. apply covered_inside in Hp as (r & Hr & _).
    rewrite Hf in Hr. by apply elem_of_nil in Hr.
  - destruct (sort_spec (x :: l)) as [Hperm Hsorted].
    assert (Hall : ∀ r, r ∈ sort (x :: l) → well_formed r ∧ contig_name r = c).
    { intros r Hr. rewrite Hperm, <- Hf in Hr.
      apply list_elem_of_filter in Hr as [Hc Hr]. split; [|done].
      rewrite Forall_forall in Hwf. by apply Hwf. }
    destruct (sort (x :: l)) as [|y k] eqn:Hk.
    { apply Permutation_nil_l in Hperm. discriminate. }
    simpl.
    destruct (merge_covered_spec c y k) as (Hcan & _ & Hiff).
    + apply Hall. by left.
    + apply Hall. by left.
    + apply Forall_forall. intros r Hr. apply Hall. by right.
    + apply Forall_forall. intros r Hr. apply Hall. by right.
    + done.
    + split; [done|]. intros p. rewrite Hiff, covered_inside, Hf.
      split; intros (r & Hr & Hp); exists r; split; try done.
      * by rewrite <- Hperm.
      * by rewrite Hperm.
Qed.

Lemma extract_search_regions_lookup regions skip_regions c :
  extract_search_regions regions skip_regions !! c
  = make_search_regions regions !! c
    ≫= fun contig_regions =>
         match unskipped_of (make_search_regions skip_regions) c contig_regions with
         | [] => None
         | unskipped => Some unskipped
         end.
Proof.
  unfold extract_search_regions. rewrite map_lookup_imap.
  destruct (make_search_regions regions !! c) as [merged|]; [|done].
  simpl. unfold unskipped_of.
  by destruct (match make_search_regions skip_regions !! c with
               | Some skips => get_unskipped merged skips
               | None => merged
               end).
Qed.

Lemma output_region_iff regions skip_regions o :
  output_region (extract_search_regions regions skip_regions) o
  ↔ ∃ merged,
      make_search_regions regions !! contig_name o = Some merged
      ∧ o ∈ unskipped_of (make_search_regions skip_regions) (contig_name o) merged.
Proof.
  unfold output_region. rewrite extract_search_regions_lookup.
  destruct (make_search_regions regions !! contig_name o) as [merged|]; simpl.
  - remember (unskipped_of (make_search_regions skip_regions) (contig_name o) merged)
      as u eqn:Hu.
    split.
    + intros (l & Hl & Ho). exists merged. split; [done|]. rewrite <- Hu.
      destruct u; [discriminate|]. injection Hl as Hl. by subst l.
    + intros (m' & [= <-] & Ho). rewrite <- Hu in Ho. exists u. split; [|done].
      destruct u; [by apply elem_of_nil in Ho|done].
  - split; [by intros (l & ? & _)|by intros (m' & ? & _)].
Qed.

(** What [extract_search_regions] keeps of one contig. *)
Lemma unskipped_of_spec regions skip_regions c merged :
  Forall well_formed regions → Forall well_formed skip_regions →
  make_search_regions regions !! c = Some merged →
  let unskipped := unskipped_of (make_search_regions skip_regions) c merged in
  Forall (fun o => contig_name o = c) unskipped
  ∧ (∀ p, (∃ o, o ∈ unskipped ∧ inside o p)
          ↔ covered regions c p ∧ ¬ covered skip_regions c p)
  ∧ (∀ o1 o2 p, o1 ∈ unskipped → o2 ∈ unskipped →
       inside o1 p → inside o2 p → o1 = o2).
Proof.
  intros Hwr Hws Hm unskipped.
  pose proof (make_search_regions_spec regions c Hwr) as Hr. rewrite Hm in Hr.
  destruct Hr as [Hcan Hcov].
  pose proof (make_search_regions_spec skip_regions c Hws) as Hk.
  subst unskipped. unfold unskipped_of.
  destruct (make_search_regions skip_regions !! c) as [skips|].
  - destruct Hk as [Hcank Hcovk].
    destruct (get_unskipped_spec c merged skips Hcan Hcank) as (Hc & Hiff & Huniq).
    split; [done|]. split; [|done].
    intros p. rewrite Hiff, Hcov, <- Hcovk. split.
    + intros [Hin Hno]. split; [done|]. intros (s & Hs & Hp). by apply (Hno s).
    + intros [Hin Hno]. split; [done|]. intros s Hs Hp. apply Hno. by exists s.
  - split; [by destruct Hcan as (_ & ? & _)|]. split.
    + intros p. rewrite Hcov. split; [|by intros [? _]].
      intros Hin. split; [done|apply Hk].
    + intros o1 o2 p. destruct Hcan as (_ & _ & Hs).
      by apply separated_unique.
Qed.

(** C5.  The scenario of the spec: the regions chr1:100-200 and
    chr1:150-300 with the skip region chr1:180-220 give chr1:100-180 and
    chr1:220-300.  For all well-formed input and skip regions: a base lies
    in a region of the result exactly when it lies in an input region and
    in no skip region; two regions of the result that hold the same base
    are the same region; and no contig of the result is empty. *)
Theorem effective_search_regions :
  extract_search_regions overlapping_input one_skip
  = {[ "chr1" := [mkRegion "chr1" 100 180; mkRegion "chr1" 220 300] ]}
  ∧ ∀ regions skip_regions,
      Forall well_formed regions → Forall well_formed skip_regions →
      let result := extract_search_regions regions skip_regions in
      (∀ c p, (∃ o, output_region result o ∧ covers o c p)
              ↔ covered regions c p ∧ ¬ covered skip_regions c p)
      ∧ (∀ o o' c p, output_region result o → output_region result o' →
           covers o c p → covers o' c p → o = o')
      ∧ (∀ c l, result !! c = Some l → l ≠ []).
Proof.
  split; [by vm_compute|].
  intros regions skip_regions Hwr Hws result. subst result. split; [|split].
  - intros c p. split.
    + intros (o & Ho & Hc & Hp). subst c.
      apply output_region_iff in Ho as (merged & Hm & Ho).
      destruct (unskipped_of_spec regions skip_regions _ merged Hwr Hws Hm)
        as (_ & Hiff & _).
      apply Hiff. by exists o.
    + intros [Hin Hno].
      pose proof (make_search_regions_spec regions c Hwr) as Hr.
      destruct (make_search_regions regions !! c) as [merged|] eqn:Hm;
        [|by apply Hr in Hin].
      destruct (unskipped_of_spec regions skip_regions c merged Hwr Hws Hm)
        as (Hc & Hiff & _).
      destruct (proj2 (Hiff p)) as (o & Ho & Hp); [done|].
      rewrite Forall_forall in Hc. pose proof (Hc o Ho) as Hco.
      exists o. split; [|done].
      apply output_region_iff. exists merged. by rewrite Hco.
  - intros o o' c p Ho Ho' [Hc Hp] [Hc' Hp'].
    apply output_region_iff in Ho as (merged & Hm & Ho).
    apply output_region_iff in Ho' as (merged' & Hm' & Ho').
    rewrite Hc in Hm, Ho. rewrite Hc' in Hm', Ho'.
    rewrite Hm in Hm'. injection Hm' as <-.
    destruct (unskipped_of_spec regions skip_regions c merged Hwr Hws Hm)
      as (_ & _ & Huniq).
    by apply (Huniq o o' p).
  - intros c l. rewrite extract_search_regions_lookup.
    destruct (make_search_regions regions !! c) as [merged|]; simpl; [|done].
    destruct (unskipped_of _ _ merged); [done|]. by intros [= <-].
Qed.

End search_regions.

(** The theorem at the scenario of the spec and the base chr1:120: it is
    in an input region and not in the skip region, and chr1:100-180 holds
    it. *)
Lemma effective_search_regions_witness :
  ∃ o, SearchRegions.output_region
         (SearchRegions.extract_search_regions SearchRegions.overlapping_input
            SearchRegions.one_skip) o
       ∧ Region.covers o "chr1" 120.
Proof.
  refine (proj2 (proj1 (proj2 effective_search_regions
    SearchRegions.overlapping_input SearchRegions.one_skip _ _) "chr1" 120%N) _).
  - repeat constructor; unfold Region.well_formed; simpl; lia.
  - repeat constructor; unfold Region.well_formed; simpl; lia.
  - split.
    + exists (Region.mkRegion "chr1" 100 200). split; [by left|].
      split; [reflexivity|simpl; lia].
    + intros (s & Hs & _ & Hp). apply list_elem_of_singleton in Hs as ->.
      simpl in Hp. lia.
Defined.

(** ** Samples and read groups of a read file *)

Section sample_queries.
Import HtslibSamFacade SampleQueries.
Local Open Scope list_scope.

Lemma get_samples_step_spec result pair s :
  s ∈ get_samples_step result pair ↔ s ∈ result ∨ s = pair.2.
Proof.
  unfold get_samples_step. case_bool_decide as Hin.
  - split; [by left|]. intros [H| ->]; done.
  - rewrite elem_of_app, list_elem_of_singleton. done.
Qed.

Lemma get_samples_step_NoDup result pair :
  NoDup result → NoDup (get_samples_step result pair).
Proof.
  intros Hnd. unfold get_samples_step. case_bool_decide as Hin; [done|].
  apply NoDup_app. split; [done|]. split.
  - intros x Hx ->%list_elem_of_singleton. done.
  - apply NoDup_singleton.
Qed.

Lemma get_samples_foldl pairs result :
  NoDup result →
  NoDup (foldl get_samples_step result pairs)
  ∧ ∀ s, s ∈ foldl get_samples_step result pairs
         ↔ s ∈ result ∨ ∃ rg, (rg, s) ∈ pairs.
Proof.
  revert result. induction pairs as [|pair pairs IH]; intros result Hnd; simpl.
  - split; [done|]. intros s. split; [by left|].
    intros [H|(rg & H)]; [done|]. by apply elem_of_nil in H.
  - destruct (IH _ (get_samples_step_NoDup result pair Hnd)) as [Hnd' Hin].
    split; [done|]. intros s. rewrite Hin, get_samples_step_spec.
    split.
    + intros [[H| ->]|(rg & H)].
      * by left.
      * right. exists pair.1. destruct pair; by left.
      * right. exists rg. by right.
    + intros [H|(rg & H)].
      * left. by left.
      * apply elem_of_cons in H as [<-|H].
        -- left. by right.
        -- right. by exists rg.
Qed.

Lemma elem_of_get_samples (sample_map : SampleMap) sample :
  sample ∈ get_samples sample_map
  ↔ ∃ read_group, sample_map !! read_group = Some sample.
Proof.
  unfold get_samples, get_samples_of.
  destruct (get_samples_foldl (map_to_list sample_map) [] (NoDup_nil_2))
    as [_ Hin].
  rewrite Hin. split.
  - intros [H|(rg & H)]; [by apply elem_of_nil in H|].
    exists rg. by apply elem_of_map_to_list.
  - intros (rg & H). right. exists rg. by apply elem_of_map_to_list.
Qed.

(** X1.  [get_samples] lists every sample that some read group of the
    header maps to, lists nothing else, and lists no sample twice,
    however many read groups share it. *)
Theorem get_samples_distinct_and_complete (sample_map : SampleMap) :
  NoDup (get_samples sample_map)
  ∧ ∀ sample, sample ∈ get_samples sample_map
              ↔ ∃ read_group, sample_map !! read_group = Some sample.
Proof.
  split; [|apply elem_of_get_samples].
  unfold get_samples, get_samples_of.
  apply (get_samples_foldl (map_to_list sample_map) [] (NoDup_nil_2)).
Qed.

Lemma get_read_groups_foldl sample pairs result rg :
  rg ∈ foldl (get_read_groups_step sample) result pairs
  ↔ rg ∈ result ∨ (rg, sample) ∈ pairs.
Proof.
  revert result. induction pairs as [|[rg' s'] pairs IH]; intros result; simpl.
  - split; [by left|]. intros [H|H]; [done|]. by apply elem_of_nil in H.
  - rewrite IH. unfold get_read_groups_step. simpl.
    destruct (String.eqb_spec s' sample) as [->|Hne].
    + rewrite elem_of_app, list_elem_of_singleton, elem_of_cons. split.
      * intros [[H| ->]|H]; [by left|right; by left|right; by right].
      * intros [H|[[= ->]|H]]; [left; by left|left; by right|by right].
    + rewrite elem_of_cons. split.
      * intros [H|H]; [by left|right; by right].
      * intros [H|[[= -> ->]|H]]; [by left|done|by right].
Qed.

Lemma get_read_groups_foldl_NoDup sample pairs result :
  NoDup (result ++ pairs.*1) →
  NoDup (foldl (get_read_groups_step sample) result pairs).
Proof.
  revert result. induction pairs as [|[rg' s'] pairs IH]; intros result; simpl.
  - by rewrite app_nil_r.
  - intros Hnd. apply IH. unfold get_read_groups_step. simpl.
    destruct (String.eqb_spec s' sample) as [->|Hne].
    + by rewrite <- app_assoc.
    + apply NoDup_app in Hnd as (H1 & H2 & H3).
      apply NoDup_cons in H3 as [_ H3].
      apply NoDup_app. split; [done|]. split; [|done].
      intros x Hx Hx'. apply (H2 x Hx). by right.
Qed.

(** X2.  [get_read_groups_in_sample] returns, without repetition, the
    read groups that the header maps to the sample; so every read group
    of the header is listed under the sample it maps to, which
    [get_samples] returns, and under no other sample. *)
Theorem read_groups_partitioned_by_sample (sample_map : SampleMap) :
  (∀ sample,
     NoDup (get_read_groups_in_sample sample_map sample)
     ∧ ∀ read_group, read_group ∈ get_read_groups_in_sample sample_map sample
                     ↔ sample_map !! read_group = Some sample)
  ∧ ∀ read_group sample,
      sample_map !! read_group = Some sample →
      sample ∈ get_samples sample_map
      ∧ ∀ sample', read_group ∈ get_read_groups_in_sample sample_map sample'
                   ↔ sample' = sample.
Proof.
  assert (Hin : ∀ sample read_group,
             read_group ∈ get_read_groups_in_sample sample_map sample
             ↔ sample_map !! read_group = Some sample).
  { intros sample rg. unfold get_read_groups_in_sample,
      get_read_groups_in_sample_of.
    rewrite get_read_groups_foldl, elem_of_map_to_list. split.
    - intros [H|H]; [by apply elem_of_nil in H|done].
    - by right. }
  split.
  - intros sample. split; [|by apply Hin].
    apply get_read_groups_foldl_NoDup. simpl. apply NoDup_fst_map_to_list.
  - intros rg sample Hrg. split.
    + apply elem_of_get_samples. by exists rg.
    + intros sample'. rewrite Hin, Hrg. split; [by intros [= ->]|by intros ->].
Qed.


(** *** Counting and fetching the reads of one sample *)

Lemma count_sample_reads_run sample_map sample run rest n :
  (n < size_t_modulus)%N →
  Forall (from_sample sample_map sample) run →
  count_sample_reads sample_map sample (run ++ rest) n
  = count_sample_reads sample_map sample rest
      ((n + N.of_nat (length run)) mod size_t_modulus)%N.
Proof.
  intros Hn Hrun. revert n Hn.
  induction Hrun as [|b run (rg & Hrg & Hs) _ IH]; intros n Hn.
  - simpl. rewrite N.add_0_r. by rewrite N.mod_small.
  - simpl. unfold get_read_group, at_. rewrite Hrg. simpl. rewrite Hs. simpl.
    rewrite String.eqb_refl. rewrite IH by (by apply N.mod_lt).
    f_equal. rewrite N.Div0.add_mod_idemp_l. f_equal. lia.
Qed.

(** X3.  [count_reads (sample, region)] stops at the first record of
    another sample: it counts the records of the sample up to there and
    none of those behind it, whatever they are. *)
Theorem count_reads_stops_at_other_sample sample_map sample other run b rest :
  Forall (from_sample sample_map sample) run →
  from_sample sample_map other b →
  other ≠ sample →
  count_sample_reads sample_map sample (run ++ b :: rest) 0
  = Ok (N.of_nat (length run) mod size_t_modulus)%N.
Proof.
  intros Hrun (rg & Hrg & Hs) Hne.
  rewrite (count_sample_reads_run sample_map sample run (b :: rest) 0)
    by done.
  simpl. unfold get_read_group, at_. rewrite Hrg. simpl.
  rewrite Hs. simpl. by destruct (String.eqb_spec other sample).
Qed.

Lemma count_reads_stops_at_other_sample_witness :
  count_sample_reads two_samples "NA1"
    [good_record "r1" "rg1"; good_record "r2" "rg2"; good_record "r3" "rg1"] 0
  = Ok 1%N.
Proof.
  apply (count_reads_stops_at_other_sample two_samples "NA1" "NA2"
           [good_record "r1" "rg1"] (good_record "r2" "rg2")
           [good_record "r3" "rg1"]).
  - repeat constructor. exists "rg1". split; reflexivity.
  - exists "rg2". split; reflexivity.
  - discriminate.
Defined.

Lemma deref_throws_invalid b e :
  deref b = Throw e → is_invalid_bam_record e = true.
Proof.
  unfold deref. destruct (qual b) as [|q ?]; [by intros [= <-]|].
  destruct (q =? 255)%N; [by intros [= <-]|].
  destruct (cigar b); [by intros [= <-]|discriminate].
Qed.

Lemma fetch_steps_agree sample_map sample acc l b :
  default [] (acc !! sample) = l →
  match fetch_reads_step sample_map acc b,
        fetch_sample_reads_step sample_map sample l b with
  | Ok acc', Ok l' => default [] (acc' !! sample) = l'
  | Throw e, Throw e' => e = e'
  | _, _ => False
  end.
Proof.
  intros Hl. unfold fetch_reads_step, fetch_sample_reads_step, get_read_group, at_.
  destruct (aux_RG b) as [rg|]; simpl; [|done].
  destruct (sample_map !! rg) as [s|]; simpl; [|done].
  assert (Hentry : default [] (entry s acc !! sample) = l).
  { unfold entry. destruct (decide (s = sample)) as [->|Hne].
    - by rewrite lookup_insert_eq.
    - by rewrite lookup_insert_ne. }
  destruct (String.eqb_spec s sample) as [->|Hne].
  - destruct (deref b) as [read|e] eqn:Hd; simpl.
    + rewrite lookup_insert_eq. simpl. by rewrite Hentry.
    + by rewrite (deref_throws_invalid _ _ Hd).
  - destruct (deref b) as [read|e] eqn:Hd; simpl.
    + by rewrite lookup_insert_ne.
    + by rewrite (deref_throws_invalid _ _ Hd).
Qed.

Lemma fetch_loops_agree sample_map sample records acc l :
  default [] (acc !! sample) = l →
  match fetch_reads sample_map records acc,
        fetch_sample_reads sample_map sample records l with
  | Ok m, Ok reads => default [] (m !! sample) = reads
  | Throw e, Throw e' => e = e'
  | _, _ => False
  end.
Proof.
  revert acc l. induction records as [|b rest IH]; intros acc l Hl; simpl.
  - done.
  - pose proof (fetch_steps_agree sample_map sample acc l b Hl) as Hstep.
    destruct (fetch_reads_step sample_map acc b) as [acc'|e],
             (fetch_sample_reads_step sample_map sample l b) as [l'|e'];
      simpl; try done.
    by apply IH.
Qed.

(** X4.  The two overloads of [fetch_reads] agree: on the same records
    either both throw the same exception, or both return, and the reads
    that [fetch_reads (sample, region)] returns are those that
    [fetch_reads (region)] files under the sample, in the same order
    (none, when it has no entry for the sample). *)
Theorem fetch_reads_overloads_agree sample_map sample records :
  match fetch_reads sample_map records ∅,
        fetch_sample_reads sample_map sample records [] with
  | Ok m, Ok reads => default [] (m !! sample) = reads
  | Throw e, Throw e' => e = e'
  | _, _ => False
  end.
Proof. apply fetch_loops_agree. by rewrite lookup_empty. Qed.

End sample_queries.

(** ** Read counts and coverage regions *)

Section read_stats.
Import Region ReadUtils ReadStats.
Local Open Scope list_scope.
Local Open Scope N_scope.

Lemma count_if_complement (p q : AlignedRead → bool) reads :
  (∀ read, q read = negb (p read)) →
  count_if p reads + count_if q reads = N.of_nat (length reads).
Proof.
  intros Hq. unfold count_if. induction reads as [|read reads IH]; [done|].
  simpl. rewrite Hq. destruct (p read); simpl; lia.
Qed.

Lemma count_if_le (p : AlignedRead → bool) reads :
  count_if p reads <= N.of_nat (length reads).
Proof.
  unfold count_if. induction reads as [|read reads IH]; [done|].
  simpl. destruct (p read); simpl; lia.
Qed.

Lemma foldl_mod_total {A} (g : A → N) (l : list A) (a : N) :
  foldl (fun curr x => (curr + g x) mod 2 ^ 64) (a mod 2 ^ 64) l
  = (a + total g l) mod 2 ^ 64.
Proof.
  revert a. induction l as [|x l IH]; intros a; simpl.
  - by rewrite N.add_0_r.
  - rewrite N.Div0.add_mod_idemp_l. rewrite IH. f_equal. lia.
Qed.

Lemma accumulate_total (f : list AlignedRead → N) sample_reads :
  accumulate f sample_reads = total (fun p => f p.2) sample_reads mod 2 ^ 64.
Proof.
  unfold accumulate.
  change 0 with (0 mod 2 ^ 64) at 1.
  by rewrite (foldl_mod_total (fun p : string * list AlignedRead => f p.2)).
Qed.

Lemma total_add {A} (f g h : A → N) (l : list A) :
  (∀ x, f x + g x = h x) → total f l + total g l = total h l.
Proof.
  intros H. induction l as [|x l IH]; [done|]. simpl.
  rewrite <- (H x), <- IH. lia.
Qed.

(** X5.  Every read is counted by exactly one of [count_forward] and
    [count_reverse]: their sum is [count_reads], for a read container
    without and with a region, and, in [size_t] arithmetic, for a map
    from sample to reads with a region.  [count_mapq_zero] never exceeds
    [count_reads]. *)
Theorem strand_counts_partition_reads
    (get_mapping_quality : AlignedRead → N) (reads : list AlignedRead)
    (sample_reads : list (string * list AlignedRead)) (region : GenomicRegion) :
  count_forward reads + count_reverse reads = count_reads reads
  ∧ count_forward_in reads region + count_reverse_in reads region
    = count_reads_in reads region
  ∧ (accumulate (fun r => count_forward_in r region) sample_reads
     + accumulate (fun r => count_reverse_in r region) sample_reads) mod 2 ^ 64
    = accumulate (fun r => count_reads_in r region) sample_reads
  ∧ count_mapq_zero get_mapping_quality reads <= count_reads reads.
Proof.
  assert (Hrev : ∀ read, IsReverse read = negb (IsForward read)).
  { intros read. unfold IsReverse, IsForward. by rewrite negb_involutive. }
  split; [|split; [|split]].
  - by apply count_if_complement.
  - by apply count_if_complement.
  - rewrite !accumulate_total. rewrite <- N.Div0.add_mod. f_equal.
    apply total_add. intros [sample r]. simpl.
    by apply count_if_complement.
  - apply count_if_le.
Qed.

(** X6.  The base pairs of a read container are those of its forward
    reads and those of its reverse reads: in [size_t] arithmetic,
    [count_forward_base_pairs] and [count_reverse_base_pairs] add up to
    [count_base_pairs]. *)
Theorem strand_base_pairs_partition
    (get_sequence_size : AlignedRead → N) (reads : list AlignedRead) :
  (count_forward_base_pairs get_sequence_size reads
   + count_reverse_base_pairs get_sequence_size reads) mod 2 ^ 64
  = count_base_pairs get_sequence_size reads.
Proof.
  unfold count_forward_base_pairs, count_reverse_base_pairs, count_base_pairs.
  change 0 with (0 mod 2 ^ 64).
  rewrite (foldl_mod_total
             (fun read => if IsForward read then get_sequence_size read else 0)).
  rewrite (foldl_mod_total
             (fun read => if IsReverse read then get_sequence_size read else 0)).
  rewrite (foldl_mod_total get_sequence_size).
  rewrite <- N.Div0.add_mod. f_equal. rewrite !N.add_0_l.
  apply total_add. intros read. unfold IsReverse, IsForward.
  destruct (is_marked_reverse_mapped read); simpl; lia.
Qed.


(** *** [find_high_coverage_regions] *)

Lemma find_if_le {A} (p : A → bool) l : (find_if p l ≤ length l)%nat.
Proof. induction l as [|x l IH]; simpl; [lia|]. destruct (p x); lia. Qed.

Lemma find_if_take {A} (p : A → bool) l :
  Forall (fun x => p x = false) (take (find_if p l) l).
Proof.
  induction l as [|x l IH]; simpl; [constructor|].
  destruct (p x) eqn:Hp; simpl; [constructor|]. by constructor.
Qed.

Lemma find_if_drop {A} (p : A → bool) l x rest :
  drop (find_if p l) l = x :: rest → p x = true.
Proof.
  induction l as [|y l IH]; simpl; [done|].
  destruct (p y) eqn:Hp; simpl; [by intros [= <- _]|done].
Qed.

Lemma find_if_not_pos {A} (p : A → bool) x rest :
  p x = true → (0 < find_if_not p (x :: rest))%nat.
Proof. intros Hp. unfold find_if_not. simpl. rewrite Hp. simpl. lia. Qed.

Lemma find_if_pos {A} (p : A → bool) x rest :
  p x = false → (0 < find_if p (x :: rest))%nat.
Proof. intros Hp. simpl. rewrite Hp. lia. Qed.

Lemma lookup_low_high_rest (low high rest : list N) i c :
  (low ++ high ++ rest) !! i = Some c →
  (i < length low)%nat ∧ low !! i = Some c
  ∨ (length low ≤ i < length low + length high)%nat
    ∧ high !! (i - length low)%nat = Some c
  ∨ (length low + length high ≤ i)%nat
    ∧ rest !! (i - length low - length high)%nat = Some c.
Proof.
  intros H. apply lookup_app_Some in H as [H|[Hle H]].
  - left. split; [|done]. by eapply lookup_lt_Some.
  - apply lookup_app_Some in H as [H|[Hle' H]].
    + right. left. split; [|done]. apply lookup_lt_Some in H. lia.
    + right. right. split; [lia|done].
Qed.

Lemma find_high_loop_step fuel region max_coverage consumed remaining result :
  find_high_loop (S fuel) region max_coverage consumed remaining result
  = let to_high := find_if (is_high_coverage max_coverage) remaining in
    let from_high := drop to_high remaining in
    match from_high with
    | [] => Some result
    | _ =>
        let run := find_if_not (is_high_coverage max_coverage) from_high in
        let high_range_begin :=
          to_SizeType (region_begin region
                       + to_SizeType (N.of_nat (consumed + to_high))) in
        let high_range_end :=
          to_SizeType (high_range_begin + to_SizeType (N.of_nat run)) in
        find_high_loop fuel region max_coverage (consumed + to_high + run)
          (drop run from_high)
          (result ++ [mkRegion (contig_name region)
                               high_range_begin high_range_end])
    end.
Proof. destruct remaining; reflexivity. Qed.

Lemma find_high_loop_spec region max_coverage fuel :
  ∀ consumed remaining acc,
    (length remaining < fuel)%nat →
    region_begin region + N.of_nat (consumed + length remaining)
      < SizeType_modulus →
    ∃ out, find_high_loop fuel region max_coverage consumed remaining acc
           = Some (acc ++ out)
           ∧ high_runs region max_coverage consumed remaining out.
Proof.
  set (high := is_high_coverage max_coverage).
  induction fuel as [|fuel IH]; intros consumed remaining acc Hfuel Hfits;
    [lia|].
  assert (Hnone : ∀ rem : list N,
             Forall (fun x => high x = false) rem →
             high_runs region max_coverage consumed rem []).
  { intros rem Hlow. split; [constructor|]. split; [constructor|].
    intros p. split.
    - intros (r & Hr & _). by apply elem_of_nil in Hr.
    - intros (i & c & Hi & Hc & _). exfalso.
      rewrite Forall_lookup in Hlow. specialize (Hlow _ _ Hi).
      unfold high, is_high_coverage in Hlow. apply N.ltb_ge in Hlow. lia. }
  rewrite find_high_loop_step. cbv zeta. fold high.
  set (to_high := find_if high remaining).
  pose proof (find_if_le high remaining) as Hto_le. fold to_high in Hto_le.
  pose proof (find_if_take high remaining) as Hlow. fold to_high in Hlow.
  pose proof (take_drop to_high remaining) as Hsplit.
  remember (drop to_high remaining) as from_high0 eqn:Hfrom.
  symmetry in Hfrom. destruct from_high0 as [|h from_rest].
  { exists []. split; [by rewrite app_nil_r|]. apply Hnone.
    rewrite <- Hsplit, app_nil_r. exact Hlow. }
  assert (Hh : high h = true) by (eapply find_if_drop; exact Hfrom).
  set (from_high := h :: from_rest) in *.
  set (run := find_if_not high from_high).
  assert (Hrun_pos : (0 < run)%nat) by (by apply find_if_not_pos).
  pose proof (find_if_le (fun x => negb (high x)) from_high) as Hrun_le.
  fold (find_if_not high from_high) in Hrun_le. fold run in Hrun_le.
  pose proof (find_if_take (fun x => negb (high x)) from_high) as Hhigh.
  fold (find_if_not high from_high) in Hhigh. fold run in Hhigh.
  pose proof (take_drop run from_high) as Hsplit'.
  set (rest := drop run from_high) in *.
  assert (Hlen : length remaining = (to_high + length from_high)%nat).
  { rewrite <- Hsplit at 1. rewrite length_app, length_take. lia. }
  assert (Hlen' : length from_high = (run + length rest)%nat).
  { rewrite <- Hsplit' at 1. rewrite length_app, length_take. lia. }
  assert (Hbegin : to_SizeType (region_begin region
                                + to_SizeType (N.of_nat (consumed + to_high)))
                   = region_begin region + N.of_nat (consumed + to_high)).
  { unfold to_SizeType in *. rewrite N.Div0.add_mod_idemp_r.
    apply N.mod_small. lia. }
  rewrite Hbegin.
  assert (Hend : to_SizeType (region_begin region + N.of_nat (consumed + to_high)
                              + to_SizeType (N.of_nat run))
                 = region_begin region + N.of_nat (consumed + to_high + run)).
  { unfold to_SizeType in *. rewrite N.Div0.add_mod_idemp_r.
    rewrite N.mod_small by lia. lia. }
  rewrite Hend.
  destruct (IH (consumed + to_high + run)%nat rest
              (acc ++ [mkRegion (contig_name region)
                         (region_begin region + N.of_nat (consumed + to_high))
                         (region_begin region + N.of_nat (consumed + to_high + run))]))
    as (out & Hloop & Hforall & Hsorted & Hpos); [lia|lia|].
  set (r0 := mkRegion (contig_name region)
               (region_begin region + N.of_nat (consumed + to_high))
               (region_begin region + N.of_nat (consumed + to_high + run))) in *.
  exists (r0 :: out). split.
  { rewrite Hloop. by rewrite <- app_assoc. }
  assert (Hrest_head : ∀ r, r ∈ out → region_end r0 < region_begin r).
  { intros r Hr. rewrite Forall_forall in Hforall.
    destruct (Hforall r Hr) as (_ & Hb & Hne & He). simpl.
    destruct rest as [|c rest'] eqn:Hrest.
    - simpl in He. lia.
    - assert (high c = false) as Hc.
      { pose proof (find_if_drop (fun x => negb (high x)) from_high c rest') as Hd.
        fold (find_if_not high from_high) in Hd. fold run in Hd.
        unfold rest in Hrest. specialize (Hd Hrest).
        by apply negb_true_iff in Hd. }
      pose proof (find_if_pos high c rest' Hc) as Hp. fold high in Hb. lia. }
  split; [|split].
  - constructor.
    + simpl. fold high. fold to_high. repeat split; [lia|lia|lia].
    + eapply Forall_impl; [exact Hforall|]. simpl.
      intros r (Hc & Hb & Hne & He). fold high. fold to_high.
      repeat split; [done|lia|done|lia].
  - constructor; [exact Hsorted|].
    apply Forall_forall. exact Hrest_head.
  - intros p. split.
    + intros (r & Hr & Hin). apply elem_of_cons in Hr as [->|Hr].
      * unfold inside in Hin. simpl in Hin.
        set (j := N.to_nat (p - region_begin region - N.of_nat (consumed + to_high))).
        assert (Hj : (j < run)%nat) by (unfold j; lia).
        destruct (lookup_lt_is_Some_2 (take run from_high) j) as [c Hc].
        { rewrite length_take. lia. }
        exists (to_high + j)%nat, c. split; [|split].
        -- rewrite <- Hsplit.
           rewrite lookup_app_r by (rewrite length_take; lia).
           rewrite length_take.
           replace (to_high + j - to_high `min` length remaining)%nat with j by lia.
           rewrite <- Hsplit'. by rewrite lookup_app_l by (rewrite length_take; lia).
        -- rewrite Forall_lookup in Hhigh. specialize (Hhigh _ _ Hc).
           apply negb_false_iff in Hhigh. unfold high, is_high_coverage in Hhigh.
           by apply N.ltb_lt in Hhigh.
        -- unfold j. lia.
      * destruct (proj1 (Hpos p) (ex_intro _ r (conj Hr Hin)))
          as (i & c & Hi & Hc & Hp).
        exists (to_high + run + i)%nat, c. split; [|split; [done|lia]].
        rewrite <- Hsplit.
        rewrite lookup_app_r by (rewrite length_take; lia).
        rewrite length_take. rewrite <- Hsplit'.
        rewrite lookup_app_r by (rewrite length_take; lia).
        rewrite length_take. fold rest. rewrite <- Hi. f_equal. lia.
    + intros (i & c & Hi & Hc & Hp).
      rewrite <- Hsplit in Hi.
      rewrite <- Hsplit' in Hi. fold rest in Hi.
      apply lookup_low_high_rest in Hi as [[Hlt Hi]|[[Hlt Hi]|[Hlt Hi]]].
      * exfalso. rewrite Forall_lookup in Hlow. specialize (Hlow _ _ Hi).
        unfold high, is_high_coverage in Hlow. apply N.ltb_ge in Hlow. lia.
      * rewrite !length_take in Hlt. exists r0. split; [by left|].
        unfold inside. simpl. lia.
      * rewrite !length_take in Hlt, Hi.
        destruct (proj2 (Hpos p)) as (r & Hr & Hin).
        { exists (i - to_high `min` length remaining
                  - run `min` length from_high)%nat, c.
          split; [done|]. split; [done|]. lia. }
        exists r. split; [by right|done].
Qed.

(** X7.  On a coverage vector that ends within the 32-bit positions,
    [find_high_coverage_regions] returns: its regions lie on the contig
    of the region and are not empty; a position is in one of them exactly
    when its coverage exceeds [max_coverage]; and they come in order with
    at least one position between one and the next, so each is a maximal
    run of high coverage. *)
Theorem high_coverage_regions_are_maximal_runs
    (positions_coverage : list N) (region : GenomicRegion) (max_coverage : N) :
  region_begin region + N.of_nat (length positions_coverage)
    < SizeType_modulus →
  ∃ result,
    find_high_coverage_regions positions_coverage region max_coverage
    = Some result
    ∧ (∀ r, r ∈ result →
            contig_name r = contig_name region
            ∧ region_begin r < region_end r)
    ∧ (∀ p, (∃ r, r ∈ result ∧ inside r p)
            ↔ ∃ c, coverage_at positions_coverage (region_begin region) p
                   = Some c ∧ max_coverage < c)
    ∧ StronglySorted (fun x y => region_end x < region_begin y) result.
Proof.
  intros Hfits. unfold find_high_coverage_regions.
  destruct (find_high_loop_spec region max_coverage
              (S (length positions_coverage)) 0%nat positions_coverage [])
    as (out & Hloop & Hforall & Hsorted & Hpos); [lia|simpl; lia|].
  exists out. split; [exact Hloop|]. split; [|split; [|exact Hsorted]].
  - intros r Hr. rewrite Forall_forall in Hforall.
    destruct (Hforall r Hr) as (Hc & _ & Hne & _). done.
  - intros p. rewrite Hpos. unfold coverage_at. split.
    + intros (i & c & Hi & Hc & ->). exists c. split; [|done].
      destruct (N.ltb_spec (region_begin region + N.of_nat (0 + i))
                           (region_begin region)) as [Hlt|_]; [lia|].
      rewrite <- Hi. f_equal. lia.
    + intros (c & Hc & Hmax).
      destruct (N.ltb_spec p (region_begin region)) as [|Hle]; [done|].
      exists (N.to_nat (p - region_begin region)), c.
      split; [done|]. split; [done|]. lia.
Qed.

Lemma high_coverage_regions_are_maximal_runs_witness :
  find_high_coverage_regions example_coverage (mkRegion "chr1" 100 107) 4
  = Some [mkRegion "chr1" 101 103; mkRegion "chr1" 105 106].
Proof.
  destruct (high_coverage_regions_are_maximal_runs example_coverage
              (mkRegion "chr1" 100 107) 4) as (result & Hresult & _).
  - vm_compute. reflexivity.
  - rewrite Hresult. vm_compute in Hresult. by injection Hresult as <-.
Defined.


(** *** [find_uniform_coverage_regions] *)

Lemma tiles_snoc contig from mid l r :
  tiles contig from mid l →
  contig_name r = contig → region_begin r = mid → mid < region_end r →
  tiles contig from (region_end r) (l ++ [r]).
Proof.
  revert from. induction l as [|x l IH]; intros from; simpl.
  - intros -> Hc Hb Hlt. done.
  - intros (Hc & Hb & Hlt & Hrest) Hc' Hb' Hlt'. repeat split; try done.
    by apply IH.
Qed.

Lemma coverage_at_lookup coverages first n :
  coverage_at coverages first (first + N.of_nat n) = coverages !! n.
Proof.
  unfold coverage_at.
  destruct (N.ltb_spec (first + N.of_nat n) first) as [|_]; [lia|].
  f_equal. lia.
Qed.

Lemma uniform_step_invariant coverages region n st c :
  region_begin region + N.of_nat n + 1 < SizeType_modulus →
  coverages !! n = Some c →
  uniform_invariant coverages region n st →
  uniform_invariant coverages region (S n)
    (uniform_step (contig_name region) st c).
Proof.
  intros Hfits Hc. destruct st as [[[result b] e] prev].
  unfold uniform_invariant, uniform_step.
  intros (He & Htiles & Hzero & Hpos & Hprev & Hruns).
  assert (Hend : to_SizeType (e + 1) = region_begin region + N.of_nat (S n)).
  { unfold to_SizeType. rewrite N.mod_small by lia. lia. }
  assert (Hat : coverage_at coverages (region_begin region) e = Some c).
  { rewrite He, coverage_at_lookup. exact Hc. }
  destruct (N.eqb_spec c prev) as [->|Hne]; simpl.
  - split; [exact Hend|]. split; [exact Htiles|]. split; [done|].
    split.
    + intros _. rewrite Hend. destruct (decide (n = 0%nat)) as [Hn|Hn].
      * destruct (Hzero Hn) as [-> _]. lia.
      * specialize (Hpos Hn). lia.
    + split; [|exact Hruns]. intros p Hp. rewrite Hend in Hp.
      destruct (decide (p = e)) as [->|Hpe]; [exact Hat|].
      apply Hprev. lia.
  - assert (Hn : n ≠ 0%nat).
    { intros ->. destruct (Hzero eq_refl) as [_ Hhead].
      rewrite head_lookup in Hhead. congruence. }
    specialize (Hpos Hn).
    split; [exact Hend|]. split.
    { apply (tiles_snoc _ _ b _ (mkRegion (contig_name region) b e));
        simpl; done. }
    split; [done|]. split.
    + intros _. rewrite Hend. lia.
    + split.
      * intros p Hp. rewrite Hend in Hp. assert (p = e) as -> by lia.
        exact Hat.
      * intros r Hr. apply elem_of_app in Hr as [Hr|Hr]; [by apply Hruns|].
        apply list_elem_of_singleton in Hr as ->.
        exists prev. split.
        -- intros p Hp. apply Hprev. exact Hp.
        -- simpl. rewrite Hat. congruence.
Qed.

Lemma uniform_foldl_invariant coverages region suffix :
  ∀ n st,
    region_begin region + N.of_nat (length coverages) < SizeType_modulus →
    drop n coverages = suffix →
    uniform_invariant coverages region n st →
    uniform_invariant coverages region (n + length suffix)
      (foldl (uniform_step (contig_name region)) st suffix).
Proof.
  induction suffix as [|c suffix IH]; intros n st Hfits Hdrop Hinv.
  - simpl. by rewrite Nat.add_0_r.
  - simpl. replace (n + S (length suffix))%nat with (S n + length suffix)%nat
      by lia.
    assert (Hc : coverages !! n = Some c).
    { rewrite <- (Nat.add_0_r n), <- lookup_drop, Hdrop. done. }
    apply IH; [done| |].
    + rewrite <- (drop_drop coverages n 1) || idtac.
      replace (S n) with (n + 1)%nat by lia.
      rewrite <- drop_drop, Hdrop. done.
    + apply uniform_step_invariant; [|done|done].
      apply lookup_lt_Some in Hc. lia.
Qed.

(** X8.  On a coverage vector that ends within the 32-bit positions,
    the regions of [find_uniform_coverage_regions] tile the positions of
    the vector, in order and without an empty region; all positions of a
    region have the same coverage, and the position behind it, if it has a
    coverage, has another one.  An empty vector gives no region. *)
Theorem uniform_coverage_regions_tile_region
    (coverages : list N) (region : GenomicRegion) :
  region_begin region + N.of_nat (length coverages) < SizeType_modulus →
  tiles (contig_name region) (region_begin region)
        (region_begin region + N.of_nat (length coverages))
        (find_uniform_coverage_regions coverages region)
  ∧ ∀ r, r ∈ find_uniform_coverage_regions coverages region →
         uniform_run coverages (region_begin region) r.
Proof.
  intros Hfits. unfold find_uniform_coverage_regions.
  destruct coverages as [|front rest] eqn:Hcov.
  { simpl. split; [lia|]. intros r Hr. by apply elem_of_nil in Hr. }
  rewrite <- Hcov in *.
  pose proof (uniform_foldl_invariant coverages region coverages 0
                ([], region_begin region, region_begin region, front) Hfits
                eq_refl) as Hinv.
  destruct (foldl (uniform_step (contig_name region))
                  ([], region_begin region, region_begin region, front)
                  coverages) as [[[result b] e] prev].
  simpl in Hinv.
  destruct Hinv as (He & Htiles & _ & Hpos & Hprev & Hruns).
  { split; [lia|]. split; [done|]. split.
    - intros _. split; [done|]. by rewrite Hcov.
    - split; [done|]. split; [intros p Hp; lia|].
      intros r Hr. by apply elem_of_nil in Hr. }
  assert (Hlen : length coverages ≠ 0%nat) by (rewrite Hcov; done).
  specialize (Hpos Hlen). split.
  - rewrite <- He.
    apply (tiles_snoc _ _ b _ (mkRegion (contig_name region) b e)); done.
  - intros r Hr. apply elem_of_app in Hr as [Hr|Hr]; [by apply Hruns|].
    apply list_elem_of_singleton in Hr as ->. exists prev. split.
    + intros p Hp. by apply Hprev.
    + simpl. rewrite He, coverage_at_lookup.
      rewrite lookup_ge_None_2 by lia. done.
Qed.

Lemma uniform_coverage_regions_tile_region_witness :
  find_uniform_coverage_regions example_coverage (mkRegion "chr1" 100 107)
  = [mkRegion "chr1" 100 101; mkRegion "chr1" 101 102; mkRegion "chr1" 102 103;
     mkRegion "chr1" 103 105; mkRegion "chr1" 105 106; mkRegion "chr1" 106 107]
  ∧ tiles "chr1" 100 107
      (find_uniform_coverage_regions example_coverage (mkRegion "chr1" 100 107)).
Proof.
  split; [vm_compute; reflexivity|].
  apply (uniform_coverage_regions_tile_region example_coverage
           (mkRegion "chr1" 100 107)).
  vm_compute. reflexivity.
Defined.

End read_stats.

(** ** The thread options *)

Section threads.
Import OptionCollation Noexcept Threads.

(** X9.  The readers of the thread option agree.  Whatever the option
    map holds, [is_multithreaded_run] returns what [is_threading_allowed]
    returns, and where [is_threading_allowed] throws, because the option
    is set and holds no [int], [is_multithreaded_run], which is declared
    [noexcept], ends the program.  When the option holds an [int], the
    execution policy is [par] exactly when [get_num_threads] returns no
    number, which happens for 0 only; and a negative count [z] is not
    refused but read as the unsigned number [2^32 + z]. *)
Theorem thread_options_agree (options : OptionMap) :
  match is_threading_allowed options with
  | Ok allowed => is_multithreaded_run options = Returned allowed
  | Throw _ =>
      is_multithreaded_run options = Terminated
      ∧ ∃ v, options !! "threads" = Some v ∧ ∀ z, v ≠ VInt z
  end
  ∧ ∀ z, options !! "threads" = Some (VInt z) → is_int z →
      (get_thread_execution_policy options = Ok par
       ↔ get_num_threads options = Ok None)
      ∧ (get_num_threads options = Ok None ↔ z = 0%Z)
      ∧ ((z < 0)%Z → get_num_threads options = Ok (Some (Z.to_N (2 ^ 32 + z))))
      ∧ is_multithreaded_run options = Returned (negb (z =? 1)%Z).
Proof.
  assert (Hmod : ∀ z, is_int z → ((z mod 2 ^ 32 = 0)%Z ↔ z = 0%Z)).
  { intros z Hint. unfold is_int in Hint. split; [|by intros ->].
    intros Hm. destruct (Z.le_gt_cases 0 z) as [Hnn|Hneg].
    - rewrite Z.mod_small in Hm by lia. done.
    - assert ((z + 2 ^ 32) mod 2 ^ 32 = z mod 2 ^ 32)%Z as Heq.
      { replace (z + 2 ^ 32)%Z with (z + 1 * 2 ^ 32)%Z by lia.
        apply Z.mod_add. lia. }
      rewrite Z.mod_small in Heq by lia. lia. }
  split.
  - unfold is_multithreaded_run, is_threading_allowed, get_num_threads,
      read_num_threads, as_unsigned, is_set, count, at_.
    destruct (options !! "threads") as [v|] eqn:Hv; simpl; [|done].
    destruct v as [| z | | | |]; simpl;
      try (split; [done|]; eexists; split; [done|]; by intros z).
    set (n := to_unsigned z).
    destruct (N.ltb_spec 0 n) as [Hpos|Hzero]; simpl.
    + f_equal. destruct (N.ltb_spec 1 n), (N.eqb_spec n 1); simpl; try done; lia.
    + assert (n = 0%N) as -> by lia. done.
  - intros z Hz Hint. pose proof (Hmod z Hint) as Hzero. unfold is_int in Hint.
    unfold is_multithreaded_run, get_thread_execution_policy, get_num_threads,
      read_num_threads, as_unsigned, is_set, count, at_.
    rewrite Hz. simpl. unfold to_unsigned.
    pose proof (Z.mod_pos_bound z (2 ^ 32) ltac:(lia)) as Hbound.
    assert (Hvalue : (z mod 2 ^ 32)%Z
                     = if (z <? 0)%Z then (2 ^ 32 + z)%Z else z).
    { destruct (Z.ltb_spec z 0).
      - replace (z mod 2 ^ 32)%Z with ((z + 1 * 2 ^ 32) mod 2 ^ 32)%Z
          by (apply Z.mod_add; lia).
        rewrite Z.mod_small by lia. lia.
      - rewrite Z.mod_small by lia. done. }
    destruct (N.ltb_spec 0 (Z.to_N (z mod 2 ^ 32))) as [Hpos|Hnull].
    + assert (z ≠ 0%Z) as Hne by (intros Hz0; apply Hzero in Hz0; lia).
      destruct (Z.eqb_spec z 0) as [|_]; [done|]. simpl.
      split; [split; discriminate|]. split; [split; [discriminate|done]|].
      split.
      * intros Hneg. do 2 f_equal. rewrite Hvalue.
        destruct (Z.ltb_spec z 0); [done|lia].
      * f_equal. rewrite Hvalue.
        destruct (Z.ltb_spec z 0), (Z.eqb_spec z 1),
          (N.ltb_spec 1 (Z.to_N (2 ^ 32 + z))), (N.ltb_spec 1 (Z.to_N z));
          simpl; try done; lia.
    + assert (z = 0%Z) as -> by (apply Hzero; lia).
      simpl. split; [done|]. split; [done|]. split; [lia|done].
Qed.

Lemma thread_options_agree_witness :
  get_num_threads (threads_option (-1)) = Ok (Some 4294967295%N)
  ∧ is_multithreaded_run (threads_option (-1)) = Returned true.
Proof.
  destruct (thread_options_agree (threads_option (-1))) as [_ H].
  destruct (H (-1)%Z) as (_ & _ & Hneg & Hrun).
  - reflexivity.
  - unfold is_int. lia.
  - split; [apply Hneg; lia|exact Hrun].
Defined.

End threads.

(** ** Files of paths *)

Section paths_file.
Import HtslibSamFacade PathsFile.

Lemma append_cons x (a b : string) : String x a ++ b = String x (a ++ b).
Proof. reflexivity. Qed.

Lemma append_nil (b : string) : "" ++ b = b.
Proof. reflexivity. Qed.

Lemma append_assoc (a b c : string) : (a ++ b) ++ c = a ++ (b ++ c).
Proof.
  induction a as [|x a IH]; [done|]. rewrite !append_cons. by rewrite IH.
Qed.

Lemma append_empty_r (a : string) : a ++ "" = a.
Proof.
  induction a as [|x a IH]; [done|]. rewrite append_cons. by rewrite IH.
Qed.

Lemma getlines_line line rest acc :
  newline_char ∉ list_ascii_of_string line →
  getlines (line ++ String newline_char rest) acc
  = (acc ++ line) :: getlines rest "".
Proof.
  revert acc. induction line as [|c line IH]; intros acc Hnl.
  - rewrite append_nil. simpl. rewrite ?Ascii.eqb_refl. by rewrite append_empty_r.
  - simpl in Hnl. apply not_elem_of_cons in Hnl as [Hc Hnl].
    rewrite append_cons. simpl.
    destruct (Ascii.eqb_spec c newline_char) as [->|_]; [done|].
    rewrite IH by done. f_equal. rewrite append_assoc. by rewrite append_cons.
Qed.

Lemma getlines_lines_text prefix lines :
  Forall (fun line => newline_char ∉ list_ascii_of_string (line ++ prefix)) lines →
  getlines (lines_text (prefix ++ LF) lines) ""
  = (fun line => line ++ prefix) <$> lines.
Proof.
  induction 1 as [|line lines Hline _ IH]; simpl; [done|].
  rewrite <- !append_assoc. unfold LF at 1.
  rewrite (append_assoc (line ++ prefix)). rewrite append_cons, append_nil.
  rewrite getlines_line by done. rewrite append_nil. by rewrite IH.
Qed.

Lemma length_append (a b : string) :
  String.length (a ++ b) = (String.length a + String.length b)%nat.
Proof.
  induction a as [|x a IH]; [done|]. rewrite append_cons. simpl. by rewrite IH.
Qed.

Lemma back_snoc line c : back (line ++ String c "") = Some c.
Proof.
  unfold back. rewrite length_append. simpl.
  replace (String.length line + 1 - 1)%nat with (0 + String.length line)%nat
    by lia.
  by rewrite <- append_correct2.
Qed.

Lemma pop_back_snoc line c : pop_back (line ++ String c "") = line.
Proof.
  unfold pop_back. rewrite length_append. simpl.
  replace (String.length line + 1 - 1)%nat with (String.length line) by lia.
  induction line as [|x line IH]; [done|].
  rewrite append_cons. simpl. by rewrite IH.
Qed.

Lemma snoc_not_empty line c : String.eqb (line ++ String c "") "" = false.
Proof. by destruct line. Qed.

Lemma strip_carriage_return_snoc line :
  strip_carriage_return (line ++ String carriage_return "") = line.
Proof.
  unfold strip_carriage_return.
  rewrite snoc_not_empty, back_snoc, Ascii.eqb_refl. simpl.
  apply pop_back_snoc.
Qed.

Lemma strip_carriage_return_id line :
  back line ≠ Some carriage_return → strip_carriage_return line = line.
Proof.
  intros Hback. unfold strip_carriage_return.
  destruct (back line) as [c|]; [|by rewrite andb_false_r].
  destruct (Ascii.eqb_spec c carriage_return) as [->|_]; [done|].
  by rewrite andb_false_r.
Qed.

Lemma list_ascii_of_string_app (a b : string) :
  list_ascii_of_string (a ++ b)
  = (list_ascii_of_string a ++ list_ascii_of_string b)%list.
Proof.
  induction a as [|x a IH]; [done|]. rewrite append_cons. simpl. by rewrite IH.
Qed.

(** X10.  A file of paths reads the same with LF and with CRLF line
    ends: for lines without a newline and without a carriage return at
    the end, [extract_paths_from_file] returns the lines that are not
    empty, in order, from the text in which each line is ended by LF and
    from the one in which each is ended by CRLF. *)
Theorem paths_file_line_ends (lines : list string) :
  Forall path_line lines →
  extract_paths_from_file (lines_text LF lines)
  = List.filter (fun path => negb (String.eqb path "")) lines
  ∧ extract_paths_from_file (lines_text CRLF lines)
    = List.filter (fun path => negb (String.eqb path "")) lines.
Proof.
  intros Hlines. unfold extract_paths_from_file, read_lines. split.
  - change LF with ("" ++ LF). rewrite getlines_lines_text.
    + f_equal. rewrite <- list_fmap_compose.
      rewrite <- (list_fmap_id lines) at 2. apply Forall_fmap_ext.
      eapply Forall_impl; [exact Hlines|]. intros line [_ Hback]. simpl.
      rewrite append_empty_r. by apply strip_carriage_return_id.
    + eapply Forall_impl; [exact Hlines|]. intros line [Hnl _].
      by rewrite append_empty_r.
  - change CRLF with (String carriage_return "" ++ LF).
    rewrite getlines_lines_text.
    + f_equal. rewrite <- list_fmap_compose.
      rewrite <- (list_fmap_id lines) at 2. apply Forall_fmap_ext.
      apply Forall_forall. intros line _. simpl.
      apply strip_carriage_return_snoc.
    + eapply Forall_impl; [exact Hlines|]. intros line [Hnl _].
      rewrite list_ascii_of_string_app. simpl.
      rewrite elem_of_app, list_elem_of_singleton. intros [H|H]; [done|].
      discriminate H.
Qed.

Lemma paths_file_line_ends_witness :
  extract_paths_from_file
    (lines_text CRLF ["a.bam"; ""; "dir/b.bam"]) = ["a.bam"; "dir/b.bam"].
Proof.
  apply (paths_file_line_ends ["a.bam"; ""; "dir/b.bam"]).
  repeat (apply Forall_cons; split;
          [split; [apply (bool_decide_unpack _); vm_compute; exact I
                  |vm_compute; discriminate]|]).
  by apply Forall_nil.
Defined.

End paths_file.

(** ** Region ranges *)

Section region_range.
Import Region CallingComponents RegionRange.
Local Open Scope list_scope.

Lemma index_of_app_here pre x post :
  x ∉ pre → index_of (pre ++ x :: post) x = length pre.
Proof.
  induction pre as [|y pre IH]; simpl; intros Hx.
  - by rewrite String.eqb_refl.
  - apply not_elem_of_cons in Hx as [Hne Hx].
    destruct (String.eqb_spec y x) as [->|_]; [done|]. by rewrite IH.
Qed.

Lemma index_of_absent l x : x ∉ l → index_of l x = length l.
Proof.
  induction l as [|y l IH]; simpl; intros Hx; [done|].
  apply not_elem_of_cons in Hx as [Hne Hx].
  destruct (String.eqb_spec y x) as [->|_]; [done|]. by rewrite IH.
Qed.

(** X11.  [make_region_range] on two regions of one contig returns the
    closed region of the two when they are equal or when the first both
    begins and ends before the second, and throws [BadRegionRange]
    otherwise (also when the two begin at the same position and differ).
    On two regions of different contigs, the second contig coming
    behind the first in the reference index, it returns the first region
    extended to the end of its contig, every contig in between whole and
    in index order, and the second contig from 0 to the end of the second
    region; when the second contig does not come behind the first, it
    throws [BadRegionRange]. *)
Theorem region_range_spans_reference_index
    (closed_region : GenomicRegion → GenomicRegion → GenomicRegion)
    (lhs rhs : GenomicRegion) (reference : ReferenceGenome) :
  (contig_name lhs = contig_name rhs →
   make_region_range closed_region lhs rhs reference
   = if bool_decide (lhs = rhs
                     ∨ (region_begin lhs < region_begin rhs
                        ∧ region_end lhs < region_end rhs)%N)
     then Value [closed_region lhs rhs]
     else Error (mkBadRegionRange lhs rhs))
  ∧ (∀ before between behind,
       contig_name lhs ≠ contig_name rhs →
       contig_names reference
       = before ++ contig_name lhs :: between ++ contig_name rhs :: behind →
       contig_name lhs ∉ before → contig_name rhs ∉ between →
       make_region_range closed_region lhs rhs reference
       = Value ([mkRegion (contig_name lhs) (region_begin lhs)
                   (contig_size reference (contig_name lhs))]
                ++ (contig_region reference <$> between)
                ++ [mkRegion (contig_name rhs) 0 (region_end rhs)]))
  ∧ (∀ before behind,
       contig_name lhs ≠ contig_name rhs →
       contig_names reference = before ++ contig_name lhs :: behind →
       contig_name lhs ∉ before → contig_name rhs ∉ behind →
       make_region_range closed_region lhs rhs reference
       = Error (mkBadRegionRange lhs rhs)).
Proof.
  unfold make_region_range, is_same_contig. split; [|split].
  - intros Hc. rewrite Hc, String.eqb_refl.
    unfold begins_before, ends_before.
    destruct (decide (lhs = rhs)) as [->|Hne].
    + rewrite bool_decide_eq_true_2 by done. simpl.
      by rewrite bool_decide_eq_true_2 by (by left).
    + rewrite (bool_decide_eq_false_2 (lhs = rhs)) by done. simpl.
      destruct (N.ltb_spec (region_begin lhs) (region_begin rhs)),
               (N.ltb_spec (region_end lhs) (region_end rhs)); simpl.
      * by rewrite bool_decide_eq_true_2 by (right; done).
      * rewrite bool_decide_eq_false_2; [done|]. intros [?|[? ?]]; [done|lia].
      * rewrite bool_decide_eq_false_2; [done|]. intros [?|[? ?]]; [done|lia].
      * rewrite bool_decide_eq_false_2; [done|]. intros [?|[? ?]]; [done|lia].
  - intros before between behind Hne Hnames Hbefore Hbetween.
    unfold ContigName in *.
    destruct (String.eqb_spec (contig_name lhs) (contig_name rhs)); [done|].
    rewrite Hnames. rewrite index_of_app_here by done.
    unfold ContigName in *.
    rewrite drop_app_ge by lia.
    rewrite Nat.sub_succ_l, Nat.sub_diag by lia. simpl drop. rewrite ?drop_0.
    rewrite index_of_app_here by done. unfold ContigName in *.
    rewrite length_app. simpl.
    destruct (_ =? _)%nat eqn:Heq; [apply Nat.eqb_eq in Heq; lia|].
    cbn [negb]. rewrite take_app_length. reflexivity.
  - intros before behind Hne Hnames Hbefore Hbehind.
    unfold ContigName in *.
    destruct (String.eqb_spec (contig_name lhs) (contig_name rhs)); [done|].
    rewrite Hnames. rewrite index_of_app_here by done.
    unfold ContigName in *.
    rewrite drop_app_ge by lia.
    rewrite Nat.sub_succ_l, Nat.sub_diag by lia. simpl drop. rewrite ?drop_0.
    rewrite index_of_absent by done. unfold ContigName in *.
    by rewrite Nat.eqb_refl.
Qed.

Lemma region_range_spans_reference_index_witness :
  make_region_range get_encompassing (mkRegion "chr1" 900 950)
    (mkRegion "chr3" 10 20) three_contigs
  = Value [mkRegion "chr1" 900 1000; mkRegion "chr2" 0 500; mkRegion "chr3" 0 20].
Proof.
  destruct (region_range_spans_reference_index get_encompassing
              (mkRegion "chr1" 900 950) (mkRegion "chr3" 10 20) three_contigs)
    as (_ & Hrange & _).
  apply (Hrange [] ["chr2"] []).
  - discriminate.
  - reflexivity.
  - apply not_elem_of_nil.
  - apply (bool_decide_unpack _). vm_compute. exact I.
Defined.

End region_range.

(** ** Sorting and duplicates *)

Section algorithm.
Import Algorithm.
Local Open Scope list_scope.
Context {A : Type}.

Lemma insert_by_perm (less : A → A → bool) x l :
  insert_by less x l ≡ₚ x :: l.
Proof.
  induction l as [|y l IH]; simpl; [done|].
  destruct (less y x); [|done]. rewrite IH. apply Permutation_swap.
Qed.

Lemma sort_by_perm (less : A → A → bool) l : sort_by less l ≡ₚ l.
Proof.
  induction l as [|x l IH]; simpl; [done|].
  unfold sort_by in *. rewrite insert_by_perm. by rewrite IH.
Qed.

Section order.
Variable less : A → A → bool.
Variable P : A → Prop.
Hypothesis not_after_trans : ∀ x y z, P x → P y → P z →
  not_after less x y → not_after less y z → not_after less x z.
Hypothesis not_after_total : ∀ x y, P x → P y →
  not_after less x y ∨ not_after less y x.

Lemma insert_by_sorted x l :
  P x → Forall P l →
  StronglySorted (not_after less) l →
  StronglySorted (not_after less) (insert_by less x l).
Proof.
  intros Hx HP Hsorted. induction Hsorted as [|y l Hl IH Hy]; simpl.
  - repeat constructor.
  - apply Forall_cons in HP as [HPy HPl].
    destruct (less y x) eqn:Hyx.
    + constructor; [by apply IH|].
      rewrite (insert_by_perm less x l). constructor; [|done].
      destruct (not_after_total x y Hx HPy) as [H|H]; [|done].
      unfold not_after in H. congruence.
    + constructor; [by constructor|]. constructor; [done|].
      rewrite Forall_forall in Hy, HPl. apply Forall_forall. intros z Hz.
      apply (not_after_trans x y z); [done|done|by apply HPl|done|by apply Hy].
Qed.

Lemma sort_by_sorted l :
  Forall P l → StronglySorted (not_after less) (sort_by less l).
Proof.
  induction 1 as [|x l Hx Hl IH]; simpl; [constructor|].
  apply insert_by_sorted; [done| |done].
  unfold sort_by. fold (sort_by less l). by rewrite sort_by_perm.
Qed.

End order.

Lemma adjacent_find_unique (p : A → A → bool) l :
  take (adjacent_find p l) l ++ unique p (drop (adjacent_find p l) l)
  = unique p l.
Proof.
  induction l as [|x l IH]; [done|].
  destruct l as [|y l]; [done|].
  change (adjacent_find p (x :: y :: l))
    with (if p x y then 0%nat else S (adjacent_find p (y :: l))).
  destruct (p x y) eqn:Hp; [done|].
  cbn [take drop app]. rewrite IH. simpl. by rewrite Hp.
Qed.

Lemma adjacent_find_le (p : A → A → bool) l :
  (adjacent_find p l ≤ length l)%nat.
Proof.
  induction l as [|x l IH]; simpl; [lia|].
  destruct l as [|y l]; simpl in *; [lia|]. destruct (p x y); lia.
Qed.

End algorithm.

(** A comparator that is a strict total order on the elements that
    satisfy [P], and a predicate that decides equality: sorting and then
    removing adjacent duplicates leaves a strictly ascending sequence of
    the same elements. *)
Section strict_order.
Import Algorithm.
Local Open Scope list_scope.
Context {A : Type}.
Variable less : A → A → bool.
Variable equal : A → A → bool.
Variable P : A → Prop.
Hypothesis equal_spec : ∀ x y, equal x y = true ↔ x = y.
Hypothesis less_irreflexive : ∀ x, P x → less x x = false.
Hypothesis less_transitive : ∀ x y z, P x → P y → P z →
  less x y = true → less y z = true → less x z = true.
Hypothesis less_total : ∀ x y, P x → P y →
  less x y = true ∨ x = y ∨ less y x = true.

Lemma not_after_less x y :
  P x → P y → not_after less x y → x ≠ y → less x y = true.
Proof.
  unfold not_after. intros Hx Hy Hyx Hne.
  destruct (less_total x y Hx Hy) as [H|[H|H]]; [done|done|congruence].
Qed.

Lemma sort_by_not_after l :
  Forall P l → StronglySorted (not_after less) (sort_by less l).
Proof.
  apply (sort_by_sorted less P).
  - intros x y z Hx Hy Hz Hxy Hyz. unfold not_after in *.
    destruct (less z x) eqn:Hzx; [|done].
    destruct (less_total x y Hx Hy) as [H|[->|H]]; [|congruence|congruence].
    rewrite (less_transitive z x y Hz Hx Hy Hzx H) in Hyz. done.
  - intros x y Hx Hy. unfold not_after.
    destruct (less y x) eqn:Hyx; [|by left]. right.
    destruct (less x y) eqn:Hxy; [|done].
    pose proof (less_transitive x y x Hx Hy Hx Hxy Hyx) as Hxx.
    by rewrite less_irreflexive in Hxx.
Qed.

Lemma elem_of_unique_from kept l x :
  x ∈ unique_from equal kept l → x ∈ l.
Proof.
  revert kept. induction l as [|y l IH]; intros kept; simpl; [done|].
  destruct (equal kept y).
  - intros Hx. right. by eapply IH.
  - intros [->|Hx]%elem_of_cons; [by left|]. right. by eapply IH.
Qed.

Lemma elem_of_unique_from_2 kept l x :
  x ∈ l → x = kept ∨ x ∈ unique_from equal kept l.
Proof.
  revert kept. induction l as [|y l IH]; intros kept; simpl.
  - by intros ?%elem_of_nil.
  - intros [->|Hx]%elem_of_cons.
    + destruct (equal kept y) eqn:Heq.
      * left. symmetry. by apply equal_spec.
      * right. by left.
    + destruct (equal kept y) eqn:Heq.
      * by apply IH.
      * destruct (IH y Hx) as [->|Hin]; right; [by left|by right].
Qed.

Lemma elem_of_unique l x : x ∈ unique equal l ↔ x ∈ l.
Proof.
  destruct l as [|y l]; [done|]. simpl. split.
  - intros [->|Hin]%elem_of_cons; [by left|]. right.
    by eapply elem_of_unique_from.
  - intros [->|Hin]%elem_of_cons; [by left|].
    destruct (elem_of_unique_from_2 y l x Hin) as [->|H]; [by left|by right].
Qed.

Lemma unique_from_sorted kept l :
  P kept → Forall P l →
  Forall (not_after less kept) l →
  StronglySorted (not_after less) l →
  StronglySorted (fun x y => less x y = true) (unique_from equal kept l)
  ∧ Forall (fun y => less kept y = true) (unique_from equal kept l).
Proof.
  revert kept. induction l as [|y l IH]; intros kept HPk HP Hkept Hsorted; simpl.
  - split; constructor.
  - apply Forall_cons in Hkept as [Hy Hkept].
    apply Forall_cons in HP as [HPy HP].
    apply StronglySorted_inv in Hsorted as [Hsorted Hyl].
    destruct (equal kept y) eqn:Heq.
    + by apply IH.
    + assert (kept ≠ y) as Hne.
      { intros Hky. apply equal_spec in Hky. congruence. }
      destruct (IH y HPy HP Hyl Hsorted) as [IH1 IH2].
      assert (Hlt : less kept y = true) by (by apply not_after_less).
      split.
      * by constructor.
      * constructor; [done|].
        assert (HPu : Forall P (unique_from equal y l)).
        { apply Forall_forall. intros z Hz. rewrite Forall_forall in HP.
          apply HP. by eapply elem_of_unique_from. }
        rewrite Forall_forall in IH2, HPu. apply Forall_forall.
        intros z Hz. apply (less_transitive kept y z); auto.
Qed.

Lemma sort_unique_strict l :
  Forall P l →
  StronglySorted (fun x y => less x y = true) (unique equal (sort_by less l)).
Proof.
  intros HP. pose proof (sort_by_not_after l HP) as Hsorted.
  assert (HP' : Forall P (sort_by less l)) by (by rewrite sort_by_perm).
  destruct (sort_by less l) as [|x rest]; [constructor|].
  apply StronglySorted_inv in Hsorted as [Hl Hx].
  apply Forall_cons in HP' as [HPx HPl].
  destruct (unique_from_sorted x rest HPx HPl Hx Hl) as [H1 H2]. simpl.
  by constructor.
Qed.

Lemma strict_sorted_NoDup l :
  Forall P l → StronglySorted (fun x y => less x y = true) l → NoDup l.
Proof.
  intros HP Hstrict. induction Hstrict as [|x l _ IH Hx]; constructor.
  - intros Hin. rewrite Forall_forall in Hx. apply Forall_cons in HP as [HPx _].
    specialize (Hx x Hin). by rewrite less_irreflexive in Hx.
  - apply IH. by apply Forall_cons in HP as [_ HP].
Qed.

End strict_order.

Section read_paths.
Import Algorithm ReadPaths.
Local Open Scope list_scope.
Context {Path : Type} `{EqDecision Path}.
Variable path_less : Path → Path → bool.

Lemma remove_duplicates_unique paths :
  remove_duplicates path_less paths
  = unique path_equal (sort_by path_less paths).
Proof.
  unfold remove_duplicates.
  set (sorted := sort_by path_less paths).
  destruct (Nat.eqb_spec (adjacent_find path_equal sorted) (length sorted))
    as [Hnone|_]; simpl.
  - rewrite <- (adjacent_find_unique path_equal sorted), Hnone.
    by rewrite firstn_all, drop_all, app_nil_r.
  - apply adjacent_find_unique.
Qed.

Lemma path_equal_spec (x y : Path) : path_equal x y = true ↔ x = y.
Proof. unfold path_equal. apply bool_decide_eq_true. Qed.

Hypothesis less_irreflexive : ∀ x, path_less x x = false.
Hypothesis less_transitive : ∀ x y z,
  path_less x y = true → path_less y z = true → path_less x z = true.
Hypothesis less_total : ∀ x y,
  path_less x y = true ∨ x = y ∨ path_less y x = true.

(** X12.  For an order of paths that is a strict total order,
    [remove_duplicates] leaves the paths in strictly ascending order, so
    no path is left twice, and it leaves exactly the paths that it was
    given. *)
Theorem remove_duplicates_sorted_without_duplicates (paths : list Path) :
  StronglySorted (fun x y => path_less x y = true)
                 (remove_duplicates path_less paths)
  ∧ NoDup (remove_duplicates path_less paths)
  ∧ ∀ path, path ∈ remove_duplicates path_less paths ↔ path ∈ paths.
Proof.
  rewrite remove_duplicates_unique.
  assert (Hall : Forall (fun _ : Path => True) paths) by (by apply Forall_forall).
  assert (Hstrict : StronglySorted (fun x y => path_less x y = true)
                      (unique path_equal (sort_by path_less paths))).
  { apply (sort_unique_strict path_less path_equal (fun _ => True)); auto.
    all: try apply path_equal_spec.
    intros x y z _ _ _. apply less_transitive. }
  split; [exact Hstrict|]. split.
  - apply (strict_sorted_NoDup path_less (fun _ => True)); auto.
    by apply Forall_forall.
  - intros path. rewrite (elem_of_unique path_equal path_equal_spec).
    by rewrite sort_by_perm.
Qed.

End read_paths.

Lemma remove_duplicates_sorted_without_duplicates_witness :
  ReadPaths.remove_duplicates N.ltb [3; 1; 3; 2; 1; 3]%N = [1; 2; 3]%N
  ∧ NoDup (ReadPaths.remove_duplicates N.ltb [3; 1; 3; 2; 1; 3]%N).
Proof.
  split; [vm_compute; reflexivity|].
  apply (remove_duplicates_sorted_without_duplicates N.ltb).
  - intros x. apply N.ltb_irrefl.
  - intros x y z Hxy%N.ltb_lt Hyz%N.ltb_lt. apply N.ltb_lt. lia.
  - intros x y. rewrite !N.ltb_lt. lia.
Defined.

(** ** The order of strings *)

Section string_order.

Lemma compare_refl (a : string) : String.compare a a = Eq.
Proof.
  pose proof (String.compare_antisym a a) as H.
  destruct (String.compare a a); simpl in H; congruence.
Qed.

Lemma ltb_irreflexive (a : string) : String.ltb a a = false.
Proof. unfold String.ltb. by rewrite compare_refl. Qed.

Lemma ltb_false_le (a b : string) : String.ltb a b = false ↔ String.le b a.
Proof.
  unfold String.le, String.leb, String.ltb.
  rewrite (String.compare_antisym a b).
  destruct (String.compare b a); simpl; split; intros H; done.
Qed.

Lemma ltb_le (a b : string) : String.ltb a b = true → String.le a b.
Proof.
  unfold String.le, String.leb, String.ltb.
  destruct (String.compare a b); simpl; intros H; done.
Qed.

Lemma ltb_total (a b : string) :
  String.ltb a b = true ∨ a = b ∨ String.ltb b a = true.
Proof.
  unfold String.ltb. rewrite (String.compare_antisym b a).
  destruct (String.compare a b) eqn:Hc; simpl.
  - right. left. by apply String.compare_eq_iff.
  - by left.
  - by right; right.
Qed.

Lemma ltb_transitive (a b c : string) :
  String.ltb a b = true → String.ltb b c = true → String.ltb a c = true.
Proof.
  intros Hab Hbc.
  destruct (String.ltb a c) eqn:Hac; [done|]. exfalso.
  apply ltb_false_le in Hac.
  assert (String.le a c) as Hle.
  { etrans; [by apply ltb_le|by apply ltb_le]. }
  assert (a = c) as -> by (by apply (anti_symm String.le)).
  assert (b = c) as -> by (apply (anti_symm String.le); by apply ltb_le).
  by rewrite ltb_irreflexive in Hab.
Qed.

End string_order.

(** ** Contig ploidies *)

Section ploidies.
Import OptionCollation CallingComponents Algorithm Threads Ploidies.
Local Open Scope list_scope.

(** X13.  [ContigPloidyLess] is not a strict weak ordering on the
    ploidies that name a sample: for two of the same sample it is true in
    both directions, in particular of a ploidy and itself.  On the
    ploidies that name no sample it is never true of a ploidy and
    itself. *)
Theorem contig_ploidy_less_not_strict (lhs rhs : ContigPloidy) :
  (is_Some (sample lhs) → sample lhs = sample rhs →
   ContigPloidyLess lhs rhs = true ∧ ContigPloidyLess rhs lhs = true
   ∧ ContigPloidyLess lhs lhs = true)
  ∧ (sample lhs = None → ContigPloidyLess lhs lhs = false).
Proof.
  unfold ContigPloidyLess. split.
  - intros [s Hs] Heq. rewrite <- Heq, Hs. by rewrite String.eqb_refl.
  - intros ->. rewrite String.eqb_refl. apply N.ltb_irrefl.
Qed.

Lemma contig_ploidy_less_not_strict_witness :
  ContigPloidyLess (mkContigPloidy (Some "NA1") "chrX" 1)
                   (mkContigPloidy (Some "NA1") "chrY" 2) = true
  ∧ ContigPloidyLess (mkContigPloidy (Some "NA1") "chrY" 2)
                     (mkContigPloidy (Some "NA1") "chrX" 1) = true.
Proof.
  destruct (contig_ploidy_less_not_strict
              (mkContigPloidy (Some "NA1") "chrX" 1)
              (mkContigPloidy (Some "NA1") "chrY" 2)) as [H _].
  destruct H as (H1 & H2 & _).
  - by exists "NA1".
  - reflexivity.
  - by split.
Defined.

Lemma ContigPloidyEqual_spec x y : ContigPloidyEqual x y = true ↔ x = y.
Proof.
  unfold ContigPloidyEqual. destruct x as [sx cx px], y as [sy cy py]. simpl.
  rewrite !andb_true_iff, bool_decide_eq_true, String.eqb_eq, N.eqb_eq.
  split; [intros [[-> ->] ->]; done|intros [= -> -> ->]; done].
Qed.

Lemma less_unsampled x y :
  for_all_samples x → for_all_samples y →
  ContigPloidyLess x y
  = if String.eqb (contig x) (contig y)
    then (ploidy x <? ploidy y)%N
    else String.ltb (contig x) (contig y).
Proof. unfold for_all_samples, ContigPloidyLess. by intros -> ->. Qed.

Lemma less_unsampled_irreflexive x :
  for_all_samples x → ContigPloidyLess x x = false.
Proof.
  intros Hx. rewrite less_unsampled by done.
  rewrite String.eqb_refl. apply N.ltb_irrefl.
Qed.

Lemma less_unsampled_contig x y :
  for_all_samples x → for_all_samples y →
  ContigPloidyLess x y = true → String.le (contig x) (contig y).
Proof.
  intros Hx Hy. rewrite less_unsampled by done.
  destruct (String.eqb_spec (contig x) (contig y)) as [->|_]; [done|].
  apply ltb_le.
Qed.

Lemma less_unsampled_transitive x y z :
  for_all_samples x → for_all_samples y → for_all_samples z →
  ContigPloidyLess x y = true → ContigPloidyLess y z = true →
  ContigPloidyLess x z = true.
Proof.
  intros Hx Hy Hz. rewrite !less_unsampled by done.
  destruct (String.eqb_spec (contig x) (contig y)) as [Hxy|Hxy].
  - rewrite Hxy.
    destruct (String.eqb_spec (contig y) (contig z)) as [Hyz|Hyz].
    + rewrite !N.ltb_lt. lia.
    + by intros _ ?.
  - destruct (String.eqb_spec (contig y) (contig z)) as [Hyz|Hyz].
    + rewrite <- Hyz.
      destruct (String.eqb_spec (contig x) (contig y)) as [|_]; [done|].
      by intros ? _.
    + intros H1 H2. pose proof (ltb_transitive _ _ _ H1 H2) as H.
      destruct (String.eqb_spec (contig x) (contig z)) as [Hxz|_]; [|done].
      rewrite Hxz in H. by rewrite ltb_irreflexive in H.
Qed.

Lemma less_unsampled_total x y :
  for_all_samples x → for_all_samples y →
  ContigPloidyLess x y = true ∨ x = y ∨ ContigPloidyLess y x = true.
Proof.
  intros Hx Hy. rewrite !less_unsampled by done.
  destruct (String.eqb_spec (contig x) (contig y)) as [Hxy|Hxy].
  - rewrite Hxy, String.eqb_refl. rewrite !N.ltb_lt.
    destruct (N.lt_trichotomy (ploidy x) (ploidy y)) as [H|[H|H]];
      [by left| |by right; right].
    right. left. destruct x, y. unfold for_all_samples in *. simpl in *.
    congruence.
  - destruct (String.eqb_spec (contig y) (contig x)) as [Hyx|_]; [congruence|].
    destruct (ltb_total (contig x) (contig y)) as [H|[H|H]];
      [by left|done|by right; right].
Qed.

Lemma ambiguous_unsampled x y :
  for_all_samples x → for_all_samples y →
  ContigPloidyAmbiguous x y = String.eqb (contig x) (contig y).
Proof. unfold for_all_samples, ContigPloidyAmbiguous. by intros -> ->. Qed.

(** In a strictly ascending sequence of ploidies for all samples, a
    ploidy that shares its contig with one behind it shares it with its
    successor. *)
Lemma successor_shares_contig x z rest y :
  Forall for_all_samples (x :: z :: rest) →
  StronglySorted (fun a b => ContigPloidyLess a b = true) (x :: z :: rest) →
  y ∈ z :: rest → contig x = contig y → contig x = contig z.
Proof.
  intros HP Hsorted Hy Hc.
  apply Forall_cons in HP as [Hx HP].
  pose proof HP as HP'. apply Forall_cons in HP' as [Hz _].
  apply StronglySorted_inv in Hsorted as [Hsorted Hxl].
  apply Forall_cons in Hxl as [Hxz _].
  apply (anti_symm String.le).
  - by apply less_unsampled_contig.
  - rewrite Hc. apply elem_of_cons in Hy as [->|Hy]; [done|].
    apply StronglySorted_inv in Hsorted as [_ Hzl].
    rewrite Forall_forall in Hzl, HP.
    apply less_unsampled_contig; [done| |by apply Hzl].
    apply HP. by right.
Qed.

Lemma adjacent_find_found (p : ContigPloidy → ContigPloidy → bool) l :
  (adjacent_find p l < length l)%nat →
  ∃ x y, x ∈ l ∧ y ∈ l ∧ p x y = true
         ∧ ∃ before behind, l = before ++ x :: y :: behind.
Proof.
  induction l as [|x l IH]; simpl; [lia|].
  destruct l as [|y l]; [simpl; lia|].
  destruct (p x y) eqn:Hp.
  - intros _. exists x, y. split; [by left|]. split; [right; by left|].
    split; [done|]. by exists [], l.
  - intros Hlt. destruct IH as (a & b & Ha & Hb & Hab & before & behind & Hl);
      [simpl in *; lia|].
    exists a, b. split; [by right|]. split; [by right|]. split; [done|].
    exists (x :: before), behind. by rewrite Hl.
Qed.

Lemma strictly_sorted_ambiguous l :
  Forall for_all_samples l →
  StronglySorted (fun a b => ContigPloidyLess a b = true) l →
  has_ambiguous_ploidies l = true
  ↔ ∃ x y, x ∈ l ∧ y ∈ l ∧ x ≠ y ∧ contig x = contig y.
Proof.
  intros HP Hsorted. unfold has_ambiguous_ploidies.
  rewrite negb_true_iff, Nat.eqb_neq.
  pose proof (adjacent_find_le ContigPloidyAmbiguous l) as Hle.
  split.
  - intros Hne.
    destruct (adjacent_find_found ContigPloidyAmbiguous l)
      as (x & y & Hx & Hy & Hamb & before & behind & Hl); [lia|].
    exists x, y. split; [done|]. split; [done|].
    rewrite Forall_forall in HP.
    rewrite ambiguous_unsampled in Hamb by (by apply HP).
    apply String.eqb_eq in Hamb. split; [|done].
    intros ->. rewrite Hl in Hsorted.
    apply StronglySorted_app_1_r in Hsorted.
    apply StronglySorted_inv in Hsorted as [_ Hyl].
    apply Forall_cons in Hyl as [Hyy _].
    rewrite less_unsampled_irreflexive in Hyy by (by apply HP). done.
  - intros (x & y & Hx & Hy & Hne & Hc).
    clear Hle. induction l as [|a l IH]; [by apply elem_of_nil in Hx|].
    destruct l as [|b l].
    { apply list_elem_of_singleton in Hx, Hy. congruence. }
    change (adjacent_find ContigPloidyAmbiguous (a :: b :: l))
      with (if ContigPloidyAmbiguous a b then 0%nat
            else S (adjacent_find ContigPloidyAmbiguous (b :: l))).
    pose proof HP as HP'. apply Forall_cons in HP' as [Ha HPl].
    pose proof HPl as HPl'. apply Forall_cons in HPl' as [Hb _].
    rewrite ambiguous_unsampled by done.
    destruct (String.eqb_spec (contig a) (contig b)) as [Hab|Hab];
      [simpl; lia|].
    assert (Hrest : x ∈ b :: l ∧ y ∈ b :: l).
    { apply elem_of_cons in Hx as [->|Hx], Hy as [->|Hy]; [done| | |done].
      - exfalso. apply Hab.
        by apply (successor_shares_contig a b l y).
      - exfalso. apply Hab.
        by apply (successor_shares_contig a b l x). }
    destruct Hrest as [Hx' Hy'].
    apply StronglySorted_inv in Hsorted as [Hsorted _].
    specialize (IH HPl Hsorted Hx' Hy').
    pose proof (adjacent_find_le ContigPloidyAmbiguous (b :: l)).
    simpl length in *. lia.
Qed.

(** What the two statements that check the ploidies find, for ploidies
    given for all samples. *)
Lemma ambiguity_checked (flat_plodies : list ContigPloidy) :
  Forall for_all_samples flat_plodies →
  let ploidies := remove_duplicate_ploidies flat_plodies in
  (∀ p, p ∈ ploidies ↔ p ∈ flat_plodies)
  ∧ (has_ambiguous_ploidies ploidies = true
     ↔ ∃ x y, x ∈ flat_plodies ∧ y ∈ flat_plodies
              ∧ contig x = contig y ∧ ploidy x ≠ ploidy y)
  ∧ (has_ambiguous_ploidies ploidies = false → NoDup (contig <$> ploidies)).
Proof.
  intros HP ploidies. subst ploidies. unfold remove_duplicate_ploidies.
  set (ploidies := unique ContigPloidyEqual
                     (sort_by ContigPloidyLess flat_plodies)).
  assert (Hin : ∀ p, p ∈ ploidies ↔ p ∈ flat_plodies).
  { intros p. unfold ploidies.
    rewrite (elem_of_unique ContigPloidyEqual ContigPloidyEqual_spec).
    by rewrite sort_by_perm. }
  assert (HP' : Forall for_all_samples ploidies).
  { apply Forall_forall. intros p Hp%Hin. rewrite Forall_forall in HP.
    by apply HP. }
  assert (Hsorted : StronglySorted (fun a b => ContigPloidyLess a b = true)
                      ploidies).
  { exact (sort_unique_strict ContigPloidyLess ContigPloidyEqual
             for_all_samples ContigPloidyEqual_spec less_unsampled_irreflexive
             less_unsampled_transitive less_unsampled_total flat_plodies HP). }
  pose proof (strictly_sorted_ambiguous ploidies HP' Hsorted) as Hamb.
  assert (Hdiff : ∀ x y : ContigPloidy,
             for_all_samples x → for_all_samples y → contig x = contig y →
             x ≠ y ↔ ploidy x ≠ ploidy y).
  { intros [sx cx px] [sy cy py]. unfold for_all_samples. simpl.
    intros -> -> ->. split; [intros H ?; apply H; congruence|].
    intros H [= ?]. done. }
  rewrite Forall_forall in HP.
  split; [exact Hin|]. split.
  - rewrite Hamb. split.
    + intros (x & y & Hx & Hy & Hne & Hc). apply Hin in Hx, Hy.
      exists x, y. split; [done|]. split; [done|]. split; [done|].
      apply Hdiff; auto.
    + intros (x & y & Hx & Hy & Hc & Hne). exists x, y. rewrite !Hin.
      split; [done|]. split; [done|]. split; [|done]. apply Hdiff; auto.
  - intros Hnone. apply NoDup_fmap_2_strong.
    + intros x y Hx Hy Hc.
      destruct (decide (x = y)) as [|Hne]; [done|]. exfalso.
      assert (has_ambiguous_ploidies ploidies = true); [|congruence].
      apply Hamb. by exists x, y.
    + exact (strict_sorted_NoDup ContigPloidyLess for_all_samples
               less_unsampled_irreflexive ploidies HP' Hsorted).
Qed.

Section get_ploidy_map.
Variable resolve_path : string → outcome string.
Variable exists_ : string → bool.
Variable file_text : string → string.
Variable parse_ploidy : string → ContigPloidy.
Variable ploidies_option : outcome (list ContigPloidy).

Local Abbreviation the_ploidy_map :=
  (get_ploidy_map resolve_path exists_ file_text parse_ploidy ploidies_option).
Local Abbreviation the_ploidies :=
  (read_ploidies resolve_path exists_ file_text parse_ploidy ploidies_option).

(** X14.  For the polyclone caller [get_ploidy_map] returns the map of
    ploidy 1 and reads no ploidy, so that nothing is checked.  For every
    other caller it throws what the reading of the ploidies throws; and
    when the ploidies read are all given for all samples, it throws
    [AmbiguousPloidy] exactly when some contig is given two different
    ploidies, and otherwise, unless the organism ploidy cannot be read,
    returns the map of the organism ploidy on which the ploidies given
    are set, each once, no two of them for the same contig. *)
Theorem ploidies_for_all_samples_checked (options : OptionMap)
    (caller : string) :
  options !! "caller" = Some (VString caller) →
  (caller = "polyclone" → the_ploidy_map options = Value (mkPloidyMap 1 []))
  ∧ (caller ≠ "polyclone" →
     match the_ploidies options with
     | Error e => the_ploidy_map options = Error e
     | Value flat_plodies =>
         Forall for_all_samples flat_plodies →
         let ambiguous :=
           ∃ x y, x ∈ flat_plodies ∧ y ∈ flat_plodies
                  ∧ contig x = contig y ∧ ploidy x ≠ ploidy y in
         match the_ploidy_map options with
         | Error (AmbiguousPloidy ploidies) =>
             ambiguous ∧ ploidies = remove_duplicate_ploidies flat_plodies
         | Error (PloidyOptionError e) =>
             ¬ ambiguous ∧ as_unsigned "organism-ploidy" options = Throw e
         | Error (MissingPloidyFile _) => False
         | Value ploidies =>
             ¬ ambiguous
             ∧ as_unsigned "organism-ploidy" options
               = Ok (organism_ploidy ploidies)
             ∧ (∀ p, p ∈ ploidies_set ploidies ↔ p ∈ flat_plodies)
             ∧ NoDup (contig <$> ploidies_set ploidies)
         end
     end).
Proof.
  intros Hcaller. unfold get_ploidy_map, at_. rewrite Hcaller. simpl.
  split.
  - intros ->. reflexivity.
  - intros Hother.
    destruct (String.eqb_spec caller "polyclone") as [|_]; [done|].
    destruct (the_ploidies options) as [flat_plodies|e]; simpl; [|done].
    intros HP. cbv zeta.
    set (ambiguous := ∃ x y, x ∈ flat_plodies ∧ y ∈ flat_plodies
                             ∧ contig x = contig y ∧ ploidy x ≠ ploidy y).
    destruct (ambiguity_checked flat_plodies HP) as (Hin & Hamb & Hnone).
    destruct (has_ambiguous_ploidies (remove_duplicate_ploidies flat_plodies))
      eqn:Hcheck.
    + split; [by apply Hamb|done].
    + assert (Hnot : ¬ ambiguous).
      { intros H. apply Hamb in H. congruence. }
      destruct (as_unsigned "organism-ploidy" options) as [organism|e]; simpl.
      * split; [done|]. split; [done|]. split; [exact Hin|by apply Hnone].
      * by split.
Qed.

End get_ploidy_map.

(** The theorem at an ambiguous ploidy of chrY: the polyclone caller is
    given its map, the individual caller is refused. *)
Lemma ploidies_for_all_samples_checked_witness :
  get_ploidy_map (fun path => Ok path) (fun _ => true) (fun _ => "")
    (fun _ => mkContigPloidy None "" 0) (Ok ambiguous_chrY)
    (ploidies_given "polyclone")
  = Value (mkPloidyMap 1 [])
  ∧ get_ploidy_map (fun path => Ok path) (fun _ => true) (fun _ => "")
      (fun _ => mkContigPloidy None "" 0) (Ok ambiguous_chrY)
      (ploidies_given "individual")
    = Error (AmbiguousPloidy
               [mkContigPloidy None "chrX" 2; mkContigPloidy None "chrY" 1;
                mkContigPloidy None "chrY" 2]).
Proof.
  split.
  - apply (proj1 (ploidies_for_all_samples_checked (fun path => Ok path)
                    (fun _ => true) (fun _ => "")
                    (fun _ => mkContigPloidy None "" 0) (Ok ambiguous_chrY)
                    (ploidies_given "polyclone") "polyclone" eq_refl)).
    reflexivity.
  - vm_compute. reflexivity.
Defined.

End ploidies.

(** ** Contigs of the calling components *)

Section contig_keys.
Import OptionCollation Region SearchRegions CallingComponents Algorithm
  CallingSamples.
Local Open Scope list_scope.

Lemma sort_with_sort_by cmp l : sort_with cmp l = sort_by cmp l.
Proof.
  unfold sort_with, sort_by. induction l as [|x l IH]; simpl; [done|].
  rewrite IH. generalize (foldr (insert_by cmp) [] l). intros s.
  induction s as [|y s IHs]; simpl; [done|]. by rewrite IHs.
Qed.

(** The comparators of [get_sorter] compare a key of the contig: the
    name, the size or the index. *)
Lemma get_sorter_not_after_trans order reference x y z :
  not_after (get_sorter order reference) x y →
  not_after (get_sorter order reference) y z →
  not_after (get_sorter order reference) x z.
Proof.
  unfold not_after.
  destruct order; simpl; unfold string_less, string_greater;
    rewrite ?ltb_false_le, ?N.ltb_ge, ?Nat.ltb_ge;
    try (intros; etrans; eassumption); try lia.
Qed.

Lemma get_sorter_not_after_total order reference x y :
  not_after (get_sorter order reference) x y
  ∨ not_after (get_sorter order reference) y x.
Proof.
  unfold not_after.
  destruct order; simpl; unfold string_less, string_greater;
    rewrite ?ltb_false_le, ?N.ltb_ge, ?Nat.ltb_ge;
    try (destruct (total String.le x y); auto; fail); try lia.
Qed.

(** X15.  For every contig output order, [get_contigs] returns the
    keys of the region map, each as often as it was given, and in an order
    in which the comparator of [get_sorter] never puts a contig before one
    in front of it. *)
Theorem get_contigs_sorted_permutation (keys : list ContigName)
    (reference : ReferenceGenome) (order : ContigOutputOrder) :
  get_contigs keys reference order ≡ₚ keys
  ∧ StronglySorted (fun a b => get_sorter order reference b a = false)
                   (get_contigs keys reference order).
Proof.
  unfold get_contigs. rewrite sort_with_sort_by. split.
  - apply sort_by_perm.
  - apply (sort_by_sorted (get_sorter order reference) (fun _ => True)).
    + intros x y z _ _ _. apply get_sorter_not_after_trans.
    + intros x y _ _. apply get_sorter_not_after_total.
    + by apply Forall_forall.
Qed.

Variable has_reads : GenomicRegion → outcome bool.

(** X16.  The contigs of the calling components are the keys of their
    search regions, each once: [ContigCallingComponents] finds the
    regions of every contig of [contigs ()], and throws
    [std::out_of_range] for any other contig. *)
Theorem contigs_are_the_region_keys (option_search_regions : InputRegionMap)
    (options : OptionMap) (reference : ReferenceGenome)
    (components : GenomeCallingComponents) :
  make_components has_reads option_search_regions options reference
  = Ok components →
  NoDup (contigs components)
  ∧ ∀ contig,
      (contig ∈ contigs components
       → ∃ contig_regions,
           contig_search_regions components contig = Ok contig_regions)
      ∧ (contig ∉ contigs components
         → contig_search_regions components contig = Throw OutOfRange).
Proof.
  unfold make_components.
  destruct (get_search_regions has_reads option_search_regions options reference)
    as [m|e]; simpl; [|discriminate].
  destruct (get_contig_output_order options) as [order|e]; simpl;
    [|discriminate].
  intros [= <-]. simpl.
  assert (Hperm : get_contigs (map_to_list m).*1 reference order
                  ≡ₚ (map_to_list m).*1).
  { unfold get_contigs. rewrite sort_with_sort_by. apply sort_by_perm. }
  assert (Hin : ∀ contig, contig ∈ get_contigs (map_to_list m).*1 reference order
                          ↔ is_Some (m !! contig)).
  { intros contig. rewrite Hperm. rewrite list_elem_of_fmap. split.
    - intros ([c r] & -> & Hcr). apply elem_of_map_to_list in Hcr. by exists r.
    - intros [r Hr]. exists (contig, r). split; [done|].
      by apply elem_of_map_to_list. }
  split.
  - rewrite Hperm. apply NoDup_fst_map_to_list.
  - intros contig. unfold contig_search_regions. simpl. rewrite Hin. split.
    + intros [r ->]. by exists r.
    + intros Hnone. destruct (m !! contig) eqn:Hm; [|done].
      exfalso. apply Hnone. by eexists.
Qed.

End contig_keys.

Lemma contigs_are_the_region_keys_witness :
  ∃ components,
    CallingComponents.make_components CallingComponents.only_chr1
      CallingComponents.whole_genome CallingComponents.ignoring
      CallingComponents.two_contigs = Ok components
    ∧ CallingSamples.contig_search_regions components "chr2" = Throw OutOfRange.
Proof.
  eexists. split; [vm_compute; reflexivity|].
  eapply (contigs_are_the_region_keys CallingComponents.only_chr1
            CallingComponents.whole_genome CallingComponents.ignoring
            CallingComponents.two_contigs).
  - vm_compute. reflexivity.
  - apply (bool_decide_unpack _). vm_compute. exact I.
Defined.

(** ** Samples of the calling components *)

Section sorted_strings.
Import Algorithm SortedRanges.
Local Open Scope list_scope.

Lemma sort_strings_sorted (l : list string) :
  StronglySorted (not_after String.ltb) (sort_by String.ltb l).
Proof.
  apply (sort_by_sorted String.ltb (fun _ => True)).
  - intros x y z _ _ _. unfold not_after. rewrite !ltb_false_le.
    intros ? ?. by etrans.
  - intros x y _ _. unfold not_after. rewrite !ltb_false_le.
    destruct (total String.le x y); auto.
  - by apply Forall_forall.
Qed.

Lemma not_after_strict (x y : string) :
  not_after String.ltb x y → x ≠ y → String.ltb x y = true.
Proof.
  unfold not_after. intros Hyx Hne.
  destruct (ltb_total x y) as [H|[H|H]]; [done|done|congruence].
Qed.

Lemma sorted_NoDup_strict (l : list string) :
  StronglySorted (not_after String.ltb) l → NoDup l →
  StronglySorted (fun x y => String.ltb x y = true) l.
Proof.
  induction 1 as [|x l Hl IH Hx]; intros Hnd; [constructor|].
  apply NoDup_cons in Hnd as [Hxl Hnd]. constructor; [by apply IH|].
  rewrite Forall_forall in Hx. apply Forall_forall. intros y Hy.
  apply not_after_strict; [by apply Hx|]. by intros ->.
Qed.

Lemma sort_strings_strict (l : list string) :
  NoDup l → StronglySorted (fun x y => String.ltb x y = true)
                           (sort_by String.ltb l).
Proof.
  intros Hnd. apply sorted_NoDup_strict; [apply sort_strings_sorted|].
  by rewrite sort_by_perm.
Qed.

Lemma filter_all (P : string → Prop) `{∀ x, Decision (P x)} (l : list string) :
  Forall P l → filter P l = l.
Proof.
  induction 1 as [|x l Hx _ IH]; [done|].
  rewrite filter_cons_True by done. by rewrite IH.
Qed.

Lemma filter_ext_in (P Q : string → Prop) `{∀ x, Decision (P x)}
    `{∀ x, Decision (Q x)} (l : list string) :
  (∀ x, x ∈ l → P x ↔ Q x) → filter P l = filter Q l.
Proof.
  induction l as [|x l IH]; intros Hext; [done|].
  rewrite !filter_cons.
  rewrite IH by (intros y Hy; apply Hext; by right).
  destruct (decide (P x)) as [HP|HP], (decide (Q x)) as [HQ|HQ]; try done.
  - exfalso. apply HQ. apply Hext; [by left|done].
  - exfalso. apply HP. apply Hext; [by left|done].
Qed.

Lemma set_difference_unfold (x : string) r1 l2 :
  set_difference String.ltb (x :: r1) l2
  = match l2 with
    | [] => x :: r1
    | y :: r2 =>
        if String.ltb x y then x :: set_difference String.ltb r1 (y :: r2)
        else if negb (String.ltb y x) then set_difference String.ltb r1 r2
        else set_difference String.ltb (x :: r1) r2
    end.
Proof. destruct l2; reflexivity. Qed.

(** On a strictly ascending range and an ascending range of strings,
    [std::set_difference] leaves the elements of the first range that are
    not in the second. *)
Lemma set_difference_filter (l1 l2 : list string) :
  StronglySorted (fun x y => String.ltb x y = true) l1 →
  StronglySorted (not_after String.ltb) l2 →
  set_difference String.ltb l1 l2 = filter (fun x => x ∉ l2) l1.
Proof.
  intros H1. revert l2. induction H1 as [|x r1 Hr1 IH1 Hx]; intros l2 H2.
  { by destruct l2. }
  induction H2 as [|y r2 Hr2 IH2 Hy].
  { rewrite set_difference_unfold. symmetry.
    apply filter_all. apply Forall_forall. intros z _. apply not_elem_of_nil. }
  rewrite set_difference_unfold.
  rewrite Forall_forall in Hx, Hy.
  destruct (String.ltb x y) eqn:Hxy.
  - rewrite IH1 by (by constructor; [|apply Forall_forall]).
    rewrite filter_cons_True; [done|].
    intros [->|Hin]%elem_of_cons.
    + by rewrite ltb_irreflexive in Hxy.
    + specialize (Hy x Hin). unfold not_after in Hy. congruence.
  - destruct (String.ltb y x) eqn:Hyx; cbn [negb].
    + rewrite IH2. apply filter_ext_in. intros z Hz.
      rewrite not_elem_of_cons. split; [|by intros [_ ?]].
      intros Hnot. split; [|done]. intros ->.
      apply elem_of_cons in Hz as [->|Hz].
      * by rewrite ltb_irreflexive in Hyx.
      * pose proof (ltb_transitive _ _ _ Hyx (Hx y Hz)) as H.
        by rewrite ltb_irreflexive in H.
    + assert (x = y) as ->.
      { destruct (ltb_total x y) as [H|[H|H]]; congruence. }
      rewrite filter_cons_False by (intros H; apply H; by left).
      rewrite IH1 by done. apply filter_ext_in. intros z Hz.
      rewrite not_elem_of_cons. split; [|by intros [_ ?]].
      intros Hnot. split; [|done]. intros ->.
      specialize (Hx y Hz). by rewrite ltb_irreflexive in Hx.
Qed.

Lemma binary_search_elem_of (l : list string) value :
  StronglySorted (not_after String.ltb) l →
  binary_search String.ltb l value = true ↔ value ∈ l.
Proof.
  unfold binary_search.
  induction 1 as [|x l Hl IH Hx]; simpl.
  - split; [done|]. by intros ?%elem_of_nil.
  - destruct (String.ltb x value) eqn:Hxv.
    + rewrite IH. rewrite elem_of_cons. split; [by right|].
      intros [->|Hin]; [|done]. by rewrite ltb_irreflexive in Hxv.
    + rewrite negb_true_iff. split.
      * intros Hvx. apply elem_of_cons. left.
        destruct (ltb_total value x) as [H|[H|H]]; congruence.
      * intros [->|Hin]%elem_of_cons; [apply ltb_irreflexive|].
        rewrite Forall_forall in Hx. apply (Hx value Hin).
Qed.

End sorted_strings.

Section calling_samples.
Import OptionCollation CallingComponents Algorithm SortedRanges CallingSamples.
Local Open Scope list_scope.

(** X17.  With no requested samples, [extract_samples] returns the
    samples of the read files.  With requested samples, and whatever
    order [std::partition] leaves them in, it returns the requested
    samples that are samples of the read files, each as often as it was
    requested, and warns of as many samples as were requested and are not
    in the read files; nothing is thrown for them. *)
Theorem extract_samples_keeps_known_samples
    (partition : (SampleName → bool) → list SampleName
                 → list SampleName * list SampleName)
    (user_samples file_samples : list SampleName) :
  is_partition partition →
  extract_samples partition None file_samples = (file_samples, 0%nat)
  ∧ (extract_samples partition (Some user_samples) file_samples).1
    ≡ₚ filter (fun sample => sample ∈ file_samples) user_samples
  ∧ (extract_samples partition (Some user_samples) file_samples).2
    = length (filter (fun sample => sample ∉ file_samples) user_samples).
Proof.
  intros Hpartition. split; [done|]. unfold extract_samples.
  set (p := fun sample => is_in_file_samples sample file_samples).
  destruct (Hpartition p user_samples) as (Hperm & Hfound & Hnot).
  destruct (partition p user_samples) as [found not_found]. simpl in *.
  assert (Hyes : filter (fun sample => sample ∈ file_samples) found = found).
  { apply filter_all. eapply Forall_impl; [exact Hfound|].
    intros x Hx. unfold p, is_in_file_samples in Hx.
    by apply bool_decide_eq_true in Hx. }
  assert (Hno : filter (fun sample => sample ∈ file_samples) not_found = []).
  { clear Hperm. induction Hnot as [|x l Hx _ IH]; [done|].
    rewrite filter_cons_False; [done|].
    unfold p, is_in_file_samples in Hx. by apply bool_decide_eq_false in Hx. }
  assert (Hyes' : filter (fun sample => sample ∉ file_samples) found = []).
  { clear Hperm Hyes. induction Hfound as [|x l Hx _ IH]; [done|].
    rewrite filter_cons_False; [done|].
    unfold p, is_in_file_samples in Hx. apply bool_decide_eq_true in Hx.
    by intros H. }
  assert (Hno' : filter (fun sample => sample ∉ file_samples) not_found
                 = not_found).
  { apply filter_all. eapply Forall_impl; [exact Hnot|].
    intros x Hx. unfold p, is_in_file_samples in Hx.
    by apply bool_decide_eq_false in Hx. }
  split.
  - rewrite <- Hperm, filter_app, Hyes, Hno. by rewrite app_nil_r.
  - rewrite <- Hperm, filter_app, Hyes', Hno'. done.
Qed.

Lemma stable_partition_is_partition : is_partition stable_partition.
Proof.
  intros p l. unfold stable_partition. simpl. split; [|split].
  - induction l as [|x l IH]; [done|]. simpl.
    destruct (p x); simpl; [by rewrite IH|].
    rewrite <- Permutation_middle. by rewrite IH.
  - apply Forall_forall. intros x Hx. rewrite list_elem_of_In in Hx.
    by apply filter_In in Hx as [_ Hx].
  - apply Forall_forall. intros x Hx. rewrite list_elem_of_In in Hx.
    apply filter_In in Hx as [_ Hx]. by apply negb_true_iff in Hx.
Qed.

Lemma extract_samples_keeps_known_samples_witness :
  (extract_samples stable_partition (Some ["NA3"; "NA1"; "NA9"])
                   ["NA1"; "NA2"; "NA3"]).1
  ≡ₚ filter (fun sample => sample ∈ ["NA1"; "NA2"; "NA3"]) ["NA3"; "NA1"; "NA9"]
  ∧ (extract_samples stable_partition (Some ["NA3"; "NA1"; "NA9"])
                     ["NA1"; "NA2"; "NA3"]).2
    = length (filter (fun sample => sample ∉ ["NA1"; "NA2"; "NA3"])
                     ["NA3"; "NA1"; "NA9"]).
Proof.
  exact (proj2 (extract_samples_keeps_known_samples stable_partition
                  ["NA3"; "NA1"; "NA9"] ["NA1"; "NA2"; "NA3"]
                  stable_partition_is_partition)).
Defined.

(** X18.  [drop_unused_samples] does nothing when the read manager has
    no more samples than are called.  Otherwise it leaves the calling
    samples sorted, and, for a read manager whose samples are distinct,
    drops from it exactly the samples that are not called. *)
Theorem unused_samples_are_those_not_called
    (calling_samples managed_samples : list SampleName) (num_samples : nat) :
  NoDup managed_samples →
  match drop_unused_samples calling_samples num_samples managed_samples with
  | (calling_samples', None) =>
      (num_samples ≤ length calling_samples)%nat
      ∧ calling_samples' = calling_samples
  | (calling_samples', Some unused_samples) =>
      (length calling_samples < num_samples)%nat
      ∧ calling_samples' ≡ₚ calling_samples
      ∧ StronglySorted (fun a b => String.ltb b a = false) calling_samples'
      ∧ ∀ sample, sample ∈ unused_samples
                  ↔ sample ∈ managed_samples ∧ sample ∉ calling_samples
  end.
Proof.
  intros Hnd. unfold drop_unused_samples.
  destruct (Nat.leb_spec num_samples (length calling_samples)) as [Hle|Hlt].
  - done.
  - split; [done|]. split; [apply sort_by_perm|].
    split; [apply sort_strings_sorted|].
    intros sample. rewrite set_difference_filter.
    + rewrite list_elem_of_filter. rewrite !sort_by_perm. tauto.
    + by apply sort_strings_strict.
    + apply sort_strings_sorted.
Qed.

Lemma unused_samples_are_those_not_called_witness :
  match drop_unused_samples ["NA3"; "NA1"] 4 ["NA2"; "NA4"; "NA1"; "NA3"] with
  | (calling_samples', None) =>
      (4 ≤ length ["NA3"; "NA1"])%nat ∧ calling_samples' = ["NA3"; "NA1"]
  | (calling_samples', Some unused_samples) =>
      (length ["NA3"; "NA1"] < 4)%nat
      ∧ calling_samples' ≡ₚ ["NA3"; "NA1"]
      ∧ StronglySorted (fun a b => String.ltb b a = false) calling_samples'
      ∧ ∀ sample, sample ∈ unused_samples
                  ↔ sample ∈ ["NA2"; "NA4"; "NA1"; "NA3"]
                    ∧ sample ∉ ["NA3"; "NA1"]
  end.
Proof.
  apply (unused_samples_are_those_not_called ["NA3"; "NA1"]
           ["NA2"; "NA4"; "NA1"; "NA3"] 4).
  apply (bool_decide_unpack _). vm_compute. exact I.
Defined.

End calling_samples.

(** ** The trio *)

Section trio.
Import OptionCollation Algorithm SortedRanges TrioSamples.
Local Open Scope list_scope.

Lemma sort_two_strings (mother father : string) :
  StronglySorted (not_after String.ltb) (sort_by String.ltb [mother; father])
  ∧ ∀ x, x ∈ sort_by String.ltb [mother; father] ↔ x = mother ∨ x = father.
Proof.
  split; [apply sort_strings_sorted|].
  intros x. rewrite sort_by_perm. rewrite !elem_of_cons, elem_of_nil. tauto.
Qed.

Lemma filter_three (P : string → Prop) `{∀ x, Decision (P x)} (a b c : string) :
  filter P [a; b; c]
  = (if decide (P a) then [a] else [])
    ++ (if decide (P b) then [b] else [])
    ++ (if decide (P c) then [c] else []).
Proof.
  rewrite !filter_cons, filter_nil.
  destruct (decide (P a)), (decide (P b)), (decide (P c)); done.
Qed.

(** The children that [make_trio] computes: the samples other than the
    two parents. *)
Lemma children_of_three (samples : list string) (mother father : string) :
  NoDup samples → length samples = 3%nat → mother ≠ father →
  ∃ children,
    set_difference String.ltb (sort_by String.ltb samples)
                   (sort_by String.ltb [mother; father]) = children
    ∧ (∀ x, x ∈ children ↔ x ∈ samples ∧ x ≠ mother ∧ x ≠ father)
    ∧ (length children = 1%nat ↔ mother ∈ samples ∧ father ∈ samples).
Proof.
  intros Hnd Hlen Hne. eexists. split; [reflexivity|].
  destruct (sort_two_strings mother father) as [Hparents Hin_parents].
  rewrite set_difference_filter;
    [|by apply sort_strings_strict|exact Hparents].
  assert (Hperm := sort_by_perm String.ltb samples).
  assert (Hnd' : NoDup (sort_by String.ltb samples)) by (by rewrite Hperm).
  assert (Hlen' : length (sort_by String.ltb samples) = 3%nat)
    by (by rewrite Hperm).
  assert (Hmem : ∀ x, x ∈ sort_by String.ltb samples ↔ x ∈ samples)
    by (intros x; by rewrite Hperm).
  split.
  - intros x. rewrite list_elem_of_filter, Hin_parents, Hmem. tauto.
  - rewrite <- !Hmem. clear Hperm Hmem Hnd Hlen.
    destruct (sort_by String.ltb samples) as [|a [|b [|c [|d l]]]];
      try discriminate Hlen'.
    rewrite filter_three.
    apply NoDup_cons in Hnd' as [Ha Hnd']. apply NoDup_cons in Hnd' as [Hb Hnd'].
    rewrite !elem_of_cons, !elem_of_nil in Ha. rewrite !elem_of_cons, elem_of_nil in Hb.
    rewrite !elem_of_cons, !elem_of_nil.
    assert (Hp : ∀ x, x ∉ sort_by String.ltb [mother; father]
                      ↔ x ≠ mother ∧ x ≠ father).
    { intros x. rewrite Hin_parents. tauto. }
    assert (Hab : a ≠ b) by tauto. assert (Hac : a ≠ c) by tauto.
    assert (Hbc : b ≠ c) by tauto. clear Ha Hb Hnd' Hlen' Hparents Hin_parents.
    destruct (decide (a ∉ _)) as [Ha'|Ha'], (decide (b ∉ _)) as [Hb'|Hb'],
             (decide (c ∉ _)) as [Hc'|Hc'];
      rewrite Hp in Ha', Hb', Hc'; clear Hp; simpl;
      (split; [intros Hl; try discriminate Hl|intros [Hm' Hf']; try reflexivity]);
      destruct (decide (a = mother)), (decide (a = father)),
               (decide (b = mother)), (decide (b = father)),
               (decide (c = mother)), (decide (c = father));
      try congruence; try tauto; intuition congruence.
Qed.

(** X19.  [make_trio] without a pedigree that decides, on samples that
    are distinct and with both parent options given: if there are not
    three samples it throws [BadTrioSampleSet] with their number; else if
    the two parents are the same sample it throws [BadTrio]; else if both
    parents are among the samples it returns the trio of the two parents
    and the third sample; else it throws [BadTrioSamples], naming each
    parent that is not among the samples. *)
Theorem make_trio_from_parent_options {Pedigree : Type}
    (is_trio : list SampleName → Pedigree → bool)
    (make_trio_of_pedigree : list SampleName → Pedigree → Trio)
    (samples : list SampleName) (options : OptionMap)
    (maternal paternal : SampleName) :
  NoDup samples →
  options !! "maternal-sample" = Some (VString maternal) →
  options !! "paternal-sample" = Some (VString paternal) →
  match make_trio is_trio make_trio_of_pedigree samples options None with
  | Value trio =>
      length samples = 3%nat ∧ maternal ≠ paternal
      ∧ mother trio = maternal ∧ father trio = paternal
      ∧ maternal ∈ samples ∧ paternal ∈ samples
      ∧ child trio ∈ samples
      ∧ child trio ≠ maternal ∧ child trio ≠ paternal
  | Error (BadTrioSampleSet num_samples) =>
      num_samples = length samples ∧ length samples ≠ 3%nat
  | Error BadTrio => length samples = 3%nat ∧ maternal = paternal
  | Error (BadTrioSamples bad_mother bad_father) =>
      length samples = 3%nat ∧ maternal ≠ paternal
      ∧ ¬ (maternal ∈ samples ∧ paternal ∈ samples)
      ∧ bad_mother = (if decide (maternal ∈ samples) then None else Some maternal)
      ∧ bad_father = (if decide (paternal ∈ samples) then None else Some paternal)
  | Error (OptionError _) => False
  end.
Proof.
  intros Hnd Hm Hf. unfold make_trio, sample_option, at_.
  destruct (Nat.eqb_spec (length samples) 3) as [Hlen|Hlen]; simpl; [|done].
  rewrite Hm, Hf. simpl. unfold make_trio_of_parents.
  destruct (String.eqb_spec maternal paternal) as [Heq|Hne]; [done|].
  cbv zeta. unfold SampleName in *.
  destruct (children_of_three samples maternal paternal Hnd Hlen Hne)
    as (children & Hchildren & Hin & Hone).
  rewrite Hchildren.
  assert (Hsearch : ∀ v,
             (if negb (binary_search String.ltb (sort_by String.ltb samples) v)
              then Some v else None)
             = (if decide (v ∈ samples) then None else Some v)).
  { intros v.
    pose proof (binary_search_elem_of (sort_by String.ltb samples) v
                  (sort_strings_sorted samples)) as Hbs.
    assert (Hmem : v ∈ sort_by String.ltb samples ↔ v ∈ samples)
      by (by rewrite sort_by_perm).
    rewrite Hmem in Hbs. clear Hmem.
    destruct (binary_search String.ltb (sort_by String.ltb samples) v);
      destruct (decide (v ∈ samples)) as [Hv|Hv]; simpl; try done.
    - exfalso. apply Hv. by apply Hbs.
    - apply Hbs in Hv. done. }
  rewrite !Hsearch.
  destruct children as [|c [|c' l]].
  - repeat split; try done. intros Hboth. apply Hone in Hboth. done.
  - destruct (proj1 Hone eq_refl) as [Hmother Hfather].
    destruct (proj1 (Hin c) ltac:(by left)) as (Hc & Hcm & Hcf).
    simpl. repeat split; done.
  - repeat split; try done. intros Hboth. apply Hone in Hboth. done.
Qed.

Lemma make_trio_from_parent_options_witness :
  match make_trio (fun (_ : list SampleName) (_ : unit) => false)
          (fun _ _ => mkTrio "" "" "") ["kid"; "mum"; "dad"]
          (parents_options "mum" "aunt") None with
  | Value trio =>
      length ["kid"; "mum"; "dad"] = 3%nat ∧ "mum" ≠ "aunt"
      ∧ mother trio = "mum" ∧ father trio = "aunt"
      ∧ "mum" ∈ ["kid"; "mum"; "dad"] ∧ "aunt" ∈ ["kid"; "mum"; "dad"]
      ∧ child trio ∈ ["kid"; "mum"; "dad"]
      ∧ child trio ≠ "mum" ∧ child trio ≠ "aunt"
  | Error (BadTrioSampleSet num_samples) =>
      num_samples = length ["kid"; "mum"; "dad"]
      ∧ length ["kid"; "mum"; "dad"] ≠ 3%nat
  | Error BadTrio => length ["kid"; "mum"; "dad"] = 3%nat ∧ "mum" = "aunt"
  | Error (BadTrioSamples bad_mother bad_father) =>
      length ["kid"; "mum"; "dad"] = 3%nat ∧ "mum" ≠ "aunt"
      ∧ ¬ ("mum" ∈ ["kid"; "mum"; "dad"] ∧ "aunt" ∈ ["kid"; "mum"; "dad"])
      ∧ bad_mother = (if decide ("mum" ∈ ["kid"; "mum"; "dad"])
                      then None else Some "mum")
      ∧ bad_father = (if decide ("aunt" ∈ ["kid"; "mum"; "dad"])
                      then None else Some "aunt")
  | Error (OptionError _) => False
  end.
Proof.
  apply (make_trio_from_parent_options
           (fun (_ : list SampleName) (_ : unit) => false)
           (fun _ _ => mkTrio "" "" "") ["kid"; "mum"; "dad"]
           (parents_options "mum" "aunt") "mum" "aunt").
  - apply (bool_decide_unpack _). vm_compute. exact I.
  - reflexivity.
  - reflexivity.
Defined.

End trio.

(** ** Call filtering and the temporary directory *)

Section call_filtering.
Import OptionCollation Noexcept Threads CallFiltering.
Variable resolve_path : string → outcome string.
Variable exists_ : string → bool.
Variable caller : outcome string.
Variable annotations_option : outcome (list string).

Lemma lift_inv {A B} (r : outcome A) (k : A → behaviour filter_exception B) b :
  lift r k = b →
  (∃ a, r = Ok a ∧ k a = b) ∨ (∃ e, r = Throw e ∧ b = Throws (OptionError e)).
Proof. destruct r as [a|e]; simpl; intros <-; eauto. Qed.

Ltac never_reads H :=
  repeat match type of H with
         | lift ?r ?k = _ =>
             apply lift_inv in H as [(? & _ & H)|(? & _ & H)];
             [|discriminate H]
         | (if ?c then _ else _) = _ => destruct c
         end; discriminate H.

Lemma lift_noexcept_inv {A B} (r : completion A)
    (k : A → behaviour filter_exception B) b :
  lift_noexcept r k = b →
  (∃ a, r = Returned a ∧ k a = b)
  ∨ (∃ e, r = Thrown e ∧ b = Throws (OptionError e))
  ∨ (r = Terminated ∧ b = Terminates).
Proof. destruct r as [a|e|]; simpl; intros <-; eauto. Qed.

Lemma make_factory_requested (options : OptionMap)
    (temp_directory : option string) factory :
  make_factory resolve_path exists_ caller annotations_option options
    temp_directory = Returns (Some factory) →
  is_call_filtering_requested options = Returned true.
Proof.
  intros H. unfold make_factory in H.
  destruct (is_call_filtering_requested options) as [[]|e|]; simpl in H;
    [done|discriminate H..].
Qed.

Lemma factory_made_when_requested (options : OptionMap)
    (temp_directory : option string) factory :
  make_call_filter_factory resolve_path exists_ caller annotations_option
    options temp_directory = Returns (Some factory) →
  is_call_filtering_requested options = Returned true.
Proof.
  unfold make_call_filter_factory. intros H.
  destruct (make_factory _ _ _ _ _ _) as [[made|]|e| |] eqn:Hmade;
    try discriminate H.
  by apply make_factory_requested in Hmade.
Qed.

Lemma make_factory_empty_read (options : OptionMap)
    (temp_directory : option string) :
  make_factory resolve_path exists_ caller annotations_option options
    temp_directory = EmptyOptionalRead →
  temp_directory = None ∧ is_set "forest-file" options = false
  ∧ is_set "somatic-forest-file" options = true
  ∧ bool_option options "somatics-only" = Ok true.
Proof.
  intros H. unfold make_factory in H.
  apply lift_noexcept_inv
    in H as [(requested & Hrequested & H)|[(e & _ & H)|[_ H]]];
    [|discriminate H..].
  destruct requested; [|discriminate H].
  apply lift_inv in H as [(c & Hc & H)|(e & _ & H)]; [|discriminate H].
  destruct (is_set "forest-file" options) eqn:Hforest.
  - exfalso.
    apply lift_inv in H as [(p & Hp & H)|(e & _ & H)]; [|discriminate H].
    apply lift_inv in H as [(f & Hf & H)|(e & _ & H)]; [|discriminate H].
    destruct (negb (exists_ f)); [discriminate H|].
    assert (Hdefault : ∃ d, match temp_directory with
                            | Some _ => temp_directory
                            | None => Some "/tmp"
                            end = Some d)
      by (destruct temp_directory; eauto).
    destruct Hdefault as [d Hd]. rewrite Hd in H. simpl in H.
    never_reads H.
  - destruct (is_set "somatic-forest-file" options) eqn:Hsomatic.
    + apply lift_inv in H as [(only & Honly & H)|(e & _ & H)];
        [|discriminate H].
      destruct only; [|discriminate H].
      apply lift_inv in H as [(p & Hp & H)|(e & _ & H)]; [|discriminate H].
      apply lift_inv in H as [(f & Hf & H)|(e & _ & H)]; [|discriminate H].
      destruct (negb (exists_ f)); [discriminate H|].
      destruct temp_directory; [discriminate H|]. done.
    + exfalso. never_reads H.
Qed.

(** X20.  [make_call_filter_factory] makes a factory only when call
    filtering is requested.  It reads the value of an empty
    [temp_directory] only when it is called without a temporary directory
    and [forest-file] is not set, [somatic-forest-file] is set and
    [somatics-only] is true (with [forest-file] set the directory defaults
    to [/tmp]); and in that case, the somatic forest file existing, it
    does read it. *)
Theorem filter_factory_temp_directory (options : OptionMap)
    (temp_directory : option string) :
  (∀ factory,
     make_call_filter_factory resolve_path exists_ caller annotations_option
       options temp_directory = Returns (Some factory) →
     is_call_filtering_requested options = Returned true)
  ∧ (make_call_filter_factory resolve_path exists_ caller annotations_option
       options temp_directory = EmptyOptionalRead →
     temp_directory = None ∧ is_set "forest-file" options = false
     ∧ is_set "somatic-forest-file" options = true
     ∧ bool_option options "somatics-only" = Ok true)
  ∧ (∀ caller_type somatic_path somatic_forest_file,
       temp_directory = None →
       is_call_filtering_requested options = Returned true →
       caller = Ok caller_type →
       is_set "forest-file" options = false →
       options !! "somatic-forest-file" = Some (VPath somatic_path) →
       bool_option options "somatics-only" = Ok true →
       resolve_path somatic_path = Ok somatic_forest_file →
       exists_ somatic_forest_file = true →
       make_call_filter_factory resolve_path exists_ caller annotations_option
         options temp_directory = EmptyOptionalRead).
Proof.
  split; [|split].
  - intros factory. apply factory_made_when_requested.
  - unfold make_call_filter_factory. intros H.
    destruct (make_factory _ _ _ _ _ _) as [[made|]|e| |] eqn:Hmade;
      try discriminate H.
    + destruct (make_output_options _ _); discriminate H.
    + by apply make_factory_empty_read in Hmade.
  - intros caller_type somatic_path somatic_forest_file -> Hrequested Hcaller
      Hforest Hsomatic Honly Hresolve Hexists.
    unfold make_call_filter_factory, make_factory.
    rewrite Hrequested, Hcaller. simpl. rewrite Hforest.
    assert (is_set "somatic-forest-file" options = true) as ->.
    { unfold is_set, count. by rewrite Hsomatic. }
    rewrite Honly. simpl. unfold path_option, at_. rewrite Hsomatic. simpl.
    rewrite Hresolve. simpl. by rewrite Hexists.
Qed.

Variable get_unfiltered_path get_legacy_path : string → string.
Variable generate_temp_output_path filename : string → string.
Variable join : string → string → string.

(** X21.  The assertions of [setup_writers] hold for the components as
    the constructor makes them: with the factory that
    [make_call_filter_factory] returns, the directory that
    [get_temp_directory] returns and an output writer on the output path,
    all for the same options, [setup_writers] never finds
    [temp_directory] empty where it asserts it. *)
Theorem setup_writers_has_temp_directory (options : OptionMap)
    (factory_temp_directory : option string)
    (call_filter_factory : VariantCallFilterFactory)
    (output_path temp_directory : option string)
    (created : outcome string) :
  make_call_filter_factory resolve_path exists_ caller annotations_option
    options factory_temp_directory = Returns call_filter_factory →
  get_output_path resolve_path options = Ok output_path →
  get_temp_directory resolve_path created options = Returned temp_directory →
  match setup_writers get_unfiltered_path get_legacy_path
          generate_temp_output_path filename join call_filter_factory
          output_path temp_directory options with
  | Returned AssertionFailed => False
  | Returned (Passed _) | Thrown _ | Terminated => True
  end.
Proof.
  intros Hfactory Hpath Htemp.
  destruct (setup_writers _ _ _ _ _ _ _ _ _) as [[writers|]|e|] eqn:Hfailed;
    [done| |done..].
  unfold setup_writers in Hfailed.
  destruct call_filter_factory as [factory|].
  2: { destruct (is_legacy_vcf_requested options); discriminate Hfailed. }
  pose proof (factory_made_when_requested _ _ _ Hfactory) as Hrequested.
  assert (Hdirectory : is_Some temp_directory
                       ∨ (∃ final, output_path = Some final)
                         ∧ keep_unfiltered_calls options = Returned true).
  { unfold get_temp_directory, is_temp_directory_needed in Htemp.
    destruct (is_multithreaded_run options) as [[]|e|]; simpl in Htemp;
      [| |discriminate Htemp..].
    { destruct created; simpl in Htemp; [|discriminate Htemp].
      injection Htemp as <-. left. by eexists. }
    unfold require_temp_dir_for_filtering in Htemp.
    rewrite Hrequested in Htemp. simpl in Htemp.
    unfold is_stdout_output in Htemp. rewrite Hpath in Htemp.
    destruct (keep_unfiltered_calls options) as [[]|e|]; simpl in Htemp;
      [| |discriminate Htemp..].
    - destruct output_path as [final|]; [right; eauto|].
      simpl in Htemp. destruct created; simpl in Htemp; [|discriminate Htemp].
      injection Htemp as <-. left. by eexists.
    - destruct created; simpl in Htemp; [|discriminate Htemp].
      injection Htemp as <-. left. by eexists. }
  destruct Hdirectory as [[directory ->]|[[final ->] Hkeep]].
  - destruct output_path as [final|]; simpl in Hfailed.
    + destruct (keep_unfiltered_calls options) as [[]|e|]; simpl in Hfailed;
        try discriminate Hfailed;
        destruct (is_legacy_vcf_requested options); discriminate Hfailed.
    + destruct (is_legacy_vcf_requested options); discriminate Hfailed.
  - rewrite Hkeep in Hfailed. simpl in Hfailed.
    destruct (is_legacy_vcf_requested options); discriminate Hfailed.
Qed.

End call_filtering.

Lemma filter_factory_temp_directory_witness :
  CallFiltering.make_call_filter_factory (fun path => Ok ("/wd/" ++ path))
    (fun _ => true) (Ok "cancer") (Ok []) CallFiltering.somatic_forest_only None
  = CallFiltering.EmptyOptionalRead.
Proof.
  apply (proj2 (proj2 (filter_factory_temp_directory
                         (fun path => Ok ("/wd/" ++ path)) (fun _ => true)
                         (Ok "cancer") (Ok [])
                         CallFiltering.somatic_forest_only None))
           "cancer" "somatic.forest" "/wd/somatic.forest"); reflexivity.
Defined.

Lemma setup_writers_has_temp_directory_witness :
  match CallFiltering.setup_writers (fun path => path ++ ".unfiltered")
          (fun path => path ++ ".legacy")
          (fun directory => directory ++ "/octopus_unfiltered.bcf")
          (fun path => path) (fun directory path => directory ++ "/" ++ path)
          (Some (CallFiltering.ThresholdFilterFactory ["QUAL < 10"] false,
                 CallFiltering.mkOutputOptions false None ∅))
          None (Some "/wd/octopus-temp") CallFiltering.threshold_filtering with
  | Noexcept.Returned CallFiltering.AssertionFailed => False
  | Noexcept.Returned (CallFiltering.Passed _) | Noexcept.Thrown _
  | Noexcept.Terminated => True
  end.
Proof.
  apply (setup_writers_has_temp_directory (fun path => Ok ("/wd/" ++ path))
           (fun _ => true) (Ok "individual") (Ok [])
           (fun path => path ++ ".unfiltered") (fun path => path ++ ".legacy")
           (fun directory => directory ++ "/octopus_unfiltered.bcf")
           (fun path => path) (fun directory path => directory ++ "/" ++ path)
           CallFiltering.threshold_filtering None
           (Some (CallFiltering.ThresholdFilterFactory ["QUAL < 10"] false,
                  CallFiltering.mkOutputOptions false None ∅))
           None (Some "/wd/octopus-temp") (Ok "/wd/octopus-temp"));
    reflexivity.
Defined.

(** ** The search regions of the options *)

Section input_regions.
Import OptionCollation Region SearchRegions InputRegions.
Variable shift : GenomicRegion → Z → GenomicRegion.
Variable strings_option : string → outcome (list string).
Variable parse_regions : list string → outcome (list GenomicRegion).
Variable extract_regions : string → bool → outcome (list GenomicRegion).
Variable resolve_path : string → outcome string.
Variable exists_ : string → bool.
Variable all_contig_regions : list GenomicRegion.

Hypothesis shift_down : ∀ region,
  (0 < region_begin region)%N → shift region (-1) = moved_down region.

Lemma transform_to_zero_based_one_based regions :
  Forall one_based regions →
  transform_to_zero_based shift regions = moved_down <$> regions.
Proof.
  unfold transform_to_zero_based. induction 1 as [|r l [_ Hr] _ IH]; [done|].
  rewrite !fmap_cons, IH. f_equal.
  destruct (N.ltb_spec 0 (region_begin r)); [by apply shift_down|lia].
Qed.

Lemma elem_of_transform_set x regions :
  x ∈ transform_set_to_zero_based shift regions
  ↔ ∃ region, region ∈ regions ∧ x = shift region (-1).
Proof.
  unfold transform_set_to_zero_based.
  assert (Hgen : ∀ result,
            x ∈ foldl (fun result region => emplace (shift region (-1)) result)
                      result regions
            ↔ (∃ region, region ∈ regions ∧ x = shift region (-1)) ∨ x ∈ result).
  { induction regions as [|r l IH]; intros result; simpl.
    - split; [by right|]. intros [(? & H & _)|H]; [by apply elem_of_nil in H|done].
    - rewrite IH, elem_of_emplace. split.
      + intros [(r' & Hr' & ->)|[->|H]]; [| |by right].
        * left. exists r'. split; [by right|done].
        * left. exists r. split; [by left|done].
      + intros [(r' & Hr' & ->)|H]; [|by right; right].
        apply elem_of_cons in Hr' as [->|Hr']; [by right; left|].
        left. by exists r'. }
  rewrite Hgen. split; [|by left]. intros [H|H]; [done|by apply elem_of_nil in H].
Qed.

Lemma covers_moved_down region c p :
  (0 < region_begin region)%N →
  covers (moved_down region) c p ↔ covers region c (p + 1).
Proof. unfold covers, moved_down. simpl. intros H. split; intros [? ?]; split; try done; lia. Qed.

Lemma covered_moved_down regions c p :
  Forall one_based regions →
  covered (moved_down <$> regions) c p ↔ covered regions c (p + 1).
Proof.
  intros Hall. rewrite Forall_forall in Hall. unfold covered. split.
  - intros (r & Hr & Hc). apply list_elem_of_fmap in Hr as (r' & -> & Hr').
    exists r'. split; [done|]. apply covers_moved_down; [|done].
    by destruct (Hall _ Hr').
  - intros (r & Hr & Hc). exists (moved_down r). split.
    + apply list_elem_of_fmap. by exists r.
    + apply covers_moved_down; [|done]. by destruct (Hall _ Hr).
Qed.

Lemma moved_down_well_formed regions :
  Forall one_based regions → Forall well_formed (moved_down <$> regions).
Proof.
  intros Hall. apply Forall_fmap. eapply Forall_impl; [exact Hall|].
  intros r [Hw Hb]. unfold well_formed, moved_down in *. simpl. lia.
Qed.

(** The regions that [make_search_regions] keeps begin no earlier than
    the input regions. *)
Lemma make_search_regions_begin lower regions c merged :
  Forall well_formed regions →
  Forall (fun r => (lower <= region_begin r)%N) regions →
  make_search_regions regions !! c = Some merged →
  Forall (fun r => (lower <= region_begin r)%N) merged.
Proof.
  intros Hwf Hlow. unfold make_search_regions.
  rewrite lookup_fmap, group_by_contig_lookup.
  destruct (filter (fun r => contig_name r = c) regions) as [|x l] eqn:Hf;
    simpl; [done|].
  intros [= <-].
  destruct (sort_spec (x :: l)) as [Hperm Hsorted].
  assert (Hall : ∀ r, r ∈ sort (x :: l) →
            well_formed r ∧ contig_name r = c ∧ (lower <= region_begin r)%N).
  { intros r Hr. rewrite Hperm, <- Hf in Hr.
    apply list_elem_of_filter in Hr as [Hc Hr].
    rewrite Forall_forall in Hwf, Hlow. split; [by apply Hwf|].
    split; [done|by apply Hlow]. }
  destruct (sort (x :: l)) as [|y k] eqn:Hk.
  { apply Permutation_nil_l in Hperm. discriminate. }
  simpl.
  destruct (merge_covered_spec c y k) as (_ & Hbegin & _).
  - apply Hall. by left.
  - apply Hall. by left.
  - apply Forall_forall. intros r Hr. apply Hall. by right.
  - apply Forall_forall. intros r Hr. apply Hall. by right.
  - done.
  - eapply Forall_impl; [exact Hbegin|]. simpl. intros o Ho.
    destruct (Hall y) as (_ & _ & Hy); [by left|]. lia.
Qed.

(** The regions of the result of [extract_search_regions] begin no
    earlier than the input regions. *)
Lemma output_region_begin lower regions skip_regions o :
  Forall well_formed regions → Forall well_formed skip_regions →
  Forall (fun r => (lower <= region_begin r)%N) regions →
  output_region (extract_search_regions regions skip_regions) o →
  (lower <= region_begin o)%N.
Proof.
  intros Hwr Hws Hlow Ho.
  apply output_region_iff in Ho as (merged & Hm & Ho).
  pose proof (make_search_regions_begin lower regions _ merged Hwr Hlow Hm)
    as Hmerged.
  rewrite Forall_forall in Hmerged.
  pose proof (make_search_regions_spec regions (contig_name o) Hwr) as Hr.
  rewrite Hm in Hr. destruct Hr as [Hcan _].
  pose proof (make_search_regions_spec skip_regions (contig_name o) Hws) as Hk.
  unfold unskipped_of in Ho.
  destruct (make_search_regions skip_regions !! contig_name o) as [skips|];
    [|by apply Hmerged].
  destruct Hk as [Hcank _].
  apply elem_of_get_unskipped in Ho as (r & Hin & Ho).
  destruct Hcan as (Hwm & Hcm & _). rewrite Forall_forall in Hwm, Hcm.
  destruct (unskipped_pieces_spec (contig_name o) skips r Hcank
              (Hwm _ Hin) (Hcm _ Hin)) as (Hall & _ & _).
  rewrite Forall_forall in Hall. destruct (Hall o Ho) as (_ & _ & Hb & _).
  specialize (Hmerged r Hin). simpl in Hmerged. lia.
Qed.

(** The bases of the result of [extract_search_regions]. *)
Lemma output_region_covers regions skip_regions c p :
  Forall well_formed regions → Forall well_formed skip_regions →
  (∃ o, output_region (extract_search_regions regions skip_regions) o
        ∧ covers o c p)
  ↔ covered regions c p ∧ ¬ covered skip_regions c p.
Proof.
  intros Hwr Hws. split.
  - intros (o & Ho & Hc & Hp). subst c.
    apply output_region_iff in Ho as (merged & Hm & Ho).
    destruct (unskipped_of_spec regions skip_regions _ merged Hwr Hws Hm)
      as (_ & Hiff & _).
    apply Hiff. by exists o.
  - intros [Hin Hno].
    pose proof (make_search_regions_spec regions c Hwr) as Hr.
    destruct (make_search_regions regions !! c) as [merged|] eqn:Hm;
      [|by apply Hr in Hin].
    destruct (unskipped_of_spec regions skip_regions c merged Hwr Hws Hm)
      as (Hc & Hiff & _).
    destruct (proj2 (Hiff p)) as (o & Ho & Hp); [done|].
    rewrite Forall_forall in Hc. pose proof (Hc o Ho) as Hco.
    exists o. split; [|done].
    apply output_region_iff. exists merged. by rewrite Hco.
Qed.

Lemma output_region_transform (m : InputRegionMap) o' :
  (∀ c l o, m !! c = Some l → o ∈ l →
            contig_name o = c ∧ (0 < region_begin o)%N) →
  output_region (transform_map_to_zero_based shift m) o'
  ↔ ∃ o, output_region m o ∧ o' = moved_down o.
Proof.
  intros Hkeyed. unfold output_region, transform_map_to_zero_based.
  rewrite lookup_fmap. split.
  - intros (l' & Hl' & Ho').
    destruct (m !! contig_name o') as [l|] eqn:Hl; [|discriminate Hl'].
    simpl in Hl'. injection Hl' as <-.
    apply elem_of_transform_set in Ho' as (o & Ho & ->).
    destruct (Hkeyed _ _ _ Hl Ho) as [Hc Hb].
    exists o. split; [|by apply shift_down].
    exists l. by rewrite Hc.
  - intros (o & (l & Hl & Ho) & ->).
    destruct (Hkeyed _ _ _ Hl Ho) as [_ Hb].
    exists (transform_set_to_zero_based shift l). simpl. rewrite Hl. split; [done|].
    apply elem_of_transform_set. exists o. split; [done|].
    by rewrite shift_down.
Qed.

Lemma extract_search_regions_keyed regions skip_regions c l o :
  Forall well_formed regions → Forall well_formed skip_regions →
  extract_search_regions regions skip_regions !! c = Some l → o ∈ l →
  contig_name o = c.
Proof.
  intros Hwr Hws Hl Ho. rewrite extract_search_regions_lookup in Hl.
  destruct (make_search_regions regions !! c) as [merged|] eqn:Hm;
    [|discriminate Hl].
  simpl in Hl.
  destruct (unskipped_of_spec regions skip_regions c merged Hwr Hws Hm)
    as (Hc & _ & _).
  rewrite Forall_forall in Hc. apply Hc.
  destruct (unskipped_of _ _ merged); [discriminate Hl|].
  by injection Hl as <-.
Qed.

(** X22.  With [one-based-indexing], given regions and skip regions on
    the command line, all of them one-based (well formed and not
    beginning at 0), [get_search_regions] moves the skip regions down
    twice: the skip regions are moved down by one before they are taken
    out of the regions, which are still one-based, and the result is
    moved down by one again.  So the zero-based position [p] is searched
    exactly when [p + 1] lies in a region and [p + 2] in no skip
    region. *)
Theorem one_based_skip_regions_moved_twice (options : OptionMap)
    (region_strings skip_strings : list string)
    (regions skip_regions : list GenomicRegion) :
  (let* v := at_ options "one-based-indexing" in as_bool v)%outcome = Ok true →
  is_set "regions" options = true →
  is_set "regions-file" options = false →
  is_set "skip-regions" options = true →
  is_set "skip-regions-file" options = false →
  strings_option "regions" = Ok region_strings →
  parse_regions region_strings = Ok regions →
  strings_option "skip-regions" = Ok skip_strings →
  parse_regions skip_strings = Ok skip_regions →
  Forall one_based regions → Forall one_based skip_regions →
  ∃ result,
    get_search_regions shift strings_option parse_regions extract_regions
      resolve_path exists_ all_contig_regions options = Value result
    ∧ ∀ c p, (∃ o, output_region result o ∧ covers o c p)
             ↔ covered regions c (p + 1) ∧ ¬ covered skip_regions c (p + 2).
Proof.
  intros Hone Hregions Hfile Hskip Hskipfile Hrs Hrp Hss Hsp Hall Hskips.
  unfold get_search_regions.
  rewrite Hskip, Hss. simpl. rewrite Hsp. simpl.
  rewrite Hskipfile. simpl. rewrite Hone. simpl.
  rewrite Hregions, Hfile. simpl. rewrite Hrs. simpl. rewrite Hrp. simpl.
  eexists. split; [reflexivity|].
  rewrite (transform_to_zero_based_one_based _ Hskips).
  assert (Hwr : Forall well_formed regions)
    by (eapply Forall_impl; [exact Hall|]; by intros r [? _]).
  pose proof (moved_down_well_formed _ Hskips) as Hws.
  assert (Hlow : Forall (fun r => (1 <= region_begin r)%N) regions).
  { eapply Forall_impl; [exact Hall|]. intros r [_ ?]. simpl. lia. }
  assert (Hkeyed : ∀ c l o,
            extract_search_regions regions (moved_down <$> skip_regions) !! c
            = Some l → o ∈ l →
            contig_name o = c ∧ (0 < region_begin o)%N).
  { intros c l o Hl Ho.
    pose proof (extract_search_regions_keyed _ _ _ _ _ Hwr Hws Hl Ho) as Hc.
    split; [done|].
    assert (1 <= region_begin o)%N; [|lia].
    apply (output_region_begin 1 regions (moved_down <$> skip_regions));
      try done.
    exists l. by rewrite Hc. }
  intros c p. split.
  - intros (o' & Ho' & Hcov).
    apply (output_region_transform _ _ Hkeyed) in Ho' as (o & Ho & ->).
    assert (Hb : (0 < region_begin o)%N).
    { destruct Ho as (l & Hl & Ho). by destruct (Hkeyed _ _ _ Hl Ho). }
    apply covers_moved_down in Hcov; [|done].
    destruct (proj1 (output_region_covers regions (moved_down <$> skip_regions)
                       c (p + 1) Hwr Hws)) as [Hin Hno]; [by exists o|].
    split; [done|]. intros Hsk. apply Hno.
    apply (covered_moved_down _ _ _ Hskips).
    by replace (p + 1 + 1)%N with (p + 2)%N by lia.
  - intros [Hin Hno].
    destruct (proj2 (output_region_covers regions (moved_down <$> skip_regions)
                       c (p + 1) Hwr Hws)) as (o & Ho & Hcov).
    { split; [done|]. intros Hsk. apply Hno.
      apply (covered_moved_down _ _ _ Hskips) in Hsk.
      by replace (p + 2)%N with (p + 1 + 1)%N by lia. }
    assert (Hb : (0 < region_begin o)%N).
    { destruct Ho as (l & Hl & Ho). by destruct (Hkeyed _ _ _ Hl Ho). }
    exists (moved_down o). split.
    + apply (output_region_transform _ _ Hkeyed). by exists o.
    + by apply covers_moved_down.
Qed.

End input_regions.

Lemma one_based_skip_regions_moved_twice_witness :
  ∃ result,
    InputRegions.get_search_regions InputRegions.example_shift
      InputRegions.example_strings InputRegions.example_parse
      (fun _ _ => Ok []) (fun path => Ok path) (fun _ => true) []
      InputRegions.one_based_options = Value result
    ∧ ∀ c p, (∃ o, SearchRegions.output_region result o ∧ Region.covers o c p)
             ↔ Region.covered [Region.mkRegion "chr1" 100 200] c (p + 1)
               ∧ ¬ Region.covered [Region.mkRegion "chr1" 150 160] c (p + 2).
Proof.
  apply (one_based_skip_regions_moved_twice InputRegions.example_shift
           InputRegions.example_strings InputRegions.example_parse
           (fun _ _ => Ok []) (fun path => Ok path) (fun _ => true) [])
    with (region_strings := ["chr1:100-200"]) (skip_strings := ["chr1:150-160"]);
    try reflexivity.
  - intros region Hb. unfold InputRegions.example_shift, InputRegions.moved_down.
    f_equal; lia.
  - repeat constructor; unfold Region.well_formed; simpl; lia.
  - repeat constructor; unfold Region.well_formed; simpl; lia.
Defined.

(** ** The completed regions of the progress meter *)

Section progress_meter.
Import Region ProgressMeter.
Local Open Scope list_scope.

Lemma overlaps_iff x y :
  contig_name x = contig_name y → well_formed x → well_formed y →
  overlaps x y = true
  ↔ (N.max (region_begin x) (region_begin y)
     < N.min (region_end x) (region_end y))%N
    ∨ (N.max (region_begin x) (region_begin y)
       = N.min (region_end x) (region_end y)
       ∧ (region_begin x = region_end x ∨ region_begin y = region_end y)).
Proof.
  intros Hc Hx Hy. unfold overlaps, is_same_contig, overlap_size, is_empty.
  rewrite Hc, String.eqb_refl. cbn [andb].
  unfold well_formed in *.
  rewrite orb_true_iff, andb_true_iff, orb_true_iff, Z.ltb_lt, Z.eqb_eq,
    !N.eqb_eq.
  lia.
Qed.

Lemma overlaps_self x : well_formed x → overlaps x x = true.
Proof. intros Hx. apply overlaps_iff; [done..|]. unfold well_formed in Hx. lia. Qed.

Lemma size_nonneg x : well_formed x → (0 <= size x)%Z.
Proof. unfold well_formed, size. lia. Qed.

Lemma total_app l k : total (l ++ k) = (total l + total k)%Z.
Proof. induction l as [|x l IH]; simpl; [done|]. rewrite IH. lia. Qed.

Lemma total_nonneg l : Forall well_formed l → (0 <= total l)%Z.
Proof.
  induction 1 as [|x l Hx _ IH]; simpl; [done|].
  pose proof (size_nonneg x Hx). lia.
Qed.

Lemma total_elem_of l x : Forall well_formed l → x ∈ l → (size x <= total l)%Z.
Proof.
  induction 1 as [|y l Hy Hl IH]; intros Hin; [by apply elem_of_nil in Hin|].
  simpl. pose proof (size_nonneg y Hy). pose proof (total_nonneg l Hl).
  apply elem_of_cons in Hin as [->|Hin]; [lia|]. specialize (IH Hin). lia.
Qed.

Lemma total_filter (f : GenomicRegion → bool) l :
  total l = (total (List.filter f l)
             + total (List.filter (fun x => negb (f x)) l))%Z.
Proof.
  induction l as [|x l IH]; simpl; [done|].
  destruct (f x); simpl; lia.
Qed.

Lemma total_Permutation l k : l ≡ₚ k → total l = total k.
Proof. induction 1; simpl; lia. Qed.

Lemma emplace_Permutation x l : x ∉ l → emplace x l ≡ₚ x :: l.
Proof.
  induction l as [|y l IH]; intros Hx; simpl; [done|].
  apply not_elem_of_cons in Hx as [Hne Hx].
  rewrite bool_decide_eq_false_2 by done.
  destruct (region_lt x y); [done|].
  rewrite IH by done. apply Permutation_swap.
Qed.

Lemma foldl_sub_total (result : Z) l :
  foldl (fun result r => (result - size r)%Z) result l = (result - total l)%Z.
Proof.
  revert result. induction l as [|x l IH]; intros result; simpl; [lia|].
  rewrite IH. lia.
Qed.

(** A canonical list between two positions holds no more bases than lie
    between them. *)
Lemma total_within c l (low high : N) :
  canonical c l → (low <= high)%N →
  (∀ o, o ∈ l → (low <= region_begin o)%N ∧ (region_end o <= high)%N) →
  (total l <= Z.of_N high - Z.of_N low)%Z.
Proof.
  intros (Hwf & _ & Hs). revert low.
  induction Hs as [|x l Hs IH Hx]; intros low Hlh Hin; simpl; [lia|].
  apply Forall_cons in Hwf as [Hwx Hwf].
  destruct (Hin x) as [Hlow Hhigh]; [by left|].
  unfold well_formed in Hwx.
  destruct l as [|y l'].
  { simpl. unfold size. lia. }
  specialize (IH Hwf (region_end x)).
  assert (total (y :: l') <= Z.of_N high - Z.of_N (region_end x))%Z.
  { apply IH; [lia|]. intros o Ho. split; [|apply Hin; by right].
    rewrite Forall_forall in Hx. apply (Hx o Ho). }
  unfold size. lia.
Qed.

(** Putting a region into a canonical list of regions that lie before it
    or behind it. *)
Lemma emplace_canonical c x l :
  canonical c l → well_formed x → contig_name x = c → x ∉ l →
  (∀ o, o ∈ l → separated o x ∨ separated x o) →
  canonical c (emplace x l).
Proof.
  intros (Hwf & Hc & Hs) Hwx Hcx. revert Hwf Hc.
  induction Hs as [|y l Hs IH Hy]; intros Hwf Hc Hx Hsep.
  { simpl. repeat split; repeat constructor; done. }
  apply not_elem_of_cons in Hx as [Hne Hx].
  apply Forall_cons in Hwf as [Hwy Hwf]. apply Forall_cons in Hc as [Hcy Hc].
  simpl. rewrite bool_decide_eq_false_2 by done.
  assert (Hxy : separated y x ∨ separated x y) by (apply Hsep; by left).
  unfold separated, well_formed in *.
  destruct (region_lt x y) eqn:Hlt.
  - assert (Hbefore : (region_end x <= region_begin y)%N).
    { unfold region_lt in Hlt.
      rewrite orb_true_iff, andb_true_iff, !N.ltb_lt, N.eqb_eq in Hlt. lia. }
    split; [|split].
    + by repeat constructor.
    + by repeat constructor.
    + constructor; [by constructor|]. constructor; [done|].
      rewrite Forall_forall in Hy |- *. intros o Ho. specialize (Hy o Ho).
      unfold separated in *. lia.
  - assert (Hafter : (region_end y <= region_begin x)%N).
    { unfold region_lt in Hlt.
      rewrite orb_false_iff, andb_false_iff, !N.ltb_ge, N.eqb_neq in Hlt.
      destruct Hxy as [?|Hxy]; [done|].
      exfalso. apply Hne. destruct x, y. simpl in *. f_equal; [congruence|lia..]. }
    destruct IH as (Hwf' & Hc' & Hs'); [done|done|done| |].
    { intros o Ho. apply Hsep. by right. }
    split; [|split].
    + by constructor.
    + by constructor.
    + constructor; [done|]. apply Forall_forall. intros o Ho.
      apply elem_of_emplace in Ho as [->|Ho]; [done|].
      rewrite Forall_forall in Hy. by apply Hy.
Qed.

Lemma sorted_separated_cases l x y :
  StronglySorted separated l → x ∈ l → y ∈ l →
  x = y ∨ separated x y ∨ separated y x.
Proof.
  induction 1 as [|z l Hs IH Hz]; intros Hx Hy; [by apply elem_of_nil in Hx|].
  rewrite Forall_forall in Hz.
  apply elem_of_cons in Hx as [->|Hx]; apply elem_of_cons in Hy as [->|Hy].
  - by left.
  - right. left. by apply Hz.
  - right. right. by apply Hz.
  - by apply IH.
Qed.

Lemma elem_of_overlap_range set region o :
  o ∈ overlap_range set region ↔ o ∈ set ∧ overlaps o region = true.
Proof. unfold overlap_range. by rewrite !list_elem_of_In, filter_In. Qed.

Lemma elem_of_erase_overlapped set region o :
  o ∈ erase_overlapped set region ↔ o ∈ set ∧ overlaps o region = false.
Proof.
  unfold erase_overlapped. rewrite !list_elem_of_In, filter_In, negb_true_iff.
  done.
Qed.

Lemma total_overlap_range set region :
  total set
  = (total (overlap_range set region) + total (erase_overlapped set region))%Z.
Proof. apply (total_filter (fun x => overlaps x region)). Qed.

(** The completed regions after [merge] has put [new_region] in the
    place of the regions that overlap [region], when [new_region] goes
    from the earlier of the begins of [region] and of the first of them to
    the later of the ends of [region] and of the last of them. *)
Lemma merge_tail c set region front rest new_region :
  canonical c set → well_formed region → contig_name region = c →
  overlap_range set region = front :: rest →
  contig_name new_region = c →
  region_begin new_region = N.min (region_begin front) (region_begin region) →
  region_end new_region
  = N.max (region_end (List.last (front :: rest) front)) (region_end region) →
  let completed := emplace new_region (erase_overlapped set region) in
  canonical c completed
  ∧ (∀ p, (∃ o, o ∈ completed ∧ inside o p)
          ↔ (∃ o, o ∈ set ∧ inside o p) ∨ inside region p)
  ∧ total completed = (size new_region + total (erase_overlapped set region))%Z
  ∧ (total (front :: rest) <= size new_region)%Z.
Proof.
  intros Hcan Hwr Hcr Hover Hcn Hbn Hen completed.
  set (back := List.last (front :: rest) front) in *.
  pose proof (canonical_filter c (fun x => overlaps x region) set Hcan) as Hcano.
  fold (overlap_range set region) in Hcano. rewrite Hover in Hcano.
  pose proof (canonical_filter c (fun x => negb (overlaps x region)) set Hcan)
    as Hcanr.
  fold (erase_overlapped set region) in Hcanr.
  destruct Hcan as (Hwf & Hc & Hs). rewrite Forall_forall in Hwf, Hc.
  assert (Hin : ∀ o, o ∈ front :: rest ↔ o ∈ set ∧ overlaps o region = true).
  { intros o. rewrite <- Hover. apply elem_of_overlap_range. }
  assert (Hfront : front ∈ front :: rest) by (by left).
  assert (Hback : back ∈ front :: rest) by apply last_cons_elem_of.
  assert (Hbounds : ∀ o, o ∈ front :: rest →
            (region_begin front <= region_begin o)%N
            ∧ (region_end o <= region_end back)%N).
  { intros o Ho. by apply (canonical_bounds c). }
  assert (Htouch : ∀ o, o ∈ front :: rest →
            o ∈ set ∧ well_formed o
            ∧ (region_begin o <= region_end region)%N
            ∧ (region_begin region <= region_end o)%N).
  { intros o Ho. apply Hin in Ho as [Ho Hov]. split; [done|].
    split; [by apply Hwf|]. by apply overlaps_inv in Hov as (_ & ? & ?). }
  destruct (Htouch front Hfront) as (Hfs & Hwfront & Hf1 & Hf2).
  destruct (Htouch back Hback) as (Hbs & Hwback & Hb1 & Hb2).
  destruct (Hbounds back Hback) as [Hfb _].
  assert (Hwn : well_formed new_region).
  { unfold well_formed in *. lia. }
  assert (Hnew : overlaps new_region region = true).
  { apply overlaps_iff; [congruence|done|done|]. unfold well_formed in *. lia. }
  assert (Hnotin : new_region ∉ erase_overlapped set region).
  { intros Hn. apply elem_of_erase_overlapped in Hn as [_ Hn]. congruence. }
  assert (Hsep : ∀ o, o ∈ erase_overlapped set region →
            separated o new_region ∨ separated new_region o).
  { intros o Ho. apply elem_of_erase_overlapped in Ho as [Ho Hno].
    pose proof (Hwf o Ho) as Hwo. pose proof (Hc o Ho) as Hco.
    assert (Hiff := overlaps_iff o region (eq_trans Hco (eq_sym Hcr)) Hwo Hwr).
    rewrite Hno in Hiff.
    assert (Hno' : ¬ ((N.max (region_begin o) (region_begin region)
                       < N.min (region_end o) (region_end region))%N
                      ∨ N.max (region_begin o) (region_begin region)
                        = N.min (region_end o) (region_end region)
                        ∧ (region_begin o = region_end o
                           ∨ region_begin region = region_end region))).
    { intros H. apply Hiff in H. discriminate H. }
    assert (Hof : o ≠ front).
    { intros ->. apply Hin in Hfront as [_ Hfront]. congruence. }
    assert (Hob : o ≠ back).
    { intros ->. apply Hin in Hback as [_ Hback]. congruence. }
    destruct (sorted_separated_cases set o front Hs Ho Hfs) as [?|Hcf]; [done|].
    destruct (sorted_separated_cases set o back Hs Ho Hbs) as [?|Hcb]; [done|].
    unfold separated, well_formed in *. lia. }
  split; [|split; [|split]].
  - by apply emplace_canonical.
  - intros p. subst completed. split.
    + intros (o & Ho & Hp). apply elem_of_emplace in Ho as [->|Ho].
      * unfold inside, well_formed in *.
        destruct (N.lt_ge_cases p (region_begin region)) as [Hlt|Hge].
        { left. exists front. split; [done|]. lia. }
        destruct (N.lt_ge_cases p (region_end region)) as [Hlt'|Hge'].
        { right. lia. }
        left. exists back. split; [done|]. lia.
      * left. exists o. split; [|done].
        by apply elem_of_erase_overlapped in Ho as [? _].
    + intros [(o & Ho & Hp)|Hp].
      * destruct (overlaps o region) eqn:Hov.
        -- exists new_region. split; [apply elem_of_emplace; by left|].
           destruct (Hbounds o) as [? ?]; [by apply Hin|].
           unfold inside in *. lia.
        -- exists o. split; [|done]. apply elem_of_emplace. right.
           by apply elem_of_erase_overlapped.
      * exists new_region. split; [apply elem_of_emplace; by left|].
        unfold inside in *. lia.
  - subst completed. by rewrite (total_Permutation _ _ (emplace_Permutation _ _ Hnotin)).
  - unfold size. rewrite Hbn, Hen.
    etransitivity; [apply (total_within c (front :: rest)
                             (N.min (region_begin front) (region_begin region))
                             (N.max (region_end back) (region_end region)))|lia].
    + done.
    + unfold well_formed in *. lia.
    + intros o Ho. destruct (Hbounds o Ho). lia.
Qed.

Lemma erase_single set region interactor :
  overlap_range set region = [interactor] →
  erase interactor set = erase_overlapped set region.
Proof.
  intros Hover. unfold erase, erase_overlapped.
  assert (Hin : ∀ o, o ∈ set → overlaps o region = true → o = interactor).
  { intros o Ho Hov.
    assert (o ∈ overlap_range set region) as Hoo
      by (by apply elem_of_overlap_range).
    rewrite Hover in Hoo. by apply list_elem_of_singleton in Hoo. }
  assert (Hint : overlaps interactor region = true).
  { assert (interactor ∈ overlap_range set region) as Hi
      by (rewrite Hover; by left).
    by apply elem_of_overlap_range in Hi as [_ ?]. }
  clear Hover. induction set as [|x set IH]; [done|]. simpl.
  rewrite IH by (intros o Ho; apply Hin; by right).
  case_bool_decide as Hx.
  - subst x. by rewrite Hint.
  - destruct (overlaps x region) eqn:Hov; [|done].
    exfalso. apply Hx. apply Hin; [by left|done].
Qed.

(** [merge] on the completed regions of one contig: the regions stay
    canonical, they hold the bases they held and those of the region, and
    the count returned is the number of bases that are new. *)
Lemma merge_contig_spec c set region :
  canonical c set → well_formed region → contig_name region = c →
  canonical c (merge_contig set region).2
  ∧ (∀ p, (∃ o, o ∈ (merge_contig set region).2 ∧ inside o p)
          ↔ (∃ o, o ∈ set ∧ inside o p) ∨ inside region p)
  ∧ total (merge_contig set region).2
    = (total set + (merge_contig set region).1)%Z
  ∧ (0 <= (merge_contig set region).1 <= size region)%Z.
Proof.
  intros Hcan Hwr Hcr.
  pose proof (total_overlap_range set region) as Htotal.
  pose proof (canonical_filter c (fun x => overlaps x region) set Hcan) as Hcano.
  fold (overlap_range set region) in Hcano.
  assert (Hin : ∀ o, o ∈ overlap_range set region
                     ↔ o ∈ set ∧ overlaps o region = true)
    by (intros o; apply elem_of_overlap_range).
  unfold merge_contig.
  destruct (overlap_range set region) as [|front rest] eqn:Hover.
  - (* no completed region overlaps the region *)
    cbn [fst snd].
    assert (Hnone : ∀ o, o ∈ set → overlaps o region = false).
    { intros o Ho. destruct (overlaps o region) eqn:Hov; [|done].
      assert (o ∈ []) as Hoo by (by apply Hin). by apply elem_of_nil in Hoo. }
    assert (Hnotin : region ∉ set).
    { intros Hr. apply Hnone in Hr. by rewrite overlaps_self in Hr. }
    split; [|split; [|split]].
    + apply emplace_canonical; [done..|].
      intros o Ho. destruct (Hcan) as (Hwf & Hc & _).
      rewrite Forall_forall in Hwf, Hc.
      destruct (N.le_ge_cases (region_begin o) (region_begin region)).
      * left. apply not_overlaps_separated; [by apply Hwf|done| |done|by apply Hnone].
        rewrite Hcr. by apply Hc.
      * right. apply not_overlaps_separated; [done|by apply Hwf| |done|].
        { rewrite Hcr. symmetry. by apply Hc. }
        destruct (overlaps region o) eqn:Hov; [|done].
        assert (Hsym : overlaps o region = true).
        { apply overlaps_iff; [rewrite Hcr; by apply Hc|by apply Hwf|done|].
          apply overlaps_iff in Hov; [lia|rewrite Hcr; symmetry; by apply Hc
                                      |done|by apply Hwf]. }
        by rewrite (Hnone o Ho) in Hsym.
    + intros p. split.
      * intros (o & Ho & Hp). apply elem_of_emplace in Ho as [->|Ho];
          [by right|left; by exists o].
      * intros [(o & Ho & Hp)|Hp].
        -- exists o. split; [|done]. apply elem_of_emplace. by right.
        -- exists region. split; [|done]. apply elem_of_emplace. by left.
    + rewrite (total_Permutation _ _ (emplace_Permutation _ _ Hnotin)).
      simpl. lia.
    + pose proof (size_nonneg region Hwr). lia.
  - destruct rest as [|second rest].
    + (* one completed region overlaps the region *)
      assert (Hfront : front ∈ set ∧ overlaps front region = true)
        by (apply Hin; by left).
      destruct Hfront as [Hfs Hfo].
      destruct (Hcan) as (Hwf & Hc & Hs). rewrite Forall_forall in Hwf, Hc.
      pose proof (Hwf front Hfs) as Hwfront. pose proof (Hc front Hfs) as Hcf.
      apply overlaps_inv in Hfo as (_ & Hf1 & Hf2).
      destruct (contains front region) eqn:Hcont.
      * cbn [fst snd]. apply contains_inv in Hcont as [Hc1 Hc2].
        split; [done|]. split; [|split; [lia|]].
        -- intros p. split; [by left|]. intros [H|Hp]; [done|].
           exists front. split; [done|]. unfold inside in *. lia.
        -- pose proof (size_nonneg region Hwr). lia.
      * assert (Hnc : ¬ ((region_begin front <= region_begin region)%N
                         ∧ (region_end region <= region_end front)%N)).
        { intros [H1 H2]. unfold contains, is_same_contig in Hcont.
          rewrite Hcf, Hcr, String.eqb_refl in Hcont. cbn [andb] in Hcont.
          apply andb_false_iff in Hcont as [Hcont|Hcont];
            apply N.leb_gt in Hcont; lia. }
        destruct (merge_end front (merge_begin front (0%Z, region)))
          as [result new_region] eqn:Hmerge.
        cbn [fst snd].
        assert (Hnew : contig_name new_region = c
                       ∧ region_begin new_region
                         = N.min (region_begin front) (region_begin region)
                       ∧ region_end new_region
                         = N.max (region_end front) (region_end region)
                       ∧ result = (size new_region - size front)%Z).
        { clear - Hmerge Hnc Hf1 Hf2 Hwr Hwfront Hcr Hcf.
          unfold merge_end, merge_begin, left_overhang_size, right_overhang_size,
            left_overhang_region, right_overhang_region, encompassing_region,
            get_encompassing, begins_before, ends_before, size in Hmerge.
          unfold well_formed, size in *.
          destruct region as [rc rb re], front as [fc fb fe]. simpl in *.
          destruct (N.ltb_spec rb fb), (N.ltb_spec fb rb); try lia;
            simpl in Hmerge;
            repeat match type of Hmerge with
                   | context [N.ltb ?a ?b] => destruct (N.ltb_spec a b)
                   end;
            simpl in Hmerge; injection Hmerge as <- <-; simpl;
            repeat split; try done; lia. }
        destruct Hnew as (Hcn & Hbn & Hen & Hresult).
        rewrite (erase_single set region front Hover).
        destruct (merge_tail c set region front [] new_region)
          as (Hcan' & Hcov & Htot & Hle); try done.
        split; [done|]. split; [done|]. simpl in Htotal, Hle.
        split; [lia|].
        unfold size, well_formed in *. lia.
    + (* several completed regions overlap the region *)
      cbn [fst snd].
      set (back := List.last (second :: rest) front).
      set (new_region1 :=
             if begins_before front region
             then encompassing_region front region else region).
      set (new_region :=
             if ends_before new_region1 back
             then encompassing_region new_region1 back else new_region1).
      rewrite foldl_sub_total.
      assert (Hfront : front ∈ set ∧ overlaps front region = true)
        by (apply Hin; by left).
      assert (Hbackin : back ∈ second :: rest) by apply last_cons_elem_of.
      assert (Hback : back ∈ set ∧ overlaps back region = true)
        by (apply Hin; by right).
      destruct Hfront as [Hfs Hfo]. destruct Hback as [Hbs Hbo].
      assert (Hfb : separated front back).
      { destruct Hcano as (_ & _ & Hso).
        apply StronglySorted_cons in Hso as [Hso _].
        rewrite Forall_forall in Hso. by apply Hso. }
      assert (Hrest : total (second :: rest)
                      = (total (removelast (second :: rest)) + size back)%Z).
      { rewrite (app_removelast_last front (l := second :: rest)) at 1
          by discriminate.
        rewrite total_app. fold back. simpl. lia. }
      assert (Hmiddle : (0 <= total (removelast (second :: rest)))%Z).
      { apply total_nonneg. destruct Hcano as (Hwo & _ & _).
        apply Forall_cons in Hwo as [_ Hwo].
        rewrite Forall_forall in Hwo |- *. intros o Ho. apply Hwo.
        rewrite (app_removelast_last front (l := second :: rest))
          by discriminate.
        apply elem_of_app. by left. }
      destruct (Hcan) as (Hwf & Hc & Hs). rewrite Forall_forall in Hwf, Hc.
      pose proof (Hwf front Hfs) as Hwfront. pose proof (Hc front Hfs) as Hcf.
      pose proof (Hwf back Hbs) as Hwback. pose proof (Hc back Hbs) as Hcb.
      apply overlaps_inv in Hfo as (_ & Hf1 & Hf2).
      apply overlaps_inv in Hbo as (_ & Hb1 & Hb2).
      assert (Hnew : contig_name new_region = c
                     ∧ region_begin new_region
                       = N.min (region_begin front) (region_begin region)
                     ∧ region_end new_region
                       = N.max (region_end back) (region_end region)
                     ∧ (size region - overlap_size front region
                        - overlap_size back new_region1)%Z
                       = (size new_region - size front - size back)%Z).
      { subst new_region new_region1.
        clearbody back.
        clear - Hfb Hf1 Hf2 Hb1 Hb2 Hwr Hwfront Hwback Hcr Hcf Hcb.
        unfold encompassing_region, get_encompassing, begins_before,
          ends_before, overlap_size, size, separated, well_formed in *.
        destruct region as [rc rb re], front as [fc fb fe], back as [bc bb be].
        simpl in *.
        destruct (N.ltb_spec fb rb); simpl;
          match goal with
          | |- context [N.ltb ?a ?b] => destruct (N.ltb_spec a b)
          end; simpl; repeat split; try done; lia. }
      destruct Hnew as (Hcn & Hbn & Hen & Hresult).
      destruct (merge_tail c set region front (second :: rest) new_region)
        as (Hcan' & Hcov & Htot & Hle); try done.
      split; [done|]. split; [done|].
      change (total (front :: second :: rest))
        with (size front + total (second :: rest))%Z in Htotal, Hle.
      split; [lia|].
      unfold size, well_formed, separated in *. lia.
Qed.

Lemma total_completed_insert_new (completed : CompletedRegions) c set :
  completed !! c = None →
  total_completed (<[c := set]> completed)
  = (total set + total_completed completed)%Z.
Proof.
  intros Hnone. unfold total_completed.
  rewrite map_fold_insert_L; [done| |done].
  intros. lia.
Qed.

Lemma total_completed_insert (completed : CompletedRegions) c old set :
  completed !! c = Some old →
  total_completed (<[c := set]> completed)
  = (total set + total_completed completed - total old)%Z.
Proof.
  intros Hold.
  rewrite <- (insert_delete_id completed c old Hold) at 2.
  rewrite <- (insert_delete_eq completed).
  rewrite !total_completed_insert_new by apply lookup_delete_eq. lia.
Qed.

(** [merge] keeps the completed regions of every contig canonical, adds
    the bases of the region to the completed bases, and returns the
    number of bases that it adds. *)
Lemma merge_spec (completed : CompletedRegions) region :
  (∀ c set, completed !! c = Some set → canonical c set) →
  well_formed region →
  (∀ c set, (merge completed region).2 !! c = Some set → canonical c set)
  ∧ (∀ c p, completed_base (merge completed region).2 c p
            ↔ completed_base completed c p ∨ covers region c p)
  ∧ total_completed (merge completed region).2
    = (total_completed completed + (merge completed region).1)%Z
  ∧ (0 <= (merge completed region).1 <= size region)%Z.
Proof.
  intros Hinv Hwr. unfold merge.
  destruct (completed !! contig_name region) as [old|] eqn:Hold.
  - destruct (merge_contig_spec (contig_name region) old region)
      as (Hcan & Hcov & Htot & Hbound); [by apply Hinv|done|done|].
    destruct (merge_contig old region) as [result set] eqn:Hmerge.
    cbn [fst snd] in *. split; [|split; [|split]].
    + intros c set'. destruct (decide (c = contig_name region)) as [->|Hne].
      * rewrite lookup_insert_eq. by intros [= <-].
      * rewrite lookup_insert_ne by done. apply Hinv.
    + intros c p. unfold completed_base, covers.
      destruct (decide (c = contig_name region)) as [->|Hne].
      * rewrite lookup_insert_eq. split.
        -- intros (regions & o & [= <-] & Ho & Hp).
           destruct (proj1 (Hcov p)) as [(o' & Ho' & Hp')|Hr]; [by exists o| |].
           ++ left. by exists old, o'.
           ++ by right.
        -- intros [(regions & o & Hregions & Ho & Hp)|[_ Hp]].
           ++ rewrite Hold in Hregions. injection Hregions as <-.
              destruct (proj2 (Hcov p)) as (o' & Ho' & Hp'); [left; by exists o|].
              by exists set, o'.
           ++ destruct (proj2 (Hcov p)) as (o' & Ho' & Hp'); [by right|].
              by exists set, o'.
      * rewrite lookup_insert_ne by done. split; [by left|].
        intros [H|[Hc _]]; [done|]. by destruct Hne.
    + rewrite (total_completed_insert _ _ old) by done. lia.
    + done.
  - cbn [fst snd]. split; [|split; [|split]].
    + intros c set'. destruct (decide (c = contig_name region)) as [->|Hne].
      * rewrite lookup_insert_eq. intros [= <-].
        repeat split; repeat constructor; done.
      * rewrite lookup_insert_ne by done. apply Hinv.
    + intros c p. unfold completed_base, covers.
      destruct (decide (c = contig_name region)) as [->|Hne].
      * rewrite lookup_insert_eq, Hold. split.
        -- intros (regions & o & [= <-] & Ho & Hp).
           apply list_elem_of_singleton in Ho as ->. by right.
        -- intros [(regions & o & Hregions & _)|[_ Hp]]; [discriminate|].
           exists [region], region. split; [done|]. split; [by left|done].
      * rewrite lookup_insert_ne by done. split; [by left|].
        intros [H|[Hc _]]; [done|]. by destruct Hne.
    + rewrite total_completed_insert_new by done. simpl. lia.
    + pose proof (size_nonneg region Hwr). lia.
Qed.

Lemma log_completed_foldl regions meter :
  Forall well_formed regions →
  (∀ c set, completed_regions_ meter !! c = Some set → canonical c set) →
  num_bp_completed_ meter
  = (total_completed (completed_regions_ meter) mod 2 ^ 64)%Z →
  let meter' := foldl log_completed meter regions in
  (∀ c set, completed_regions_ meter' !! c = Some set → canonical c set)
  ∧ (∀ c p, completed_base (completed_regions_ meter') c p
            ↔ completed_base (completed_regions_ meter) c p
              ∨ covered regions c p)
  ∧ num_bp_completed_ meter'
    = (total_completed (completed_regions_ meter') mod 2 ^ 64)%Z.
Proof.
  intros Hwf. revert meter.
  induction Hwf as [|region regions Hwr _ IH]; intros meter Hinv Hnum; simpl.
  { split; [done|]. split; [|done]. intros c p. split; [by left|].
    intros [H|(r & Hr & _)]; [done|by apply elem_of_nil in Hr]. }
  destruct (merge_spec (completed_regions_ meter) region Hinv Hwr)
    as (Hinv' & Hcov & Htot & _).
  destruct (IH (log_completed meter region)) as (Hinv'' & Hcov' & Hnum').
  - unfold log_completed.
    by destruct (merge (completed_regions_ meter) region).
  - unfold log_completed.
    destruct (merge (completed_regions_ meter) region) as [n completed'].
    cbn [fst snd num_bp_completed_ completed_regions_] in *.
    rewrite Htot, Hnum. by rewrite Zplus_mod_idemp_l.
  - split; [done|]. split; [|done].
    intros c p. rewrite Hcov'.
    assert (Hstep : completed_base
                      (completed_regions_ (log_completed meter region)) c p
                    ↔ completed_base (completed_regions_ meter) c p
                      ∨ covers region c p).
    { unfold log_completed. specialize (Hcov c p).
      by destruct (merge (completed_regions_ meter) region). }
    rewrite Hstep. unfold covered. split.
    + intros [[H|H]|(r & Hr & Hc)].
      * by left.
      * right. exists region. split; [by left|done].
      * right. exists r. split; [by right|done].
    + intros [H|(r & Hr & Hc)]; [by left; left|].
      apply elem_of_cons in Hr as [->|Hr]; [by left; right|].
      right. by exists r.
Qed.

(** X23.  The progress meter counts every completed base once.  After
    [log_completed] on any sequence of well-formed regions, however they
    overlap and in whatever order they come, the completed regions of
    every contig are well formed, in order, and without a common base; a
    base is in a completed region exactly when it is in one of the regions
    logged; and [num_bp_completed_] is, in [size_t], the number of bases of
    the completed regions. *)
Theorem progress_counts_each_base_once (regions : list GenomicRegion) :
  Forall well_formed regions →
  let meter := foldl log_completed fresh regions in
  (∀ c set, completed_regions_ meter !! c = Some set → canonical c set)
  ∧ (∀ c p, completed_base (completed_regions_ meter) c p
            ↔ covered regions c p)
  ∧ num_bp_completed_ meter
    = (total_completed (completed_regions_ meter) mod 2 ^ 64)%Z.
Proof.
  intros Hwf meter. subst meter.
  destruct (log_completed_foldl regions fresh Hwf) as (Hinv & Hcov & Hnum).
  - intros c set Hset. cbn in Hset. by rewrite lookup_empty in Hset.
  - reflexivity.
  - split; [done|]. split; [|done].
    intros c p. rewrite Hcov. split; [|by right].
    intros [(set & o & Hset & _)|H]; [|done].
    cbn in Hset. by rewrite lookup_empty in Hset.
Qed.

Lemma progress_counts_each_base_once_witness :
  num_bp_completed_ (foldl log_completed fresh example_blocks) = 65%Z
  ∧ num_bp_completed_ (foldl log_completed fresh example_blocks)
    = (total_completed
         (completed_regions_ (foldl log_completed fresh example_blocks))
       mod 2 ^ 64)%Z.
Proof.
  split; [vm_compute; reflexivity|].
  apply (progress_counts_each_base_once example_blocks).
  repeat constructor; unfold well_formed; simpl; lia.
Defined.

End progress_meter.

(** ** The leftmost and the rightmost overlapped of a map *)

Section mappable_map.
Import Region MappableMap.
Local Open Scope list_scope.

Lemma overlap_range_sorted set mappable front overlapped :
  StronglySorted begins_no_later set →
  overlap_range set mappable = front :: overlapped →
  front ∈ set ∧ overlaps front mappable = true
  ∧ ∀ o, o ∈ set → overlaps o mappable = true →
         (region_begin front <= region_begin o)%N.
Proof.
  intros Hs Hover.
  assert (Hin : ∀ o, o ∈ front :: overlapped
                     ↔ o ∈ set ∧ overlaps o mappable = true).
  { intros o. rewrite <- Hover. unfold overlap_range.
    by rewrite !list_elem_of_In, filter_In. }
  destruct (proj1 (Hin front)) as [Hf Hfo]; [by left|].
  split; [done|]. split; [done|].
  assert (Hso : StronglySorted begins_no_later (front :: overlapped)).
  { rewrite <- Hover. unfold overlap_range. clear -Hs.
    induction Hs as [|x l Hs IH Hx]; simpl; [constructor|].
    destruct (overlaps x mappable); [|done].
    constructor; [done|]. apply Forall_forall. intros y Hy.
    apply list_elem_of_In, filter_In in Hy as [Hy _].
    rewrite Forall_forall in Hx. by apply Hx, list_elem_of_In. }
  intros o Ho Hoo.
  assert (Hoin : o ∈ front :: overlapped) by (by apply Hin).
  apply StronglySorted_cons in Hso as [Hso _]. rewrite Forall_forall in Hso.
  apply elem_of_cons in Hoin as [->|Hoin]; [lia|]. by apply Hso.
Qed.

Lemma overlap_range_nil set mappable :
  overlap_range set mappable = [] ↔ ∀ o, o ∈ set → overlaps o mappable = false.
Proof.
  unfold overlap_range. split.
  - intros Hnil o Ho. destruct (overlaps o mappable) eqn:Hov; [|done].
    assert (In o (List.filter (fun x => overlaps x mappable) set)) as Hin
      by (apply filter_In; by rewrite <- list_elem_of_In).
    by rewrite Hnil in Hin.
  - intros Hnone. induction set as [|x set IH]; [done|]. simpl.
    rewrite (Hnone x) by (by left). apply IH. intros o Ho. apply Hnone. by right.
Qed.

(** The [while] loop finds the first set with an overlapped element, or
    leaves the result as it was. *)
Lemma leftmost_first_spec result entries mappable :
  match leftmost_first result entries mappable with
  | (result', rest) =>
      (result' = result ∧ rest = []
       ∧ ∀ o, ¬ overlapped_in entries mappable o)
      ∨ ∃ before found front overlapped,
          entries = before ++ found :: rest
          ∧ (∀ o, ¬ overlapped_in before mappable o)
          ∧ overlap_range found.2 mappable = front :: overlapped
          ∧ result' = Some front
  end.
Proof.
  induction entries as [|first rest IH]; simpl.
  { left. split; [done|]. split; [done|].
    intros o (p & Hp & _). by apply elem_of_nil in Hp. }
  assert (Hskip : overlap_range first.2 mappable = [] →
            match leftmost_first result rest mappable with
            | (result', rest0) =>
                (result' = result ∧ rest0 = []
                 ∧ ∀ o, ¬ overlapped_in (first :: rest) mappable o)
                ∨ ∃ before found front overlapped,
                    first :: rest = before ++ found :: rest0
                    ∧ (∀ o, ¬ overlapped_in before mappable o)
                    ∧ overlap_range found.2 mappable = front :: overlapped
                    ∧ result' = Some front
            end).
  { intros Hnil. destruct (leftmost_first result rest mappable) as [r rest0].
    assert (Hfirst : ∀ o, ¬ overlapped_in [first] mappable o).
    { intros o (p & Hp & Ho & Hov). apply list_elem_of_singleton in Hp as ->.
      rewrite overlap_range_nil in Hnil. by rewrite (Hnil o Ho) in Hov. }
    destruct IH as [(-> & -> & Hnone)|(before & found & front & overlapped
                                        & -> & Hnone & Hover & ->)].
    - left. split; [done|]. split; [done|].
      intros o (p & Hp & Ho & Hov). apply elem_of_cons in Hp as [->|Hp].
      + apply (Hfirst o). exists first. split; [by left|done].
      + apply (Hnone o). by exists p.
    - right. exists (first :: before), found, front, overlapped.
      split; [done|]. split; [|done].
      intros o (p & Hp & Ho & Hov). apply elem_of_cons in Hp as [->|Hp].
      + apply (Hfirst o). exists first. split; [by left|done].
      + apply (Hnone o). by exists p. }
  case_bool_decide as Hempty; cbn [negb].
  - apply Hskip. by rewrite Hempty.
  - destruct (overlap_range first.2 mappable) as [|front overlapped] eqn:Hover;
      [by apply Hskip|].
    right. exists [], first, front, overlapped. split; [done|].
    split; [|done]. intros o (p & Hp & _). by apply elem_of_nil in Hp.
Qed.

Lemma leftmost_foldl mappable rest pointed :
  ∃ pointed',
    foldl (leftmost_step mappable) (Some pointed) rest = Some pointed'
    ∧ (region_begin pointed' <= region_begin pointed)%N
    ∧ (pointed' = pointed
       ∨ ∃ p overlapped, p ∈ rest
                         ∧ overlap_range p.2 mappable = pointed' :: overlapped)
    ∧ ∀ p front overlapped,
        p ∈ rest → overlap_range p.2 mappable = front :: overlapped →
        (region_begin pointed' <= region_begin front)%N.
Proof.
  revert pointed. induction rest as [|p rest IH]; intros pointed; simpl.
  { exists pointed. split; [done|]. split; [lia|]. split; [by left|].
    intros p front overlapped Hp. by apply elem_of_nil in Hp. }
  unfold leftmost_step at 2.
  destruct (overlap_range p.2 mappable) as [|front overlapped] eqn:Hover.
  - destruct (IH pointed) as (pointed' & Hfold & Hle & Horigin & Hmin).
    exists pointed'. split; [done|]. split; [done|]. split.
    + destruct Horigin as [->|(p' & overlapped' & Hp' & Hover')]; [by left|].
      right. exists p', overlapped'. split; [by right|done].
    + intros p' front' overlapped' Hp' Hover'.
      apply elem_of_cons in Hp' as [->|Hp']; [congruence|]. by eapply Hmin.
  - unfold begins_before.
    destruct (N.ltb_spec (region_begin front) (region_begin pointed)) as [Hlt|Hge].
    + destruct (IH front) as (pointed' & Hfold & Hle & Horigin & Hmin).
      exists pointed'. split; [done|]. split; [lia|]. split.
      * right. destruct Horigin as [->|(p' & overlapped' & Hp' & Hover')].
        -- exists p, overlapped. split; [by left|done].
        -- exists p', overlapped'. split; [by right|done].
      * intros p' front' overlapped' Hp' Hover'.
        apply elem_of_cons in Hp' as [->|Hp']; [|by eapply Hmin].
        rewrite Hover in Hover'. injection Hover' as <- <-. done.
    + destruct (IH pointed) as (pointed' & Hfold & Hle & Horigin & Hmin).
      exists pointed'. split; [done|]. split; [done|]. split.
      * destruct Horigin as [->|(p' & overlapped' & Hp' & Hover')]; [by left|].
        right. exists p', overlapped'. split; [by right|done].
      * intros p' front' overlapped' Hp' Hover'.
        apply elem_of_cons in Hp' as [->|Hp']; [|by eapply Hmin].
        rewrite Hover in Hover'. injection Hover' as <- <-. lia.
Qed.

(** X24.  [leftmost_overlapped] throws on an empty map and on no other.
    When some set of the map, each in order of the begins, holds an
    element that overlaps the query, it returns an overlapped element that
    begins no later than any overlapped element of any set.  When no set
    holds one, it does not return a past-the-end iterator but the
    beginning of the first set in iteration order: an element that does
    not overlap the query, if that set is not empty. *)
Theorem leftmost_overlapped_is_leftmost (mappables : MappableMap)
    (mappable : GenomicRegion) :
  Forall (fun p => StronglySorted begins_no_later p.2) mappables →
  match leftmost_overlapped mappables mappable with
  | Throw _ => mappables = []
  | Ok result =>
      (∀ o, ¬ overlapped_in mappables mappable o)
      ∧ (∃ first, head mappables = Some first ∧ result = head first.2)
      ∨ ∃ pointed,
          result = Some pointed
          ∧ overlapped_in mappables mappable pointed
          ∧ ∀ o, overlapped_in mappables mappable o →
                 (region_begin pointed <= region_begin o)%N
  end.
Proof.
  intros Hsorted. unfold leftmost_overlapped.
  destruct mappables as [|first entries]; [done|].
  pose proof (leftmost_first_spec (head first.2) (first :: entries) mappable)
    as Hfirst.
  destruct (leftmost_first (head first.2) (first :: entries) mappable)
    as [result rest].
  destruct Hfirst as [(-> & -> & Hnone)
                     |(before & found & front & overlapped
                       & Hsplit & Hnone & Hover & ->)].
  { left. split; [done|]. by exists first. }
  right.
  destruct (leftmost_foldl mappable rest front)
    as (pointed & Hfold & Hle & Horigin & Hmin).
  exists pointed. split; [done|].
  rewrite Forall_forall in Hsorted.
  assert (Hfound : found ∈ first :: entries).
  { rewrite Hsplit. apply elem_of_app. right. by left. }
  assert (Hrest : ∀ p, p ∈ rest → p ∈ first :: entries).
  { intros p Hp. rewrite Hsplit. apply elem_of_app. right. by right. }
  split.
  - destruct Horigin as [->|(p & overlapped' & Hp & Hover')].
    + destruct (overlap_range_sorted found.2 mappable front overlapped)
        as (Hin & Hov & _); [by apply Hsorted|done|].
      by exists found.
    + destruct (overlap_range_sorted p.2 mappable pointed overlapped')
        as (Hin & Hov & _); [by apply Hsorted, Hrest|done|].
      exists p. split; [by apply Hrest|done].
  - intros o (p & Hp & Ho & Hov).
    rewrite Hsplit in Hp.
    apply elem_of_app in Hp as [Hp|Hp].
    { exfalso. apply (Hnone o). by exists p. }
    assert (Hp' : p ∈ first :: entries).
    { rewrite Hsplit. apply elem_of_app. by right. }
    destruct (overlap_range p.2 mappable) as [|front' overlapped'] eqn:Hover'.
    { rewrite overlap_range_nil in Hover'. by rewrite (Hover' o Ho) in Hov. }
    destruct (overlap_range_sorted p.2 mappable front' overlapped')
      as (_ & _ & Hleast); [by apply Hsorted|done|].
    specialize (Hleast o Ho Hov).
    apply elem_of_cons in Hp as [->|Hp].
    + rewrite Hover in Hover'. injection Hover' as <- <-. lia.
    + specialize (Hmin p front' overlapped' Hp Hover'). lia.
Qed.

Lemma leftmost_overlapped_is_leftmost_witness :
  leftmost_overlapped two_read_sets (mkRegion "chr1" 12 35)
  = Ok (Some (mkRegion "chr1" 5 50))
  ∧ leftmost_overlapped two_read_sets (mkRegion "chr1" 60 70)
    = Ok (Some (mkRegion "chr1" 0 10))
  ∧ match leftmost_overlapped two_read_sets (mkRegion "chr1" 60 70) with
    | Throw _ => two_read_sets = []
    | Ok result =>
        (∀ o, ¬ overlapped_in two_read_sets (mkRegion "chr1" 60 70) o)
        ∧ (∃ first, head two_read_sets = Some first ∧ result = head first.2)
        ∨ ∃ pointed,
            result = Some pointed
            ∧ overlapped_in two_read_sets (mkRegion "chr1" 60 70) pointed
            ∧ ∀ o, overlapped_in two_read_sets (mkRegion "chr1" 60 70) o →
                   (region_begin pointed <= region_begin o)%N
    end.
Proof.
  split; [vm_compute; reflexivity|]. split; [vm_compute; reflexivity|].
  apply (leftmost_overlapped_is_leftmost two_read_sets (mkRegion "chr1" 60 70)).
  repeat constructor; unfold begins_no_later; simpl; lia.
Defined.

Lemma rightmost_first_spec result entries mappable :
  match rightmost_first result entries mappable with
  | (result', rest) =>
      (result' = result ∧ rest = []
       ∧ ∀ o, ¬ overlapped_in entries mappable o)
      ∨ ∃ before found front overlapped,
          entries = before ++ found :: rest
          ∧ (∀ o, ¬ overlapped_in before mappable o)
          ∧ overlap_range found.2 mappable = front :: overlapped
          ∧ result' = Some (List.last overlapped front)
  end.
Proof.
  induction entries as [|first rest IH]; simpl.
  { left. split; [done|]. split; [done|].
    intros o (p & Hp & _). by apply elem_of_nil in Hp. }
  assert (Hskip : overlap_range first.2 mappable = [] →
            match rightmost_first result rest mappable with
            | (result', rest0) =>
                (result' = result ∧ rest0 = []
                 ∧ ∀ o, ¬ overlapped_in (first :: rest) mappable o)
                ∨ ∃ before found front overlapped,
                    first :: rest = before ++ found :: rest0
                    ∧ (∀ o, ¬ overlapped_in before mappable o)
                    ∧ overlap_range found.2 mappable = front :: overlapped
                    ∧ result' = Some (List.last overlapped front)
            end).
  { intros Hnil. destruct (rightmost_first result rest mappable) as [r rest0].
    assert (Hfirst : ∀ o, ¬ overlapped_in [first] mappable o).
    { intros o (p & Hp & Ho & Hov). apply list_elem_of_singleton in Hp as ->.
      rewrite overlap_range_nil in Hnil. by rewrite (Hnil o Ho) in Hov. }
    destruct IH as [(-> & -> & Hnone)|(before & found & front & overlapped
                                        & -> & Hnone & Hover & ->)].
    - left. split; [done|]. split; [done|].
      intros o (p & Hp & Ho & Hov). apply elem_of_cons in Hp as [->|Hp].
      + apply (Hfirst o). exists first. split; [by left|done].
      + apply (Hnone o). by exists p.
    - right. exists (first :: before), found, front, overlapped.
      split; [done|]. split; [|done].
      intros o (p & Hp & Ho & Hov). apply elem_of_cons in Hp as [->|Hp].
      + apply (Hfirst o). exists first. split; [by left|done].
      + apply (Hnone o). by exists p. }
  case_bool_decide as Hempty; cbn [negb].
  - apply Hskip. by rewrite Hempty.
  - destruct (overlap_range first.2 mappable) as [|front overlapped] eqn:Hover;
      [by apply Hskip|].
    right. exists [], first, front, overlapped. split; [done|].
    split; [|done]. intros o (p & Hp & _). by apply elem_of_nil in Hp.
Qed.

Lemma rightmost_foldl mappable rest pointed :
  ∃ pointed',
    foldl (rightmost_step mappable) (Some pointed) rest = Some pointed'
    ∧ (region_end pointed <= region_end pointed')%N
    ∧ (pointed' = pointed ∨ last_overlapped_in rest mappable pointed')
    ∧ ∀ o, last_overlapped_in rest mappable o →
           (region_end o <= region_end pointed')%N.
Proof.
  revert pointed. induction rest as [|p rest IH]; intros pointed; simpl.
  { exists pointed. split; [done|]. split; [lia|]. split; [by left|].
    intros o (p & _ & _ & Hp & _). by apply elem_of_nil in Hp. }
  assert (Hcons : ∀ o, last_overlapped_in (p :: rest) mappable o →
            (∃ front overlapped, overlap_range p.2 mappable = front :: overlapped
                                 ∧ o = List.last overlapped front)
            ∨ last_overlapped_in rest mappable o).
  { intros o (p' & front & overlapped & Hp' & Hover & ->).
    apply elem_of_cons in Hp' as [->|Hp'].
    - left. by exists front, overlapped.
    - right. by exists p', front, overlapped. }
  assert (Hweaken : ∀ o, last_overlapped_in rest mappable o →
            last_overlapped_in (p :: rest) mappable o).
  { intros o (p' & front & overlapped & Hp' & Hover & ->).
    exists p', front, overlapped. split; [by right|done]. }
  unfold rightmost_step at 2.
  destruct (overlap_range p.2 mappable) as [|front overlapped] eqn:Hover.
  - destruct (IH pointed) as (pointed' & Hfold & Hle & Horigin & Hmax).
    exists pointed'. split; [done|]. split; [done|]. split.
    + destruct Horigin as [->|Horigin]; [by left|right; by apply Hweaken].
    + intros o Ho. apply Hcons in Ho as [(f & ov & Hf & _)|Ho];
        [discriminate Hf|by apply Hmax].
  - unfold ends_before.
    destruct (N.ltb_spec (region_end pointed)
                (region_end (List.last overlapped front))) as [Hlt|Hge].
    + destruct (IH (List.last overlapped front))
        as (pointed' & Hfold & Hle & Horigin & Hmax).
      exists pointed'. split; [done|]. split; [lia|]. split.
      * right. destruct Horigin as [->|Horigin]; [|by apply Hweaken].
        exists p, front, overlapped. split; [by left|done].
      * intros o Ho. apply Hcons in Ho as [(f & ov & Hf & ->)|Ho];
          [|by apply Hmax].
        by injection Hf as <- <-.
    + destruct (IH pointed) as (pointed' & Hfold & Hle & Horigin & Hmax).
      exists pointed'. split; [done|]. split; [done|]. split.
      * destruct Horigin as [->|Horigin]; [by left|right; by apply Hweaken].
      * intros o Ho. apply Hcons in Ho as [(f & ov & Hf & ->)|Ho];
          [|by apply Hmax].
        injection Hf as <- <-. lia.
Qed.

(** X25.  [rightmost_overlapped] throws on an empty map and on no other.
    When no set of the map holds an element that overlaps the query, it
    returns the past-the-end iterator of the first set.  Otherwise it
    returns the last overlapped element of one of the sets, and the last
    overlapped element of no set ends behind it. *)
Theorem rightmost_overlapped_of_last_overlapped (mappables : MappableMap)
    (mappable : GenomicRegion) :
  match rightmost_overlapped mappables mappable with
  | Throw _ => mappables = []
  | Ok result =>
      mappables ≠ []
      ∧ ((∀ o, ¬ overlapped_in mappables mappable o) ∧ result = None
         ∨ ∃ pointed,
             result = Some pointed
             ∧ last_overlapped_in mappables mappable pointed
             ∧ ∀ o, last_overlapped_in mappables mappable o →
                    (region_end o <= region_end pointed)%N)
  end.
Proof.
  unfold rightmost_overlapped.
  destruct mappables as [|first entries]; [done|].
  pose proof (rightmost_first_spec None (first :: entries) mappable) as Hfirst.
  destruct (rightmost_first None (first :: entries) mappable) as [result rest].
  split; [done|].
  destruct Hfirst as [(-> & -> & Hnone)
                     |(before & found & front & overlapped
                       & Hsplit & Hnone & Hover & ->)].
  { left. by split. }
  right.
  destruct (rightmost_foldl mappable rest (List.last overlapped front))
    as (pointed & Hfold & Hle & Horigin & Hmax).
  exists pointed. split; [done|]. split.
  - destruct Horigin as [->|(p & f & ov & Hp & Hov & ->)].
    + exists found, front, overlapped. split; [|done].
      rewrite Hsplit. apply elem_of_app. right. by left.
    + exists p, f, ov. split; [|done].
      rewrite Hsplit. apply elem_of_app. right. by right.
  - intros o (p & f & ov & Hp & Hov & ->).
    rewrite Hsplit in Hp. apply elem_of_app in Hp as [Hp|Hp].
    { exfalso. apply (Hnone f). exists p. split; [done|].
      assert (f ∈ overlap_range p.2 mappable) as Hf by (rewrite Hov; by left).
      unfold overlap_range in Hf.
      by apply list_elem_of_In, filter_In in Hf as [?%list_elem_of_In ?]. }
    apply elem_of_cons in Hp as [->|Hp].
    + rewrite Hover in Hov. injection Hov as <- <-. lia.
    + apply Hmax. by exists p, f, ov.
Qed.

End mappable_map.

(** ** The coverage in the region of each read *)

Section read_coverage.
Import Region ReadUtils ReadStats ReadCoverage.
Local Open Scope list_scope.

Section extreme.
Variable better : N → N → bool.
Variable rel : N → N → Prop.
Hypothesis rel_refl : ∀ x, rel x x.
Hypothesis rel_trans : ∀ x y z, rel x y → rel y z → rel x z.
Hypothesis better_true : ∀ x y, better x y = true → rel x y.
Hypothesis better_false : ∀ x y, better x y = false → rel y x.

Lemma extreme_loop_spec v extreme current steps :
  (extreme < current)%nat → (current + steps ≤ length v)%nat →
  let i := extreme_loop better v extreme current steps in
  (extreme ≤ i < current + steps)%nat
  ∧ rel (default 0%N (v !! i)) (default 0%N (v !! extreme))
  ∧ ∀ j, (current ≤ j < current + steps)%nat →
         rel (default 0%N (v !! i)) (default 0%N (v !! j)).
Proof.
  revert extreme current.
  induction steps as [|steps IH]; intros extreme current Hlt Hlen; simpl.
  { split; [lia|]. split; [done|]. intros j Hj. lia. }
  destruct (better (default 0%N (v !! current)) (default 0%N (v !! extreme)))
    eqn:Hbetter.
  - destruct (IH current (S current)) as (Hi & Hle & Hall); [lia|lia|].
    split; [lia|]. split; [by eauto|].
    intros j Hj. destruct (decide (j = current)) as [->|Hne]; [done|].
    apply Hall. lia.
  - destruct (IH extreme (S current)) as (Hi & Hle & Hall); [lia|lia|].
    split; [lia|]. split; [done|].
    intros j Hj. destruct (decide (j = current)) as [->|Hne]; [by eauto|].
    apply Hall. lia.
Qed.

(** [std::min_element] and [std::max_element] on a range of the
    vector. *)
Lemma extreme_element_selects : selects rel (extreme_element better).
Proof.
  intros v first last Hle Hlen. unfold extreme_element.
  destruct (Nat.eqb_spec first last) as [->|Hne].
  { split; [done|lia]. }
  split; [done|]. intros Hlt.
  destruct (extreme_loop_spec v first (S first) (last - S first))
    as (Hi & Hrel & Hall); [lia|lia|].
  split; [lia|]. intros j Hj.
  destruct (decide (j = first)) as [->|Hne']; [done|]. apply Hall. lia.
Qed.

End extreme.

Lemma minus_SizeType_le a b :
  (b <= a)%N → (a < SizeType_modulus)%N → minus_SizeType a b = (a - b)%N.
Proof.
  intros Hle Hlt. unfold minus_SizeType.
  replace (a + SizeType_modulus - b)%N with (a - b + 1 * SizeType_modulus)%N
    by lia.
  rewrite N.Div0.mod_add. apply N.mod_small. lia.
Qed.

Lemma minus_SizeType_gt a b :
  (a < b)%N → (b < SizeType_modulus)%N →
  minus_SizeType a b = (a + SizeType_modulus - b)%N.
Proof. intros Hlt Hb. unfold minus_SizeType. apply N.mod_small. lia. Qed.

Lemma coverage_at_index position_coverages first_position (i : nat) c :
  position_coverages !! i = Some c →
  coverage_at position_coverages first_position (first_position + N.of_nat i)
  = Some c.
Proof.
  intros Hi. unfold coverage_at.
  destruct (N.ltb_spec (first_position + N.of_nat i) first_position); [lia|].
  by replace (N.to_nat (first_position + N.of_nat i - first_position)) with i
    by lia.
Qed.

Lemma min_element_selects : selects N.le min_element.
Proof.
  apply extreme_element_selects.
  - intros x. lia.
  - intros x y z. lia.
  - intros x y ?%N.ltb_lt. lia.
  - intros x y ?%N.ltb_ge. lia.
Qed.

Lemma max_element_selects : selects N.ge max_element.
Proof.
  apply extreme_element_selects.
  - intros x. lia.
  - intros x y z. lia.
  - intros x y ?%N.ltb_lt. lia.
  - intros x y ?%N.ltb_ge. lia.
Qed.

Section windows.
Variable f : list N → nat → nat → nat.
Variable rel : N → N → Prop.
Hypothesis f_selects : selects rel f.

(** The coverage that is looked up for one read that begins before the
    region ends. *)
Lemma coverage_in_read_region_spec position_coverages region read :
  covers_region position_coverages region →
  in_SizeType (read_region read) →
  (region_begin (read_region read) < region_end region)%N →
  ∃ c,
    coverage_in_read_region f position_coverages region
      read = Some c
    ∧ extreme_coverage rel position_coverages (region_begin region)
        (looked_up region read) c.
Proof.
  intros ((Hwr & Hrm) & Hne & Hlen) (Hwread & Hreadm) Hbegin.
  unfold coverage_in_read_region, read_range, looked_up, extreme_coverage.
  set (r := read_region read) in *.
  unfold well_formed in *.
  rewrite (minus_SizeType_le (region_end region) (region_begin region))
    by lia.
  set (num := (region_end region - region_begin region)%N).
  set (fp := region_begin region) in *.
  assert (Hindex : ∀ i : nat, (i < N.to_nat num)%nat →
            ∃ c, position_coverages !! i = Some c).
  { intros i Hi. apply lookup_lt_is_Some. lia. }
  assert (Hwindow : ∀ first last : N,
            (first <= last <= num)%N → (first < num)%N →
            ∃ c,
              ((if (last <? first)%N then None
                else position_coverages
                       !! f position_coverages
                            (N.to_nat first) (N.to_nat last)) = Some c)
              ∧ (∃ p, (if (first <? last)%N then (fp + first <= p < fp + last)%N
                       else p = (fp + first)%N)
                      ∧ coverage_at position_coverages fp p = Some c)
              ∧ ∀ p, (if (first <? last)%N then (fp + first <= p < fp + last)%N
                      else p = (fp + first)%N) →
                     ∃ c', coverage_at position_coverages fp p = Some c'
                           ∧ rel c c').
  { intros first last Hfl Hfn.
    destruct (N.ltb_spec last first) as [?|_]; [lia|].
    destruct (f_selects position_coverages (N.to_nat first) (N.to_nat last))
      as [Hsame Hrange]; [lia|lia|].
    set (i := f position_coverages (N.to_nat first) (N.to_nat last)) in *.
    destruct (N.ltb_spec first last) as [Hlt|Hge].
    - destruct Hrange as [Hi Hall]; [lia|].
      destruct (Hindex i) as [c Hc]; [lia|].
      exists c. split; [done|]. split.
      + exists (fp + N.of_nat i)%N. split; [lia|]. by apply coverage_at_index.
      + intros p Hp.
        destruct (Hindex (N.to_nat (p - fp))) as [c' Hc']; [lia|].
        exists c'. split.
        * replace p with (fp + N.of_nat (N.to_nat (p - fp)))%N at 1 by lia.
          by apply coverage_at_index.
        * specialize (Hall (N.to_nat (p - fp))). rewrite Hc, Hc' in Hall.
          apply Hall. lia.
    - assert (Hi : i = N.to_nat first) by (apply Hsame; lia).
      destruct (Hindex i) as [c Hc]; [lia|].
      exists c. split; [done|].
      assert (Hat : coverage_at position_coverages fp (fp + first) = Some c).
      { replace first with (N.of_nat i) by lia. by apply coverage_at_index. }
      split; [by exists (fp + first)%N|].
      intros p ->. exists c. split; [done|].
      destruct (f_selects position_coverages i (S i)) as [_ Hone]; [lia|lia|].
      destruct Hone as [Hat_i Hrel]; [lia|].
      replace (f position_coverages i (S i)) with i in Hrel by lia.
      specialize (Hrel i). rewrite Hc in Hrel. apply Hrel. lia. }
  destruct (N.ltb_spec (region_end r) fp) as [Hbefore|Hafter].
  - (* the read ends before the region begins *)
    rewrite (minus_SizeType_gt (region_end r) fp) by lia.
    destruct (N.leb_spec (region_begin r) fp) as [_|?]; [|lia].
    rewrite N.min_r by lia.
    destruct (Hwindow 0%N num) as (c & Hc & Hex & Hall); [lia|lia|].
    destruct (N.ltb_spec 0 num) as [_|?]; [|lia].
    exists c. split; [done|]. unfold inside. fold fp. split.
    + destruct Hex as (p & Hp & Hat). exists p. split; [lia|done].
    + intros p Hp. apply Hall. lia.
  - rewrite (minus_SizeType_le (region_end r) fp) by lia.
    set (first := if (region_begin r <=? fp)%N then 0%N
                  else minus_SizeType (region_begin r) fp).
    assert (Hfirst : (fp + first = N.max (region_begin r) fp)%N).
    { subst first. destruct (N.leb_spec (region_begin r) fp); [lia|].
      rewrite minus_SizeType_le by lia. lia. }
    set (last := N.min (region_end r - fp) num).
    assert (Hlast : (fp + last = N.min (region_end r) (region_end region))%N)
      by (subst last num; lia).
    destruct (Hwindow first last) as (c & Hc & Hex & Hall); [lia|lia|].
    exists c. split; [done|].
    assert (Hsame : (first <? last)%N
                    = (N.max (region_begin r) fp
                       <? N.min (region_end r) (region_end region))%N).
    { destruct (N.ltb_spec first last),
        (N.ltb_spec (N.max (region_begin r) fp)
           (N.min (region_end r) (region_end region))); try done; lia. }
    rewrite Hsame in Hex, Hall.
    destruct (N.max (region_begin r) fp
              <? N.min (region_end r) (region_end region))%N.
    + unfold inside. fold fp. split.
      * destruct Hex as (p & Hp & Hat). exists p. split; [lia|done].
      * intros p Hp. apply Hall. lia.
    + rewrite Hfirst in Hex, Hall. done.
Qed.

(** A read that begins where the region ends, or behind it. *)
Lemma coverage_in_read_region_undefined position_coverages region read :
  covers_region position_coverages region →
  in_SizeType (read_region read) →
  (region_end region <= region_begin (read_region read))%N →
  coverage_in_read_region f position_coverages region
    read = None.
Proof.
  intros ((Hwr & Hrm) & Hne & Hlen) (Hwread & Hreadm) Hbehind.
  unfold coverage_in_read_region, read_range.
  unfold well_formed in *.
  rewrite (minus_SizeType_le (region_end region) (region_begin region)) by lia.
  destruct (N.leb_spec (region_begin (read_region read)) (region_begin region));
    [lia|].
  rewrite !minus_SizeType_le by lia.
  rewrite N.min_r by lia.
  destruct (N.ltb_spec (region_end region - region_begin region)
              (region_begin (read_region read) - region_begin region));
    [done|].
  replace (region_begin (read_region read) - region_begin region)%N
    with (region_end region - region_begin region)%N by lia.
  destruct (f_selects position_coverages
              (N.to_nat (region_end region - region_begin region))
              (N.to_nat (region_end region - region_begin region)))
    as [Hsame _]; [lia|lia|].
  rewrite Hsame by done. apply lookup_ge_None. lia.
Qed.

Lemma coverages_foldl_none reads position_coverages region :
  foldl (fun result read =>
           result ← result;
           coverage ← coverage_in_read_region f
                        position_coverages region read;
           Some (emplace_read read coverage result))
        None reads = None.
Proof. by induction reads. Qed.

Lemma elem_of_emplace_read read coverage result x c :
  (x, c) ∈ emplace_read read coverage result →
  (x, c) ∈ result ∨ (x = read ∧ c = coverage).
Proof.
  unfold emplace_read. case_bool_decide as Hkey; [by left|].
  intros [Hx|Hx%list_elem_of_singleton]%elem_of_app; [by left|right].
  by injection Hx.
Qed.

Lemma emplace_read_keys read coverage result x :
  x ∈ (emplace_read read coverage result).*1 ↔ x ∈ result.*1 ∨ x = read.
Proof.
  unfold emplace_read. case_bool_decide as Hin.
  - split; [by left|]. by intros [?| ->].
  - rewrite fmap_app, elem_of_app. simpl. by rewrite list_elem_of_singleton.
Qed.

Lemma coverages_in_read_regions_spec reads position_coverages region result0 :
  covers_region position_coverages region →
  Forall (fun read => in_SizeType (read_region read)) reads →
  Forall (fun read => (region_begin (read_region read) < region_end region)%N)
         reads →
  (∀ read c, (read, c) ∈ result0 →
             extreme_coverage rel position_coverages (region_begin region)
               (looked_up region read) c) →
  ∃ result,
    foldl (fun result read =>
             result ← result;
             coverage ← coverage_in_read_region f
                          position_coverages region read;
             Some (emplace_read read coverage result))
          (Some result0) reads = Some result
    ∧ (∀ read, read ∈ result.*1 ↔ read ∈ result0.*1 ∨ read ∈ reads)
    ∧ ∀ read c, (read, c) ∈ result →
                extreme_coverage rel position_coverages (region_begin region)
                  (looked_up region read) c.
Proof.
  intros Hcov Hsize Hbegin. revert result0.
  induction reads as [|read reads IH]; intros result0 Hresult0; simpl.
  { exists result0. split; [done|]. split; [|done].
    intros read. rewrite elem_of_nil. tauto. }
  apply Forall_cons in Hsize as [Hsr Hsize].
  apply Forall_cons in Hbegin as [Hbr Hbegin].
  destruct (coverage_in_read_region_spec position_coverages region read)
    as (c & Hc & Hext); [done..|].
  rewrite Hc. simpl.
  destruct (IH Hsize Hbegin (emplace_read read c result0))
    as (result & Hfold & Hkeys & Hall).
  { intros x cx Hx. apply elem_of_emplace_read in Hx as [Hx|[-> ->]];
      [by apply Hresult0|done]. }
  exists result. split; [done|]. split; [|done].
  intros x. rewrite Hkeys, emplace_read_keys, elem_of_cons. tauto.
Qed.

Lemma coverages_in_read_regions_undefined reads position_coverages region result0 :
  covers_region position_coverages region →
  Forall (fun read => in_SizeType (read_region read)) reads →
  Exists (fun read => (region_end region <= region_begin (read_region read))%N)
         reads →
  foldl (fun result read =>
           result ← result;
           coverage ← coverage_in_read_region f
                        position_coverages region read;
           Some (emplace_read read coverage result))
        result0 reads = None.
Proof.
  intros Hcov Hsize Hex. revert result0.
  induction Hex as [read reads Hbehind|read reads Hex IH]; intros result0;
    apply Forall_cons in Hsize as [Hsr Hsize]; simpl.
  - rewrite (coverage_in_read_region_undefined _ _ _ Hcov Hsr Hbehind).
    destruct result0; simpl; apply coverages_foldl_none.
  - by apply IH.
Qed.

(** The map that [detail::coverages_in_read_regions] returns, for the
    reads that begin before the region ends. *)
Lemma coverages_in_read_regions_defined reads position_coverages region :
  covers_region position_coverages region →
  Forall (fun read => in_SizeType (read_region read)) reads →
  Forall (fun read => (region_begin (read_region read) < region_end region)%N)
         reads →
  ∃ result,
    coverages_in_read_regions f reads position_coverages region = Some result
    ∧ (∀ read, read ∈ reads ↔ read ∈ result.*1)
    ∧ ∀ read c, (read, c) ∈ result →
        extreme_coverage rel position_coverages (region_begin region)
          (looked_up region read) c.
Proof.
  intros Hcov Hsize Hbegin.
  destruct (coverages_in_read_regions_spec reads position_coverages region []
              Hcov Hsize Hbegin) as (result & Hresult & Hkeys & Hall).
  { intros read c H. by apply elem_of_nil in H. }
  exists result. split; [done|]. split; [|done].
  intros read. rewrite Hkeys. simpl. rewrite elem_of_nil. tauto.
Qed.

End windows.

(** X26.  [detail::coverages_in_read_regions], called with a function
    [f] that returns an iterator to a smallest (largest) element of the
    range it is given and [last] on an empty range, as [std::min_element]
    and [std::max_element] do; on a region that is not empty with one
    coverage for each of its positions, and on reads with positions in
    [SizeType].  When every read begins before the region ends, it
    returns a coverage for every read: the smallest (largest) coverage of
    the positions of the read that are in the region; for a read that
    ends before the region begins, by the wrap-around of the unsigned
    subtraction, that of all positions of the region; and for a read
    without a position in the region otherwise, the coverage of the
    position where it begins, or of the first one of the region.  When
    some read begins where the region ends or behind it, the behaviour is
    undefined. *)
Theorem coverages_in_read_regions_windows (f : list N → nat → nat → nat)
    (rel : N → N → Prop) (reads : list AlignedRead)
    (position_coverages : list N) (region : GenomicRegion) :
  selects rel f →
  covers_region position_coverages region →
  Forall (fun read => in_SizeType (read_region read)) reads →
  (Forall (fun read => (region_begin (read_region read) < region_end region)%N)
          reads →
   ∃ result,
     coverages_in_read_regions f reads position_coverages region = Some result
     ∧ (∀ read, read ∈ reads ↔ read ∈ result.*1)
     ∧ ∀ read c, (read, c) ∈ result →
         extreme_coverage rel position_coverages (region_begin region)
           (looked_up region read) c)
  ∧ (Exists (fun read => (region_end region <= region_begin (read_region read))%N)
            reads →
     coverages_in_read_regions f reads position_coverages region = None).
Proof.
  intros Hf Hcov Hsize. split.
  - by apply coverages_in_read_regions_defined.
  - intros Hex. by apply (coverages_in_read_regions_undefined f rel Hf).
Qed.

Lemma coverages_in_read_regions_windows_witness :
  coverages_in_read_regions min_element example_reads example_coverage
    (mkRegion "chr1" 100 107)
  = Some [({| read_region := mkRegion "chr1" 101 104;
              is_marked_reverse_mapped := false |}, 2%N);
          ({| read_region := mkRegion "chr1" 90 95;
              is_marked_reverse_mapped := true |}, 1%N)]
  ∧ ∃ highest,
      coverages_in_read_regions max_element example_reads example_coverage
        (mkRegion "chr1" 100 107) = Some highest
      ∧ (∀ read, read ∈ example_reads ↔ read ∈ highest.*1)
      ∧ (∀ read c, (read, c) ∈ highest →
           extreme_coverage N.ge example_coverage 100
             (looked_up (mkRegion "chr1" 100 107) read) c).
Proof.
  split; [vm_compute; reflexivity|].
  apply (coverages_in_read_regions_windows max_element N.ge example_reads
           example_coverage (mkRegion "chr1" 100 107) max_element_selects).
  - unfold covers_region, in_SizeType, well_formed. simpl.
    repeat split; try reflexivity; by vm_compute.
  - repeat constructor; unfold well_formed; simpl; by vm_compute.
  - repeat constructor; simpl; lia.
Defined.

End read_coverage.

(** ** Blocks of calls *)

Section call_blocks.
Import Region CallBlocks.
Local Open Scope list_scope.
Context {VcfRecord : Type}.
Variable get_phase_region : VcfRecord → GenomicRegion.

Lemma chained_calls_snoc calls a b :
  chained get_phase_region (calls ++ [a]) →
  overlaps (get_phase_region a) (get_phase_region b) = true →
  chained get_phase_region ((calls ++ [a]) ++ [b]).
Proof.
  intros Hchain Hov. induction calls as [|x calls IH]; simpl in *; [done|].
  destruct calls as [|y calls]; simpl in *.
  - destruct Hchain as [Hxa _]. done.
  - destruct Hchain as [Hxy Hrest]. split; [done|]. by apply IH.
Qed.

Lemma read_next_block_loop_spec block calls :
  (∀ p, p ∈ block → p.2 = get_phase_region p.1) →
  chained get_phase_region (fst <$> block) →
  match read_next_block_loop get_phase_region block calls with
  | (block', rest) =>
      ∃ taken,
        fst <$> block' = (fst <$> block) ++ taken
        ∧ calls = taken ++ rest
        ∧ chained get_phase_region (fst <$> block')
        ∧ (block = [] → calls ≠ [] → taken ≠ [])
        ∧ ∀ a b, last (fst <$> block') = Some a → head rest = Some b →
                 overlaps (get_phase_region a) (get_phase_region b) = false
  end.
Proof.
  revert block. induction calls as [|call rest IH]; intros block Hphase Hchain.
  { simpl. exists []. rewrite app_nil_r. repeat split; try done. }
  simpl.
  destruct (last block) as [back|] eqn:Hlast.
  - assert (Hblock : block ≠ []) by (by intros ->).
    rewrite bool_decide_eq_false_2 by done. cbn [negb andb].
    apply last_Some in Hlast as [front ->].
    assert (Hback : back.2 = get_phase_region back.1).
    { apply Hphase. apply elem_of_app. right. by left. }
    destruct (overlaps back.2 (get_phase_region call)) eqn:Hov; cbn [negb].
    + specialize (IH ((front ++ [back]) ++ [(call, get_phase_region call)])).
      destruct (read_next_block_loop get_phase_region _ rest)
        as [block' rest'].
      destruct IH as (taken & Hblock' & Hcalls & Hchain' & _ & Hnext).
      * intros p [Hp|Hp%list_elem_of_singleton]%elem_of_app;
          [by apply Hphase|by subst p].
      * rewrite !fmap_app in *. simpl in *. apply chained_calls_snoc; [done|].
        by rewrite <- Hback.
      * exists (call :: taken). split; [|split; [|split; [|split]]].
        -- rewrite Hblock'. rewrite !fmap_app. simpl. by rewrite <- !app_assoc.
        -- by rewrite Hcalls.
        -- done.
        -- done.
        -- done.
    + exists []. rewrite app_nil_r. split; [done|]. split; [done|].
      split; [done|]. split; [intros [_ ?]%app_eq_nil; discriminate|].
      intros a b Ha [= <-]. rewrite fmap_app in Ha.
      change (fst <$> [back]) with [back.1] in Ha. rewrite last_snoc in Ha.
      injection Ha as <-. by rewrite <- Hback.
  - apply last_None in Hlast as ->.
    rewrite bool_decide_eq_true_2 by done. cbn [negb andb].
    specialize (IH ([] ++ [(call, get_phase_region call)])).
    destruct (read_next_block_loop get_phase_region _ rest) as [block' rest'].
    destruct IH as (taken & Hblock' & Hcalls & Hchain' & _ & Hnext).
    + intros p Hp%list_elem_of_singleton. by subst p.
    + done.
    + exists (call :: taken). split; [done|]. split; [by rewrite Hcalls|].
      split; [done|]. split; [done|]. done.
Qed.

(** X27.  [read_next_block] takes the longest run of calls, from the
    first one on, in which each call overlaps the call in front of it by
    its phase region: the block and the calls left are the calls given;
    the block has a call when there is one; each call of the block
    overlaps the one in front of it; and the first call left does not
    overlap the last call of the block, whatever earlier call of the
    block it overlaps. *)
Theorem read_next_block_is_longest_chain (calls : list VcfRecord) :
  match read_next_block get_phase_region calls with
  | (block, rest) =>
      calls = block ++ rest
      ∧ (calls ≠ [] → block ≠ [])
      ∧ chained get_phase_region block
      ∧ ∀ a b, last block = Some a → head rest = Some b →
               overlaps (get_phase_region a) (get_phase_region b) = false
  end.
Proof.
  unfold read_next_block, copy_each_first.
  pose proof (read_next_block_loop_spec [] calls) as Hloop.
  destruct (read_next_block_loop get_phase_region [] calls) as [block rest].
  destruct Hloop as (taken & Hblock & Hcalls & Hchain & Hsome & Hnext).
  - intros p Hp. by apply elem_of_nil in Hp.
  - done.
  - simpl in Hblock. rewrite Hblock. split; [done|].
    split; [by apply Hsome|]. split; [by rewrite <- Hblock|].
    by rewrite <- Hblock.
Qed.

End call_blocks.

(** ** The bases and the flags of a record *)

Section record_decoding.
Import RecordDecoding.
Local Open Scope list_scope.
Local Open Scope Z_scope.

Lemma bam_seqi_even byte rest :
  bam_seqi (byte :: rest) 0 = Z.land (Z.shiftr byte 4) 15.
Proof. reflexivity. Qed.

Lemma bam_seqi_odd byte rest :
  bam_seqi (byte :: rest) 1 = Z.land byte 15.
Proof. reflexivity. Qed.

Lemma lnot_parity index : 0 <= index →
  Z.land (Z.lnot (index + 2)) 1 = Z.land (Z.lnot index) 1.
Proof.
  intros Hi. change 1 with (Z.ones 1).
  rewrite (Z.land_ones (Z.lnot (index + 2)) 1) by lia.
  rewrite (Z.land_ones (Z.lnot index) 1) by lia.
  unfold Z.lnot. change (2 ^ 1) with 2.
  replace (Z.pred (- (index + 2))) with (Z.pred (- index) + (-1) * 2) by lia.
  apply Z.mod_add. lia.
Qed.

Lemma bam_seqi_step byte rest index :
  0 <= index → bam_seqi (byte :: rest) (index + 2) = bam_seqi rest index.
Proof.
  intros Hi. unfold bam_seqi. rewrite lnot_parity by done.
  rewrite !(Z.shiftr_div_pow2 _ 1) by lia. change (2 ^ 1) with 2.
  replace ((index + 2) / 2) with (index / 2 + 1)
    by (rewrite <- (Z.div_add index 1 2) by lia; f_equal; lia).
  assert (0 <= index / 2) by (apply Z.div_pos; lia).
  replace (Z.to_nat (index / 2 + 1)) with (S (Z.to_nat (index / 2))) by lia.
  done.
Qed.

Lemma high_code a b :
  is_code a → is_code b → Z.land (Z.shiftr (16 * a + b) 4) 15 = a.
Proof.
  intros Ha Hb. unfold is_code in *.
  rewrite Z.shiftr_div_pow2 by lia. change (2 ^ 4) with 16.
  replace ((16 * a + b) / 16) with a
    by (rewrite Z.add_comm, Z.mul_comm, Z.div_add by lia;
        rewrite Z.div_small by lia; lia).
  change 15 with (Z.ones 4). rewrite Z.land_ones by lia.
  apply Z.mod_small. change (2 ^ 4) with 16. lia.
Qed.

Lemma low_code a b :
  is_code a → is_code b → Z.land (16 * a + b) 15 = b.
Proof.
  intros Ha Hb. unfold is_code in *.
  change 15 with (Z.ones 4). rewrite Z.land_ones by lia. change (2 ^ 4) with 16.
  rewrite Z.add_comm, Z.mul_comm, Z.mod_add by lia. apply Z.mod_small. lia.
Qed.

(** The code read at an index of a packed sequence is the code that
    was packed there. *)
Lemma bam_seqi_pack codes (i : nat) code :
  Forall is_code codes → codes !! i = Some code →
  bam_seqi (pack codes) (Z.of_nat i) = code.
Proof.
  remember (length codes) as n eqn:Hn. revert codes i code Hn.
  induction n as [n IH] using lt_wf_ind. intros codes i code Hn Hall Hi.
  destruct codes as [|a [|b rest]].
  - by rewrite lookup_nil in Hi.
  - apply Forall_cons in Hall as [Ha _].
    destruct i as [|i]; [|by rewrite lookup_cons, lookup_nil in Hi].
    injection Hi as <-. simpl pack. change (Z.of_nat 0) with 0.
    rewrite bam_seqi_even.
    replace (16 * a) with (16 * a + 0) by lia.
    apply high_code; [done|unfold is_code; lia].
  - apply Forall_cons in Hall as [Ha Hall].
    apply Forall_cons in Hall as [Hb Hall].
    simpl pack. destruct i as [|[|i]].
    + injection Hi as <-. change (Z.of_nat 0) with 0.
      rewrite bam_seqi_even. by apply high_code.
    + injection Hi as <-. change (Z.of_nat 1) with 1.
      rewrite bam_seqi_odd. by apply low_code.
    + replace (Z.of_nat (S (S i))) with (Z.of_nat i + 2) by lia.
      rewrite bam_seqi_step by lia.
      apply (IH (length rest)); [simpl in Hn; lia|done|done|done].
Qed.

(** X28.  [get_sequence] unpacks what the BAM format packs: on the
    packed sequence of any base codes (each from 0 to 15) and their
    number, it returns the symbols of the codes, in order. *)
Theorem get_sequence_unpacks (codes : list Z) :
  Forall is_code codes →
  get_sequence (pack codes) (length codes)
  = string_of_list_ascii (symbol <$> codes).
Proof.
  intros Hall. unfold get_sequence. f_equal.
  apply list_eq. intros i. rewrite !list_lookup_fmap.
  destruct (codes !! i) as [code|] eqn:Hi.
  - assert (i < length codes)%nat by (by apply lookup_lt_Some in Hi).
    rewrite lookup_seq_lt by done. simpl.
    unfold get_base. by rewrite (bam_seqi_pack codes i code Hall Hi).
  - apply lookup_ge_None in Hi. by rewrite lookup_seq_ge.
Qed.

Lemma get_sequence_unpacks_witness :
  get_sequence [18; 72; 240] 5 = "ACGTN".
Proof.
  apply (get_sequence_unpacks [1; 2; 4; 8; 15]).
  repeat constructor; unfold is_code; lia.
Defined.

Lemma is_set_testbit flag (k : Z) :
  0 <= k → flag_is_set flag (2 ^ k) = Z.testbit flag k.
Proof.
  intros Hk. unfold flag_is_set.
  destruct (Z.testbit flag k) eqn:Hbit.
  - apply negb_true_iff, Z.eqb_neq. intros Hzero.
    assert (Z.testbit (Z.land flag (2 ^ k)) k = true)
      by (rewrite Z.land_spec, Hbit, Z.pow2_bits_true by lia; done).
    rewrite Hzero, Z.bits_0 in H. discriminate.
  - apply negb_false_iff, Z.eqb_eq. apply Z.bits_inj'. intros n Hn.
    rewrite Z.land_spec, Z.bits_0.
    destruct (Z.eq_dec n k) as [->|Hne].
    + by rewrite Hbit.
    + rewrite Z.pow2_bits_false by lia. apply andb_false_r.
Qed.

Lemma get_flags_bits flag :
  get_flags flag
  = mkFlags (Z.testbit flag 0) (Z.testbit flag 1) (Z.testbit flag 2)
            (Z.testbit flag 4) (Z.testbit flag 6) (Z.testbit flag 7)
            (Z.testbit flag 8) (Z.testbit flag 9) (Z.testbit flag 10)
            (Z.testbit flag 11).
Proof.
  unfold get_flags. f_equal.
  - exact (is_set_testbit flag 0 ltac:(lia)).
  - exact (is_set_testbit flag 1 ltac:(lia)).
  - exact (is_set_testbit flag 2 ltac:(lia)).
  - exact (is_set_testbit flag 4 ltac:(lia)).
  - exact (is_set_testbit flag 6 ltac:(lia)).
  - exact (is_set_testbit flag 7 ltac:(lia)).
  - exact (is_set_testbit flag 8 ltac:(lia)).
  - exact (is_set_testbit flag 9 ltac:(lia)).
  - exact (is_set_testbit flag 10 ltac:(lia)).
  - exact (is_set_testbit flag 11 ltac:(lia)).
Qed.

Lemma get_next_segment_flags_bits flag :
  get_next_segment_flags flag
  = mkNextSegmentFlags (Z.testbit flag 3) (Z.testbit flag 5).
Proof.
  unfold get_next_segment_flags. f_equal.
  - exact (is_set_testbit flag 3 ltac:(lia)).
  - exact (is_set_testbit flag 5 ltac:(lia)).
Qed.

(** X29.  [get_flags] and [get_next_segment_flags] read the twelve low
    bits of the flag of a record, each bit into a field of its own: two
    flags give the same fields exactly when they agree on these bits. *)
Theorem flags_are_the_twelve_low_bits (flag flag' : Z) :
  get_flags flag = get_flags flag'
  ∧ get_next_segment_flags flag = get_next_segment_flags flag'
  ↔ Z.land flag 4095 = Z.land flag' 4095.
Proof.
  rewrite !get_flags_bits, !get_next_segment_flags_bits.
  change 4095 with (Z.ones 12).
  split.
  - intros [Hflags Hnext].
    injection Hflags as H0 H1 H2 H4 H6 H7 H8 H9 H10 H11.
    injection Hnext as H3 H5.
    apply Z.bits_inj'. intros n Hn. rewrite !Z.land_spec.
    destruct (Z.lt_ge_cases n 12) as [Hlt|Hge].
    + rewrite Z.ones_spec_low by lia. rewrite !andb_true_r.
      assert (n = 0 ∨ n = 1 ∨ n = 2 ∨ n = 3 ∨ n = 4 ∨ n = 5 ∨ n = 6 ∨ n = 7
              ∨ n = 8 ∨ n = 9 ∨ n = 10 ∨ n = 11) as Hcases by lia.
      destruct Hcases as [->|[->|[->|[->|[->|[->|[->|[->|[->|[->|[->| ->]]]]]]]]]]];
        assumption.
    + rewrite Z.ones_spec_high by lia. by rewrite !andb_false_r.
  - intros Heq.
    assert (Hbit : ∀ k, 0 <= k < 12 → Z.testbit flag k = Z.testbit flag' k).
    { intros k Hk.
      assert (Z.testbit (Z.land flag (Z.ones 12)) k
              = Z.testbit (Z.land flag' (Z.ones 12)) k) as Hland
        by (by rewrite Heq).
      rewrite !Z.land_spec, Z.ones_spec_low in Hland by lia.
      by rewrite !andb_true_r in Hland. }
    split; f_equal; apply Hbit; lia.
Qed.

End record_decoding.

(** ** The region of a haplotype *)

Section haplotype_region.
Import Region Haplotype HaplotypeRegion.
Local Open Scope list_scope.
Variable reference : GenomicRegion → string.
Variable moved_from : Allele → Allele.

Lemma push_keeps_region contig h c h' :
  region_invariant contig h → on_contig contig c →
  positions_kept moved_from c →
  apply_push reference moved_from h c = Ok h' →
  region_invariant contig h'
  ∧ holds h' (region_ h) ∧ holds h' (allele_region (pushed c)).
Proof.
  intros (Hwh & Hch & Hall) [Hwa Hca] [Hkb Hke] Hpush.
  assert (Hgrow : ∀ neighbour (intervening alleles : list Allele),
            (∀ x, x ∈ intervening →
               ∃ lhs rhs, x = get_intervening_reference_allele reference lhs rhs
                 ∧ (lhs = neighbour ∧ rhs = pushed c
                    ∨ lhs = pushed c ∧ rhs = neighbour)
                 ∧ neighbour ∈ explicit_alleles_ h
                 ∧ (region_end (allele_region lhs)
                    <= region_begin (allele_region rhs))%N) →
            (∀ x, x ∈ alleles →
               x = pushed c ∨ x ∈ intervening ∨ x ∈ explicit_alleles_ h) →
            h' = mkHaplotype
                   (get_encompassing (region_ h)
                      (allele_region
                         (after_forward moved_from (category c) (pushed c))))
                   alleles "" 0 →
            region_invariant contig h'
            ∧ holds h' (region_ h) ∧ holds h' (allele_region (pushed c))).
  { intros neighbour intervening alleles Hint Halleles ->.
    unfold region_invariant, holds, get_encompassing, well_formed in *.
    simpl. rewrite Hkb, Hke.
    split; [|by repeat split; try congruence; lia].
    split; [lia|]. split; [done|].
    intros x Hx. apply Halleles in Hx as [->|[Hx|Hx]].
    - repeat split; try congruence; lia.
    - destruct (Hint x Hx) as (lhs & rhs & -> & Hwho & Hn & Hle).
      destruct (Hall neighbour Hn) as (Hwn & Hcn & Hbn & Hen).
      unfold get_intervening_reference_allele, get_intervening. simpl.
      destruct Hwho as [[-> ->]|[-> ->]]; repeat split; try congruence; lia.
    - destruct (Hall x Hx) as (Hwx & Hcx & Hbx & Hex).
      repeat split; try done; lia. }
  destruct c as [T a|T a]; simpl in *.
  - destruct (last (explicit_alleles_ h)) as [back|] eqn:Hlast.
    + destruct (is_after (allele_region a) (allele_region back)) eqn:Hafter;
        [|by rewrite (push_back_throw reference moved_from _ _ _ _ Hlast Hafter)
             in Hpush].
      rewrite (push_back_ok reference moved_from h T a) in Hpush by (by rewrite Hlast, Hafter).
      rewrite Hlast in Hpush. injection Hpush as <-.
      apply is_after_inv in Hafter as (_ & Hle & _).
      assert (Hback : back ∈ explicit_alleles_ h).
      { apply last_Some in Hlast as [l' Hl']. rewrite Hl'.
        apply elem_of_app. right. by left. }
      eapply (Hgrow back
                (if are_adjacent (allele_region back) (allele_region a) then []
                 else [get_intervening_reference_allele reference back a]));
        [| |reflexivity].
      * intros x Hx. destruct (are_adjacent _ _); [by apply elem_of_nil in Hx|].
        apply list_elem_of_singleton in Hx as ->.
        exists back, a. split; [done|]. split; [by left|]. by split.
      * intros x Hx. rewrite ?elem_of_cons, ?elem_of_app, ?elem_of_cons, ?elem_of_nil in Hx.
        rewrite ?elem_of_nil. tauto.
    + rewrite (push_back_ok reference moved_from h T a) in Hpush by (by rewrite Hlast).
      rewrite Hlast in Hpush. injection Hpush as <-.
      eapply (Hgrow a []); [| |reflexivity].
      * intros x Hx. by apply elem_of_nil in Hx.
      * intros x Hx. rewrite ?elem_of_cons, ?elem_of_app, ?elem_of_cons, ?elem_of_nil in Hx.
        rewrite ?elem_of_nil. tauto.
  - destruct (head (explicit_alleles_ h)) as [front|] eqn:Hhead.
    + destruct (is_after (allele_region front) (allele_region a)) eqn:Hafter;
        [|by rewrite (push_front_throw reference moved_from _ _ _ _ Hhead Hafter)
             in Hpush].
      rewrite (push_front_ok reference moved_from h T a) in Hpush
        by (by rewrite Hhead, Hafter).
      rewrite Hhead in Hpush. injection Hpush as <-.
      apply is_after_inv in Hafter as (_ & Hle & _).
      assert (Hfront : front ∈ explicit_alleles_ h).
      { destruct (explicit_alleles_ h); [discriminate|].
        injection Hhead as ->. by left. }
      eapply (Hgrow front
                (if are_adjacent (allele_region a) (allele_region front) then []
                 else [get_intervening_reference_allele reference a front]));
        [| |reflexivity].
      * intros x Hx. destruct (are_adjacent _ _); [by apply elem_of_nil in Hx|].
        apply list_elem_of_singleton in Hx as ->.
        exists a, front. split; [done|]. split; [by right|]. by split.
      * intros x Hx. rewrite ?elem_of_cons, ?elem_of_app, ?elem_of_cons, ?elem_of_nil in Hx.
        rewrite ?elem_of_nil. tauto.
    + rewrite (push_front_ok reference moved_from h T a) in Hpush by (by rewrite Hhead).
      rewrite Hhead in Hpush. injection Hpush as <-.
      eapply (Hgrow a []); [| |reflexivity].
      * intros x Hx. by apply elem_of_nil in Hx.
      * intros x Hx. rewrite ?elem_of_cons, ?elem_of_app, ?elem_of_cons, ?elem_of_nil in Hx.
        rewrite ?elem_of_nil. tauto.
Qed.

Lemma holds_trans h h' region :
  holds h' (region_ h) → holds h region → holds h' region.
Proof. unfold holds. intros (? & ? & ?) (? & ? & ?). repeat split; [congruence|lia..]. Qed.

Lemma run_keeps_region contig calls h h' :
  region_invariant contig h → Forall (on_contig contig) calls →
  Forall (positions_kept moved_from) calls →
  run reference moved_from calls h = Ok h' →
  region_invariant contig h'
  ∧ holds h' (region_ h)
  ∧ ∀ c, c ∈ calls → holds h' (allele_region (pushed c)).
Proof.
  intros Hinv Hcalls. revert h Hinv.
  induction Hcalls as [|c calls Hc _ IH]; intros h Hinv Hkept; simpl.
  { intros [= <-]. split; [done|]. split.
    - destruct Hinv as (Hw & _ & _). unfold holds. repeat split; lia.
    - intros c Hc. by apply elem_of_nil in Hc. }
  apply Forall_cons in Hkept as [Hk Hkept].
  destruct (apply_push reference moved_from h c) as [h1|e] eqn:Hstep;
    [|discriminate].
  simpl. intros Hrun.
  destruct (push_keeps_region contig h c h1 Hinv Hc Hk Hstep)
    as (Hinv1 & Hold & Hnew).
  destruct (IH h1 Hinv1 Hkept Hrun) as (Hinv' & Hold' & Hall').
  split; [done|]. split; [by eapply holds_trans|].
  intros x Hx. apply elem_of_cons in Hx as [->|Hx]; [|by apply Hall'].
  by eapply holds_trans.
Qed.

(** X30.  The region of a haplotype holds what was put into it, when
    every call reads its argument with the positions of the allele
    pushed: the argument was an lvalue, or an rvalue that the move leaves
    with these positions.  After any run of such calls of [push_back] and
    [push_front] that throws nothing, from a fresh haplotype on a
    well-formed region and on alleles with well-formed regions of its
    contig, the region of the haplotype is well formed and holds the
    region it was made on, the region of every allele pushed, and the
    region of every explicit allele, the reference alleles of the gaps
    among them. *)
Theorem haplotype_region_holds_alleles (region : GenomicRegion)
    (calls : list push) (h : Haplotype) :
  well_formed region →
  Forall (on_contig (contig_name region)) calls →
  Forall (positions_kept moved_from) calls →
  run reference moved_from calls (make_haplotype region) = Ok h →
  well_formed (region_ h)
  ∧ holds h region
  ∧ (∀ c, c ∈ calls → holds h (allele_region (pushed c)))
  ∧ ∀ a, a ∈ explicit_alleles_ h → holds h (allele_region a).
Proof.
  intros Hwr Hcalls Hkept Hrun.
  destruct (run_keeps_region (contig_name region) calls (make_haplotype region) h)
    as ((Hw & Hc & Hall) & Hold & Hpushed); [|done|done|done|].
  { split; [done|]. split; [done|]. intros a Ha. by apply elem_of_nil in Ha. }
  split; [done|]. split; [done|]. split; [done|].
  intros a Ha. by apply Hall.
Qed.

End haplotype_region.

(** The theorem at three calls, the second one with an rvalue, and a
    move that leaves the strings of the allele empty. *)
Lemma haplotype_region_holds_alleles_witness :
  ∃ h, Haplotype.run Haplotype.poly_A Haplotype.strings_emptied
         Haplotype.three_calls
         (Haplotype.make_haplotype (Region.mkRegion "chr1" 104 107)) = Ok h
       ∧ Haplotype.region_ h = Region.mkRegion "chr1" 100 110
       ∧ HaplotypeRegion.holds h (Region.mkRegion "chr1" 104 107).
Proof.
  eexists. split; [vm_compute; reflexivity|]. split; [reflexivity|].
  eapply (proj1 (proj2 (haplotype_region_holds_alleles Haplotype.poly_A
                          Haplotype.strings_emptied
                          (Region.mkRegion "chr1" 104 107)
                          Haplotype.three_calls _ _ _ _ _))).
  Unshelve.
  - unfold Region.well_formed. simpl. lia.
  - repeat constructor; unfold Region.well_formed; simpl; lia.
  - repeat constructor.
  - vm_compute. reflexivity.
Defined.
